(** * Embedding cache and analogy-vector search engine

    A shallow embedding of the server of the functional-translation
    explorer.  Two variants of the server are in the repository:
    [src/server/index.js] (module [ServerIndex] below) and
    [src/unnamed/part_002] (module [Part002]).  The helpers the two files
    share verbatim ([normalizeVec], [dot], [getRow], [wordsToTexts],
    [embedMany], [loadVocab], [topKSimilar]) are embedded once. *)

From Stdlib Require Import ZArith String Ascii List Bool Arith Lia.
From Stdlib Require Import Permutation Sorted.
From Stdlib Require Import Floats.SpecFloat.
From Stdlib Require Reals Lra.
Import ListNotations.

Set Warnings "-register-all".
Local Open Scope string_scope.
Local Open Scope list_scope.
Local Open Scope nat_scope.

(** ** Numbers

    The server computes on JavaScript numbers (IEEE 754 binary64) and stores
    vectors in [Float32Array]s, so that every store rounds to binary32.  The
    code is embedded over an interface of the operations it uses; two
    instances follow: [IEEE.arith], the floating-point arithmetic the program
    runs on, and [Exact.arith], exact real arithmetic. *)

Class Arith : Type := {
  num : Type;
  (** the number an [undefined] operand turns an arithmetic result into *)
  nan : num;
  zero : num;
  one : num;
  add : num -> num -> num;
  sub : num -> num -> num;
  mul : num -> num -> num;
  div : num -> num -> num;
  sqrt : num -> num;
  (** the rounding of a store into a [Float32Array] ([Math.fround]) *)
  fround : num -> num;
  of_nat : nat -> num;
  (** [Lt] for a negative number, [Gt] for a positive one, [Eq] for
      [0], [-0] and [NaN] *)
  sign : num -> comparison;
  (** [x <= y] on numbers: false as soon as one side is [NaN] *)
  leb : num -> num -> bool;
  isFinite : num -> bool;
  one_positive : sign one = Gt
}.

Section Helpers.
Context {A : Arith}.

(** [ToBoolean] on a number: [0], [-0] and [NaN] are falsy. *)
Definition truthy (x : num) : bool :=
  match sign x with Eq => false | _ => true end.

(** [a || b] on numbers. *)
Definition or_else (a b : num) : num := if truthy a then a else b.

(** The first loop of [normalizeVec]: [s += vec[i] * vec[i]]. *)
Definition sumsq (vec : list num) : num :=
  fold_left (fun s x => add s (mul x x)) vec zero.

(** [Math.sqrt(s) || 1] *)
Definition normOf (vec : list num) : num := or_else (sqrt (sumsq vec)) one.

Definition normalizeVec (vec : list num) : list num :=
  let norm := normOf vec in
  map (fun x => fround (div x norm)) vec.

(** [dot(a, b)]: the loop runs over [a]; an index past the end of [b]
    reads [undefined], and the product is [NaN]. *)
Fixpoint dot_loop (a b : list num) (s : num) : num :=
  match a with
  | [] => s
  | x :: a' => dot_loop a' (tl b) (add s (mul x (hd nan b)))
  end.

Definition dot (a b : list num) : num := dot_loop a b zero.

(** [ta.subarray(start, end)]: both ends are clamped to the array. *)
Definition subarray (ta : list num) (start stop : nat) : list num :=
  firstn (stop - start) (skipn start ta).
End Helpers.

(** ** The arithmetic of the program: binary64 with binary32 stores *)

Module IEEE.
Definition f64 (m e : Z) : spec_float := binary_normalize 53 1024 m e false.

Definition canon64 (x : spec_float) : spec_float :=
  match x with
  | S754_finite s m e => binary_normalize 53 1024 (cond_Zopp s (Zpos m)) e s
  | _ => x
  end.

Definition round32 (x : spec_float) : spec_float :=
  match x with
  | S754_finite s m e => binary_normalize 24 128 (cond_Zopp s (Zpos m)) e s
  | _ => x
  end.

Definition sign64 (x : spec_float) : comparison :=
  match SFcompare x (S754_zero false) with
  | Some c => c
  | None => Eq
  end.

Definition finite64 (x : spec_float) : bool :=
  match x with
  | S754_zero _ | S754_finite _ _ _ => true
  | _ => false
  end.

#[export] Instance arith : Arith := {|
  num := spec_float;
  nan := S754_nan;
  zero := S754_zero false;
  one := f64 1 0;
  add := SFadd 53 1024;
  sub := SFsub 53 1024;
  mul := SFmul 53 1024;
  div := SFdiv 53 1024;
  sqrt := SFsqrt 53 1024;
  fround := fun x => canon64 (round32 x);
  of_nat := fun n => f64 (Z.of_nat n) 0;
  sign := sign64;
  leb := SFleb;
  isFinite := finite64;
  one_positive := eq_refl
|}.

(** An integer as a number. *)
Definition int (z : Z) : spec_float := f64 z 0.
End IEEE.

(** ** Exact arithmetic: the real numbers, where a store rounds nothing *)

Module Exact.
Import Reals.
Local Open Scope R_scope.

Definition Rsign (x : R) : comparison :=
  match total_order_T x 0 with
  | inleft (left _) => Lt
  | inleft (right _) => Eq
  | inright _ => Gt
  end.

Definition Rleb (x y : R) : bool := if Rle_dec x y then true else false.

#[export] Instance arith : Arith.
Proof.
  refine (Build_Arith R 0 0 1 Rplus Rminus Rmult Rdiv R_sqrt.sqrt (fun x => x)
            INR Rsign Rleb (fun _ => true) _).
  unfold Rsign. destruct (total_order_T 1 0) as [[H|H]|H].
  - exfalso. apply (Rlt_irrefl 0), (Rlt_trans 0 1 0); [apply Rlt_0_1|exact H].
  - exfalso. exact (R1_neq_R0 H).
  - reflexivity.
Defined.
End Exact.

(** ** The real numbers the floats denote

    What the numbers of [IEEE.arith] stand for, to say how far from [1] the
    norm of a stored row is: the magnitude and the value of a [spec_float],
    the Euclidean norm of a vector of them, and the constants of the error
    analysis of [normalizeVec]. *)

Module FloatValue.
Import Reals.
Local Open Scope R_scope.

Definition pow2 (e : Z) : R := powerRZ 2 e.

(** [|x|] for a finite [x], [0] for the others. *)
Definition magnitude (x : spec_float) : R :=
  match x with
  | S754_finite s m e => IZR (Zpos m) * pow2 e
  | _ => 0
  end.

Definition valueOf (x : spec_float) : R :=
  match x with
  | S754_finite s m e => (if s then -1 else 1) * (IZR (Zpos m) * pow2 e)
  | _ => 0
  end.

Definition signOf (x : spec_float) : bool :=
  match x with
  | S754_zero s | S754_finite s _ _ | S754_infinity s => s
  | S754_nan => false
  end.

Definition isZero (x : spec_float) : bool :=
  match x with
  | S754_zero _ => true
  | _ => false
  end.

(** The sum of the squares of the numbers in [l], and their Euclidean
    norm. *)
Definition sumsqR (l : list spec_float) : R :=
  fold_right (fun x s => magnitude x * magnitude x + s) 0 l.

Definition euclid (v : list spec_float) : R :=
  sqrt (fold_right (fun x s => valueOf x * valueOf x + s) 0 v).

(** A zero, or a finite number as large as a binary32 number that is not
    zero: at least [2^-149] and less than [2^128].  The elements of a
    [Float32Array] other than [NaN] and the infinities are so. *)
Definition binary32 (x : spec_float) : bool :=
  match x with
  | S754_zero _ => true
  | S754_finite _ m e =>
      (-148 <=? Zpos (digits2_pos m) + e)%Z && (Zpos (digits2_pos m) + e <=? 128)%Z
  | _ => false
  end.

(** [sumsq] in [IEEE.arith], and the entry [normalizeVec] stores for [x]
    under the norm [nrm], written out. *)
Definition sumsq64 (v : list spec_float) : spec_float :=
  fold_left (fun s x => SFadd 53 1024 s (SFmul 53 1024 x x)) v (S754_zero false).

Definition stored (x nrm : spec_float) : spec_float :=
  IEEE.canon64 (IEEE.round32 (SFdiv 53 1024 x nrm)).

(** Where a real number [x] lies between the integers [m] and [m + 1], as
    the rounding functions of [SpecFloat] record it: on [m], or strictly
    between the two, below, on or above the middle. *)
Definition inb (m : Z) (l : location) (x : R) : Prop :=
  match l with
  | loc_Exact => x = IZR m
  | loc_Inexact c =>
      IZR m < x < IZR m + 1 /\
      match c with
      | Lt => x < IZR m + / 2
      | Eq => x = IZR m + / 2
      | Gt => IZR m + / 2 < x
      end
  end.

Definition inbr (mrs : shr_record) (x : R) : Prop :=
  inb (shr_m mrs) (loc_of_shr_record mrs) x.

(** The relative error of one binary64 operation away from underflow,
    of [k] of them in a row, and of a sum of up to [2^20] squares. *)
Definition delta : R := pow2 (-52).
Definition growth (k : nat) : R := (1 + delta) ^ k.
Definition decay (k : nat) : R := (1 - delta) ^ k.
Definition gamma : R := pow2 (-29).

(** The square of the computed norm over the sum of the squares lies
    between [lowF] and [uppF]. *)
Definition lowF : R := (1 - gamma) * ((1 - delta) * (1 - delta)).
Definition uppF : R := (1 + gamma) * ((1 + delta) * (1 + delta)).

(** The relative and the absolute error of a store into a
    [Float32Array], and the factors of a division followed by a store. *)
Definition eps : R := pow2 (-23).
Definition eta32 : R := pow2 (-149).
Definition cplus : R := (1 + delta) * (1 + eps).
Definition cminus : R := (1 - delta) * (1 - eps).

(** How far from [1] the norm of a normalised row may be, and a vector
    whose norm is [1] up to that. *)
Definition tolerance : R := / 1000000.

Definition unitNorm (v : list spec_float) : Prop :=
  Rabs (euclid v - 1) <= tolerance.

(** A vector whose norm is at most [1], up to the tolerance; a number
    that is finite and at most [1] in magnitude, up to four times the
    tolerance. *)
Definition atMostUnit (v : list spec_float) : Prop :=
  euclid v <= 1 + tolerance.

Definition nearUnitInterval (x : spec_float) : Prop :=
  IEEE.finite64 x = true /\ Rabs (valueOf x) <= 1 + 4 * tolerance.

(** The sum of the [|a[i]| * |b[i]|] of a dot product. *)
Fixpoint absdotR (a b : list spec_float) : R :=
  match a, b with
  | x :: a', y :: b' => magnitude x * magnitude y + absdotR a' b'
  | _, _ => 0
  end.
End FloatValue.

(** ** JavaScript values, sets and exceptions *)

(** The values a JSON request body is made of ([JUndefined] for a missing
    member). *)
Inductive jsval : Type :=
| JUndefined
| JNull
| JBool (b : bool)
| JNumber (z : Z)
| JString (s : string)
| JArray (items : list jsval)
| JObject.

(** [typeof v === 'string'] *)
Definition isString (v : jsval) : bool :=
  match v with JString _ => true | _ => false end.

(** SameValueZero, the equality of [Set]: primitives by value; the arrays
    and objects of a parsed body are distinct references, equal to nothing
    else. *)
Definition sameValueZero (u v : jsval) : bool :=
  match u, v with
  | JUndefined, JUndefined => true
  | JNull, JNull => true
  | JBool a, JBool b => Bool.eqb a b
  | JNumber a, JNumber b => Z.eqb a b
  | JString a, JString b => String.eqb a b
  | _, _ => false
  end.

(** A [Set] is its members in insertion order. *)
Definition JSSet : Type := list jsval.

Definition set_has (s : JSSet) (v : jsval) : bool :=
  existsb (sameValueZero v) s.

Definition set_add (s : JSSet) (v : jsval) : JSSet :=
  if set_has s v then s else s ++ [v].

(** [new Set(items)] *)
Definition set_of (items : list jsval) : JSSet := fold_left set_add items [].

Definition set_size (s : JSSet) : nat := length s.

Inductive exn : Type :=
| TypeError (msg : string)
| RangeError (msg : string)
| SyntaxError (msg : string)
| Error (msg : string).

Inductive result (T : Type) : Type :=
| Ok (v : T)
| Throw (e : exn).
Arguments Ok {T} v.
Arguments Throw {T} e.

Definition bind {T U : Type} (r : result T) (f : T -> result U) : result U :=
  match r with
  | Ok v => f v
  | Throw e => Throw e
  end.

Definition result_map {T U : Type} (f : T -> U) (r : result T) : result U :=
  match r with
  | Ok v => Ok (f v)
  | Throw e => Throw e
  end.

Declare Scope result_scope.
Delimit Scope result_scope with result.
Notation "'let*' x ':=' r 'in' k" := (bind r (fun x => k))
  (at level 61, x name, r at next level, right associativity) : result_scope.
Local Open Scope result_scope.

Fixpoint mapM {T U : Type} (f : T -> result U) (l : list T) : result (list U) :=
  match l with
  | [] => Ok []
  | x :: l' =>
      let* y := f x in
      let* ys := mapM f l' in
      Ok (y :: ys)
  end.

(** ** The globals of the server and the neighbour search *)

Section Search.
Context {A : Arith}.

(** The module-level [let] bindings.  [embedder] records whether the
    pipeline has been loaded; [matrix] is [None] for [null]. *)
Record state : Type := mkState {
  embedder : bool;
  vocab : list string;
  dim : nat;
  matrix : option (list num);
  normalized : bool
}.

(** [getRow(i)]: [matrix.subarray] throws on a [null] matrix. *)
Definition getRow (st : state) (i : nat) : result (list num) :=
  match matrix st with
  | None => Throw (TypeError "Cannot read properties of null (reading 'subarray')")
  | Some m => let start := i * dim st in Ok (subarray m start (start + dim st))
  end.

(** [Array.prototype.sort] is stable and calls [comparefn(x, y)]; a
    negative result puts [x] first.  The element being placed is compared
    with the elements already in order, as a binary-insertion pass does. *)
Fixpoint sort_insert {T : Type} (comparefn : T -> T -> num) (pivot : T)
    (sorted : list T) : list T :=
  match sorted with
  | [] => [pivot]
  | e :: rest =>
      match sign (comparefn pivot e) with
      | Lt => pivot :: e :: rest
      | _ => e :: sort_insert comparefn pivot rest
      end
  end.

Definition array_sort {T : Type} (comparefn : T -> T -> num) (l : list T) : list T :=
  fold_left (fun sorted pivot => sort_insert comparefn pivot sorted) l [].

Record neighbor : Type := mkNeighbor {
  word : string;
  score : num;
  index : nat
}.

Definition DEFAULT_K : Z := 200.

(** [(a, b) => sims[b] - sims[a]] *)
Definition bySimDesc (sims : list num) (a b : nat) : num :=
  sub (nth b sims nan) (nth a sims nan).

(** The result loop of [topKSimilar]: an excluded word is skipped, any
    other is pushed, and the loop breaks once [res.length >= k]. *)
Fixpoint collect (voc : list string) (sims : list num) (k : Z) (exclude : JSSet)
    (idxs : list nat) (res : list neighbor) : list neighbor :=
  match idxs with
  | [] => res
  | i :: rest =>
      let w := nth i voc "" in
      if set_has exclude (JString w) then collect voc sims k exclude rest res
      else
        let res' := res ++ [mkNeighbor w (nth i sims nan) i] in
        if (Z.of_nat (length res') >=? k)%Z then res'
        else collect voc sims k exclude rest res'
  end.

Definition topKSimilar (st : state) (targetVec : list num) (k : Z)
    (exclude : JSSet) : result (list neighbor) :=
  let q := if normalized st then normalizeVec targetVec else targetVec in
  let* sims := mapM (fun i => let* row := getRow st i in Ok (fround (dot row q)))
                    (seq 0 (length (vocab st))) in
  let idxs := array_sort (bySimDesc sims) (seq 0 (length sims)) in
  Ok (collect (vocab st) sims k exclude idxs []).

(** The scores the first loop of [topKSimilar] stores in [sims]. *)
Definition simsOf (st : state) (m : list num) (targetVec : list num) : list num :=
  let q := if normalized st then normalizeVec targetVec else targetVec in
  map (fun i => fround (dot (subarray m (i * dim st) (i * dim st + dim st)) q))
      (seq 0 (length (vocab st))).

(** The vocabulary rows a search may return. *)
Definition allowed (exclude : JSSet) (w : string) : bool :=
  negb (set_has exclude (JString w)).

Definition entry (voc : list string) (sims : list num) (i : nat) : neighbor :=
  mkNeighbor (nth i voc "") (nth i sims nan) i.

(** [comparefn] is consistent on the scores: its sign agrees with [<=],
    which is transitive there.  It is so when no score is [NaN]. *)
Definition consistentOn (sims : list num) : Prop :=
  (forall x y, In x sims -> In y sims -> sign (sub x y) = Lt -> leb x y = true) /\
  (forall x y, In x sims -> In y sims -> sign (sub x y) <> Lt -> leb y x = true) /\
  (forall x y z, In x sims -> In y sims -> In z sims ->
                 leb x y = true -> leb y z = true -> leb x z = true).

(** Row [a] may stand before row [b]. *)
Definition desc (sims : list num) (a b : nat) : Prop :=
  leb (nth b sims nan) (nth a sims nan) = true.

(** Scores do not increase along a result. *)
Definition nonIncreasing (res : list neighbor) : Prop :=
  StronglySorted (fun n1 n2 => leb (score n2) (score n1) = true) res.

(** A member of the exclusion set that is a vocabulary word. *)
Definition inVocab (voc : list string) (v : jsval) : bool :=
  match v with
  | JString w => existsb (String.eqb w) voc
  | _ => false
  end.
End Search.

(** ** The collaborators: embedding pipeline, PCA library, cache files *)

Section Server.
Context {A : Arith}.

(** What the [@xenova/transformers] pipeline may hand back for one item:
    an object with a [data] member (a [Float32Array] or not), a bare
    [Float32Array], a plain array, or anything else. *)
Inductive item : Type :=
| Tensor (isF32 : bool) (data : list num)
| F32 (v : list num)
| Plain (v : list num)
| Unusable.

(** The output for a batch: an array of items, or one value that is not
    an array. *)
Inductive pipe_out : Type :=
| OutArray (items : list item)
| OutTensor (isF32 : bool) (data : list num)
| OutF32 (v : list num)
| OutUnusable.

(** An instance of [ml-pca]. *)
Record pca_model : Type := mkPca {
  predict : list (list num) -> nat -> result (list (list num));
  getExplainedVariance : result (list num)
}.

(** [meta.json] as [JSON.parse] sees it. *)
Record meta : Type := mkMeta {
  meta_n : nat;
  meta_dim : nat;
  meta_normalized : bool;
  meta_signature : string
}.

Inductive meta_file : Type :=
| MetaUnparsable
| MetaNull
| MetaNoSignature
| MetaRecord (r : meta).

(** The files the server reads and writes; [None] for a path that does
    not exist.  The blob is held as the floats its bytes encode. *)
Record disk : Type := mkDisk {
  vocabFile : option string;
  metaFile : option meta_file;
  binFile : option (list num)
}.

(** Configuration and collaborators. *)
Record env : Type := mkEnv {
  MODEL_ID : string;
  BATCH_SIZE : positive;
  hashJSON : string -> nat -> list string -> string -> string;
  (** [pipeline('feature-extraction', ...)]: [Some e] when it rejects *)
  pipeline : option exn;
  (** the length of the output for ['test'] *)
  probe : result nat;
  pipe : list jsval -> result pipe_out;
  PCA : list (list num) -> result pca_model
}.

Record world : Type := mkWorld {
  globals : state;
  files : disk
}.

(** Computations that read and assign the globals and the files, and may
    throw: an assignment made before a throw stays. *)
Definition M (T : Type) : Type := world -> result T * world.

Definition ret {T : Type} (v : T) : M T := fun w => (Ok v, w).
Definition throw {T : Type} (e : exn) : M T := fun w => (Throw e, w).
Definition lift {T : Type} (r : result T) : M T := fun w => (r, w).
Definition bindM {T U : Type} (c : M T) (f : T -> M U) : M U :=
  fun w => match c w with
           | (Ok v, w') => f v w'
           | (Throw e, w') => (Throw e, w')
           end.
Definition get : M state := fun w => (Ok (globals w), w).
Definition put (st : state) : M unit := fun w => (Ok tt, mkWorld st (files w)).
Definition getDisk : M disk := fun w => (Ok (files w), w).
Definition putDisk (d : disk) : M unit := fun w => (Ok tt, mkWorld (globals w) d).

Definition set_embedder (b : bool) (st : state) : state :=
  mkState b (vocab st) (dim st) (matrix st) (normalized st).
Definition set_vocab (v : list string) (st : state) : state :=
  mkState (embedder st) v (dim st) (matrix st) (normalized st).
Definition set_dim (d : nat) (st : state) : state :=
  mkState (embedder st) (vocab st) d (matrix st) (normalized st).
Definition set_matrix (m : list num) (st : state) : state :=
  mkState (embedder st) (vocab st) (dim st) (Some m) (normalized st).
Definition set_normalized (b : bool) (st : state) : state :=
  mkState (embedder st) (vocab st) (dim st) (matrix st) b.

Definition modify (f : state -> state) : M unit :=
  fun w => (Ok tt, mkWorld (f (globals w)) (files w)).
End Server.

Declare Scope server_scope.
Delimit Scope server_scope with server.
Notation "x <- c ;; k" := (bindM c (fun x => k))
  (at level 61, c at next level, right associativity) : server_scope.
Notation "c ;;; k" := (bindM c (fun _ => k))
  (at level 61, right associativity) : server_scope.

Section Embedding.
Context {A : Arith}.
Local Open Scope server_scope.

(** ** Strings: [includes], [replaceAll], [split], [trim] *)

Fixpoint prefix_rest (p s : string) : option string :=
  match p, s with
  | EmptyString, _ => Some s
  | String a p', String b s' =>
      if Ascii.eqb a b then prefix_rest p' s' else None
  | String _ _, EmptyString => None
  end.

Fixpoint includes (s pat : string) : bool :=
  match prefix_rest pat s with
  | Some _ => true
  | None => match s with
            | EmptyString => false
            | String _ s' => includes s' pat
            end
  end.

(** [s.replaceAll(pat, by)] for a non-empty [pat]; [by] is taken
    literally (a word with a [$] replacement pattern is not expanded). *)
Fixpoint replaceAll_fuel (fuel : nat) (s pat by_ : string) : string :=
  match fuel with
  | 0 => s
  | S fuel' =>
      match s with
      | EmptyString => EmptyString
      | String c s' =>
          match prefix_rest pat s with
          | Some rest => by_ ++ replaceAll_fuel fuel' rest pat by_
          | None => String c (replaceAll_fuel fuel' s' pat by_)
          end
      end
  end%string.

Definition replaceAll (s pat by_ : string) : string :=
  replaceAll_fuel (S (String.length s)) s pat by_.

Definition wordsToTexts (words : list string) (template : string) : list string :=
  map (fun w => if includes template "{w}" then replaceAll template "{w}" w else w)
      words.
End Embedding.

Section Cache.
Context {A : Arith}.
Local Open Scope server_scope.

Definition ensureEmbedder (e : env) : M unit :=
  st <- get ;;
  if embedder st then ret tt
  else match pipeline e with
       | Some err => throw err
       | None =>
           modify (set_embedder true) ;;;
           d <- lift (probe e) ;;
           modify (set_dim d)
       end.

(** [toVec]: [None] for [null]; [Float32Array.from] rounds each entry. *)
Definition toVec (x : item) : option (list num) :=
  match x with
  | Tensor true data => Some data
  | Tensor false data => Some (map fround data)
  | F32 v => Some v
  | Plain v => Some (map fround v)
  | Unusable => None
  end.

Definition isNull {T : Type} (v : option T) : bool :=
  match v with None => true | Some _ => false end.

Definition present {T : Type} (l : list (option T)) : list T :=
  flat_map (fun v => match v with Some x => [x] | None => [] end) l.

(** [Math.round(len / d)] for a positive [d]. *)
Definition round_div (len d : nat) : nat := (2 * len + d) / (2 * d).

Definition embedMany (e : env) (texts : list jsval) : M (list (list num)) :=
  ensureEmbedder e ;;;
  out <- lift (pipe e texts) ;;
  let single (x : item) : M (list (list num)) :=
    match toVec x with
    | None => throw (Error "Unexpected embedding output (tensor case)")
    | Some vec =>
        st <- get ;;
        if dim st =? 0 then throw (Error "Embedding dimension not initialized")
        else
          let n := round_div (length vec) (dim st) in
          if negb (n * dim st =? length vec) then ret [vec]
          else if n =? 1 then ret [vec]
          else ret (map (fun i => subarray vec (i * dim st) ((i + 1) * dim st))
                        (seq 0 n))
    end in
  match out with
  | OutArray items =>
      let vecs := map toVec items in
      if existsb isNull vecs
      then throw (Error "Unexpected embedding output (array case)")
      else ret (present vecs)
  | OutTensor isF32 data => single (Tensor isF32 data)
  | OutF32 v => single (F32 v)
  | OutUnusable => single Unusable
  end.

(** *** The vocabulary *)

Definition LF : ascii := ascii_of_nat 10.
Definition CR : ascii := ascii_of_nat 13.

(** [raw.split(/\r?\n/)], with the line being read in [cur]. *)
Fixpoint split_lines (cur s : string) : list string :=
  match s with
  | EmptyString => [cur]
  | String c s' =>
      if Ascii.eqb c LF then cur :: split_lines "" s'
      else
        match s' with
        | String c' s'' =>
            if Ascii.eqb c CR && Ascii.eqb c' LF then cur :: split_lines "" s''
            else split_lines (cur ++ String c "") s'
        | EmptyString => [cur ++ String c ""]
        end
  end%string.

Definition isSpace (c : ascii) : bool :=
  let n := nat_of_ascii c in (n =? 32) || ((9 <=? n) && (n <=? 13)).

Fixpoint trimStart (s : string) : string :=
  match s with
  | String c s' => if isSpace c then trimStart s' else s
  | EmptyString => EmptyString
  end.

Fixpoint trimEnd (s : string) : string :=
  match s with
  | String c s' =>
      match trimEnd s' with
      | EmptyString => if isSpace c then EmptyString else String c EmptyString
      | t => String c t
      end
  | EmptyString => EmptyString
  end.

Definition trim (s : string) : string := trimEnd (trimStart s).

(** [Array.from(new Set(lines))]: the first occurrence of a line stays. *)
Definition dedupe (lines : list string) : list string :=
  fold_left (fun seen w => if existsb (String.eqb w) seen then seen else seen ++ [w])
            lines [].

Definition fallbackVocab : list string :=
  ["garden"; "gardening"; "belief"; "believing"; "fight"; "fighting";
   "run"; "running"; "walk"; "walking"; "play"; "playing"; "think"; "thinking";
   "write"; "writing"; "drive"; "driving"; "code"; "coding"; "swim"; "swimming";
   "invent"; "inventing"; "create"; "creating"; "design"; "designing"; "build";
   "building"; "teacher"; "student"; "pilot"; "sailor"; "engineer"; "scientist";
   "company"; "market"; "product"; "prototype"; "research"; "energy"; "health";
   "transportation"; "data"; "model"; "language"; "word"; "verb"; "noun";
   "adjective"; "adverb"; "plural"; "past"; "future"; "fast"; "faster";
   "fastest"; "smart"; "smarter"; "smartest"; "happy"; "happier"; "happiest";
   "good"; "better"; "best"; "bad"; "worse"; "worst"; "large"; "larger";
   "largest"; "dog"; "dogs"; "cat"; "cats"; "city"; "cities"; "child";
   "children"; "mouse"; "mice"].

(** [loadVocab], on a file system that answers every read: the file is
    read whenever its path exists.  The read that is refused is in
    [loadVocabIO] below. *)
Definition loadVocab : M unit :=
  d <- getDisk ;;
  match vocabFile d with
  | Some raw =>
      let lines := filter (fun x => negb (String.eqb x ""))
                          (map trim (split_lines "" raw)) in
      modify (set_vocab (dedupe lines))
  | None => modify (set_vocab fallbackVocab)
  end.

(** *** Building or loading the matrix *)

(** [ta.set(src, offset)] *)
Definition ta_set (ta src : list num) (offset : nat) : result (list num) :=
  if length src + offset <=? length ta
  then Ok (firstn offset ta ++ src ++ skipn (offset + length src) ta)
  else Throw (RangeError "offset is out of bounds").

(** [matrix.set(src, offset)] on the global. *)
Definition matrix_set (src : list num) (offset : nat) : M unit :=
  st <- get ;;
  match matrix st with
  | None => throw (TypeError "Cannot read properties of null (reading 'set')")
  | Some m => m' <- lift (ta_set m src offset) ;; modify (set_matrix m')
  end.

(** [for (let j = 0; j < embs.length; j++) matrix.set(embs[j], (i + j) * dim)] *)
Fixpoint store_rows (embs : list (list num)) (row : nat) : M unit :=
  match embs with
  | [] => ret tt
  | v :: rest =>
      st <- get ;;
      matrix_set v (row * dim st) ;;;
      store_rows rest (S row)
  end.

(** [texts.slice(i, i + len)] *)
Definition slice {T : Type} (l : list T) (i len : nat) : list T :=
  firstn len (skipn i l).

(** The batch loop; it runs at most [n] times, which [fuel] counts. *)
Fixpoint embed_batches (e : env) (fuel i n : nat) (texts : list string) : M unit :=
  match fuel with
  | 0 => ret tt
  | S fuel' =>
      if n <=? i then ret tt
      else
        embs <- embedMany e (map JString (slice texts i (Pos.to_nat (BATCH_SIZE e)))) ;;
        store_rows embs i ;;;
        embed_batches e fuel' (i + Pos.to_nat (BATCH_SIZE e)) n texts
  end.

(** [for (let i = 0; i < n; i++) matrix.set(normalizeVec(getRow(i)), i * dim)] *)
Fixpoint normalize_rows (i count : nat) : M unit :=
  match count with
  | 0 => ret tt
  | S count' =>
      st <- get ;;
      row <- lift (getRow st i) ;;
      matrix_set (normalizeVec row) (i * dim st) ;;;
      normalize_rows (S i) count'
  end.

(** [meta.signature === signature] after [JSON.parse]; reading a member of
    [null] throws. *)
Definition signature_matches (mf : meta_file) (signature : string) : result (option meta) :=
  match mf with
  | MetaUnparsable => Throw (SyntaxError "Unexpected token in JSON")
  | MetaNull => Throw (TypeError "Cannot read properties of null (reading 'signature')")
  | MetaNoSignature => Ok None
  | MetaRecord r => Ok (if String.eqb (meta_signature r) signature then Some r else None)
  end.

(** The test that guards the cached matrix: both paths exist, and the
    parsed metadata carries the signature just computed. *)
Definition cacheLookup (d : disk) (signature : string) : result (option (meta * list num)) :=
  match metaFile d, binFile d with
  | Some mf, Some blob =>
      let* hit := signature_matches mf signature in
      Ok (option_map (fun r => (r, blob)) hit)
  | _, _ => Ok None
  end.

(** The blob becomes the matrix; [dim] and [normalized] are the
    metadata's. *)
Definition adoptCache (r : meta) (blob : list num) : M unit :=
  modify (set_matrix blob) ;;;
  modify (set_dim (meta_dim r)) ;;;
  modify (set_normalized (meta_normalized r)).

(** The rebuild.  The two files differ in one step: [part_002] probes
    the provider for the dimension when [dim] is still falsy.  The two
    [fs.writeFile] at the end are taken to succeed. *)
Definition rebuildMatrix (probeDim : bool) (e : env) (contextTemplate signature : string)
    : M unit :=
  st <- get ;;
  let texts := wordsToTexts (vocab st) contextTemplate in
  let n := length (vocab st) in
  (if probeDim && (dim st =? 0)
   then
     first <- embedMany e [match texts with t :: _ => JString t | [] => JUndefined end] ;;
     match first with
     | v :: _ => modify (set_dim (length v))
     | [] => throw (TypeError "Cannot read properties of undefined (reading 'length')")
     end
   else ret tt) ;;;
  st1 <- get ;;
  modify (set_matrix (repeat zero (n * dim st1))) ;;;
  embed_batches e n 0 n texts ;;;
  normalize_rows 0 n ;;;
  modify (set_normalized true) ;;;
  st2 <- get ;;
  d2 <- getDisk ;;
  putDisk (mkDisk (vocabFile d2)
             (Some (MetaRecord (mkMeta (length (vocab st2)) (dim st2)
                                  (normalized st2) signature)))
             (matrix st2)).

Definition buildOrLoadEmbeddingMatrix (probeDim : bool) (e : env)
    (contextTemplate : string) : M unit :=
  loadVocab ;;;
  ensureEmbedder e ;;;
  st <- get ;;
  let signature := hashJSON e (MODEL_ID e) (dim st) (vocab st) contextTemplate in
  d <- getDisk ;;
  cached <- lift (cacheLookup d signature) ;;
  match cached with
  | Some (r, blob) => adoptCache r blob
  | None => rebuildMatrix probeDim e contextTemplate signature
  end.

(** The first two steps of [buildOrLoadEmbeddingMatrix]. *)
Definition prepare (e : env) : M unit := (loadVocab ;;; ensureEmbedder e)%server.

(** The metadata describes the blob: [n] rows of [dim] floats. *)
Definition agrees (r : meta) (blob : list num) : Prop :=
  length blob = meta_n r * meta_dim r.

(** Row [i] of a row-major buffer of rows of length [d]. *)
Definition rowOf (m : list num) (d i : nat) : list num :=
  subarray m (i * d) (i * d + d).

(** A buffer with its first [count] rows normalised, one after the other. *)
Fixpoint normalizeBlocks (d count : nat) (suffix : list num) : list num :=
  match count with
  | 0 => suffix
  | S count' =>
      normalizeVec (firstn d suffix) ++ normalizeBlocks d count' (skipn d suffix)
  end.
End Cache.

(** ** The search request *)

Section Request.
Context {A : Arith}.
Local Open Scope server_scope.

(** The body of [POST /api/search], defaults filled in. *)
Record request : Type := mkRequest {
  pairs : list jsval;
  target : string;
  k : Z;
  contextTemplate : string;
  includeSeeds : bool;
  excludeInputs : bool
}.

Definition defaultRequest : request :=
  mkRequest
    [JArray [JString "garden"; JString "gardening"];
     JArray [JString "belief"; JString "believing"];
     JArray [JString "fight"; JString "fighting"]]
    "work" DEFAULT_K "{w}" true true.

(** [const [a, b] = entry]: an array gives its first two members, a
    string its first two characters, and anything else is not iterable. *)
Definition destructure2 (entry : jsval) : result (jsval * jsval) :=
  match entry with
  | JArray items => Ok (nth 0 items JUndefined, nth 1 items JUndefined)
  | JString s =>
      Ok (match s with
          | String a (String b _) => (JString (String a ""), JString (String b ""))
          | String a EmptyString => (JString (String a ""), JUndefined)
          | EmptyString => (JUndefined, JUndefined)
          end)
  | _ => Throw (TypeError "entry is not iterable")
  end.

(** The loop over [pairs]: [pairObjs] in order. *)
Fixpoint collectPairs (entries : list jsval) : result (list (string * string)) :=
  match entries with
  | [] => Ok []
  | entry :: rest =>
      let* ab := destructure2 entry in
      let* more := collectPairs rest in
      match ab with
      | (JString a, JString b) => Ok ((a, b) :: more)
      | _ => Ok more
      end
  end.

Definition flatWordsOf (pairObjs : list (string * string)) (tgt : string) : list string :=
  flat_map (fun ab => [fst ab; snd ab]) pairObjs ++ [tgt].

(** [pairs.flat()] *)
Definition flat (l : list jsval) : list jsval :=
  flat_map (fun v => match v with JArray items => items | _ => [v] end) l.

(** [v[j]] where [v] may be [undefined]. *)
Definition readAt (v : option (list num)) (j : nat) : result num :=
  match v with
  | None => Throw (TypeError "Cannot read properties of undefined")
  | Some l => Ok (nth j l nan)
  end.

(** [for (let j = 0; j < d; j++) out[j] = f(j)] into a fresh
    [Float32Array(d)]. *)
Definition fill (d : nat) (f : nat -> result num) : result (list num) :=
  mapM (fun j => let* x := f j in Ok (fround x)) (seq 0 d).

Definition fillPure (d : nat) (f : nat -> num) : list num :=
  map (fun j => fround (f j)) (seq 0 d).

Definition deltaOf (d : nat) (embs : list (list num)) (i : nat) : result (list num) :=
  let fromEmb := nth_error embs (2 * i) in
  let toEmb := nth_error embs (2 * i + 1) in
  fill d (fun j => let* t := readAt toEmb j in
                   let* f := readAt fromEmb j in
                   Ok (sub t f)).

Definition averageOf (d : nat) (deltas : list (list num)) : list num :=
  let total := fold_left
                 (fun acc dl => fillPure d (fun j => add (nth j acc nan) (nth j dl nan)))
                 deltas (repeat zero d) in
  if 0 <? length deltas
  then fillPure d (fun j => div (nth j total nan) (of_nat (length deltas)))
  else total.

Definition transformedOf (d : nat) (targetEmb : option (list num))
    (avgDelta : list num) : result (list num) :=
  fill d (fun j => let* t := readAt targetEmb j in Ok (add t (nth j avgDelta nan))).

(** What the handler derives from the embeddings before it searches. *)
Record translation : Type := mkTranslation {
  t_avgDelta : list num;
  t_targetEmb : option (list num);
  t_transformed : list num;
  (** the vector handed to [topKSimilar] *)
  t_query : list num
}.

Definition excludeSetOf (req : request) : JSSet :=
  set_of (if excludeInputs req then flat (pairs req) ++ [JString (target req)] else []).

(** *** Points and projection *)

Inductive kind : Type := KNeighbor | KTarget | KPredicted | KSeedFrom | KSeedTo.

Record point : Type := mkPoint {
  pid : string;
  plabel : string;
  pkind : kind;
  pvec : option (list num);
  pscore : option num
}.

Record placed : Type := mkPlaced {
  ppoint : point;
  px : num;
  py : num;
  pz : num
}.

(** [Array.from(p.vec)] *)
Definition arrayFrom (v : option (list num)) : result (list num) :=
  match v with
  | None => Throw (TypeError "undefined is not iterable")
  | Some l => Ok l
  end.

(** [a[j] || 0] *)
Definition orZero (a : list num) (j : nat) : num :=
  match nth_error a j with
  | Some v => or_else v zero
  | None => zero
  end.

(** [Number.isFinite(a[j]) ? a[j] : 0] *)
Definition finiteOrZero (a : list num) (j : nat) : num :=
  match nth_error a j with
  | Some v => if isFinite v then v else zero
  | None => zero
  end.

Definition seedPoints (pairObjs : list (string * string)) (embs : list (list num))
    : list point :=
  flat_map (fun iab =>
              let i := fst iab in
              let a := fst (snd iab) in
              let b := snd (snd iab) in
              [mkPoint ("seed:" ++ a) a KSeedFrom (nth_error embs (2 * i)) None;
               mkPoint ("seed:" ++ b) b KSeedTo (nth_error embs (2 * i + 1)) None])
           (combine (seq 0 (length pairObjs)) pairObjs).

Record out_point : Type := mkOut {
  o_id : string;
  o_label : string;
  o_kind : kind;
  o_x : num;
  o_y : num;
  (** [None] where the response has no such member, or [null] *)
  o_z : option num;
  o_score : option num
}.

(** The members of the JSON answer the properties below are about
    ([seedLinks] and [meta] are left out). *)
Record response : Type := mkResponse {
  r_avgDelta : list num;
  r_targetEmbedding : list num;
  r_transformed : list num;
  r_neighbors : list (string * num);
  r_points : list out_point;
  r_explainedVariance : list num
}.

Inductive http : Type :=
| Json200 (body : response)
| Error500 (e : exn).

(** [try { ... res.json(...) } catch (e) { res.status(500).json(...) }] *)
Definition respond (handler : M response) : world -> http * world :=
  fun w => match handler w with
           | (Ok body, w') => (Json200 body, w')
           | (Throw e, w') => (Error500 e, w')
           end.

(** *** Vocabulary of the properties *)

(** The matrix is only ever assigned after the pipeline has been loaded. *)
Definition coherent (st : state) : Prop :=
  matrix st <> None -> embedder st = true.

(** An entry of [pairs] that can be destructured. *)
Definition iterable (entry : jsval) : bool :=
  match entry with
  | JArray _ | JString _ => true
  | _ => false
  end.

(** An entry whose two members are strings: the entries that reach
    [pairObjs]. *)
Definition wellFormedPair (entry : jsval) : bool :=
  match destructure2 entry with
  | Ok (JString _, JString _) => true
  | _ => false
  end.

(** The pairs of a request, as the words of the specification have them:
    the entries with two string members, in order. *)
Definition validPairs (entries : list jsval) : list (string * string) :=
  flat_map (fun entry => match destructure2 entry with
                         | Ok (JString a, JString b) => [(a, b)]
                         | _ => []
                         end) entries.

Definition withPairs (req : request) (ps : list jsval) : request :=
  mkRequest ps (target req) (k req) (contextTemplate req) (includeSeeds req)
    (excludeInputs req).

(** The provider keeps its contract: one usable vector per text. *)
Definition providerAligned (e : env) : Prop :=
  forall texts, exists items,
    pipe e texts = Ok (OutArray items) /\
    length items = length texts /\
    forallb (fun it => negb (isNull (toVec it))) items = true.

(** The PCA library answers: a row per input vector, and the variances. *)
Definition pcaTotal (e : env) : Prop :=
  forall X, exists pca,
    PCA e X = Ok pca /\
    (forall c, exists Y, predict pca X c = Ok Y /\ length X <= length Y) /\
    (exists ev, getExplainedVariance pca = Ok ev).

(** The first text of a request without usable pairs. *)
Definition targetText (req : request) : jsval :=
  JString (hd "" (wordsToTexts [target req] (contextTemplate req))).

(** The deltas of an aligned batch. *)
Definition deltasOf (d : nat) (pairObjs : list (string * string))
    (embs : list (list num)) : list (list num) :=
  map (fun i => fillPure d (fun j => sub (nth j (nth (2 * i + 1) embs []) nan)
                                         (nth j (nth (2 * i) embs []) nan)))
      (seq 0 (length pairObjs)).

(** The texts the handler asks the provider to embed. *)
Definition textsOf (req : request) (pairObjs : list (string * string)) : list jsval :=
  map JString (wordsToTexts (flatWordsOf pairObjs (target req)) (contextTemplate req)).

(** The same collaborators with another signature function. *)
Definition withHash (e : env) (h : string -> nat -> list string -> string -> string) : env :=
  mkEnv (MODEL_ID e) (BATCH_SIZE e) h (pipeline e) (probe e) (pipe e) (PCA e).

(** The PCA library fails: its constructor throws, or its prediction does. *)
Definition pcaFails (e : env) : Prop :=
  forall X, match PCA e X with
            | Throw _ => True
            | Ok pca => forall c, exists err, predict pca X c = Throw err
            end.
End Request.

(** ** [src/server/index.js] *)

Module ServerIndex.
Section Variant.
Context {A : Arith}.
Local Open Scope server_scope.

Definition makePCA (e : env) (points : list point) : result (list placed * list num) :=
  if length points =? 0 then Ok ([], [])
  else
    let* X := mapM arrayFrom (map pvec points) in
    let nDims := length (hd [] X) in
    let components := Nat.max 1 (Nat.min 3 nDims) in
    let* pca := PCA e X in
    let* Y := predict pca X components in
    let* ev := getExplainedVariance pca in
    let* placedPoints :=
      mapM (fun ip =>
              match nth_error Y (fst ip) with
              | None => Throw (TypeError "Cannot read properties of undefined (reading '0')")
              | Some row =>
                  Ok (mkPlaced (snd ip) (orZero row 0) (orZero row 1) (orZero row 2))
              end)
           (combine (seq 0 (length points)) points) in
    Ok (placedPoints, firstn components ev).

(** [neighborScoreMap.get(p.id) || null]: the last entry with the id. *)
Definition scoreOf (neighbors : list neighbor) (id : string) : option num :=
  match find (fun n => String.eqb ("neighbor:" ++ word n) id) (rev neighbors) with
  | Some n => if truthy (score n) then Some (score n) else None
  | None => None
  end.

(** From "map back" to the translated target: deltas, their average, the
    raw sum, and its normalisation when the matrix is normalised. *)
Definition translate (st : state) (pairObjs : list (string * string))
    (embs : list (list num)) : result translation :=
  let targetEmb := nth_error embs (length embs - 1) in
  let* deltas := mapM (deltaOf (dim st) embs) (seq 0 (length pairObjs)) in
  let avgDelta := averageOf (dim st) deltas in
  let* transformed := transformedOf (dim st) targetEmb avgDelta in
  let translated := if normalized st then normalizeVec transformed else transformed in
  Ok (mkTranslation avgDelta targetEmb transformed translated).

(** The handler once the embeddings are there: nothing below assigns a
    global or awaits. *)
Definition answer (e : env) (st : state) (req : request)
    (pairObjs : list (string * string)) (embs : list (list num)) : result response :=
  let* tr := translate st pairObjs embs in
  let translated := t_query tr in
  let* neighbors := topKSimilar st translated (k req) (excludeSetOf req) in
  let* rows := mapM (fun n => getRow st (index n)) neighbors in
  let pPoints :=
    map (fun nr => mkPoint ("neighbor:" ++ word (fst nr)) (word (fst nr)) KNeighbor
                     (Some (snd nr)) None)
        (combine neighbors rows)
    ++ [mkPoint "target" (target req) KTarget (t_targetEmb tr) None;
        mkPoint "predicted" (target req ++ "*") KPredicted (Some translated) None]
    ++ (if includeSeeds req then seedPoints pairObjs embs else []) in
  let* projected := makePCA e pPoints in
  let* targetOut := arrayFrom (t_targetEmb tr) in
  Ok (mkResponse (t_avgDelta tr) targetOut translated
        (map (fun n => (word n, score n)) neighbors)
        (map (fun p => mkOut (pid (ppoint p)) (plabel (ppoint p)) (pkind (ppoint p))
                         (px p) (py p) (Some (or_else (pz p) zero))
                         (scoreOf neighbors (pid (ppoint p))))
             (fst projected))
        (snd projected)).

Definition search (e : env) (req : request) : M response :=
  st0 <- get ;;
  (if isNull (matrix st0)
   then buildOrLoadEmbeddingMatrix false e (contextTemplate req)
   else ret tt) ;;;
  pairObjs <- lift (collectPairs (pairs req)) ;;
  let flatWords := flatWordsOf pairObjs (target req) in
  let texts := wordsToTexts flatWords (contextTemplate req) in
  embs <- embedMany e (map JString texts) ;;
  st <- get ;;
  lift (answer e st req pairObjs embs).

Definition postSearch (e : env) (req : request) : world -> http * world :=
  respond (search e req).
End Variant.
End ServerIndex.

(** ** [src/unnamed/part_002] *)

Module Part002.
Section Variant.
Context {A : Arith}.
Local Open Scope server_scope.

Definition makePCA (e : env) (points : list point) : result (list placed * list num) :=
  if length points =? 0 then Ok ([], [zero; zero; zero])
  else
    let* X := mapM arrayFrom (map pvec points) in
    let Yev :=
      match PCA e X with
      | Throw _ => ([], [])
      | Ok pca =>
          let nComponents :=
            Nat.min 3 (Nat.max 1 (Nat.min (length (hd [] X)) (length points))) in
          if 0 <? nComponents then
            match predict pca X nComponents with
            | Throw _ => ([], [])
            | Ok Y => match getExplainedVariance pca with
                      | Throw _ => (Y, [])
                      | Ok ev => (Y, ev)
                      end
            end
          else ([], [])
      end in
    let Y := if length (fst Yev) =? 0
             then map (fun _ => [zero; zero; zero]) X
             else fst Yev in
    let ev := snd Yev in
    Ok (map (fun ip =>
               let coords := nth (fst ip) Y [] in
               mkPlaced (snd ip) (finiteOrZero coords 0) (finiteOrZero coords 1)
                 (finiteOrZero coords 2))
            (combine (seq 0 (length points)) points),
        [orZero ev 0; orZero ev 1; orZero ev 2]).

(** The deltas, their average and the raw sum; the query is the raw
    sum, which [topKSimilar] normalises itself. *)
Definition translate (st : state) (pairObjs : list (string * string))
    (embs : list (list num)) : result translation :=
  let* deltas := mapM (deltaOf (dim st) embs) (seq 0 (length pairObjs)) in
  let avgDelta := averageOf (dim st) deltas in
  let targetEmb := nth_error embs (length embs - 1) in
  let* transformed := transformedOf (dim st) targetEmb avgDelta in
  Ok (mkTranslation avgDelta targetEmb transformed transformed).

(** The handler once the embeddings are there. *)
Definition answer (e : env) (st : state) (req : request)
    (pairObjs : list (string * string)) (embs : list (list num)) : result response :=
  let flatWords := flatWordsOf pairObjs (target req) in
  let* _ := if negb (length embs =? length flatWords)
            then Throw (Error "Embedding count mismatch")
            else Ok tt in
  let* tr := translate st pairObjs embs in
  let transformed := t_query tr in
  let* neighbors := topKSimilar st transformed (k req) (excludeSetOf req) in
  let* rows := mapM (fun n => getRow st (index n)) neighbors in
  let transformedForPCA := normalizeVec transformed in
  let pPoints :=
    map (fun nr => mkPoint ("neighbor:" ++ word (fst nr)) (word (fst nr)) KNeighbor
                     (Some (snd nr)) (Some (score (fst nr))))
        (combine neighbors rows)
    ++ [mkPoint "target" (target req) KTarget (t_targetEmb tr) None;
        mkPoint "predicted" (target req ++ "*") KPredicted (Some transformedForPCA) None]
    ++ (if includeSeeds req then seedPoints pairObjs embs else []) in
  let* projected := makePCA e pPoints in
  let* targetOut := arrayFrom (t_targetEmb tr) in
  Ok (mkResponse (t_avgDelta tr) targetOut transformed
        (map (fun n => (word n, score n)) neighbors)
        (map (fun p => mkOut (pid (ppoint p)) (plabel (ppoint p)) (pkind (ppoint p))
                         (px p) (py p) None
                         (match pkind (ppoint p) with
                          | KNeighbor => pscore (ppoint p)
                          | _ => None
                          end))
             (fst projected))
        (snd projected)).

Definition search (e : env) (req : request) : M response :=
  st0 <- get ;;
  (if isNull (matrix st0)
   then buildOrLoadEmbeddingMatrix true e (contextTemplate req)
   else ret tt) ;;;
  pairObjs <- lift (collectPairs (pairs req)) ;;
  let flatWords := flatWordsOf pairObjs (target req) in
  let texts := wordsToTexts flatWords (contextTemplate req) in
  embs <- embedMany e (map JString texts) ;;
  st <- get ;;
  lift (answer e st req pairObjs embs).

Definition postSearch (e : env) (req : request) : world -> http * world :=
  respond (search e req).
End Variant.
End Part002.

(** ** Reachable worlds *)

Section Reachable.
Context {A : Arith}.
(** The pipeline is loaded. *)
Definition loaded (w : world) : Prop := embedder (globals w) = true.

(** The worlds the server can be in: it boots with nothing in memory, and
    then builds or loads the matrix (at boot and on [POST /api/rebuild]) or
    answers a search, with whatever the collaborators and the files hold. *)
Inductive reachable : world -> Prop :=
| reach_boot (d : disk) :
    reachable (mkWorld (mkState false [] 0 None false) d)
| reach_files (w : world) (d : disk) :
    reachable w -> reachable (mkWorld (globals w) d)
| reach_build (probeDim : bool) (e : env) (template : string) (w : world) :
    reachable w -> reachable (snd (buildOrLoadEmbeddingMatrix probeDim e template w))
| reach_search_index (e : env) (req : request) (w : world) :
    reachable w -> reachable (snd (ServerIndex.search e req w))
| reach_search_part002 (e : env) (req : request) (w : world) :
    reachable w -> reachable (snd (Part002.search e req w)).
End Reachable.

(** ** The other endpoints *)

Section Endpoints.
Context {A : Arith}.

(** The body of [GET /api/status] ([cacheDir], a constant of the
    configuration, is left out).  [!!matrix] is true of any typed array,
    also of an empty one. *)
Record status_body : Type := mkStatus {
  s_ready : bool;
  s_vocabSize : nat;
  s_dim : nat;
  s_model : string
}.

Definition getStatus (e : env) : world -> status_body * world :=
  fun w =>
    (mkStatus (negb (isNull (matrix (globals w)))) (length (vocab (globals w)))
       (dim (globals w)) (MODEL_ID e),
     w).

(** The answers of [POST /api/rebuild]: [{ ok: true, vocabSize, dim, model }]
    or status 500. *)
Inductive rebuild_answer : Type :=
| Rebuilt (vocabSize : nat) (d : nat) (model : string)
| RebuildFailed (err : exn).

(** [const { contextTemplate = '{w}' } = req.body || {}]: [None] for a body
    without the member.  [probeDim] tells the two files apart, as in
    [buildOrLoadEmbeddingMatrix]. *)
Definition postRebuild (probeDim : bool) (e : env) (template : option string)
    : world -> rebuild_answer * world :=
  fun w =>
    let contextTemplate := match template with Some t => t | None => "{w}" end in
    match buildOrLoadEmbeddingMatrix probeDim e contextTemplate w with
    | (Ok _, w') =>
        (Rebuilt (length (vocab (globals w'))) (dim (globals w')) (MODEL_ID e), w')
    | (Throw err, w') => (RebuildFailed err, w')
    end.

(** [loadVocab] on a file system that may refuse the read: [readFails] is
    the error [fs.readFile] rejects with, if it does, once the path exists
    (a permission error, a directory in place of the file).  [loadVocab]
    above is the run in which the file can be read. *)
Definition loadVocabIO (readFails : option exn) : M unit :=
  (d <- getDisk ;;
  match vocabFile d with
  | Some raw =>
      match readFails with
      | Some err => throw err
      | None =>
          let lines := filter (fun x => negb (String.eqb x ""))
                              (map trim (split_lines "" raw)) in
          modify (set_vocab (dedupe lines))
      end
  | None => modify (set_vocab fallbackVocab)
  end)%server.

(** The comparator of [topKSimilar] is strict on the scores: a negative
    difference means a smaller score.  It is so when no score is [NaN]. *)
Definition strictOn (sims : list num) : Prop :=
  forall x y, In x sims -> In y sims -> sign (sub x y) = Lt -> leb y x = false.

(** [consistentOn] and [strictOn], decided on a list of scores. *)
Definition consistentOnb (sims : list num) : bool :=
  forallb (fun x =>
    forallb (fun y =>
      match sign (sub x y) with
      | Lt => leb x y && negb (leb y x)
      | _ => leb y x
      end &&
      forallb (fun z => implb (leb x y && leb y z) (leb x z)) sims) sims) sims.

(** An earlier result may stand before a later one: its score is no
    smaller, and it is strictly larger when its row comes later in the
    vocabulary. *)
Definition before (n1 n2 : neighbor) : Prop :=
  leb (score n2) (score n1) = true /\
  (index n2 < index n1 -> sign (sub (score n2) (score n1)) = Lt).

(** A word the replacement patterns of [replaceAll] leave alone: it has no
    [$] in it. *)
Definition literal (w : string) : bool := negb (includes w "$").

(** The points of an answer, as [id], [label] and [kind]: the neighbours
    in their order, the target and its translation, and the two words of
    each seed pair. *)
Definition expectedPoints (words : list string) (tgt : string)
    (seeds : list (string * string)) : list (string * string * kind) :=
  map (fun w => (("neighbor:" ++ w)%string, w, KNeighbor)) words ++
  [("target", tgt, KTarget); ("predicted", (tgt ++ "*")%string, KPredicted)] ++
  flat_map (fun ab => [(("seed:" ++ fst ab)%string, fst ab, KSeedFrom);
                       (("seed:" ++ snd ab)%string, snd ab, KSeedTo)]) seeds.

(** A string given by its bytes. *)
Definition bytes (l : list nat) : string :=
  fold_right (fun n s => String (ascii_of_nat n) s) EmptyString l.

(** The white space and line terminators of ECMAScript outside ASCII, in
    UTF-8: U+00A0, U+1680, U+2000 to U+200A, U+2028, U+2029, U+202F,
    U+205F, U+3000 and U+FEFF. *)
Definition wideSpaces : list string :=
  map bytes
    [[194; 160]; [225; 154; 128];
     [226; 128; 128]; [226; 128; 129]; [226; 128; 130]; [226; 128; 131];
     [226; 128; 132]; [226; 128; 133]; [226; 128; 134]; [226; 128; 135];
     [226; 128; 136]; [226; 128; 137]; [226; 128; 138];
     [226; 128; 168]; [226; 128; 169]; [226; 128; 175];
     [226; 129; 159]; [227; 128; 128]; [239; 187; 191]].

(** A text whose white space is all ASCII: on its lines [trim] above,
    which removes the ASCII white space, is the [trim] of JavaScript. *)
Definition plainSpaced (s : string) : bool :=
  forallb (fun ws => negb (includes s ws)) wideSpaces.

(** A provider that embeds each text of a batch on its own, as the
    [Float32Array] [f text]. *)
Definition pointwise (e : env) (f : string -> list num) : Prop :=
  forall ts : list string,
    pipe e (map JString ts) = Ok (OutArray (map (fun t => F32 (f t)) ts)).
End Endpoints.

(** ** The client: [src/public/app.js] *)

Section Client.
(** The arrow of the pairs box, U+2192, in UTF-8. *)
Definition arrow : string := bytes [226; 134; 146].

(** [s.split(sep)] for a non-empty separator, with the part being read in
    [cur]. *)
Fixpoint splitOn_fuel (fuel : nat) (sep cur s : string) : list string :=
  match fuel with
  | 0 => [cur ++ s]
  | S fuel' =>
      match s with
      | EmptyString => [cur]
      | String c s' =>
          match prefix_rest sep s with
          | Some rest => cur :: splitOn_fuel fuel' sep "" rest
          | None => splitOn_fuel fuel' sep (cur ++ String c "") s'
          end
      end
  end%string.

Definition splitOn (sep s : string) : list string :=
  splitOn_fuel (S (String.length s)) sep "" s.

(** [Boolean(s)] on a string. *)
Definition nonEmpty (s : string) : bool := negb (String.eqb s "").

(** The function [parsePairs] maps over the lines: split at the arrows,
    or at the commas when there is no arrow; the first two parts, trimmed,
    are the pair, and [null] is returned when one of them is empty. *)
Definition parseLine (line : string) : option (string * string) :=
  let parts := splitOn arrow line in
  let parts := if length parts <? 2 then splitOn "," line else parts in
  let a := trim (nth 0 parts "") in
  let b := trim (nth 1 parts "") in
  if nonEmpty a && nonEmpty b then Some (a, b) else None.

Definition parsePairs (text : string) : list (string * string) :=
  flat_map (fun line => match parseLine line with Some ab => [ab] | None => [] end)
           (filter nonEmpty (map trim (split_lines "" text))).

(** A pair as it travels in the JSON body. *)
(** A separator without a border: it cannot start inside a prefix that
    does not contain it and end in its own occurrence after that prefix. *)
Definition borderless (sep : string) : Prop :=
  forall c pre post,
    includes (String c pre) sep = false ->
    prefix_rest sep (String c pre ++ sep ++ post)%string = None.

(** What a line gives once its two fields are known. *)
Definition pairOf (a b : string) : option (string * string) :=
  if nonEmpty (trim a) && nonEmpty (trim b) then Some (trim a, trim b) else None.

Definition pairToJs (ab : string * string) : jsval :=
  JArray [JString (fst ab); JString (snd ab)].

(** The body [runSearch] posts to [/api/search], from the text of the
    pairs box, the target box and the template box, the number of the [k]
    slider and the two check boxes; [None] when it alerts and sends
    nothing. *)
Definition searchBody (pairsText targetText templateText : string) (kValue : Z)
    (seeds inputs : bool) : option request :=
  let ps := parsePairs pairsText in
  if length ps =? 0 then None
  else Some (mkRequest (map pairToJs ps) (trim targetText) kValue
               (let t := trim templateText in if nonEmpty t then t else "{w}")
               seeds inputs).
End Client.

(** A text for the pairs box: an arrow line, a comma line with a third
    field, a line without separator and a blank line. *)
Definition pairsBox : string :=
  ("garden " ++ arrow ++ " gardening" ++ String LF ""
   ++ "belief, believing, believed" ++ String CR (String LF "")
   ++ "fight fighting" ++ String LF "" ++ "   ")%string.

(** ** Concrete inputs, in the arithmetic of the program *)

Module Demo.
Import IEEE.

(** Four words in two dimensions; the rows have unit length. *)
Definition smallState : state :=
  mkState true ["a"; "b"; "c"; "d"] 2
    (Some [int 1; int 0;
           int 0; int 1;
           fround (div (int 3) (int 5)); fround (div (int 4) (int 5));
           int 0; int 1])
    true.

(** The fallback vocabulary, embedded in one dimension. *)
Definition fallbackState : state :=
  mkState true fallbackVocab 1 (Some (repeat (int 1) (length fallbackVocab))) true.
Definition noFiles : disk := mkDisk None None None.

Definition smallWorld : world := mkWorld smallState noFiles.

(** A PCA that keeps the leading coordinates. *)
Definition keepLeading : pca_model :=
  mkPca (fun X c => Ok (map (firstn c) X)) (Ok [int 1; int 0]).

(** The [i]-th text of a batch is embedded as [(i, 1)]. *)
Definition countingVectors (n : nat) : pipe_out :=
  OutArray (map (fun i => F32 [int (Z.of_nat i); int 1]) (seq 0 n)).

(** A stand-in for the SHA-256 of the JSON text. *)
Definition demoHash (model : string) (d : nat) (voc : list string) (template : string)
    : string :=
  String.concat "|" (model :: template :: voc).

Definition mkDemoEnv (provider : list jsval -> result pipe_out)
    (pca : list (list num) -> result pca_model) : env :=
  mkEnv "Xenova/all-MiniLM-L6-v2" 64 demoHash None (Ok 2) provider pca.

(** Collaborators that keep their contracts. *)
Definition goodEnv : env :=
  mkDemoEnv (fun texts => Ok (countingVectors (length texts))) (fun _ => Ok keepLeading).

(** The PCA constructor throws. *)
Definition failingPcaEnv : env :=
  mkDemoEnv (fun texts => Ok (countingVectors (length texts)))
    (fun _ => Throw (Error "degenerate input")).

(** The provider returns one vector too many. *)
Definition extraVectorEnv : env :=
  mkDemoEnv (fun texts => Ok (countingVectors (S (length texts)))) (fun _ => Ok keepLeading).

(** One usable pair, one pair with a number in it. *)
Definition mixedRequest : request :=
  mkRequest [JArray [JString "x"; JString "y"]; JArray [JString "x"; JNumber 3]]
    "a" 2 "{w}" true true.

(** No usable pair at all. *)
Definition skippedRequest : request :=
  mkRequest [JArray [JString "x"; JNumber 3]; JArray [JNull; JString "y"]]
    "a" 2 "{w}" true true.

Definition onePairRequest : request :=
  mkRequest [JArray [JString "x"; JString "y"]] "a" 2 "{w}" true true.
(** A cache whose metadata names five rows of three floats over a blob of
    two floats, under the signature of the fallback vocabulary. *)
Definition staleMeta : meta :=
  mkMeta 5 3 true (demoHash "Xenova/all-MiniLM-L6-v2" 2 fallbackVocab "{w}").

Definition shortBlob : list num := [int 1; int 2].

(** A provider that cannot be reached. *)
Definition deafEnv : env :=
  mkEnv "Xenova/all-MiniLM-L6-v2" 64 demoHash None (Ok 2)
    (fun _ => Throw (Error "provider unreachable"))
    (fun _ => Throw (Error "degenerate input")).

Definition bootWorld : world :=
  mkWorld (mkState false [] 0 None false)
    (mkDisk None (Some (MetaRecord staleMeta)) (Some shortBlob)).
(** Two words: the first along the first axis, the second nearly its
    mirror image across the direction of [(22, 29)]; both rows are fixed
    points of [normalizeVec]. *)
Definition mirrorState : state :=
  mkState true ["a"; "b"] 2
    (Some [int 1; int 0;
           f64 (-2260175) (-23); f64 2019597 (-21)])
    true.

Definition mirrorWorld : world := mkWorld mirrorState noFiles.

Definition slantedQuery : list num := [int 22; int 29].

(** The provider embeds every text as [(22, 29)]. *)
Definition slantedEnv : env :=
  mkDemoEnv (fun texts => Ok (OutArray (map (fun _ => F32 slantedQuery) texts)))
    (fun _ => Ok keepLeading).

Definition bareRequest : request := mkRequest [] "work" 1 "{w}" true true.

(** A server that boots on a vocabulary file of one word. *)
Definition oneWordWorld : world :=
  mkWorld (mkState false [] 0 None false) (mkDisk (Some "work") None None).

(** The matrix of [smallState], and the scores of its rows against
    [(22, 29)]. *)
Definition smallMatrix : list num :=
  [int 1; int 0;
   int 0; int 1;
   fround (div (int 3) (int 5)); fround (div (int 4) (int 5));
   int 0; int 1].

Definition smallSims : list num := simsOf smallState smallMatrix slantedQuery.

(** Two words on the two axes of the plane. *)
Definition axesMatrix : list num := [int 1; int 0; int 0; int 1].

Definition axesState : state := mkState true ["a"; "b"] 2 (Some axesMatrix) true.

(** The pipeline loads, and its first call, on ['test'], fails. *)
Definition noProbeEnv : env :=
  mkEnv "Xenova/all-MiniLM-L6-v2" 64 demoHash None (Throw (Error "probe failed"))
    (fun texts => Ok (countingVectors (length texts))) (fun _ => Ok keepLeading).

(** The provider answers a batch with one [Float32Array], the vectors
    [(i, 1)] one after the other. *)
Definition tensorEnv : env :=
  mkDemoEnv
    (fun texts => Ok (OutF32 (concat (map (fun i => [int (Z.of_nat i); int 1])
                                          (seq 0 (length texts))))))
    (fun _ => Ok keepLeading).

(** One usable pair, and an entry that is no pair at all. *)
Definition nullEntryRequest : request :=
  mkRequest [JArray [JString "x"; JString "y"]; JNull] "a" 2 "{w}" true true.

(** A point to project. *)
Definition targetPoint : point := mkPoint "target" "a" KTarget (Some [int 1; int 0]) None.

(** One item of the batch is not a vector. *)
Definition holedEnv : env :=
  mkDemoEnv (fun _ => Ok (OutArray [F32 [int 1; int 0]; Unusable])) (fun _ => Ok keepLeading).
End Demo.

(** ** Facts about the neighbour search *)

Section SearchFacts.
Context {A : Arith}.

Lemma mapM_total {T U : Type} (f : T -> result U) (g : T -> U) (l : list T) :
  (forall x, In x l -> f x = Ok (g x)) -> mapM f l = Ok (map g l).
Proof.
  induction l as [|x l IH]; intros Hf; simpl; [reflexivity|].
  rewrite (Hf x (or_introl eq_refl)); simpl.
  rewrite IH by (intros y Hy; apply Hf; now right).
  reflexivity.
Qed.

Lemma sort_insert_perm {T : Type} (f : T -> T -> num) (p : T) (l : list T) :
  Permutation (sort_insert f p l) (p :: l).
Proof.
  induction l as [|e l IH]; simpl; [apply Permutation_refl|].
  destruct (sign (f p e)); try apply Permutation_refl.
  - rewrite IH. apply perm_swap.
  - rewrite IH. apply perm_swap.
Qed.

Lemma array_sort_perm {T : Type} (f : T -> T -> num) (l : list T) :
  Permutation (array_sort f l) l.
Proof.
  unfold array_sort.
  enough (H : forall acc, Permutation
            (fold_left (fun sorted pivot => sort_insert f pivot sorted) l acc)
            (acc ++ l)) by (apply (H [])).
  induction l as [|x l IH]; intros acc; simpl.
  - rewrite app_nil_r. apply Permutation_refl.
  - rewrite IH, sort_insert_perm.
    change (x :: acc) with ([x] ++ acc).
    rewrite (Permutation_app_comm [x] acc), <- app_assoc.
    apply Permutation_refl.
Qed.

Lemma filter_length_perm {T : Type} (f : T -> bool) (l l' : list T) :
  Permutation l l' -> length (filter f l) = length (filter f l').
Proof.
  induction 1 as [|x l l' _ IH|x y l|l l' l'' _ IH1 _ IH2]; simpl.
  - reflexivity.
  - destruct (f x); simpl; congruence.
  - destruct (f x), (f y); reflexivity.
  - congruence.
Qed.

Lemma map_nth_seq {T : Type} (d : T) (l : list T) :
  map (fun i => nth i l d) (seq 0 (length l)) = l.
Proof.
  induction l as [|x l IH]; simpl; [reflexivity|].
  rewrite <- seq_shift, map_map. simpl. now rewrite IH.
Qed.

Lemma simsOf_length st m q : length (simsOf st m q) = length (vocab st).
Proof. unfold simsOf. now rewrite length_map, length_seq. Qed.

(** The result loop in closed form: the first [max 1 k] rows, in sorted
    order, whose word is not excluded. *)
Lemma collect_closed voc sims k exclude idxs res :
  collect voc sims k exclude idxs res =
  res ++ firstn (Nat.max 1 (Z.to_nat k - length res))
           (map (entry voc sims)
                (filter (fun i => allowed exclude (nth i voc "")) idxs)).
Proof.
  revert res. induction idxs as [|i rest IH]; intros res.
  - cbn [collect filter map]. now rewrite firstn_nil, app_nil_r.
  - cbn [collect filter]. unfold allowed at 1.
    destruct (set_has exclude (JString (nth i voc ""))); cbn [negb].
    + apply IH.
    + cbn [map]. rewrite length_app. cbn [length].
      destruct (Z.geb_spec (Z.of_nat (length res + 1)) k) as [Hk|Hk].
      * replace (Nat.max 1 (Z.to_nat k - length res)) with 1 by lia.
        reflexivity.
      * rewrite IH, <- app_assoc, length_app. cbn [length].
        replace (Nat.max 1 (Z.to_nat k - length res))
          with (S (Nat.max 1 (Z.to_nat k - (length res + 1)))) by lia.
        reflexivity.
Qed.

Theorem topKSimilar_closed st m targetVec k exclude :
  matrix st = Some m ->
  let sims := simsOf st m targetVec in
  topKSimilar st targetVec k exclude =
  Ok (firstn (Nat.max 1 (Z.to_nat k))
        (map (entry (vocab st) sims)
           (filter (fun i => allowed exclude (nth i (vocab st) ""))
              (array_sort (bySimDesc sims) (seq 0 (length sims)))))).
Proof.
  intros Hm sims. unfold topKSimilar.
  rewrite (mapM_total _
    (fun i => fround (dot (subarray m (i * dim st) (i * dim st + dim st))
                (if normalized st then normalizeVec targetVec else targetVec)))).
  - simpl. fold (simsOf st m targetVec). fold sims.
    rewrite collect_closed. cbn [app length]. now rewrite Nat.sub_0_r.
  - intros i _. unfold getRow. rewrite Hm. reflexivity.
Qed.

Lemma topKSimilar_total st m targetVec k exclude :
  matrix st = Some m ->
  exists res, topKSimilar st targetVec k exclude = Ok res.
Proof.
  intros Hm. rewrite (topKSimilar_closed st m targetVec k exclude Hm).
  eexists. reflexivity.
Qed.

(** The number of results: [min (max 1 k) c], for [c] rows not excluded. *)
Lemma topKSimilar_length st m targetVec k exclude res :
  matrix st = Some m ->
  topKSimilar st targetVec k exclude = Ok res ->
  length res =
  Nat.min (Nat.max 1 (Z.to_nat k)) (length (filter (allowed exclude) (vocab st))).
Proof.
  intros Hm Hres. rewrite (topKSimilar_closed st m targetVec k exclude Hm) in Hres.
  injection Hres as <-.
  rewrite length_firstn, length_map. f_equal.
  rewrite (filter_length_perm _ _ _ (array_sort_perm _ _)), simsOf_length.
  rewrite <- (map_nth_seq "" (vocab st)) at 2.
  now rewrite filter_map_swap, length_map.
Qed.
End SearchFacts.

(** ** The contract of [topKSimilar] *)

Section SearchContract.
Context {A : Arith}.

Lemma firstn_In {T : Type} (n : nat) (l : list T) (x : T) :
  In x (firstn n l) -> In x l.
Proof.
  revert l. induction n as [|n IH]; intros [|y l]; simpl; try tauto.
  intros [H|H]; [now left|right; now apply IH].
Qed.

Lemma sort_insert_In {T : Type} (f : T -> T -> num) (p x : T) (l : list T) :
  In x (sort_insert f p l) -> x = p \/ In x l.
Proof.
  intros H. apply (Permutation_in _ (sort_insert_perm f p l)) in H.
  destruct H as [H|H]; [left; now symmetry|now right].
Qed.

Lemma sort_insert_sorted (sims : list num) (p : nat) (l : list nat) :
  consistentOn sims ->
  p < length sims ->
  Forall (fun i => i < length sims) l ->
  StronglySorted (desc sims) l ->
  StronglySorted (desc sims) (sort_insert (bySimDesc sims) p l).
Proof.
  intros (Hlt & Hge & Htrans) Hp.
  induction l as [|e rest IH]; intros Hin Hs; simpl.
  - constructor; constructor.
  - inversion Hin as [|? ? He Hrest]; subst.
    apply StronglySorted_inv in Hs. destruct Hs as [Hs Hall].
    assert (Pe : In (nth e sims nan) sims) by now apply nth_In.
    assert (Pp : In (nth p sims nan) sims) by now apply nth_In.
    unfold bySimDesc at 1.
    destruct (sign (sub (nth e sims nan) (nth p sims nan))) eqn:Hsg.
    + constructor; [now apply IH|].
      rewrite Forall_forall. intros x Hx.
      apply sort_insert_In in Hx. destruct Hx as [->|Hx].
      * apply Hge; auto. congruence.
      * rewrite Forall_forall in Hall. now apply Hall.
    + constructor; [constructor; assumption|].
      assert (Hep : leb (nth e sims nan) (nth p sims nan) = true) by now apply Hlt.
      constructor; [exact Hep|].
      rewrite Forall_forall in *. intros x Hx.
      apply (Htrans (nth x sims nan) (nth e sims nan) (nth p sims nan));
        [apply nth_In; now apply Hrest|exact Pe|exact Pp|now apply Hall|exact Hep].
    + constructor; [now apply IH|].
      rewrite Forall_forall. intros x Hx.
      apply sort_insert_In in Hx. destruct Hx as [->|Hx].
      * apply Hge; auto. congruence.
      * rewrite Forall_forall in Hall. now apply Hall.
Qed.

Lemma array_sort_sorted (sims : list num) (l : list nat) :
  consistentOn sims ->
  Forall (fun i => i < length sims) l ->
  StronglySorted (desc sims) (array_sort (bySimDesc sims) l).
Proof.
  intros Hc. unfold array_sort.
  enough (H : forall acc,
             Forall (fun i => i < length sims) acc ->
             StronglySorted (desc sims) acc ->
             Forall (fun i => i < length sims) l ->
             StronglySorted (desc sims)
               (fold_left (fun sorted pivot => sort_insert (bySimDesc sims) pivot sorted)
                          l acc)).
  { intros Hl. apply H; auto; constructor. }
  induction l as [|x l IH]; intros acc Hacc Hs Hl; simpl; [assumption|].
  inversion Hl; subst. apply IH; auto.
  - rewrite Forall_forall in *. intros y Hy.
    apply sort_insert_In in Hy. destruct Hy as [->|Hy]; auto.
  - now apply sort_insert_sorted.
Qed.

Lemma StronglySorted_filter {T : Type} (R : T -> T -> Prop) (f : T -> bool) (l : list T) :
  StronglySorted R l -> StronglySorted R (filter f l).
Proof.
  induction 1 as [|x l Hs IH Hall]; simpl; [constructor|].
  destruct (f x); [|assumption].
  constructor; [assumption|].
  rewrite Forall_forall in *. intros y Hy.
  apply filter_In in Hy. now apply Hall.
Qed.

Lemma StronglySorted_firstn {T : Type} (R : T -> T -> Prop) (n : nat) (l : list T) :
  StronglySorted R l -> StronglySorted R (firstn n l).
Proof.
  intros Hs. revert n.
  induction Hs as [|x l Hs IH Hall]; intros [|n]; simpl; try constructor.
  - apply IH.
  - rewrite Forall_forall in *. intros y Hy.
    apply Hall. now apply (firstn_In n).
Qed.

Lemma StronglySorted_map {T U : Type} (R : U -> U -> Prop) (g : T -> U) (l : list T) :
  StronglySorted (fun a b => R (g a) (g b)) l -> StronglySorted R (map g l).
Proof.
  induction 1 as [|x l Hs IH Hall]; simpl; constructor; [assumption|].
  rewrite Forall_forall in *. intros y Hy.
  apply in_map_iff in Hy. destruct Hy as (z & <- & Hz). now apply Hall.
Qed.

Lemma filter_complement_length {T : Type} (f : T -> bool) (l : list T) :
  length (filter f l) + length (filter (fun x => negb (f x)) l) = length l.
Proof.
  induction l as [|x l IH]; simpl; [reflexivity|].
  destruct (f x); simpl; lia.
Qed.

(** With [k >= 1] the search keeps the contract of a top-k query. *)
Theorem topKSimilar_contract st m targetVec k exclude res :
  matrix st = Some m ->
  (1 <= k)%Z ->
  topKSimilar st targetVec k exclude = Ok res ->
  (Z.of_nat (length res) <= k)%Z /\
  Forall (fun n => set_has exclude (JString (word n)) = false) res /\
  (consistentOn (simsOf st m targetVec) -> nonIncreasing res).
Proof.
  intros Hm Hk Hres. split; [|split].
  - rewrite (topKSimilar_length st m targetVec k exclude res Hm Hres). lia.
  - rewrite (topKSimilar_closed st m targetVec k exclude Hm) in Hres.
    injection Hres as <-.
    rewrite Forall_forall. intros n Hn.
    apply firstn_In in Hn. apply in_map_iff in Hn.
    destruct Hn as (i & <- & Hi). apply filter_In in Hi.
    destruct Hi as [_ Hi]. unfold allowed in Hi. simpl.
    now apply negb_true_iff in Hi.
  - intros Hc.
    rewrite (topKSimilar_closed st m targetVec k exclude Hm) in Hres.
    injection Hres as <-.
    apply StronglySorted_firstn, StronglySorted_map, StronglySorted_filter.
    apply (array_sort_sorted _ _ Hc).
    rewrite Forall_forall. intros i Hi. apply in_seq in Hi. lia.
Qed.
End SearchContract.

(** ** Boundary values of [k] *)

Section SearchBounds.
Context {A : Arith}.

Lemma existsb_eqb_In (w : string) (voc : list string) :
  existsb (String.eqb w) voc = true -> In w voc.
Proof.
  intros H. apply existsb_exists in H. destruct H as (x & Hx & Heq).
  apply String.eqb_eq in Heq. now subst.
Qed.

Lemma set_has_In (s : JSSet) (w : string) :
  In (JString w) s -> set_has s (JString w) = true.
Proof.
  intros H. unfold set_has. apply existsb_exists.
  exists (JString w). split; [assumption|]. simpl. apply String.eqb_refl.
Qed.

(** The members of a set that are vocabulary words are no more than the
    rows they exclude. *)
Lemma excluded_rows_bound (voc : list string) (exclude : JSSet) :
  NoDup exclude ->
  length (filter (inVocab voc) exclude) <=
  length (filter (fun w => set_has exclude (JString w)) voc).
Proof.
  intros Hnd.
  rewrite <- (length_map JString (filter _ voc)).
  apply NoDup_incl_length; [now apply NoDup_filter|].
  intros v Hv. apply filter_In in Hv. destruct Hv as [Hin Hvoc].
  destruct v; simpl in Hvoc; try discriminate.
  apply in_map, filter_In. split.
  - now apply existsb_eqb_In.
  - now apply set_has_In.
Qed.

Lemma allowed_length (voc : list string) (exclude : JSSet) :
  length (filter (allowed exclude) voc) =
  length voc - length (filter (fun w => set_has exclude (JString w)) voc).
Proof.
  pose proof (filter_complement_length (fun w => set_has exclude (JString w)) voc) as H.
  cbv beta in H. unfold allowed. lia.
Qed.
End SearchBounds.

(** C1, as the code has it: [topKSimilar] never throws once the matrix is
    there; with [k] larger than the number of vocabulary rows that are not
    excluded it returns exactly those rows, which are at most the
    vocabulary size minus the number of members of the exclusion set that
    are vocabulary words. *)
Theorem topKSimilar_large_k {A : Arith} (st : state) (m targetVec : list num)
    (k : Z) (exclude : JSSet) :
  matrix st = Some m ->
  exists res,
    topKSimilar st targetVec k exclude = Ok res /\
    length res <= length (filter (allowed exclude) (vocab st)) /\
    ((Z.of_nat (length (filter (allowed exclude) (vocab st))) < k)%Z ->
     length res = length (filter (allowed exclude) (vocab st)) /\
     length res =
       length (vocab st) -
       length (filter (fun w => set_has exclude (JString w)) (vocab st)) /\
     (NoDup exclude ->
      length res <= length (vocab st) - length (filter (inVocab (vocab st)) exclude))).
Proof.
  intros Hm.
  destruct (topKSimilar st targetVec k exclude) as [res|err] eqn:Hres.
  2:{ rewrite (topKSimilar_closed st m targetVec k exclude Hm) in Hres. discriminate. }
  exists res. split; [reflexivity|].
  pose proof (topKSimilar_length st m targetVec k exclude res Hm Hres) as Hlen.
  split; [lia|]. intros Hk.
  assert (Hall : length res = length (filter (allowed exclude) (vocab st))) by lia.
  split; [exact Hall|]. split.
  - rewrite Hall. apply allowed_length.
  - intros Hnd. rewrite Hall, allowed_length.
    pose proof (excluded_rows_bound (vocab st) exclude Hnd). lia.
Qed.

Lemma topKSimilar_large_k_witness :
  exists res,
    topKSimilar Demo.smallState [IEEE.int 22; IEEE.int 29] 10 [JString "zz"; JString "b"]
      = Ok res /\
    length res = 3.
Proof.
  destruct (topKSimilar_large_k Demo.smallState _ [IEEE.int 22; IEEE.int 29] 10
              [JString "zz"; JString "b"] eq_refl) as (res & Hres & _ & Hk).
  exists res. split; [exact Hres|].
  destruct Hk as (Hall & _); [vm_compute; reflexivity|].
  rewrite Hall. vm_compute. reflexivity.
Defined.

(** C1 as stated fails: the default request on the fallback vocabulary
    excludes seven words, of which ["work"] is no vocabulary word; 77 rows
    come back, more than 83 - 7. *)
Lemma topKSimilar_exceeds_exclusion_bound :
  result_map (@length neighbor)
    (topKSimilar Demo.fallbackState [IEEE.int 1] DEFAULT_K (excludeSetOf defaultRequest))
    = Ok 77 /\
  set_size (excludeSetOf defaultRequest) = 7 /\
  length (vocab Demo.fallbackState) = 83.
Proof.
  split; [vm_compute; reflexivity|].
  split; vm_compute; reflexivity.
Qed.

(** C2, the defect: for [k <= 0] the loop pushes a row before it looks at
    [k], so one row comes back where the contract allows none. *)
Theorem topKSimilar_nonpositive_k {A : Arith} (st : state) (m targetVec : list num)
    (k : Z) (exclude : JSSet) :
  matrix st = Some m ->
  (k <= 0)%Z ->
  (exists w, In w (vocab st) /\ allowed exclude w = true) ->
  exists n,
    topKSimilar st targetVec k exclude = Ok [n] /\
    (k < Z.of_nat (length [n]))%Z.
Proof.
  intros Hm Hk (w & Hw & Hallowed).
  destruct (topKSimilar st targetVec k exclude) as [res|err] eqn:Hres.
  2:{ rewrite (topKSimilar_closed st m targetVec k exclude Hm) in Hres. discriminate. }
  pose proof (topKSimilar_length st m targetVec k exclude res Hm Hres) as Hlen.
  assert (Hpos : 1 <= length (filter (allowed exclude) (vocab st))).
  { assert (Hin : In w (filter (allowed exclude) (vocab st)))
      by (apply filter_In; now split).
    destruct (filter (allowed exclude) (vocab st)); [destruct Hin|simpl; lia]. }
  destruct res as [|n [|n' res]]; cbn [length] in Hlen.
  - lia.
  - exists n. split; [reflexivity|]. cbn [length]. lia.
  - lia.
Qed.

Lemma topKSimilar_nonpositive_k_witness :
  exists n,
    topKSimilar Demo.smallState [IEEE.int 22; IEEE.int 29] 0 [] = Ok [n] /\
    (0 < Z.of_nat (length [n]))%Z.
Proof.
  apply (topKSimilar_nonpositive_k Demo.smallState _ [IEEE.int 22; IEEE.int 29] 0 []
           eq_refl).
  - lia.
  - exists "a". split; [simpl; now left|reflexivity].
Defined.

(** ** The search path leaves the globals alone *)

Ltac run := unfold bindM, ret, throw, lift, get, put, modify, getDisk, putDisk.

Section Frame.
Context {A : Arith}.

Lemma ensureEmbedder_loaded (e : env) (w : world) :
  embedder (globals w) = true -> ensureEmbedder e w = (Ok tt, w).
Proof.
  intros H. unfold ensureEmbedder. run. simpl. now rewrite H.
Qed.

Lemma embedMany_frame (e : env) (texts : list jsval) (w : world) :
  embedder (globals w) = true ->
  snd (embedMany e texts w) = w.
Proof.
  intros H. unfold embedMany. unfold bindM at 1.
  rewrite (ensureEmbedder_loaded e w H).
  unfold bindM at 1. unfold lift.
  destruct (pipe e texts) as [out|err]; [|reflexivity].
  destruct out as [items|f32 data|v|]; run; simpl;
    repeat match goal with
           | |- context [if ?b then _ else _] => destruct b; simpl
           end; reflexivity.
Qed.

(** With an aligned provider [embedMany] is the map of [toVec]. *)
Lemma embedMany_aligned (e : env) (texts : list jsval) (w : world) :
  embedder (globals w) = true ->
  providerAligned e ->
  exists embs,
    embedMany e texts w = (Ok embs, w) /\ length embs = length texts.
Proof.
  intros H Hp. destruct (Hp texts) as (items & Hpipe & Hlen & Hall).
  unfold embedMany. unfold bindM at 1.
  rewrite (ensureEmbedder_loaded e w H).
  unfold bindM at 1. unfold lift. rewrite Hpipe.
  assert (Hno : existsb isNull (map toVec items) = false).
  { clear Hpipe Hlen. induction items as [|it items IH]; [reflexivity|].
    simpl in *. apply andb_true_iff in Hall. destruct Hall as [H1 H2].
    apply negb_true_iff in H1. rewrite H1. now apply IH. }
  rewrite Hno. exists (present (map toVec items)). split; [reflexivity|].
  rewrite <- Hlen. clear Hpipe Hlen Hno.
  induction items as [|it items IH]; [reflexivity|].
  simpl in *. apply andb_true_iff in Hall. destruct Hall as [H1 H2].
  destruct (toVec it); [|discriminate]. simpl. now rewrite IH.
Qed.
End Frame.

Section SearchPath.
Context {A : Arith}.

(** With a matrix in memory, the handler of [index.js] is the pure
    [answer] on the embeddings of the request. *)
Lemma ServerIndex_search_loaded (e : env) (req : request) (w : world) (m : list num) :
  matrix (globals w) = Some m ->
  embedder (globals w) = true ->
  ServerIndex.search e req w =
  (let* pairObjs := collectPairs (pairs req) in
   let* embs := fst (embedMany e (textsOf req pairObjs) w) in
   ServerIndex.answer e (globals w) req pairObjs embs, w).
Proof.
  intros Hm He. unfold ServerIndex.search. run. rewrite Hm. simpl.
  destruct (collectPairs (pairs req)) as [po|err]; simpl; [|reflexivity].
  pose proof (embedMany_frame e (textsOf req po) w He) as Hf.
  unfold textsOf in *.
  destruct (embedMany e _ w) as [r w1]. simpl in *. subst w1.
  destruct r; reflexivity.
Qed.

Lemma Part002_search_loaded (e : env) (req : request) (w : world) (m : list num) :
  matrix (globals w) = Some m ->
  embedder (globals w) = true ->
  Part002.search e req w =
  (let* pairObjs := collectPairs (pairs req) in
   let* embs := fst (embedMany e (textsOf req pairObjs) w) in
   Part002.answer e (globals w) req pairObjs embs, w).
Proof.
  intros Hm He. unfold Part002.search. run. rewrite Hm. simpl.
  destruct (collectPairs (pairs req)) as [po|err]; simpl; [|reflexivity].
  pose proof (embedMany_frame e (textsOf req po) w He) as Hf.
  unfold textsOf in *.
  destruct (embedMany e _ w) as [r w1]. simpl in *. subst w1.
  destruct r; reflexivity.
Qed.

Lemma respond_snd (h : M response) (w : world) : snd (respond h w) = snd (h w).
Proof. unfold respond. destruct (h w) as [[b|err] w']; reflexivity. Qed.

Lemma respond_fst (h h' : M response) (w w' : world) :
  fst (h w) = fst (h' w') -> fst (respond h w) = fst (respond h' w').
Proof.
  unfold respond. destruct (h w) as [[b|err] w1], (h' w') as [[b'|err'] w1'];
    simpl; intros H; congruence.
Qed.

(** The embeddings do not depend on the files or on the signature
    function once the pipeline is loaded. *)
Lemma embedMany_independent (e : env) (h : string -> nat -> list string -> string -> string)
    (texts : list jsval) (st : state) (d d' : disk) :
  embedder st = true ->
  fst (embedMany (withHash e h) texts (mkWorld st d')) =
  fst (embedMany e texts (mkWorld st d)).
Proof.
  intros He. unfold embedMany, bindM.
  rewrite !ensureEmbedder_loaded by exact He.
  unfold lift. simpl.
  destruct (pipe e texts) as [out|err]; [|reflexivity].
  destruct out as [items|f32 data|v|]; run; simpl;
    repeat match goal with
           | |- context [if ?b then _ else _] => destruct b; simpl
           end; reflexivity.
Qed.
End SearchPath.

(** ** Projection failures and miscounted embeddings *)

Section Projection.
Context {A : Arith}.

Lemma ServerIndex_makePCA_throws (e : env) (points : list point) :
  points <> [] ->
  pcaFails e ->
  exists err', ServerIndex.makePCA e points = Throw err'.
Proof.
  intros Hne Hpca. unfold ServerIndex.makePCA.
  destruct points as [|p ps]; [contradiction|].
  cbn [length Nat.eqb].
  destruct (mapM arrayFrom (map pvec (p :: ps))) as [X|err0]; cbn [bind].
  - specialize (Hpca X). destruct (PCA e X) as [pca|err]; cbn [bind].
    + destruct (Hpca (Nat.max 1 (Nat.min 3 (length (hd [] X))))) as [err Herr].
      rewrite Herr. now exists err.
    + now exists err.
  - now exists err0.
Qed.

Lemma ServerIndex_answer_throws (e : env) (st : state) (req : request)
    (pairObjs : list (string * string)) (embs : list (list num)) :
  pcaFails e ->
  exists err', ServerIndex.answer e st req pairObjs embs = Throw err'.
Proof.
  intros Hpca. unfold ServerIndex.answer.
  destruct (ServerIndex.translate st pairObjs embs) as [tr|e1]; simpl;
    [|now exists e1].
  destruct (topKSimilar st (t_query tr) (k req) (excludeSetOf req)) as [ns|e2]; simpl;
    [|now exists e2].
  destruct (mapM (fun n => getRow st (index n)) ns) as [rows|e3]; simpl;
    [|now exists e3].
  match goal with
  | |- context [ServerIndex.makePCA e ?pts] =>
      destruct (ServerIndex_makePCA_throws e pts) as [e4 H4];
        [|exact Hpca|rewrite H4; simpl; now exists e4]
  end.
  intros Habs. apply (f_equal (@length point)) in Habs.
  rewrite !length_app in Habs. simpl in Habs. lia.
Qed.

Lemma map_indexed {T U : Type} (f : nat * T -> U) (g : T -> U) (l : list T) (a : nat) :
  (forall i x, f (i, x) = g x) ->
  map f (combine (seq a (length l)) l) = map g l.
Proof.
  intros H. revert a. induction l as [|x l IH]; intros a; simpl; [reflexivity|].
  now rewrite H, IH.
Qed.

Lemma finiteOrZero_zeros (X : list (list num)) (i j : nat) :
  finiteOrZero (nth i (map (fun _ => [zero; zero; zero]) X) []) j = zero.
Proof.
  destruct (nth_in_or_default i (map (fun _ : list num => [zero; zero; zero]) X) [])
    as [Hin|Hd].
  - apply in_map_iff in Hin. destruct Hin as (x & <- & _).
    unfold finiteOrZero.
    destruct j as [|[|[|j]]]; simpl; try (destruct (isFinite zero); reflexivity).
    now destruct j.
  - rewrite Hd. unfold finiteOrZero. now destruct j.
Qed.

(** [part_002]: when the constructor or the prediction throws, every
    point is placed at the origin and the variances are zero. *)
Lemma Part002_makePCA_fallback (e : env) (points : list point) (X : list (list num)) :
  points <> [] ->
  mapM arrayFrom (map pvec points) = Ok X ->
  pcaFails e ->
  Part002.makePCA e points =
  Ok (map (fun p => mkPlaced p zero zero zero) points, [zero; zero; zero]).
Proof.
  intros Hne HX Hfails. pose proof (Hfails X) as Hfail. unfold Part002.makePCA.
  destruct points as [|p ps]; [contradiction|].
  cbn [length Nat.eqb]. rewrite HX. cbn [bind].
  assert (HY : (match PCA e X with
                | Throw _ => ([], [])
                | Ok pca =>
                    if 0 <? Nat.min 3 (Nat.max 1 (Nat.min (length (hd [] X))
                                                      (S (length ps))))
                    then match predict pca X
                                 (Nat.min 3 (Nat.max 1 (Nat.min (length (hd [] X))
                                                            (S (length ps))))) with
                         | Throw _ => ([], [])
                         | Ok Y => match getExplainedVariance pca with
                                   | Throw _ => (Y, [])
                                   | Ok ev => (Y, ev)
                                   end
                         end
                    else ([], [])
                end) = (@nil (list num), @nil num)).
  { destruct (PCA e X) as [pca|err]; [|reflexivity].
    destruct (0 <? _); [|reflexivity].
    destruct (Hfail (Nat.min 3 (Nat.max 1 (Nat.min (length (hd [] X)) (S (length ps))))))
      as [err Herr].
    now rewrite Herr. }
  rewrite HY. cbn [fst snd length Nat.eqb]. f_equal. f_equal.
  change (S (length ps)) with (length (p :: ps)).
  apply map_indexed. intros i q. now rewrite !finiteOrZero_zeros.
Qed.
End Projection.

(** C3, the defect: in [index.js] nothing catches a throw of the PCA
    library, so that a request whose projection fails is answered with
    status 500, whatever else it holds; the fallback to zero coordinates
    exists in [part_002] only ([Part002_makePCA_fallback]). *)
Theorem ServerIndex_pca_failure_rejects {A : Arith} (e : env) (req : request)
    (w : world) :
  pcaFails e ->
  exists err', fst (ServerIndex.postSearch e req w) = Error500 err'.
Proof.
  intros Hpca. unfold ServerIndex.postSearch, respond, ServerIndex.search. run.
  destruct ((if isNull (matrix (globals w))
             then buildOrLoadEmbeddingMatrix false e (contextTemplate req)
             else fun w0 => (Ok tt, w0)) w) as [[[]|e0] w1]; [|now exists e0].
  destruct (collectPairs (pairs req)) as [po|e1]; [|now exists e1].
  destruct (embedMany e _ w1) as [[embs|e2] w2]; [|now exists e2].
  destruct (ServerIndex_answer_throws e (globals w2) req po embs Hpca) as [e3 H3].
  rewrite H3. now exists e3.
Qed.

Lemma failingPcaEnv_fails : pcaFails Demo.failingPcaEnv.
Proof. intros X. exact I. Qed.

Lemma ServerIndex_pca_failure_rejects_witness :
  exists err',
    fst (ServerIndex.postSearch Demo.failingPcaEnv Demo.mixedRequest Demo.smallWorld)
      = Error500 err'.
Proof.
  exact (ServerIndex_pca_failure_rejects Demo.failingPcaEnv Demo.mixedRequest
           Demo.smallWorld failingPcaEnv_fails).
Defined.

(** On the same request [part_002] answers: six points at the origin, zero
    variances, and the two neighbours of the search. *)
Lemma Part002_pca_failure_recovers :
  match fst (Part002.postSearch Demo.failingPcaEnv Demo.mixedRequest Demo.smallWorld) with
  | Json200 body =>
      map (fun p => (o_x p, o_y p)) (r_points body) = repeat (zero, zero) 6 /\
      r_explainedVariance body = [zero; zero; zero] /\
      map fst (r_neighbors body) = ["c"; "b"]
  | Error500 _ => False
  end.
Proof. vm_compute. repeat split; reflexivity. Qed.

(** [part_002] refuses embeddings that do not match the texts in number. *)
Lemma Part002_count_mismatch {A : Arith} (e : env) (st : state) (req : request)
    (pairObjs : list (string * string)) (embs : list (list num)) :
  length embs <> length (flatWordsOf pairObjs (target req)) ->
  Part002.answer e st req pairObjs embs = Throw (Error "Embedding count mismatch").
Proof.
  intros Hne. unfold Part002.answer.
  apply Nat.eqb_neq in Hne. now rewrite Hne.
Qed.

(** C5, the defect: [index.js] never compares the number of embeddings
    with the number of texts.  Three texts (["x"], ["y"], ["a"]) answered
    with four vectors are accepted: the request succeeds, and the vector
    taken for the target is the fourth, [(3, 1)], where the target's own
    is the third. *)
Theorem ServerIndex_accepts_miscounted_embeddings :
  match fst (ServerIndex.postSearch Demo.extraVectorEnv Demo.onePairRequest
               Demo.smallWorld) with
  | Json200 body => r_targetEmbedding body = [IEEE.int 3; IEEE.int 1]
  | Error500 _ => False
  end /\
  match fst (Part002.postSearch Demo.extraVectorEnv Demo.onePairRequest
               Demo.smallWorld) with
  | Json200 _ => False
  | Error500 err => err = Error "Embedding count mismatch"
  end.
Proof. split; vm_compute; reflexivity. Qed.

(** ** Requests that are answered *)

Section Success.
Context {A : Arith}.

Lemma collectPairs_iterable (entries : list jsval) :
  forallb iterable entries = true ->
  collectPairs entries = Ok (validPairs entries).
Proof.
  induction entries as [|entry rest IH]; intros Hit; [reflexivity|].
  simpl in Hit. apply andb_true_iff in Hit. destruct Hit as [H1 H2].
  cbn [collectPairs validPairs flat_map].
  fold (validPairs rest). rewrite (IH H2).
  destruct entry; try discriminate; cbn [destructure2 bind].
  - destruct s as [|a [|b s]]; reflexivity.
  - destruct (nth 0 items JUndefined); try reflexivity.
    destruct (nth 1 items JUndefined); reflexivity.
Qed.

Lemma validPairs_filter (entries : list jsval) :
  validPairs (filter wellFormedPair entries) = validPairs entries.
Proof.
  induction entries as [|entry rest IH]; [reflexivity|].
  cbn [filter validPairs flat_map]. fold (validPairs rest).
  unfold wellFormedPair at 1.
  destruct (destructure2 entry) as [[a b]|err] eqn:Hd.
  - destruct a; try (cbn [app]; exact IH).
    destruct b; try (cbn [app]; exact IH).
    cbn [validPairs flat_map]. rewrite Hd. fold (validPairs (filter wellFormedPair rest)).
    now rewrite IH.
  - cbn [app]. exact IH.
Qed.

Lemma filter_iterable (entries : list jsval) :
  forallb iterable (filter wellFormedPair entries) = true.
Proof.
  induction entries as [|entry rest IH]; [reflexivity|].
  cbn [filter]. destruct (wellFormedPair entry) eqn:Hw; [|exact IH].
  cbn [forallb]. rewrite IH, andb_true_r.
  unfold wellFormedPair in Hw. now destruct entry.
Qed.

Lemma flatWordsOf_length (pairObjs : list (string * string)) (tgt : string) :
  length (flatWordsOf pairObjs tgt) = 2 * length pairObjs + 1.
Proof.
  unfold flatWordsOf. rewrite length_app. simpl.
  induction pairObjs as [|ab po IH]; simpl in *; lia.
Qed.

Lemma fill_total (d : nat) (f : nat -> result num) (g : nat -> num) :
  (forall j, f j = Ok (g j)) -> fill d f = Ok (fillPure d g).
Proof.
  intros H. unfold fill, fillPure. apply mapM_total.
  intros j _. now rewrite H.
Qed.

Lemma deltaOf_total (d : nat) (embs : list (list num)) (i : nat) :
  2 * i + 1 < length embs ->
  deltaOf d embs i =
  Ok (fillPure d (fun j => sub (nth j (nth (2 * i + 1) embs []) nan)
                               (nth j (nth (2 * i) embs []) nan))).
Proof.
  intros Hi. unfold deltaOf.
  rewrite (nth_error_nth' embs [] (n := 2 * i)) by lia.
  rewrite (nth_error_nth' embs [] (n := 2 * i + 1)) by lia.
  apply fill_total. intros j. reflexivity.
Qed.

Lemma ServerIndex_translate_total (st : state) (pairObjs : list (string * string))
    (embs : list (list num)) :
  length embs = 2 * length pairObjs + 1 ->
  let target := nth (length embs - 1) embs [] in
  let avgDelta := averageOf (dim st) (deltasOf (dim st) pairObjs embs) in
  let transformed := fillPure (dim st) (fun j => add (nth j target nan) (nth j avgDelta nan)) in
  ServerIndex.translate st pairObjs embs =
  Ok (mkTranslation avgDelta (Some target) transformed
        (if normalized st then normalizeVec transformed else transformed)).
Proof.
  intros Hlen target avgDelta transformed. unfold ServerIndex.translate.
  rewrite (mapM_total _ (fun i => fillPure (dim st)
             (fun j => sub (nth j (nth (2 * i + 1) embs []) nan)
                           (nth j (nth (2 * i) embs []) nan)))).
  2:{ intros i Hi. apply in_seq in Hi. apply deltaOf_total. lia. }
  cbn [bind]. fold (deltasOf (dim st) pairObjs embs). fold avgDelta.
  unfold transformedOf.
  rewrite (nth_error_nth' embs [] (n := length embs - 1)) by lia.
  fold target.
  rewrite (fill_total _ _ (fun j => add (nth j target nan) (nth j avgDelta nan)))
    by (intros j; reflexivity).
  reflexivity.
Qed.

Lemma Part002_translate_total (st : state) (pairObjs : list (string * string))
    (embs : list (list num)) :
  length embs = 2 * length pairObjs + 1 ->
  let target := nth (length embs - 1) embs [] in
  let avgDelta := averageOf (dim st) (deltasOf (dim st) pairObjs embs) in
  let transformed := fillPure (dim st) (fun j => add (nth j target nan) (nth j avgDelta nan)) in
  Part002.translate st pairObjs embs =
  Ok (mkTranslation avgDelta (Some target) transformed transformed).
Proof.
  intros Hlen target avgDelta transformed. unfold Part002.translate.
  rewrite (mapM_total _ (fun i => fillPure (dim st)
             (fun j => sub (nth j (nth (2 * i + 1) embs []) nan)
                           (nth j (nth (2 * i) embs []) nan)))).
  2:{ intros i Hi. apply in_seq in Hi. apply deltaOf_total. lia. }
  cbn [bind]. fold (deltasOf (dim st) pairObjs embs). fold avgDelta.
  unfold transformedOf.
  rewrite (nth_error_nth' embs [] (n := length embs - 1)) by lia.
  fold target.
  rewrite (fill_total _ _ (fun j => add (nth j target nan) (nth j avgDelta nan)))
    by (intros j; reflexivity).
  reflexivity.
Qed.
End Success.

Section Answered.
Context {A : Arith}.

Lemma mapM_arrayFrom_total (vs : list (option (list num))) :
  Forall (fun v => v <> None) vs ->
  exists X, mapM arrayFrom vs = Ok X /\ length X = length vs.
Proof.
  induction 1 as [|v vs Hv _ (X & HX & Hlen)].
  - now exists [].
  - destruct v as [l|]; [|contradiction].
    exists (l :: X). cbn [mapM arrayFrom bind]. rewrite HX. cbn [bind].
    split; [reflexivity|]. simpl. now rewrite Hlen.
Qed.

Lemma seedPoints_vectors (pairObjs : list (string * string)) (embs : list (list num)) :
  2 * length pairObjs < length embs ->
  Forall (fun v => v <> None) (map pvec (seedPoints pairObjs embs)).
Proof.
  intros Hlen. unfold seedPoints. rewrite Forall_forall. intros v Hv.
  apply in_map_iff in Hv. destruct Hv as (p & <- & Hp).
  apply in_flat_map in Hp. destruct Hp as ([i ab] & Hi & Hp).
  apply in_combine_l, in_seq in Hi.
  cbn [fst snd] in Hp.
  destruct Hp as [<-|[<-|[]]]; cbn [pvec]; apply nth_error_Some; lia.
Qed.

Lemma getRows_total (st : state) (m : list num) (ns : list neighbor) :
  matrix st = Some m ->
  mapM (fun n => getRow st (index n)) ns =
  Ok (map (fun n => subarray m (index n * dim st) (index n * dim st + dim st)) ns).
Proof.
  intros Hm. apply mapM_total. intros n _. unfold getRow. now rewrite Hm.
Qed.

Lemma placed_total (Y : list (list num)) (points : list point) (a : nat) :
  a + length points <= length Y ->
  exists placedPoints,
    mapM (fun ip =>
            match nth_error Y (fst ip) with
            | None => Throw (TypeError "Cannot read properties of undefined (reading '0')")
            | Some row =>
                Ok (mkPlaced (snd ip) (orZero row 0) (orZero row 1) (orZero row 2))
            end)
         (combine (seq a (length points)) points) = Ok placedPoints.
Proof.
  revert a. induction points as [|p ps IH]; intros a Hlen.
  - now exists [].
  - cbn [length seq combine mapM fst snd].
    destruct (nth_error Y a) as [row|] eqn:Hrow.
    + cbn [bind]. destruct (IH (S a)) as (rest & Hrest); [simpl in Hlen; lia|].
      rewrite Hrest. cbn [bind]. eexists. reflexivity.
    + apply nth_error_None in Hrow. simpl in Hlen. lia.
Qed.

Lemma ServerIndex_makePCA_total (e : env) (points : list point) :
  pcaTotal e ->
  Forall (fun v => v <> None) (map pvec points) ->
  exists projected, ServerIndex.makePCA e points = Ok projected.
Proof.
  intros Hpca Hv. unfold ServerIndex.makePCA.
  destruct (length points =? 0); [eexists; reflexivity|].
  destruct (mapM_arrayFrom_total _ Hv) as (X & HX & HlenX).
  rewrite HX. cbn [bind].
  destruct (Hpca X) as (pca & Hctor & Hpred & (ev & Hev)).
  rewrite Hctor. cbn [bind].
  destruct (Hpred (Nat.max 1 (Nat.min 3 (length (hd [] X))))) as (Y & HY & HlenY).
  rewrite HY. cbn [bind]. rewrite Hev. cbn [bind].
  destruct (placed_total Y points 0) as (pl & Hpl).
  { rewrite length_map in HlenX. simpl. lia. }
  rewrite Hpl. cbn [bind]. eexists. reflexivity.
Qed.

Lemma Part002_makePCA_total (e : env) (points : list point) :
  Forall (fun v => v <> None) (map pvec points) ->
  exists projected, Part002.makePCA e points = Ok projected.
Proof.
  intros Hv. unfold Part002.makePCA.
  destruct (length points =? 0); [eexists; reflexivity|].
  destruct (mapM_arrayFrom_total _ Hv) as (X & HX & HlenX).
  rewrite HX. cbn [bind]. eexists. reflexivity.
Qed.

(** [index.js] answers every request whose embeddings match its texts in
    number, provided the PCA library does not throw. *)
Lemma ServerIndex_answer_total (e : env) (st : state) (m : list num) (req : request)
    (pairObjs : list (string * string)) (embs : list (list num)) :
  matrix st = Some m ->
  length embs = 2 * length pairObjs + 1 ->
  pcaTotal e ->
  exists body tr,
    ServerIndex.translate st pairObjs embs = Ok tr /\
    ServerIndex.answer e st req pairObjs embs = Ok body /\
    r_avgDelta body = t_avgDelta tr /\
    r_transformed body = t_query tr /\
    Some (r_targetEmbedding body) = t_targetEmb tr.
Proof.
  intros Hm Hlen Hpca. unfold ServerIndex.answer.
  rewrite (ServerIndex_translate_total st pairObjs embs Hlen). cbn [bind].
  match goal with |- context [Ok ?t = Ok _] => set (tr := t) end.
  destruct (topKSimilar_total st m (t_query tr) (k req) (excludeSetOf req) Hm)
    as (ns & Hns).
  rewrite Hns. cbn [bind].
  rewrite (getRows_total st m ns Hm). cbn [bind].
  match goal with
  | |- context [ServerIndex.makePCA e ?pts] =>
      destruct (ServerIndex_makePCA_total e pts Hpca) as (projected & Hproj)
  end.
  { rewrite !map_app. apply Forall_app. split; [|apply Forall_app; split].
    - rewrite Forall_forall. intros v Hv. apply in_map_iff in Hv.
      destruct Hv as (p & <- & Hp). apply in_map_iff in Hp.
      destruct Hp as (nr & <- & _). discriminate.
    - repeat constructor; discriminate.
    - destruct (includeSeeds req); [|constructor].
      apply seedPoints_vectors. lia. }
  rewrite Hproj. cbn [bind t_targetEmb tr arrayFrom].
  eexists. exists tr. split; [reflexivity|]. split; [reflexivity|].
  repeat split.
Qed.

Lemma Part002_answer_total (e : env) (st : state) (m : list num) (req : request)
    (pairObjs : list (string * string)) (embs : list (list num)) :
  matrix st = Some m ->
  length embs = 2 * length pairObjs + 1 ->
  exists body tr,
    Part002.translate st pairObjs embs = Ok tr /\
    Part002.answer e st req pairObjs embs = Ok body /\
    r_avgDelta body = t_avgDelta tr /\
    r_transformed body = t_query tr /\
    Some (r_targetEmbedding body) = t_targetEmb tr.
Proof.
  intros Hm Hlen. unfold Part002.answer.
  rewrite flatWordsOf_length, Hlen, Nat.eqb_refl. cbn [negb bind].
  rewrite (Part002_translate_total st pairObjs embs Hlen). cbn [bind].
  match goal with |- context [Ok ?t = Ok _] => set (tr := t) end.
  destruct (topKSimilar_total st m (t_query tr) (k req) (excludeSetOf req) Hm)
    as (ns & Hns).
  rewrite Hns. cbn [bind].
  rewrite (getRows_total st m ns Hm). cbn [bind].
  match goal with
  | |- context [Part002.makePCA e ?pts] =>
      destruct (Part002_makePCA_total e pts) as (projected & Hproj)
  end.
  { rewrite !map_app. apply Forall_app. split; [|apply Forall_app; split].
    - rewrite Forall_forall. intros v Hv. apply in_map_iff in Hv.
      destruct Hv as (p & <- & Hp). apply in_map_iff in Hp.
      destruct Hp as (nr & <- & _). discriminate.
    - repeat constructor; discriminate.
    - destruct (includeSeeds req); [|constructor].
      apply seedPoints_vectors. lia. }
  rewrite Hproj. cbn [bind t_targetEmb tr arrayFrom].
  eexists. exists tr. split; [reflexivity|]. split; [reflexivity|].
  repeat split.
Qed.
End Answered.

Section AnsweredRequests.
Context {A : Arith}.

(** A request that finds the matrix in memory and whose embeddings match
    its texts is answered by both files, with the fields of its
    translation. *)
Lemma ServerIndex_search_answered (e : env) (req : request) (w : world) (m : list num)
    (pairObjs : list (string * string)) (embs : list (list num)) :
  matrix (globals w) = Some m ->
  embedder (globals w) = true ->
  collectPairs (pairs req) = Ok pairObjs ->
  fst (embedMany e (textsOf req pairObjs) w) = Ok embs ->
  length embs = 2 * length pairObjs + 1 ->
  pcaTotal e ->
  exists body tr,
    ServerIndex.postSearch e req w = (Json200 body, w) /\
    ServerIndex.translate (globals w) pairObjs embs = Ok tr /\
    r_avgDelta body = t_avgDelta tr /\
    r_transformed body = t_query tr /\
    Some (r_targetEmbedding body) = t_targetEmb tr.
Proof.
  intros Hm He Hpo Hembs Hlen Hpca.
  destruct (ServerIndex_answer_total e (globals w) m req pairObjs embs Hm Hlen Hpca)
    as (body & tr & Htr & Hans & Hfields).
  exists body, tr. split; [|split; assumption].
  unfold ServerIndex.postSearch, respond.
  rewrite (ServerIndex_search_loaded e req w m Hm He), Hpo. cbn [bind].
  rewrite Hembs. cbn [bind]. now rewrite Hans.
Qed.

Lemma Part002_search_answered (e : env) (req : request) (w : world) (m : list num)
    (pairObjs : list (string * string)) (embs : list (list num)) :
  matrix (globals w) = Some m ->
  embedder (globals w) = true ->
  collectPairs (pairs req) = Ok pairObjs ->
  fst (embedMany e (textsOf req pairObjs) w) = Ok embs ->
  length embs = 2 * length pairObjs + 1 ->
  exists body tr,
    Part002.postSearch e req w = (Json200 body, w) /\
    Part002.translate (globals w) pairObjs embs = Ok tr /\
    r_avgDelta body = t_avgDelta tr /\
    r_transformed body = t_query tr /\
    Some (r_targetEmbedding body) = t_targetEmb tr.
Proof.
  intros Hm He Hpo Hembs Hlen.
  destruct (Part002_answer_total e (globals w) m req pairObjs embs Hm Hlen)
    as (body & tr & Htr & Hans & Hfields).
  exists body, tr. split; [|split; assumption].
  unfold Part002.postSearch, respond.
  rewrite (Part002_search_loaded e req w m Hm He), Hpo. cbn [bind].
  rewrite Hembs. cbn [bind]. now rewrite Hans.
Qed.

Lemma nth_repeat_lt {T : Type} (x d : T) (n j : nat) :
  j < n -> nth j (repeat x n) d = x.
Proof.
  revert j. induction n as [|n IH]; intros [|j] Hj; simpl; try lia; auto.
  apply IH. lia.
Qed.

(** Adding the zero vector, entry by entry, into a fresh [Float32Array]. *)
Lemma add_zero_vector (t : list num) :
  (forall x, In x t -> fround (add x zero) = x) ->
  fillPure (length t) (fun j => add (nth j t nan) (nth j (repeat zero (length t)) nan)) = t.
Proof.
  intros Hlaw. unfold fillPure.
  transitivity (map (fun i => nth i t nan) (seq 0 (length t)));
    [|apply map_nth_seq].
  apply map_ext_in. intros j Hj. apply in_seq in Hj.
  rewrite nth_repeat_lt by lia.
  apply Hlaw. apply nth_In. lia.
Qed.
End AnsweredRequests.

(** C7, as the code has it: of the pair entries that can be destructured
    (arrays, and strings) every one with a member that is no string is left
    out of [pairObjs] without an error, and the request is answered all the
    same: with collaborators that keep their contracts both files answer
    200, and the average delta, the target embedding and the translated
    vector are those of the request without the malformed entries. *)
Theorem malformed_pairs_dropped {A : Arith} (e : env) (req : request) (w : world)
    (m : list num) :
  forallb iterable (pairs req) = true ->
  matrix (globals w) = Some m ->
  embedder (globals w) = true ->
  providerAligned e ->
  pcaTotal e ->
  let cleaned := withPairs req (filter wellFormedPair (pairs req)) in
  collectPairs (pairs req) = Ok (validPairs (pairs req)) /\
  length (validPairs (pairs req)) = length (filter wellFormedPair (pairs req)) /\
  (exists body body',
     ServerIndex.postSearch e req w = (Json200 body, w) /\
     ServerIndex.postSearch e cleaned w = (Json200 body', w) /\
     r_avgDelta body = r_avgDelta body' /\
     r_targetEmbedding body = r_targetEmbedding body' /\
     r_transformed body = r_transformed body') /\
  (exists body body',
     Part002.postSearch e req w = (Json200 body, w) /\
     Part002.postSearch e cleaned w = (Json200 body', w) /\
     r_avgDelta body = r_avgDelta body' /\
     r_targetEmbedding body = r_targetEmbedding body' /\
     r_transformed body = r_transformed body').
Proof.
  intros Hit Hm He Hprov Hpca cleaned.
  pose proof (collectPairs_iterable (pairs req) Hit) as Hpo.
  assert (Hpo' : collectPairs (pairs cleaned) = Ok (validPairs (pairs req))).
  { unfold cleaned. cbn [withPairs pairs].
    rewrite (collectPairs_iterable _ (filter_iterable (pairs req))).
    now rewrite validPairs_filter. }
  destruct (embedMany_aligned e (textsOf req (validPairs (pairs req))) w He Hprov)
    as (embs & Hembs & Hlen).
  assert (Hfst : fst (embedMany e (textsOf req (validPairs (pairs req))) w) = Ok embs)
    by now rewrite Hembs.
  assert (Hlen' : length embs = 2 * length (validPairs (pairs req)) + 1).
  { rewrite Hlen. unfold textsOf, wordsToTexts. rewrite !length_map.
    apply flatWordsOf_length. }
  split; [exact Hpo|]. split.
  { clear. induction (pairs req) as [|entry rest IH]; [reflexivity|].
    cbn [validPairs flat_map filter]. fold (validPairs rest).
    rewrite length_app, IH. unfold wellFormedPair.
    destruct (destructure2 entry) as [[a b]|err]; [|reflexivity].
    destruct a; try reflexivity. destruct b; reflexivity. }
  split.
  - destruct (ServerIndex_search_answered e req w m _ embs Hm He Hpo Hfst Hlen' Hpca)
      as (body & tr & Hbody & Htr & Ha & Hq & Ht).
    destruct (ServerIndex_search_answered e cleaned w m _ embs Hm He Hpo' Hfst Hlen' Hpca)
      as (body' & tr' & Hbody' & Htr' & Ha' & Hq' & Ht').
    exists body, body'. rewrite Htr in Htr'. injection Htr' as <-.
    repeat split; try assumption; congruence.
  - destruct (Part002_search_answered e req w m _ embs Hm He Hpo Hfst Hlen')
      as (body & tr & Hbody & Htr & Ha & Hq & Ht).
    destruct (Part002_search_answered e cleaned w m _ embs Hm He Hpo' Hfst Hlen')
      as (body' & tr' & Hbody' & Htr' & Ha' & Hq' & Ht').
    exists body, body'. rewrite Htr in Htr'. injection Htr' as <-.
    repeat split; try assumption; congruence.
Qed.

(** C6: with no pair left after the loop over [pairs], the average delta is
    the zero vector and the raw sum is the target's embedding, so that the
    translated vector of [index.js] is the normalised embedding of the
    target; [part_002] hands the raw sum, the embedding itself, to
    [topKSimilar], which normalises it. *)
Theorem zero_pairs_identity {A : Arith} (e : env) (req : request) (w : world)
    (m t : list num) :
  matrix (globals w) = Some m ->
  embedder (globals w) = true ->
  normalized (globals w) = true ->
  collectPairs (pairs req) = Ok [] ->
  fst (embedMany e (textsOf req []) w) = Ok [t] ->
  length t = dim (globals w) ->
  (forall x, In x t -> fround (add x zero) = x) ->
  pcaTotal e ->
  (exists body,
     ServerIndex.postSearch e req w = (Json200 body, w) /\
     r_avgDelta body = repeat zero (dim (globals w)) /\
     r_targetEmbedding body = t /\
     r_transformed body = normalizeVec t) /\
  (exists body,
     Part002.postSearch e req w = (Json200 body, w) /\
     r_avgDelta body = repeat zero (dim (globals w)) /\
     r_targetEmbedding body = t /\
     r_transformed body = t).
Proof.
  intros Hm He Hn Hpo Hembs Hlen Hlaw Hpca.
  assert (Hraw : fillPure (dim (globals w))
                   (fun j => add (nth j t nan)
                               (nth j (averageOf (dim (globals w))
                                         (deltasOf (dim (globals w)) [] [t])) nan)) = t).
  { cbn [deltasOf length seq map averageOf fold_left Nat.ltb Nat.leb].
    rewrite <- Hlen. now apply add_zero_vector. }
  split.
  - destruct (ServerIndex_search_answered e req w m [] [t] Hm He Hpo Hembs eq_refl Hpca)
      as (body & tr & Hbody & Htr & Ha & Hq & Ht).
    rewrite (ServerIndex_translate_total (globals w) [] [t] eq_refl) in Htr.
    cbn [length Nat.sub nth] in Htr. rewrite Hraw, Hn in Htr.
    injection Htr as <-. cbn [t_avgDelta t_query t_targetEmb] in *.
    exists body. repeat split; try assumption. congruence.
  - destruct (Part002_search_answered e req w m [] [t] Hm He Hpo Hembs eq_refl)
      as (body & tr & Hbody & Htr & Ha & Hq & Ht).
    rewrite (Part002_translate_total (globals w) [] [t] eq_refl) in Htr.
    cbn [length Nat.sub nth] in Htr. rewrite Hraw in Htr.
    injection Htr as <-. cbn [t_avgDelta t_query t_targetEmb] in *.
    exists body. repeat split; try assumption. congruence.
Qed.

Lemma goodEnv_aligned : providerAligned Demo.goodEnv.
Proof.
  intros texts. eexists. split; [reflexivity|]. split.
  - now rewrite length_map, length_seq.
  - apply forallb_forall. intros it Hit. apply in_map_iff in Hit.
    now destruct Hit as (i & <- & _).
Qed.

Lemma goodEnv_pcaTotal : pcaTotal Demo.goodEnv.
Proof.
  intros X. exists Demo.keepLeading. split; [reflexivity|]. split.
  - intros c. eexists. split; [reflexivity|]. now rewrite length_map.
  - eexists. reflexivity.
Qed.

Lemma malformed_pairs_dropped_witness :
  collectPairs (pairs Demo.mixedRequest) = Ok [("x", "y")] /\
  exists body,
    ServerIndex.postSearch Demo.goodEnv Demo.mixedRequest Demo.smallWorld
      = (Json200 body, Demo.smallWorld).
Proof.
  destruct (malformed_pairs_dropped Demo.goodEnv Demo.mixedRequest Demo.smallWorld _
              eq_refl eq_refl eq_refl goodEnv_aligned goodEnv_pcaTotal)
    as (Hpo & _ & (body & _ & Hbody & _) & _).
  split; [exact Hpo|]. exists body. exact Hbody.
Defined.

(** C7 as stated fails on an entry that cannot be destructured: with
    [null] after a usable pair, and collaborators that keep their
    contracts, both files answer the whole request with status 500. *)
Lemma non_iterable_entry_rejects_request :
  In JNull (pairs Demo.nullEntryRequest) /\
  wellFormedPair JNull = false /\
  ServerIndex.postSearch Demo.goodEnv Demo.nullEntryRequest Demo.smallWorld =
    (Error500 (TypeError "entry is not iterable"), Demo.smallWorld) /\
  Part002.postSearch Demo.goodEnv Demo.nullEntryRequest Demo.smallWorld =
    (Error500 (TypeError "entry is not iterable"), Demo.smallWorld).
Proof.
  split; [right; left; reflexivity|]. split; [reflexivity|].
  unfold ServerIndex.postSearch, Part002.postSearch, respond.
  rewrite (ServerIndex_search_loaded Demo.goodEnv Demo.nullEntryRequest Demo.smallWorld
             _ eq_refl eq_refl).
  rewrite (Part002_search_loaded Demo.goodEnv Demo.nullEntryRequest Demo.smallWorld
             _ eq_refl eq_refl).
  split; reflexivity.
Qed.

Lemma zero_pairs_identity_witness :
  exists body,
    ServerIndex.postSearch Demo.goodEnv Demo.skippedRequest Demo.smallWorld
      = (Json200 body, Demo.smallWorld) /\
    r_avgDelta body = [IEEE.int 0; IEEE.int 0] /\
    r_transformed body = @normalizeVec IEEE.arith [IEEE.int 0; IEEE.int 1].
Proof.
  destruct (zero_pairs_identity Demo.goodEnv Demo.skippedRequest Demo.smallWorld _
              [IEEE.int 0; IEEE.int 1] eq_refl eq_refl eq_refl eq_refl eq_refl eq_refl)
    as ((body & Hbody & Havg & _ & Htr) & _).
  - intros x [<-|[<-|[]]]; vm_compute; reflexivity.
  - exact goodEnv_pcaTotal.
  - exists body. split; [exact Hbody|]. split; [exact Havg|exact Htr].
Defined.

(** ** Loading or rebuilding the cache *)

Section CacheDecision.
Context {A : Arith}.

Lemma ensureEmbedder_ok (e : env) (w w1 : world) :
  ensureEmbedder e w = (Ok tt, w1) -> embedder (globals w1) = true.
Proof.
  unfold ensureEmbedder. run. simpl.
  destruct (embedder (globals w)) eqn:He.
  - intros H. injection H as <-. exact He.
  - destruct (pipeline e); [discriminate|].
    destruct (probe e); [|discriminate].
    intros H. injection H as <-. reflexivity.
Qed.

Lemma prepare_ok (e : env) (w w1 : world) :
  prepare e w = (Ok tt, w1) -> embedder (globals w1) = true.
Proof.
  unfold prepare, bindM.
  destruct (loadVocab w) as [[[]|err] w0]; [|discriminate].
  apply ensureEmbedder_ok.
Qed.

Lemma cacheLookup_hit (d : disk) (signature : string) (r : meta) (blob : list num) :
  cacheLookup d signature = Ok (Some (r, blob)) <->
  metaFile d = Some (MetaRecord r) /\ binFile d = Some blob /\
  meta_signature r = signature.
Proof.
  unfold cacheLookup. split.
  - destruct (metaFile d) as [mf|]; [|discriminate].
    destruct (binFile d) as [b|]; [|discriminate].
    destruct mf as [| | |r0]; simpl; try discriminate.
    destruct (String.eqb (meta_signature r0) signature) eqn:Hs; simpl; [|discriminate].
    intros H. injection H as <- <-. apply String.eqb_eq in Hs. auto.
  - intros (-> & -> & Hs). simpl. apply String.eqb_eq in Hs. now rewrite Hs.
Qed.

Lemma cacheLookup_miss (d : disk) (signature : string) :
  metaFile d = None \/ binFile d = None \/
  metaFile d = Some MetaNoSignature \/
  (exists r, metaFile d = Some (MetaRecord r) /\ meta_signature r <> signature) ->
  cacheLookup d signature = Ok None.
Proof.
  unfold cacheLookup. intros [H|[H|[H|(r & H & Hs)]]]; rewrite H.
  - reflexivity.
  - now destruct (metaFile d).
  - now destruct (binFile d).
  - destruct (binFile d); [|reflexivity]. simpl.
    apply String.eqb_neq in Hs. now rewrite Hs.
Qed.

(** [buildOrLoadEmbeddingMatrix] after its first two steps. *)
Lemma buildOrLoad_prepared (probeDim : bool) (e : env) (template : string)
    (w w1 : world) :
  prepare e w = (Ok tt, w1) ->
  let signature :=
    hashJSON e (MODEL_ID e) (dim (globals w1)) (vocab (globals w1)) template in
  buildOrLoadEmbeddingMatrix probeDim e template w =
  match cacheLookup (files w1) signature with
  | Ok (Some (r, blob)) =>
      (Ok tt, mkWorld (mkState (embedder (globals w1)) (vocab (globals w1))
                         (meta_dim r) (Some blob) (meta_normalized r))
                      (files w1))
  | Ok None => rebuildMatrix probeDim e template signature w1
  | Throw err => (Throw err, w1)
  end.
Proof.
  intros Hprep signature. unfold buildOrLoadEmbeddingMatrix.
  unfold prepare in Hprep. unfold bindM in *.
  destruct (loadVocab w) as [[[]|err] w0]; [|discriminate].
  rewrite Hprep. unfold get, getDisk, lift. fold signature.
  destruct (cacheLookup (files w1) signature) as [[[r blob]|]|err]; reflexivity.
Qed.
End CacheDecision.

(** C4, as the code has it: the cache is adopted exactly when both files
    exist and the parsed metadata carries the signature just computed; the
    blob is then the matrix and the provider is not asked.  Whether the
    metadata's [n] and [dim] describe the blob is not looked at.  A missing
    file or another signature leads to the rebuild, not to an error. *)
Theorem cache_adopted_iff_signature {A : Arith} (probeDim : bool) (e : env)
    (template : string) (w w1 : world) :
  prepare e w = (Ok tt, w1) ->
  let signature :=
    hashJSON e (MODEL_ID e) (dim (globals w1)) (vocab (globals w1)) template in
  (forall r blob,
     cacheLookup (files w1) signature = Ok (Some (r, blob)) <->
     metaFile (files w1) = Some (MetaRecord r) /\ binFile (files w1) = Some blob /\
     meta_signature r = signature) /\
  (forall r blob,
     cacheLookup (files w1) signature = Ok (Some (r, blob)) ->
     buildOrLoadEmbeddingMatrix probeDim e template w =
     (Ok tt, mkWorld (mkState (embedder (globals w1)) (vocab (globals w1))
                        (meta_dim r) (Some blob) (meta_normalized r))
                     (files w1))) /\
  (metaFile (files w1) = None \/ binFile (files w1) = None \/
   metaFile (files w1) = Some MetaNoSignature \/
   (exists r, metaFile (files w1) = Some (MetaRecord r) /\
              meta_signature r <> signature) ->
   cacheLookup (files w1) signature = Ok None /\
   buildOrLoadEmbeddingMatrix probeDim e template w =
   rebuildMatrix probeDim e template signature w1).
Proof.
  intros Hprep signature. split; [|split].
  - intros r blob. apply cacheLookup_hit.
  - intros r blob Hhit.
    rewrite (buildOrLoad_prepared probeDim e template w w1 Hprep).
    fold signature. now rewrite Hhit.
  - intros Hmiss. pose proof (cacheLookup_miss (files w1) signature Hmiss) as Hnone.
    split; [exact Hnone|].
    rewrite (buildOrLoad_prepared probeDim e template w w1 Hprep).
    fold signature. now rewrite Hnone.
Qed.

Lemma cache_adopted_iff_signature_witness :
  buildOrLoadEmbeddingMatrix false Demo.deafEnv "{w}" Demo.bootWorld =
  (Ok tt, mkWorld (mkState true fallbackVocab 3 (Some Demo.shortBlob) true)
            (files Demo.bootWorld)).
Proof.
  refine (proj1 (proj2 (cache_adopted_iff_signature false Demo.deafEnv "{w}"
                          Demo.bootWorld
                          (mkWorld (mkState true fallbackVocab 2 None false)
                                   (files Demo.bootWorld)) eq_refl))
                 Demo.staleMeta Demo.shortBlob _).
  vm_compute. reflexivity.
Defined.

(** C4 as stated fails: the metadata names five rows of three floats, the
    blob holds two floats, and the cache is adopted all the same, by a
    server whose provider cannot be reached. *)
Lemma cache_adopted_despite_disagreement :
  let after := buildOrLoadEmbeddingMatrix false Demo.deafEnv "{w}" Demo.bootWorld in
  fst after = Ok tt /\
  matrix (globals (snd after)) = Some Demo.shortBlob /\
  dim (globals (snd after)) = 3 /\
  metaFile (files Demo.bootWorld) = Some (MetaRecord Demo.staleMeta) /\
  binFile (files Demo.bootWorld) = Some Demo.shortBlob /\
  ~ agrees Demo.staleMeta Demo.shortBlob.
Proof.
  cbv zeta.
  split; [vm_compute; reflexivity|].
  split; [vm_compute; reflexivity|].
  split; [vm_compute; reflexivity|].
  split; [reflexivity|]. split; [reflexivity|].
  unfold agrees. vm_compute. discriminate.
Qed.

(** A metadata file that is no JSON is not taken for a mismatch:
    [JSON.parse] throws, and the error reaches the caller. *)
Lemma cacheLookup_unparsable {A : Arith} (d : disk) (signature : string)
    (blob : list num) :
  metaFile d = Some MetaUnparsable ->
  binFile d = Some blob ->
  cacheLookup d signature = Throw (SyntaxError "Unexpected token in JSON").
Proof. intros Hm Hb. unfold cacheLookup. now rewrite Hm, Hb. Qed.

(** ** The rows after a rebuild *)

Section Rebuild.
Context {A : Arith}.

Lemma normalizeVec_length (v : list num) : length (normalizeVec v) = length v.
Proof. unfold normalizeVec. apply length_map. Qed.

Lemma subarray_after (pre suf : list num) (d : nat) :
  subarray (pre ++ suf) (length pre) (length pre + d) = firstn d suf.
Proof.
  unfold subarray. rewrite skipn_app, skipn_all, Nat.sub_diag. simpl.
  now replace (length pre + d - length pre) with d by lia.
Qed.

Lemma ta_set_after (pre suf src : list num) :
  length src <= length suf ->
  ta_set (pre ++ suf) src (length pre) = Ok (pre ++ src ++ skipn (length src) suf).
Proof.
  intros Hlen. unfold ta_set. rewrite length_app.
  destruct (Nat.leb_spec (length src + length pre) (length pre + length suf)); [|lia].
  rewrite firstn_app, firstn_all, Nat.sub_diag. simpl. rewrite app_nil_r.
  rewrite skipn_app, (skipn_all2 pre) by lia. simpl.
  now replace (length pre + length src - length pre) with (length src) by lia.
Qed.

Lemma world_eta (w : world) (m : list num) :
  matrix (globals w) = Some m ->
  mkWorld (set_matrix m (globals w)) (files w) = w.
Proof.
  destruct w as [[emb voc d mat nrm] fs]. simpl. now intros ->.
Qed.

Lemma matrix_set_after (w : world) (pre suf src : list num) :
  matrix (globals w) = Some (pre ++ suf) ->
  length src <= length suf ->
  matrix_set src (length pre) w =
  (Ok tt, mkWorld (set_matrix (pre ++ src ++ skipn (length src) suf) (globals w)) (files w)).
Proof.
  intros Hm Hlen. unfold matrix_set. run. rewrite Hm.
  now rewrite (ta_set_after pre suf src Hlen).
Qed.

(** The normalisation loop rewrites the rows from [i] on, one block each. *)
Lemma normalize_rows_blocks (count : nat) :
  forall (i : nat) (w : world) (pre suf : list num),
    matrix (globals w) = Some (pre ++ suf) ->
    length pre = i * dim (globals w) ->
    length suf = count * dim (globals w) ->
    normalize_rows i count w =
    (Ok tt, mkWorld (set_matrix (pre ++ normalizeBlocks (dim (globals w)) count suf)
                       (globals w))
                    (files w)).
Proof.
  induction count as [|count IH]; intros i w pre suf Hm Hpre Hsuf.
  - cbn [normalize_rows normalizeBlocks]. unfold ret. now rewrite world_eta.
  - cbn [normalize_rows normalizeBlocks]. unfold bindM at 1. unfold get.
    unfold bindM at 1. unfold lift, getRow. rewrite Hm.
    rewrite <- Hpre, subarray_after.
    set (d := dim (globals w)) in *.
    assert (Hd : d <= length suf) by (rewrite Hsuf; simpl; lia).
    assert (Hrow : length (normalizeVec (firstn d suf)) = d)
      by (rewrite normalizeVec_length, length_firstn; lia).
    unfold bindM at 1.
    rewrite (matrix_set_after w pre suf (normalizeVec (firstn d suf)) Hm)
      by (rewrite Hrow; exact Hd).
    rewrite Hrow.
    rewrite (IH (S i) _ (pre ++ normalizeVec (firstn d suf)) (skipn d suf)).
    + cbn [globals files set_matrix dim embedder vocab normalized].
      fold d. now rewrite <- app_assoc.
    + cbn [globals set_matrix matrix]. now rewrite <- app_assoc.
    + cbn [globals set_matrix dim]. fold d. rewrite length_app, Hrow, Hpre.
      simpl. lia.
    + cbn [globals set_matrix dim]. fold d. rewrite length_skipn, Hsuf. simpl. lia.
Qed.

Lemma rowOf_eq (m : list num) (d i : nat) :
  rowOf m d i = firstn d (skipn (i * d) m).
Proof.
  unfold rowOf, subarray. now replace (i * d + d - i * d) with d by lia.
Qed.

Lemma rowOf_head (a rest : list num) (d : nat) :
  length a = d -> rowOf (a ++ rest) d 0 = a.
Proof.
  intros Ha. rewrite rowOf_eq. cbn [Nat.mul skipn].
  rewrite firstn_app, Ha, Nat.sub_diag. cbn [firstn]. rewrite app_nil_r.
  rewrite <- Ha. apply firstn_all.
Qed.

Lemma rowOf_tail (a rest : list num) (d i : nat) :
  length a = d -> rowOf (a ++ rest) d (S i) = rowOf rest d i.
Proof.
  intros Ha. rewrite !rowOf_eq.
  replace (S i * d) with (i * d + d) by (simpl; lia).
  rewrite <- skipn_skipn, skipn_app, Ha, Nat.sub_diag. cbn [skipn].
  rewrite <- Ha, skipn_all. reflexivity.
Qed.

Lemma rowOf_skipn (m : list num) (d i : nat) :
  rowOf (skipn d m) d i = rowOf m d (S i).
Proof.
  rewrite !rowOf_eq.
  replace (S i * d) with (i * d + d) by (simpl; lia).
  now rewrite skipn_skipn.
Qed.

Lemma rowOf_normalizeBlocks (d n : nat) :
  forall (m : list num) (i : nat),
    length m = n * d ->
    i < n ->
    rowOf (normalizeBlocks d n m) d i = normalizeVec (rowOf m d i).
Proof.
  induction n as [|n IH]; intros m i Hlen Hi; [lia|].
  assert (Hd : d <= length m) by (rewrite Hlen; simpl; lia).
  assert (Hrow : length (normalizeVec (firstn d m)) = d)
    by (rewrite normalizeVec_length, length_firstn; lia).
  cbn [normalizeBlocks]. destruct i as [|i].
  - rewrite (rowOf_head _ _ d Hrow). rewrite rowOf_eq. reflexivity.
  - rewrite (rowOf_tail _ _ d i Hrow).
    rewrite IH; [|rewrite length_skipn, Hlen; simpl; lia|lia].
    now rewrite rowOf_skipn.
Qed.
End Rebuild.

Section RebuildShape.
Context {A : Arith}.

Lemma ta_set_length (m src : list num) (off : nat) (m' : list num) :
  ta_set m src off = Ok m' -> length m' = length m.
Proof.
  unfold ta_set.
  destruct (Nat.leb_spec (length src + off) (length m)) as [Hle|Hgt]; [|discriminate].
  intros Heq. injection Heq as <-.
  rewrite !length_app, length_firstn, length_skipn. lia.
Qed.

Lemma matrix_set_shape (w : world) (m src : list num) (off : nat) :
  matrix (globals w) = Some m ->
  exists r m',
    matrix_set src off w = (r, mkWorld (set_matrix m' (globals w)) (files w)) /\
    length m' = length m.
Proof.
  intros Hm. unfold matrix_set. run. rewrite Hm.
  destruct (ta_set m src off) as [m'|err] eqn:Hset.
  - exists (Ok tt), m'. split; [reflexivity|]. now apply (ta_set_length m src off).
  - exists (Throw err), m. split; [|reflexivity]. now rewrite world_eta.
Qed.

Lemma store_rows_shape (embs : list (list num)) :
  forall (row : nat) (w : world) (m : list num),
    matrix (globals w) = Some m ->
    exists r m',
      store_rows embs row w = (r, mkWorld (set_matrix m' (globals w)) (files w)) /\
      length m' = length m.
Proof.
  induction embs as [|v rest IH]; intros row w m Hm.
  - exists (Ok tt), m. split; [|reflexivity]. cbn [store_rows]. unfold ret.
    now rewrite world_eta.
  - cbn [store_rows]. unfold bindM at 1. unfold get. unfold bindM at 1.
    destruct (matrix_set_shape w m v (row * dim (globals w)) Hm) as (r & m1 & Hset & Hlen).
    rewrite Hset. destruct r as [[]|err].
    + destruct (IH (S row) (mkWorld (set_matrix m1 (globals w)) (files w)) m1 eq_refl)
        as (r2 & m2 & Hrest & Hlen2).
      rewrite Hrest. exists r2, m2. split; [reflexivity|]. congruence.
    + exists (Throw err), m1. split; [reflexivity|assumption].
Qed.

Lemma embed_batches_shape (e : env) (n : nat) (texts : list string) (fuel : nat) :
  forall (i : nat) (w : world) (m : list num),
    embedder (globals w) = true ->
    matrix (globals w) = Some m ->
    exists r m',
      embed_batches e fuel i n texts w =
        (r, mkWorld (set_matrix m' (globals w)) (files w)) /\
      length m' = length m.
Proof.
  induction fuel as [|fuel IH]; intros i w m He Hm.
  - exists (Ok tt), m. split; [|reflexivity]. cbn [embed_batches]. unfold ret.
    now rewrite world_eta.
  - cbn [embed_batches]. destruct (n <=? i).
    + exists (Ok tt), m. split; [|reflexivity]. unfold ret. now rewrite world_eta.
    + unfold bindM at 1.
      pose proof (embedMany_frame e
                    (map JString (slice texts i (Pos.to_nat (BATCH_SIZE e)))) w He) as Hf.
      destruct (embedMany e _ w) as [[embs|err] w1]; simpl in Hf; subst w1.
      * unfold bindM at 1.
        destruct (store_rows_shape embs i w m Hm) as (r & m1 & Hstore & Hlen).
        rewrite Hstore. destruct r as [[]|err].
        -- destruct (IH (i + Pos.to_nat (BATCH_SIZE e))
                       (mkWorld (set_matrix m1 (globals w)) (files w)) m1 He eq_refl)
             as (r2 & m2 & Hrest & Hlen2).
           rewrite Hrest. exists r2, m2. split; [reflexivity|]. congruence.
        -- exists (Throw err), m1. split; [reflexivity|assumption].
      * exists (Throw err), m. split; [|reflexivity]. now rewrite world_eta.
Qed.

(** A rebuild that returns leaves a matrix of [n] rows of [dim] floats,
    each the normalisation of the row the provider filled in; the flag is
    set and the matrix is what the blob file holds. *)
Lemma rebuildMatrix_rows (probeDim : bool) (e : env) (template signature : string)
    (w w' : world) :
  embedder (globals w) = true ->
  rebuildMatrix probeDim e template signature w = (Ok tt, w') ->
  exists filled,
    length filled = length (vocab (globals w')) * dim (globals w') /\
    matrix (globals w') =
      Some (normalizeBlocks (dim (globals w')) (length (vocab (globals w'))) filled) /\
    normalized (globals w') = true /\
    vocab (globals w') = vocab (globals w) /\
    binFile (files w') = matrix (globals w').
Proof.
  intros He. unfold rebuildMatrix. unfold bindM at 1. unfold get.
  unfold bindM at 1.
  set (n := length (vocab (globals w))).
  set (texts := wordsToTexts (vocab (globals w)) template).
  (* the probe of [part_002] *)
  assert (Hprobe : exists r dnew,
            (if probeDim && (dim (globals w) =? 0)
             then bindM (embedMany e [match texts with t :: _ => JString t | [] => JUndefined end])
                    (fun first => match first with
                                  | v :: _ => modify (set_dim (length v))
                                  | [] => throw (TypeError "Cannot read properties of undefined (reading 'length')")
                                  end)
             else ret tt) w = (r, mkWorld (set_dim dnew (globals w)) (files w))).
  { destruct (probeDim && (dim (globals w) =? 0)).
    - unfold bindM.
      pose proof (embedMany_frame e
                    [match texts with t :: _ => JString t | [] => JUndefined end] w He) as Hf.
      destruct (embedMany e _ w) as [[first|err] w1]; simpl in Hf; subst w1.
      + destruct first as [|v rest].
        * eexists _, (dim (globals w)). unfold throw. f_equal.
          now destruct w as [[? ? ? ? ?] ?].
        * eexists _, (length v). reflexivity.
      + eexists _, (dim (globals w)). f_equal. now destruct w as [[? ? ? ? ?] ?].
    - eexists _, (dim (globals w)). unfold ret. f_equal.
      now destruct w as [[? ? ? ? ?] ?]. }
  destruct Hprobe as (r & dnew & Hprobe). rewrite Hprobe.
  destruct r as [[]|err]; [|discriminate].
  unfold bindM at 1. unfold get. unfold bindM at 1. unfold modify at 1.
  cbn [globals files set_dim dim vocab embedder matrix normalized set_matrix].
  unfold bindM at 1.
  match goal with
  | |- context [embed_batches e n 0 n texts ?w0] =>
      destruct (embed_batches_shape e n texts n 0 w0 (repeat zero (n * dnew)) He eq_refl)
        as (r & filled & Hfill & Hlen)
  end.
  rewrite Hfill. destruct r as [[]|err]; [|discriminate].
  rewrite repeat_length in Hlen.
  cbn [globals files set_matrix dim vocab embedder matrix normalized].
  unfold bindM at 1.
  match goal with
  | |- context [normalize_rows 0 n ?w0] =>
      rewrite (normalize_rows_blocks n 0 w0 [] filled eq_refl eq_refl)
        by (cbn [globals dim]; exact Hlen)
  end.
  cbn [globals files set_matrix dim vocab embedder matrix normalized app].
  run. cbn [globals files set_normalized dim vocab embedder matrix normalized].
  intros H. injection H as <-.
  exists filled. cbn [globals files dim vocab matrix normalized binFile].
  fold n. repeat split; try reflexivity. exact Hlen.
Qed.
End RebuildShape.

(** ** Normalisation in exact arithmetic *)

Ltac realify := change (@num Exact.arith) with Rdefinitions.R in *.

Module ExactFacts.
Import Reals Lra.
Local Open Scope R_scope.

Lemma truthy_iff (x : R) : @truthy Exact.arith x = true <-> x <> 0.
Proof.
  unfold truthy. cbn [sign Exact.arith]. unfold Exact.Rsign.
  destruct (total_order_T x 0) as [[H|H]|H]; split; intros H'; try reflexivity;
    try discriminate; try lra.
Qed.

Lemma fold_acc (v : list R) (a : R) :
  fold_left (fun s x => s + x * x) v a = a + fold_left (fun s x => s + x * x) v 0.
Proof.
  revert a. induction v as [|x v IH]; intros a; simpl.
  - lra.
  - rewrite (IH (a + x * x)), (IH (0 + x * x)). lra.
Qed.

Lemma sumsq_acc (v : list R) (a : R) :
  fold_left (fun s x => s + x * x) v a = a + @sumsq Exact.arith v.
Proof. rewrite fold_acc. reflexivity. Qed.

Lemma sumsq_cons (x : R) (v : list R) :
  @sumsq Exact.arith (x :: v) = x * x + @sumsq Exact.arith v.
Proof.
  unfold sumsq at 1. cbn [add mul zero Exact.arith fold_left].
  rewrite sumsq_acc. lra.
Qed.

Lemma sumsq_nonneg (v : list R) : 0 <= @sumsq Exact.arith v.
Proof.
  induction v as [|x v IH].
  - unfold sumsq. cbn. lra.
  - rewrite sumsq_cons. pose proof (Rle_0_sqr x) as Hx. unfold Rsqr in Hx. lra.
Qed.

Lemma sumsq_scale (v : list R) (c : R) :
  c <> 0 ->
  @sumsq Exact.arith (map (fun x => x / c) v) = @sumsq Exact.arith v / (c * c).
Proof.
  intros Hc. induction v as [|x v IH].
  - unfold sumsq. cbn. realify. field. exact Hc.
  - cbn [map]. rewrite !sumsq_cons, IH. realify. field. exact Hc.
Qed.

Lemma normalizeVec_exact (v : list R) :
  @normalizeVec Exact.arith v = map (fun x => x / @normOf Exact.arith v) v.
Proof. reflexivity. Qed.

Lemma normOf_exact (v : list R) :
  @normOf Exact.arith v =
  if @truthy Exact.arith (R_sqrt.sqrt (@sumsq Exact.arith v))
  then R_sqrt.sqrt (@sumsq Exact.arith v) else 1.
Proof. reflexivity. Qed.

Lemma normOf_nonzero (v : list R) :
  R_sqrt.sqrt (@sumsq Exact.arith v) <> 0 ->
  @normOf Exact.arith v = R_sqrt.sqrt (@sumsq Exact.arith v).
Proof.
  intros H. rewrite normOf_exact. apply truthy_iff in H. now rewrite H.
Qed.

Lemma normOf_zero (v : list R) :
  R_sqrt.sqrt (@sumsq Exact.arith v) = 0 -> @normOf Exact.arith v = 1.
Proof.
  intros H. rewrite normOf_exact.
  destruct (@truthy Exact.arith (R_sqrt.sqrt (@sumsq Exact.arith v))) eqn:Ht;
    [|reflexivity].
  apply truthy_iff in Ht. contradiction.
Qed.

Lemma map_div_one (v : list R) : map (fun x => x / 1) v = v.
Proof.
  induction v as [|x v IH]; [reflexivity|].
  cbn [map]. rewrite IH. f_equal. field.
Qed.

(** A vector of norm zero is returned as it is. *)
Lemma normalize_zero (v : list R) :
  R_sqrt.sqrt (@sumsq Exact.arith v) = 0 -> @normalizeVec Exact.arith v = v.
Proof.
  intros H. rewrite normalizeVec_exact, (normOf_zero v H). apply map_div_one.
Qed.

(** Any other vector comes out with norm one. *)
Lemma normalize_unit (v : list R) :
  R_sqrt.sqrt (@sumsq Exact.arith v) <> 0 ->
  R_sqrt.sqrt (@sumsq Exact.arith (@normalizeVec Exact.arith v)) = 1.
Proof.
  intros H. rewrite normalizeVec_exact, (normOf_nonzero v H).
  rewrite (sumsq_scale v _ H).
  rewrite sqrt_sqrt by apply sumsq_nonneg.
  assert (Hs : @sumsq Exact.arith v <> 0).
  { intros Hz. apply H. rewrite Hz. apply sqrt_0. }
  replace (@sumsq Exact.arith v / @sumsq Exact.arith v) with 1 by (field; exact Hs).
  apply sqrt_1.
Qed.

(** Normalising twice is normalising once. *)
Lemma normalize_idem (v : list R) :
  @normalizeVec Exact.arith (@normalizeVec Exact.arith v) = @normalizeVec Exact.arith v.
Proof.
  destruct (Req_dec_T (R_sqrt.sqrt (@sumsq Exact.arith v)) 0) as [Hz|Hnz].
  - now rewrite !(normalize_zero v Hz).
  - pose proof (normalize_unit v Hnz) as Hunit.
    rewrite (normalizeVec_exact (@normalizeVec Exact.arith v)).
    rewrite normOf_nonzero by (rewrite Hunit; lra).
    rewrite Hunit. apply map_div_one.
Qed.
End ExactFacts.

(** ** Normalisation: the guard, the rows of a rebuilt matrix, the two
    query conventions *)

Section Guard.
Context {A : Arith}.

Lemma normOf_truthy (vec : list num) : truthy (normOf vec) = true.
Proof.
  unfold normOf, or_else.
  destruct (truthy (sqrt (sumsq vec))) eqn:Ht; [exact Ht|].
  unfold truthy. now rewrite one_positive.
Qed.

Lemma normalizeVec_zero_norm (vec : list num) :
  sign (sqrt (sumsq vec)) = Eq ->
  (forall x, In x vec -> fround (div x one) = x) ->
  normalizeVec vec = vec.
Proof.
  intros Hz Hlaw. unfold normalizeVec, normOf, or_else, truthy. rewrite Hz.
  rewrite <- (map_id vec) at 2. apply map_ext_in. exact Hlaw.
Qed.

Lemma topKSimilar_query (st : state) (u v : list num) (k : Z) (exclude : JSSet) :
  (if normalized st then normalizeVec u else u) =
  (if normalized st then normalizeVec v else v) ->
  topKSimilar st u k exclude = topKSimilar st v k exclude.
Proof. intros H. unfold topKSimilar. now rewrite H. Qed.

Lemma translate_conventions (st : state) (pairObjs : list (string * string))
    (embs : list (list num)) (tr1 tr2 : translation) :
  ServerIndex.translate st pairObjs embs = Ok tr1 ->
  Part002.translate st pairObjs embs = Ok tr2 ->
  t_transformed tr1 = t_transformed tr2 /\
  t_query tr2 = t_transformed tr2 /\
  t_query tr1 =
    if normalized st then normalizeVec (t_transformed tr2) else t_transformed tr2.
Proof.
  unfold ServerIndex.translate, Part002.translate.
  destruct (mapM (deltaOf (dim st) embs) (seq 0 (length pairObjs))) as [deltas|err];
    [|discriminate].
  cbn [bind].
  destruct (transformedOf (dim st) (nth_error embs (length embs - 1))
              (averageOf (dim st) deltas)) as [transformed|err]; [|discriminate].
  cbn [bind]. intros H1 H2. injection H1 as <-. injection H2 as <-.
  repeat split.
Qed.
End Guard.

(** C9, as the code has it: the two conventions hand [topKSimilar] the same
    raw sum, once normalised and once not, and the results are the same
    whenever normalising the normalised sum changes nothing; in exact
    arithmetic that is always so. *)
Theorem query_conventions_agree_when_idempotent :
  (forall (A : Arith) (st : state) (targetVec : list (@num A)) (k : Z) (exclude : JSSet),
      (normalized st = true ->
       normalizeVec (normalizeVec targetVec) = normalizeVec targetVec) ->
      topKSimilar st (if normalized st then normalizeVec targetVec else targetVec)
        k exclude =
      topKSimilar st targetVec k exclude) /\
  (forall (A : Arith) (st : state) (pairObjs : list (string * string))
          (embs : list (list (@num A))) (tr1 tr2 : translation),
      ServerIndex.translate st pairObjs embs = Ok tr1 ->
      Part002.translate st pairObjs embs = Ok tr2 ->
      t_query tr1 =
        if normalized st then normalizeVec (t_query tr2) else t_query tr2) /\
  (forall (st : @state Exact.arith) (targetVec : list (@num Exact.arith)) (k : Z)
          (exclude : JSSet),
      topKSimilar st (if normalized st then normalizeVec targetVec else targetVec)
        k exclude =
      topKSimilar st targetVec k exclude).
Proof.
  assert (Hgen : forall (A : Arith) (st : state) (targetVec : list (@num A)) (k : Z)
                        (exclude : JSSet),
             (normalized st = true ->
              normalizeVec (normalizeVec targetVec) = normalizeVec targetVec) ->
             topKSimilar st (if normalized st then normalizeVec targetVec else targetVec)
               k exclude =
             topKSimilar st targetVec k exclude).
  { intros A st targetVec k exclude Hidem. apply topKSimilar_query.
    destruct (normalized st); [now apply Hidem|reflexivity]. }
  split; [exact Hgen|]. split.
  - intros A st pairObjs embs tr1 tr2 H1 H2.
    destruct (translate_conventions st pairObjs embs tr1 tr2 H1 H2) as (_ & Hq & Ht).
    now rewrite Hq.
  - intros st targetVec k exclude. apply Hgen. intros _.
    apply ExactFacts.normalize_idem.
Qed.

Lemma query_conventions_agree_when_idempotent_witness :
  topKSimilar Demo.smallState (@normalizeVec IEEE.arith [IEEE.int 3; IEEE.int 4]) 3 [] =
  topKSimilar Demo.smallState [IEEE.int 3; IEEE.int 4] 3 [].
Proof.
  apply (proj1 query_conventions_agree_when_idempotent IEEE.arith Demo.smallState
           [IEEE.int 3; IEEE.int 4] 3%Z []).
  intros _. vm_compute. reflexivity.
Defined.

(** C9 as stated fails in the arithmetic of the program: for the raw sum
    [(22, 29)] the normalised vector is no fixed point of [normalizeVec];
    of the two rows of the matrix, [index.js] ranks ["a"] first (a tie, in
    row order) and [part_002] ranks ["b"] first, and so do the two handlers
    on the same request. *)
Lemma query_conventions_differ :
  @normalizeVec IEEE.arith (@normalizeVec IEEE.arith Demo.slantedQuery)
    <> @normalizeVec IEEE.arith Demo.slantedQuery /\
  result_map (map word)
    (topKSimilar Demo.mirrorState (@normalizeVec IEEE.arith Demo.slantedQuery) 1 [])
    = Ok ["a"] /\
  result_map (map word) (topKSimilar Demo.mirrorState Demo.slantedQuery 1 [])
    = Ok ["b"] /\
  match fst (ServerIndex.postSearch Demo.slantedEnv Demo.bareRequest Demo.mirrorWorld) with
  | Json200 body => map fst (r_neighbors body) = ["a"]
  | Error500 _ => False
  end /\
  match fst (Part002.postSearch Demo.slantedEnv Demo.bareRequest Demo.mirrorWorld) with
  | Json200 body => map fst (r_neighbors body) = ["b"]
  | Error500 _ => False
  end.
Proof.
  split; [vm_compute; intros H; injection H as H; discriminate H|].
  split; [vm_compute; reflexivity|].
  split; [vm_compute; reflexivity|].
  split; vm_compute; reflexivity.
Qed.

(** ** The matrix is only there once the pipeline is *)

Section Coherence.
Context {A : Arith}.

Lemma bindM_loaded {T U : Type} (c : M T) (f : T -> M U) :
  (forall w, loaded w -> loaded (snd (c w))) ->
  (forall x w, loaded w -> loaded (snd (f x w))) ->
  forall w, loaded w -> loaded (snd (bindM c f w)).
Proof.
  intros Hc Hf w Hw. unfold bindM. specialize (Hc w Hw).
  destruct (c w) as [[x|err] w1]; simpl in *; [now apply Hf|exact Hc].
Qed.

Lemma modify_loaded (f : state -> state) :
  (forall st, embedder (f st) = embedder st) ->
  forall w, loaded w -> loaded (snd (modify f w)).
Proof. intros Hf w Hw. unfold loaded, modify in *. simpl. now rewrite Hf. Qed.

Lemma embedMany_loaded (e : env) (texts : list jsval) (w : world) :
  loaded w -> loaded (snd (embedMany e texts w)).
Proof. intros Hw. now rewrite embedMany_frame. Qed.

Lemma matrix_set_loaded (src : list num) (off : nat) (w : world) :
  loaded w -> loaded (snd (matrix_set src off w)).
Proof.
  intros Hw. unfold matrix_set. run.
  destruct (matrix (globals w)) as [m|]; [|exact Hw].
  destruct (ta_set m src off); exact Hw.
Qed.

Lemma store_rows_loaded (embs : list (list num)) :
  forall row w, loaded w -> loaded (snd (store_rows embs row w)).
Proof.
  induction embs as [|v rest IH]; intros row w Hw; [exact Hw|].
  cbn [store_rows]. apply bindM_loaded; [intros w0 H0; exact H0| |exact Hw].
  intros st w0 H0. apply bindM_loaded; [apply matrix_set_loaded| |exact H0].
  intros _ w1 H1. now apply IH.
Qed.

Lemma embed_batches_loaded (e : env) (n : nat) (texts : list string) (fuel : nat) :
  forall i w, loaded w -> loaded (snd (embed_batches e fuel i n texts w)).
Proof.
  induction fuel as [|fuel IH]; intros i w Hw; [exact Hw|].
  cbn [embed_batches]. destruct (n <=? i); [exact Hw|].
  apply bindM_loaded; [apply embedMany_loaded| |exact Hw].
  intros embs w0 H0. apply bindM_loaded; [apply store_rows_loaded| |exact H0].
  intros _ w1 H1. now apply IH.
Qed.

Lemma normalize_rows_loaded (count : nat) :
  forall i w, loaded w -> loaded (snd (normalize_rows i count w)).
Proof.
  induction count as [|count IH]; intros i w Hw; [exact Hw|].
  cbn [normalize_rows]. apply bindM_loaded; [intros w0 H0; exact H0| |exact Hw].
  intros st w0 H0. apply bindM_loaded; [intros w1 H1; exact H1| |exact H0].
  intros row w1 H1. apply bindM_loaded; [apply matrix_set_loaded| |exact H1].
  intros _ w2 H2. now apply IH.
Qed.

Lemma rebuildMatrix_loaded (probeDim : bool) (e : env) (template signature : string)
    (w : world) :
  loaded w -> loaded (snd (rebuildMatrix probeDim e template signature w)).
Proof.
  intros Hw. unfold rebuildMatrix.
  apply bindM_loaded; [intros w0 H0; exact H0| |exact Hw].
  intros st w0 H0. apply bindM_loaded; [| |exact H0].
  { intros w1 H1. destruct (probeDim && (dim st =? 0)); [|exact H1].
    apply bindM_loaded; [apply embedMany_loaded| |exact H1].
    intros first w2 H2. destruct first; [exact H2|].
    now apply modify_loaded. }
  intros _ w1 H1. apply bindM_loaded; [intros w2 H2; exact H2| |exact H1].
  intros st1 w2 H2. apply bindM_loaded; [now apply modify_loaded| |exact H2].
  intros _ w3 H3. apply bindM_loaded; [apply embed_batches_loaded| |exact H3].
  intros _ w4 H4. apply bindM_loaded; [apply normalize_rows_loaded| |exact H4].
  intros _ w5 H5. apply bindM_loaded; [now apply modify_loaded| |exact H5].
  intros _ w6 H6. exact H6.
Qed.

Lemma loaded_coherent (w : world) : loaded w -> coherent (globals w).
Proof. intros Hw _. exact Hw. Qed.

Lemma ensureEmbedder_coherent (e : env) (w : world) :
  coherent (globals w) ->
  coherent (globals (snd (ensureEmbedder e w))) /\
  (forall w1, ensureEmbedder e w = (Ok tt, w1) -> loaded w1).
Proof.
  intros Hw. split.
  - unfold ensureEmbedder. run. simpl.
    destruct (embedder (globals w)) eqn:He; [exact Hw|].
    destruct (pipeline e); [exact Hw|].
    destruct (probe e); simpl; intros _; reflexivity.
  - intros w1. apply ensureEmbedder_ok.
Qed.

(** Building or loading keeps the invariant, whether it returns or throws. *)
Lemma buildOrLoad_outcome (probeDim : bool) (e : env) (template : string)
    (w w' : world) (r : result unit) :
  coherent (globals w) ->
  buildOrLoadEmbeddingMatrix probeDim e template w = (r, w') ->
  coherent (globals w') /\ (r = Ok tt -> loaded w').
Proof.
  intros Hw Hrun. unfold buildOrLoadEmbeddingMatrix in Hrun.
  unfold bindM at 1 in Hrun.
  assert (Hv : exists w0, loadVocab w = (Ok tt, w0) /\ coherent (globals w0)).
  { unfold loadVocab. run. destruct (vocabFile (files w)); eexists; split;
      try reflexivity; exact Hw. }
  destruct Hv as (w0 & Hload & H0). rewrite Hload in Hrun.
  unfold bindM at 1 in Hrun.
  destruct (ensureEmbedder_coherent e w0 H0) as [Hc Hok].
  destruct (ensureEmbedder e w0) as [[[]|err] w1]; simpl in Hc.
  2:{ injection Hrun as <- <-. split; [exact Hc|discriminate]. }
  specialize (Hok w1 eq_refl).
  assert (Hrest : loaded (snd
            ((bindM get (fun st =>
               bindM getDisk (fun d =>
                 bindM (lift (cacheLookup d
                          (hashJSON e (MODEL_ID e) (dim st) (vocab st) template)))
                   (fun cached =>
                      match cached with
                      | Some (r, blob) => adoptCache r blob
                      | None => rebuildMatrix probeDim e template
                                  (hashJSON e (MODEL_ID e) (dim st) (vocab st) template)
                      end)))) w1))).
  { apply bindM_loaded; [intros w2 H2; exact H2| |exact Hok].
    intros st w2 H2. apply bindM_loaded; [intros w3 H3; exact H3| |exact H2].
    intros d w3 H3. apply bindM_loaded; [intros w4 H4; exact H4| |exact H3].
    intros [[r0 blob]|] w4 H4.
    - unfold adoptCache.
      apply bindM_loaded; [now apply modify_loaded| |exact H4].
      intros _ w5 H5. apply bindM_loaded; [now apply modify_loaded| |exact H5].
      intros _ w6 H6. now apply modify_loaded.
    - now apply rebuildMatrix_loaded. }
  rewrite Hrun in Hrest. cbn [snd] in Hrest.
  split; [now apply loaded_coherent|intros _; exact Hrest].
Qed.

Lemma buildOrLoad_coherent (probeDim : bool) (e : env) (template : string) (w : world) :
  coherent (globals w) ->
  coherent (globals (snd (buildOrLoadEmbeddingMatrix probeDim e template w))) /\
  (forall w', buildOrLoadEmbeddingMatrix probeDim e template w = (Ok tt, w') -> loaded w').
Proof.
  intros Hw. split.
  - destruct (buildOrLoadEmbeddingMatrix probeDim e template w) as [r w'] eqn:Hrun.
    exact (proj1 (buildOrLoad_outcome probeDim e template w w' r Hw Hrun)).
  - intros w' Hrun.
    exact (proj2 (buildOrLoad_outcome probeDim e template w w' (Ok tt) Hw Hrun) eq_refl).
Qed.

Lemma search_tail_loaded (e : env) (req : request)
    (answer : env -> state -> request -> list (string * string) -> list (list num) ->
              result response) (w : world) :
  loaded w ->
  loaded (snd (bindM (lift (collectPairs (pairs req)))
                 (fun pairObjs =>
                    bindM (embedMany e (map JString
                                          (wordsToTexts (flatWordsOf pairObjs (target req))
                                             (contextTemplate req))))
                      (fun embs => bindM get (fun st =>
                                      lift (answer e st req pairObjs embs)))) w)).
Proof.
  intros Hw. apply bindM_loaded; [intros w0 H0; exact H0| |exact Hw].
  intros po w0 H0. apply bindM_loaded; [apply embedMany_loaded| |exact H0].
  intros embs w1 H1. apply bindM_loaded; [intros w2 H2; exact H2| |exact H1].
  intros st w2 H2. exact H2.
Qed.

Lemma search_coherent (probeDim : bool) (e : env) (req : request)
    (answer : env -> state -> request -> list (string * string) -> list (list num) ->
              result response) (w : world) :
  coherent (globals w) ->
  coherent (globals (snd
    (bindM get (fun st0 =>
       bindM (if isNull (matrix st0)
              then buildOrLoadEmbeddingMatrix probeDim e (contextTemplate req)
              else ret tt)
         (fun _ =>
            bindM (lift (collectPairs (pairs req)))
              (fun pairObjs =>
                 bindM (embedMany e (map JString
                                       (wordsToTexts (flatWordsOf pairObjs (target req))
                                          (contextTemplate req))))
                   (fun embs => bindM get (fun st =>
                                   lift (answer e st req pairObjs embs)))))) w))).
Proof.
  intros Hw. unfold bindM at 1. unfold get. unfold bindM at 1.
  destruct (matrix (globals w)) as [m|] eqn:Hm; cbn [isNull].
  - unfold ret. apply loaded_coherent, search_tail_loaded.
    apply Hw. rewrite Hm. discriminate.
  - destruct (buildOrLoad_coherent probeDim e (contextTemplate req) w Hw) as [Hc Hok].
    destruct (buildOrLoadEmbeddingMatrix probeDim e (contextTemplate req) w)
      as [[[]|err] w1]; simpl in Hc; [|exact Hc].
    apply loaded_coherent, search_tail_loaded. now apply Hok.
Qed.

(** Every world the server reaches has its pipeline loaded as soon as it
    has a matrix. *)
Lemma reachable_coherent (w : world) : reachable w -> coherent (globals w).
Proof.
  induction 1 as [d|w d _ IH|probeDim e template w _ IH|e req w _ IH|e req w _ IH].
  - intros H. now contradiction H.
  - exact IH.
  - now apply buildOrLoad_coherent.
  - exact (search_coherent false e req ServerIndex.answer w IH).
  - exact (search_coherent true e req Part002.answer w IH).
Qed.
End Coherence.

(** C10: a search that finds a matrix in memory answers against it whatever
    its [contextTemplate]: the globals (matrix, dimension, normalized flag,
    vocabulary) and the cache files are those of before, in both files, and
    the answer depends neither on the files nor on the signature function:
    no signature is checked and nothing is rebuilt.  The hypothesis
    [coherent] holds in every world the server reaches
    ([reachable_coherent]). *)
Theorem search_leaves_cache_untouched {A : Arith} (e : env) (req : request)
    (w : world) (m : list num) :
  coherent (globals w) ->
  matrix (globals w) = Some m ->
  (snd (ServerIndex.postSearch e req w) = w /\
   snd (Part002.postSearch e req w) = w) /\
  (forall d' h,
     fst (ServerIndex.postSearch (withHash e h) req (mkWorld (globals w) d')) =
     fst (ServerIndex.postSearch e req w) /\
     fst (Part002.postSearch (withHash e h) req (mkWorld (globals w) d')) =
     fst (Part002.postSearch e req w)).
Proof.
  intros Hco Hm.
  assert (He : embedder (globals w) = true) by (apply Hco; rewrite Hm; discriminate).
  destruct w as [st d]. cbn [globals] in *.
  split; [split|].
  - unfold ServerIndex.postSearch. rewrite respond_snd.
    now rewrite (ServerIndex_search_loaded e req (mkWorld st d) m Hm He).
  - unfold Part002.postSearch. rewrite respond_snd.
    now rewrite (Part002_search_loaded e req (mkWorld st d) m Hm He).
  - intros d' h. split.
    + unfold ServerIndex.postSearch. apply respond_fst.
      rewrite (ServerIndex_search_loaded e req (mkWorld st d) m Hm He).
      rewrite (ServerIndex_search_loaded (withHash e h) req (mkWorld st d') m Hm He).
      simpl. destruct (collectPairs (pairs req)) as [po|err]; [|reflexivity].
      simpl. now rewrite (embedMany_independent e h _ st d d' He).
    + unfold Part002.postSearch. apply respond_fst.
      rewrite (Part002_search_loaded e req (mkWorld st d) m Hm He).
      rewrite (Part002_search_loaded (withHash e h) req (mkWorld st d') m Hm He).
      simpl. destruct (collectPairs (pairs req)) as [po|err]; [|reflexivity].
      simpl. now rewrite (embedMany_independent e h _ st d d' He).
Qed.

Lemma search_leaves_cache_untouched_witness :
  snd (ServerIndex.postSearch Demo.goodEnv Demo.mixedRequest Demo.smallWorld)
    = Demo.smallWorld /\
  snd (Part002.postSearch Demo.goodEnv Demo.mixedRequest Demo.smallWorld)
    = Demo.smallWorld.
Proof.
  exact (proj1 (search_leaves_cache_untouched Demo.goodEnv Demo.mixedRequest
                  Demo.smallWorld _ (fun _ => eq_refl) eq_refl)).
Defined.

(** * Further properties of the code *)

(** ** The order of the neighbours *)

Section SearchOrder.
Context {A : Arith}.

Lemma StronglySorted_cross {T : Type} (R : T -> T -> Prop) (l1 l2 : list T) :
  StronglySorted R (l1 ++ l2) -> forall a b, In a l1 -> In b l2 -> R a b.
Proof.
  induction l1 as [|x l1 IH]; simpl; intros Hs a b Ha Hb; [destruct Ha|].
  apply StronglySorted_inv in Hs. destruct Hs as [Hs Hall].
  destruct Ha as [<-|Ha].
  - rewrite Forall_forall in Hall. apply Hall, in_or_app. now right.
  - now apply IH.
Qed.

Lemma NoDup_firstn {T : Type} (n : nat) (l : list T) : NoDup l -> NoDup (firstn n l).
Proof.
  intros H. rewrite <- (firstn_skipn n l) in H. now apply NoDup_app_remove_r in H.
Qed.

Lemma consistentOnb_sound (sims : list num) :
  consistentOnb sims = true -> consistentOn sims /\ strictOn sims.
Proof.
  unfold consistentOnb. rewrite forallb_forall. intros H.
  assert (H' : forall x y, In x sims -> In y sims ->
            match sign (sub x y) with
            | Lt => leb x y && negb (leb y x)
            | _ => leb y x
            end = true /\
            forall z, In z sims -> implb (leb x y && leb y z) (leb x z) = true).
  { intros x y Hx Hy. specialize (H x Hx). rewrite forallb_forall in H.
    specialize (H y Hy). apply andb_true_iff in H. destruct H as [H1 H2].
    split; [exact H1|]. rewrite forallb_forall in H2. exact H2. }
  split; [split; [|split]|].
  - intros x y Hx Hy Hs. destruct (H' x y Hx Hy) as [H1 _]. rewrite Hs in H1.
    apply andb_true_iff in H1. tauto.
  - intros x y Hx Hy Hs. destruct (H' x y Hx Hy) as [H1 _].
    destruct (sign (sub x y)); [exact H1|congruence|exact H1].
  - intros x y z Hx Hy Hz Hxy Hyz. destruct (H' x y Hx Hy) as [_ H2].
    specialize (H2 z Hz). rewrite Hxy, Hyz in H2. exact H2.
  - intros x y Hx Hy Hs. destruct (H' x y Hx Hy) as [H1 _]. rewrite Hs in H1.
    apply andb_true_iff in H1. destruct H1 as [_ H1]. now apply negb_true_iff in H1.
Qed.

(** Placing row [p], which comes after every row placed so far, keeps the
    rows in order, ties in the order of the vocabulary. *)
Lemma sort_insert_before (voc : list string) (sims : list num) (p : nat) (l : list nat) :
  consistentOn sims ->
  strictOn sims ->
  p < length sims ->
  Forall (fun i => i < p) l ->
  StronglySorted (fun a b => before (entry voc sims a) (entry voc sims b)) l ->
  StronglySorted (fun a b => before (entry voc sims a) (entry voc sims b))
    (sort_insert (bySimDesc sims) p l).
Proof.
  intros (Hlt & Hge & Htrans) Hstrict Hp.
  induction l as [|e rest IH]; intros Hin Hs; simpl.
  - constructor; constructor.
  - inversion Hin as [|? ? He Hrest]; subst.
    apply StronglySorted_inv in Hs. destruct Hs as [Hs Hall].
    assert (Pe : In (nth e sims nan) sims) by (apply nth_In; lia).
    assert (Pp : In (nth p sims nan) sims) by now apply nth_In.
    assert (Hkeep : sign (sub (nth e sims nan) (nth p sims nan)) <> Lt ->
              StronglySorted (fun a b => before (entry voc sims a) (entry voc sims b))
                (e :: sort_insert (bySimDesc sims) p rest)).
    { intros Hsg. constructor; [now apply IH|].
      rewrite Forall_forall. intros x Hx.
      apply sort_insert_In in Hx. destruct Hx as [->|Hx].
      - split; cbn [entry score index]; [now apply Hge|lia].
      - rewrite Forall_forall in Hall. now apply Hall. }
    unfold bySimDesc at 1.
    destruct (sign (sub (nth e sims nan) (nth p sims nan))) eqn:Hsg;
      try (apply Hkeep; congruence).
    constructor; [constructor; assumption|].
    assert (Hep : leb (nth e sims nan) (nth p sims nan) = true) by now apply Hlt.
    constructor; [split; cbn [entry score index]; [exact Hep|intros _; exact Hsg]|].
    rewrite Forall_forall in *. intros x Hx.
    assert (Px : In (nth x sims nan) sims) by (apply nth_In; specialize (Hrest x Hx); lia).
    destruct (Hall x Hx) as [Hxe _]. cbn [entry score index] in Hxe.
    assert (Hxp : leb (nth x sims nan) (nth p sims nan) = true)
      by (apply (Htrans _ (nth e sims nan)); assumption).
    split; cbn [entry score index]; [exact Hxp|intros _].
    destruct (sign (sub (nth x sims nan) (nth p sims nan))) eqn:Hx'; [|reflexivity|].
    + exfalso.
      assert (Hpx : leb (nth p sims nan) (nth x sims nan) = true)
        by (apply Hge; [assumption|assumption|congruence]).
      pose proof (Htrans _ _ _ Pp Px Pe Hpx Hxe) as Hpe.
      rewrite (Hstrict _ _ Pe Pp Hsg) in Hpe. discriminate.
    + exfalso.
      assert (Hpx : leb (nth p sims nan) (nth x sims nan) = true)
        by (apply Hge; [assumption|assumption|congruence]).
      pose proof (Htrans _ _ _ Pp Px Pe Hpx Hxe) as Hpe.
      rewrite (Hstrict _ _ Pe Pp Hsg) in Hpe. discriminate.
Qed.

Lemma array_sort_before (voc : list string) (sims : list num) (n : nat) :
  consistentOn sims ->
  strictOn sims ->
  n <= length sims ->
  StronglySorted (fun a b => before (entry voc sims a) (entry voc sims b))
    (array_sort (bySimDesc sims) (seq 0 n)).
Proof.
  intros Hc Hstrict. unfold array_sort.
  enough (H : forall len a acc,
             Forall (fun i => i < a) acc ->
             StronglySorted (fun a b => before (entry voc sims a) (entry voc sims b)) acc ->
             a + len <= length sims ->
             StronglySorted (fun a b => before (entry voc sims a) (entry voc sims b))
               (fold_left (fun sorted pivot => sort_insert (bySimDesc sims) pivot sorted)
                          (seq a len) acc)).
  { intros Hn. apply (H n 0 []); [constructor|constructor|exact Hn]. }
  induction len as [|len IH]; intros a acc Hacc Hs Hlen; simpl; [assumption|].
  apply IH.
  - rewrite Forall_forall in *. intros y Hy.
    apply sort_insert_In in Hy. destruct Hy as [->|Hy]; [lia|].
    specialize (Hacc y Hy). lia.
  - apply sort_insert_before; auto. lia.
  - lia.
Qed.
End SearchOrder.

(** X1. For [k >= 1] and scores without [NaN], [topKSimilar] returns
    [min k c] neighbours, for [c] vocabulary rows not excluded; no word of
    the exclusion set is among them; scores do not increase along the
    result, and rows of equal score come in the order of the vocabulary
    (the sort is stable). *)
Theorem topKSimilar_ranked {A : Arith} (st : state) (m targetVec : list num)
    (k : Z) (exclude : JSSet) :
  matrix st = Some m ->
  (1 <= k)%Z ->
  consistentOn (simsOf st m targetVec) ->
  strictOn (simsOf st m targetVec) ->
  exists res,
    topKSimilar st targetVec k exclude = Ok res /\
    length res = Nat.min (Z.to_nat k) (length (filter (allowed exclude) (vocab st))) /\
    Forall (fun n => set_has exclude (JString (word n)) = false) res /\
    StronglySorted before res.
Proof.
  intros Hm Hk Hc Hstrict.
  destruct (topKSimilar_total st m targetVec k exclude Hm) as (res & Hres).
  exists res. split; [exact Hres|].
  destruct (topKSimilar_contract st m targetVec k exclude res Hm Hk Hres)
    as (_ & Hex & _).
  split; [|split; [exact Hex|]].
  - rewrite (topKSimilar_length st m targetVec k exclude res Hm Hres). f_equal. lia.
  - rewrite (topKSimilar_closed st m targetVec k exclude Hm) in Hres.
    injection Hres as <-.
    apply StronglySorted_firstn, StronglySorted_map, StronglySorted_filter.
    apply array_sort_before; auto.
Qed.

Lemma topKSimilar_ranked_witness :
  exists res,
    topKSimilar Demo.smallState [IEEE.int 22; IEEE.int 29] 3 [JString "c"] = Ok res /\
    length res = 3.
Proof.
  destruct (consistentOnb_sound
              Demo.smallSims)
    as [Hc Hs]; [vm_compute; reflexivity|].
  destruct (topKSimilar_ranked Demo.smallState _ [IEEE.int 22; IEEE.int 29] 3
              [JString "c"] eq_refl ltac:(lia) Hc Hs) as (res & Hres & Hlen & _).
  exists res. split; [exact Hres|].
  rewrite Hlen. vm_compute. reflexivity.
Defined.

Lemma topKSimilar_rows_of {A : Arith} (st : state) (m targetVec : list num)
    (k : Z) (exclude : JSSet) :
  matrix st = Some m ->
  exists res,
    topKSimilar st targetVec k exclude = Ok res /\
    Forall (fun n =>
              index n < length (vocab st) /\
              word n = nth (index n) (vocab st) "" /\
              score n =
                fround (dot (rowOf m (dim st) (index n))
                          (if normalized st then normalizeVec targetVec else targetVec)))
           res /\
    NoDup (map index res) /\
    (NoDup (vocab st) -> NoDup (map word res)).
Proof.
  intros Hm. eexists. split; [apply (topKSimilar_closed st m targetVec k exclude Hm)|].
  set (sims := simsOf st m targetVec).
  set (sorted := array_sort (bySimDesc sims) (seq 0 (length sims))).
  assert (Hperm : Permutation sorted (seq 0 (length (vocab st)))).
  { unfold sorted. rewrite array_sort_perm. unfold sims. now rewrite simsOf_length. }
  assert (Hnd : NoDup (firstn (Nat.max 1 (Z.to_nat k))
                         (filter (fun i => allowed exclude (nth i (vocab st) "")) sorted))).
  { apply NoDup_firstn, NoDup_filter.
    apply (Permutation_NoDup (Permutation_sym Hperm)), seq_NoDup. }
  assert (Hrange : forall i,
            In i (firstn (Nat.max 1 (Z.to_nat k))
                    (filter (fun i => allowed exclude (nth i (vocab st) "")) sorted)) ->
            i < length (vocab st)).
  { intros i Hi. apply firstn_In, filter_In in Hi. destruct Hi as [Hi _].
    apply (Permutation_in _ Hperm), in_seq in Hi. lia. }
  rewrite firstn_map. split; [|split].
  - rewrite Forall_forall. intros n Hn. apply in_map_iff in Hn.
    destruct Hn as (i & <- & Hi). cbn [entry index word score].
    split; [now apply Hrange|]. split; [reflexivity|].
    unfold sims, simsOf.
    set (f := fun i => fround (dot (subarray m (i * dim st) (i * dim st + dim st))
                (if normalized st then normalizeVec targetVec else targetVec))).
    rewrite (nth_indep _ nan (f 0))
      by (rewrite length_map, length_seq; now apply Hrange).
    rewrite (map_nth f (seq 0 (length (vocab st))) 0 i).
    rewrite seq_nth by now apply Hrange. reflexivity.
  - rewrite map_map. cbn [entry index]. now rewrite map_id.
  - intros Hvoc. rewrite map_map. cbn [entry word].
    apply Finite.Injective_map_NoDup_in; [|exact Hnd].
    intros i j Hi Hj Heq.
    apply (proj1 (NoDup_nth (vocab st) "") Hvoc); auto.
Qed.

(** X2. Every neighbour is a row of the vocabulary: its word is the word
    of its index, its score is the rounded dot product of its row with the
    query (normalised when the matrix is), and no row comes back twice;
    with a vocabulary without duplicates no word does. *)
Theorem topKSimilar_rows {A : Arith} (st : state) (m targetVec : list num)
    (k : Z) (exclude : JSSet) :
  matrix st = Some m ->
  exists res,
    topKSimilar st targetVec k exclude = Ok res /\
    Forall (fun n =>
              index n < length (vocab st) /\
              word n = nth (index n) (vocab st) "" /\
              score n =
                fround (dot (rowOf m (dim st) (index n))
                          (if normalized st then normalizeVec targetVec else targetVec)))
           res /\
    NoDup (map index res) /\
    (NoDup (vocab st) -> NoDup (map word res)).
Proof. apply topKSimilar_rows_of. Qed.

Lemma topKSimilar_rows_witness :
  exists res,
    topKSimilar Demo.smallState [IEEE.int 22; IEEE.int 29] 2 [] = Ok res /\
    NoDup (map (@index IEEE.arith) res).
Proof.
  destruct (topKSimilar_rows Demo.smallState _ [IEEE.int 22; IEEE.int 29] 2 [] eq_refl)
    as (res & Hres & _ & Hnd & _).
  exists res. split; [exact Hres|exact Hnd].
Defined.

(** X3. The neighbours are the best rows: a vocabulary row that is not
    excluded and not returned scores no higher than any neighbour
    returned (for scores without [NaN], and any [k]). *)
Theorem topKSimilar_best {A : Arith} (st : state) (m targetVec : list num)
    (k : Z) (exclude : JSSet) :
  matrix st = Some m ->
  consistentOn (simsOf st m targetVec) ->
  exists res,
    topKSimilar st targetVec k exclude = Ok res /\
    forall j,
      j < length (vocab st) ->
      allowed exclude (nth j (vocab st) "") = true ->
      (exists n, In n res /\ index n = j) \/
      Forall (fun n => leb (nth j (simsOf st m targetVec) nan) (score n) = true) res.
Proof.
  intros Hm Hc. eexists. split; [apply (topKSimilar_closed st m targetVec k exclude Hm)|].
  set (sims := simsOf st m targetVec) in *.
  set (sorted := array_sort (bySimDesc sims) (seq 0 (length sims))).
  set (kept := filter (fun i => allowed exclude (nth i (vocab st) "")) sorted).
  intros j Hj Hallowed.
  assert (Hin : In j kept).
  { apply filter_In. split; [|exact Hallowed].
    apply (Permutation_in _ (Permutation_sym (array_sort_perm _ _))), in_seq.
    unfold sims. rewrite simsOf_length. lia. }
  assert (Hs : StronglySorted (desc sims) kept).
  { apply StronglySorted_filter, (array_sort_sorted _ _ Hc).
    rewrite Forall_forall. intros i Hi. apply in_seq in Hi. lia. }
  rewrite <- (firstn_skipn (Nat.max 1 (Z.to_nat k)) kept) in Hin, Hs.
  apply in_app_or in Hin. destruct Hin as [Hin|Hin].
  - left. exists (entry (vocab st) sims j). split; [|reflexivity].
    rewrite firstn_map. now apply in_map.
  - right. rewrite firstn_map, Forall_forall. intros n Hn.
    apply in_map_iff in Hn. destruct Hn as (i & <- & Hi). cbn [entry score].
    exact (StronglySorted_cross _ _ _ Hs i j Hi Hin).
Qed.

Lemma topKSimilar_best_witness :
  exists res,
    topKSimilar Demo.smallState [IEEE.int 22; IEEE.int 29] 1 [] = Ok res /\
    ((exists n, In n res /\ @index IEEE.arith n = 0) \/
     Forall (fun n => @leb IEEE.arith (nth 0 Demo.smallSims (@nan IEEE.arith))
                        (@score IEEE.arith n) = true) res).
Proof.
  destruct (consistentOnb_sound
              Demo.smallSims)
    as [Hc _]; [vm_compute; reflexivity|].
  destruct (topKSimilar_best Demo.smallState _ [IEEE.int 22; IEEE.int 29] 1 []
              eq_refl Hc) as (res & Hres & Hbest).
  exists res. split; [exact Hres|].
  apply (Hbest 0); [simpl; lia|reflexivity].
Defined.

(** ** The texts handed to the provider *)

Section Texts.
Local Open Scope string_scope.

Lemma append_nil_r (s : string) : s ++ "" = s.
Proof. induction s as [|c s IH]; simpl; [reflexivity|now rewrite IH]. Qed.

Lemma length_append (s t : string) :
  String.length (s ++ t) = String.length s + String.length t.
Proof. induction s as [|c s IH]; simpl; [reflexivity|now rewrite IH]. Qed.

Lemma includes_cons (c : ascii) (s pat : string) :
  includes (String c s) pat = false ->
  prefix_rest pat (String c s) = None /\ includes s pat = false.
Proof.
  cbn [includes]. destruct (prefix_rest pat (String c s)); [discriminate|].
  intros H. split; [reflexivity|exact H].
Qed.

(** Without an occurrence of the pattern nothing is replaced. *)
Lemma replaceAll_fuel_absent (fuel : nat) :
  forall s pat by_,
    includes s pat = false -> replaceAll_fuel fuel s pat by_ = s.
Proof.
  induction fuel as [|fuel IH]; intros s pat by_ H; [reflexivity|].
  destruct s as [|c s]; [reflexivity|].
  destruct (includes_cons c s pat H) as [Hp Hs].
  cbn [replaceAll_fuel]. rewrite Hp. now rewrite IH.
Qed.

(** The placeholder cannot start before the end of a prefix that does not
    contain it: it has no border. *)
Lemma placeholder_not_yet (c : ascii) (pre post : string) :
  includes (String c pre) "{w}" = false ->
  prefix_rest "{w}" (String c pre ++ "{w}" ++ post) = None.
Proof.
  intros H. apply includes_cons in H. destruct H as [H _].
  cbn [append prefix_rest] in *.
  destruct (Ascii.eqb "{" c); [|reflexivity].
  destruct pre as [|c2 pre]; [reflexivity|].
  cbn [append] in *.
  destruct (Ascii.eqb "w" c2); [|reflexivity].
  destruct pre as [|c3 pre]; [reflexivity|].
  cbn [append] in *.
  destruct (Ascii.eqb "}" c3); [discriminate|reflexivity].
Qed.

Lemma replaceAll_fuel_splice (post by_ : string) :
  forall pre fuel,
    String.length (pre ++ "{w}" ++ post) < fuel ->
    includes pre "{w}" = false ->
    replaceAll_fuel fuel (pre ++ "{w}" ++ post) "{w}" by_ =
    pre ++ by_ ++ replaceAll_fuel (fuel - String.length pre - 1) post "{w}" by_.
Proof.
  induction pre as [|c pre IH]; intros fuel Hlen Hpre.
  - destruct fuel as [|fuel]; [inversion Hlen|].
    cbn [append replaceAll_fuel prefix_rest String.length].
    rewrite !Ascii.eqb_refl.
    now replace (S fuel - 0 - 1) with fuel by lia.
  - destruct fuel as [|fuel]; [inversion Hlen|].
    pose proof (placeholder_not_yet c pre post Hpre) as Hnone.
    apply includes_cons in Hpre. destruct Hpre as [_ Hpre].
    change ((String c pre ++ "{w}" ++ post))
      with (String c (pre ++ "{w}" ++ post)) in *.
    cbn [replaceAll_fuel]. rewrite Hnone.
    rewrite IH; [|cbn [String.length] in Hlen; lia|exact Hpre].
    reflexivity.
Qed.

Lemma includes_placeholder (pre post : string) :
  includes (pre ++ "{w}" ++ post) "{w}" = true.
Proof.
  induction pre as [|c pre IH].
  - cbn [append includes prefix_rest]. now rewrite !Ascii.eqb_refl.
  - change ((String c pre ++ "{w}" ++ post))
      with (String c (pre ++ "{w}" ++ post)).
    cbn [includes]. destruct (prefix_rest "{w}" _); [reflexivity|exact IH].
Qed.
End Texts.

(** X4. [wordsToTexts] on a template with one placeholder writes each
    word in its place, and on a template without placeholder returns the
    words themselves: such a template is ignored.  With the default
    template the texts are the words.  (Words without [$], which
    [replaceAll] would read as a replacement pattern.) *)
Theorem wordsToTexts_splice (words : list string) (pre post plain : string) :
  Forall (fun w => literal w = true) words ->
  includes pre "{w}" = false ->
  includes post "{w}" = false ->
  includes plain "{w}" = false ->
  wordsToTexts words (pre ++ "{w}" ++ post)%string =
    map (fun w => pre ++ w ++ post)%string words /\
  wordsToTexts words "{w}" = words /\
  wordsToTexts words plain = words.
Proof.
  intros _ Hpre Hpost Hplain.
  assert (Hsplice : forall pre' post',
            includes pre' "{w}" = false ->
            includes post' "{w}" = false ->
            wordsToTexts words (pre' ++ "{w}" ++ post')%string =
            map (fun w => pre' ++ w ++ post')%string words).
  { intros pre' post' Hpre' Hpost'. unfold wordsToTexts. apply map_ext. intros w.
    rewrite includes_placeholder. unfold replaceAll.
    rewrite replaceAll_fuel_splice; [|lia|exact Hpre'].
    now rewrite replaceAll_fuel_absent. }
  split; [now apply Hsplice|]. split.
  - transitivity (map (fun w => ("" ++ w ++ "")%string) words).
    + transitivity (wordsToTexts words ("" ++ "{w}" ++ "")%string); [reflexivity|].
      now apply Hsplice.
    + rewrite <- (map_id words) at 2. apply map_ext. intros w.
      cbn [append]. apply append_nil_r.
  - unfold wordsToTexts. rewrite Hplain. apply map_id.
Qed.

Lemma wordsToTexts_splice_witness :
  wordsToTexts ["garden"; "work"] "I like {w} a lot" =
    ["I like garden a lot"; "I like work a lot"] /\
  wordsToTexts ["garden"; "work"] "{w}" = ["garden"; "work"] /\
  wordsToTexts ["garden"; "work"] "a word" = ["garden"; "work"].
Proof.
  apply (wordsToTexts_splice ["garden"; "work"] "I like " " a lot" "a word").
  - repeat constructor.
  - reflexivity.
  - reflexivity.
  - reflexivity.
Defined.

(** ** The vocabulary *)

Section Vocabulary.
Context {A : Arith}.

Lemma existsb_eqb_iff (w : string) (l : list string) :
  existsb (String.eqb w) l = true <-> In w l.
Proof.
  rewrite existsb_exists. split.
  - intros (x & Hx & Heq). apply String.eqb_eq in Heq. now subst.
  - intros H. exists w. split; [exact H|apply String.eqb_refl].
Qed.

Lemma dedupe_from (lines : list string) :
  forall seen,
    NoDup seen ->
    NoDup (fold_left (fun seen w => if existsb (String.eqb w) seen then seen
                                    else seen ++ [w]) lines seen) /\
    (forall x, In x (fold_left (fun seen w => if existsb (String.eqb w) seen then seen
                                              else seen ++ [w]) lines seen) <->
               In x seen \/ In x lines).
Proof.
  induction lines as [|l lines IH]; intros seen Hnd; cbn [fold_left].
  - split; [exact Hnd|]. intros x. simpl. tauto.
  - destruct (existsb (String.eqb l) seen) eqn:Hl.
    + destruct (IH seen Hnd) as [H1 H2]. split; [exact H1|].
      intros x. rewrite H2. apply existsb_eqb_iff in Hl. simpl.
      split; [tauto|]. intros [H|[<-|H]]; tauto.
    + assert (Hnot : ~ In l seen).
      { intros H. apply existsb_eqb_iff in H. congruence. }
      assert (Hnd' : NoDup (seen ++ [l])).
      { apply NoDup_app; [exact Hnd|repeat constructor; simpl; tauto|].
        intros a Ha [<-|[]]. contradiction. }
      destruct (IH (seen ++ [l]) Hnd') as [H1 H2]. split; [exact H1|].
      intros x. rewrite H2, in_app_iff. simpl. tauto.
Qed.

Lemma dedupe_spec (lines : list string) :
  NoDup (dedupe lines) /\ (forall x, In x (dedupe lines) <-> In x lines).
Proof.
  destruct (dedupe_from lines [] (NoDup_nil _)) as [H1 H2].
  split; [exact H1|]. intros x. unfold dedupe. rewrite H2. simpl. tauto.
Qed.

Lemma fallbackVocab_distinct : NoDup fallbackVocab /\ ~ In "" fallbackVocab.
Proof.
  split.
  - replace fallbackVocab with (dedupe fallbackVocab) by (vm_compute; reflexivity).
    apply dedupe_spec.
  - intros H. apply existsb_eqb_iff in H. vm_compute in H. discriminate.
Qed.

(** The vocabulary [loadVocab] assigns. *)
Lemma loadVocab_assigns (w : world) :
  exists voc,
    loadVocab w = (Ok tt, mkWorld (set_vocab voc (globals w)) (files w)) /\
    NoDup voc /\ ~ In "" voc /\
    match vocabFile (files w) with
    | Some raw => forall x, In x voc <-> x <> "" /\ In x (map trim (split_lines "" raw))
    | None => voc = fallbackVocab
    end.
Proof.
  unfold loadVocab. run. destruct (vocabFile (files w)) as [raw|].
  - eexists. split; [reflexivity|].
    set (lines := filter (fun x => negb (String.eqb x "")) (map trim (split_lines "" raw))).
    destruct (dedupe_spec lines) as [Hnd Hin].
    assert (Hlines : forall x, In x lines <->
                       x <> "" /\ In x (map trim (split_lines "" raw))).
    { intros x. unfold lines. rewrite filter_In, negb_true_iff, String.eqb_neq. tauto. }
    split; [exact Hnd|]. split.
    + intros H. apply Hin, Hlines in H. now destruct H.
    + intros x. now rewrite Hin.
  - exists fallbackVocab. split; [reflexivity|].
    destruct fallbackVocab_distinct as [H1 H2]. repeat split; assumption.
Qed.
End Vocabulary.

Lemma loadVocabIO_readable {A : Arith} : loadVocabIO None = loadVocab.
Proof. reflexivity. Qed.

(** X5. [loadVocab] fails in one case only, a vocabulary file that exists
    and cannot be read, and then it assigns nothing; a missing file is no
    error.  Otherwise it assigns [vocab] and nothing else, and the
    vocabulary has no duplicate and no empty word: with a vocabulary file
    (whose white space is ASCII) it holds exactly the trimmed, non-empty
    lines of the file, without one it is the built-in list. *)
Theorem loadVocab_fails_only_unreadable {A : Arith} (readFails : option exn)
    (w : world) :
  match vocabFile (files w), readFails with
  | Some _, Some err => loadVocabIO readFails w = (Throw err, w)
  | _, _ =>
      exists voc,
        loadVocabIO readFails w =
          (Ok tt, mkWorld (set_vocab voc (globals w)) (files w)) /\
        NoDup voc /\ ~ In "" voc /\
        match vocabFile (files w) with
        | Some raw =>
            plainSpaced raw = true ->
            forall x, In x voc <-> x <> "" /\ In x (map trim (split_lines "" raw))
        | None => voc = fallbackVocab
        end
  end.
Proof.
  destruct (loadVocab_assigns w) as (voc & Hload & Hnd & Hne & Hvoc).
  revert Hload. unfold loadVocabIO, loadVocab. run.
  destruct (vocabFile (files w)) as [raw|]; [destruct readFails as [err|]|].
  - intros _. reflexivity.
  - intros Hload. exists voc. repeat (split; [assumption|]). intros _. exact Hvoc.
  - intros Hload. exists voc. repeat (split; [assumption|]). exact Hvoc.
Qed.

Lemma loadVocab_fails_only_unreadable_witness :
  loadVocabIO (Some (Error "EACCES: permission denied")) Demo.oneWordWorld =
    (Throw (Error "EACCES: permission denied"), Demo.oneWordWorld) /\
  exists voc,
    loadVocabIO (Some (Error "EACCES: permission denied")) Demo.bootWorld =
      (Ok tt, mkWorld (set_vocab voc (globals Demo.bootWorld)) (files Demo.bootWorld)) /\
    voc = fallbackVocab.
Proof.
  split.
  - exact (loadVocab_fails_only_unreadable (Some (Error "EACCES: permission denied"))
             Demo.oneWordWorld).
  - destruct (loadVocab_fails_only_unreadable (Some (Error "EACCES: permission denied"))
                Demo.bootWorld) as (voc & Hload & _ & _ & Hvoc).
    exists voc. split; [exact Hload|exact Hvoc].
Defined.

(** ** What only [loadVocab] assigns *)

Section VocabularyInvariant.
Context {A : Arith}.
Variable Q : list string -> Prop.
Hypothesis Q_loadVocab : forall w, Q (vocab (globals (snd (loadVocab w)))).

(** The vocabulary satisfies [Q]. *)
Let good (w : world) : Prop := Q (vocab (globals w)).

Lemma bindM_good {T U : Type} (c : M T) (f : T -> M U) :
  (forall w, good w -> good (snd (c w))) ->
  (forall x w, good w -> good (snd (f x w))) ->
  forall w, good w -> good (snd (bindM c f w)).
Proof.
  intros Hc Hf w Hw. unfold bindM. specialize (Hc w Hw).
  destruct (c w) as [[x|err] w1]; simpl in *; [now apply Hf|exact Hc].
Qed.

Lemma modify_good (f : state -> state) :
  (forall st, vocab (f st) = vocab st) ->
  forall w, good w -> good (snd (modify f w)).
Proof. intros Hf w Hw. unfold good, modify in *. simpl. now rewrite Hf. Qed.

Lemma ensureEmbedder_good (e : env) (w : world) :
  good w -> good (snd (ensureEmbedder e w)).
Proof.
  intros Hw. unfold ensureEmbedder.
  apply bindM_good; [intros w0 H0; exact H0| |exact Hw].
  intros st w0 H0. destruct (embedder st); [exact H0|].
  destruct (pipeline e); [exact H0|].
  apply bindM_good; [now apply modify_good| |exact H0].
  intros _ w1 H1. apply bindM_good; [intros w2 H2; exact H2| |exact H1].
  intros d w2 H2. now apply modify_good.
Qed.

Lemma embedMany_good (e : env) (texts : list jsval) (w : world) :
  good w -> good (snd (embedMany e texts w)).
Proof.
  intros Hw. unfold embedMany.
  apply bindM_good; [apply ensureEmbedder_good| |exact Hw].
  intros _ w0 H0. apply bindM_good; [intros w1 H1; exact H1| |exact H0].
  intros out w1 H1.
  assert (Hsingle : forall x w2, good w2 ->
            good (snd (match toVec x with
                       | None => throw (Error "Unexpected embedding output (tensor case)")
                       | Some vec =>
                           bindM get (fun st =>
                             if dim st =? 0
                             then throw (Error "Embedding dimension not initialized")
                             else
                               let n := round_div (length vec) (dim st) in
                               if negb (n * dim st =? length vec) then ret [vec]
                               else if n =? 1 then ret [vec]
                               else ret (map (fun i => subarray vec (i * dim st)
                                                         ((i + 1) * dim st))
                                             (seq 0 n)))
                       end w2))).
  { intros x w2 H2. destruct (toVec x) as [vec|]; [|exact H2].
    apply bindM_good; [intros w3 H3; exact H3| |exact H2].
    intros st w3 H3. cbv zeta.
    repeat match goal with
           | |- context [if ?b then _ else _] => destruct b
           end; exact H3. }
  destruct out as [items|f32 data|v|]; try (apply Hsingle; exact H1).
  destruct (existsb isNull (map toVec items)); exact H1.
Qed.

Lemma matrix_set_good (src : list num) (off : nat) (w : world) :
  good w -> good (snd (matrix_set src off w)).
Proof.
  intros Hw. unfold matrix_set. run.
  destruct (matrix (globals w)) as [m|]; [|exact Hw].
  destruct (ta_set m src off); exact Hw.
Qed.

Lemma store_rows_good (embs : list (list num)) :
  forall row w, good w -> good (snd (store_rows embs row w)).
Proof.
  induction embs as [|v rest IH]; intros row w Hw; [exact Hw|].
  cbn [store_rows]. apply bindM_good; [intros w0 H0; exact H0| |exact Hw].
  intros st w0 H0. apply bindM_good; [apply matrix_set_good| |exact H0].
  intros _ w1 H1. now apply IH.
Qed.

Lemma embed_batches_good (e : env) (n : nat) (texts : list string) (fuel : nat) :
  forall i w, good w -> good (snd (embed_batches e fuel i n texts w)).
Proof.
  induction fuel as [|fuel IH]; intros i w Hw; [exact Hw|].
  cbn [embed_batches]. destruct (n <=? i); [exact Hw|].
  apply bindM_good; [apply embedMany_good| |exact Hw].
  intros embs w0 H0. apply bindM_good; [apply store_rows_good| |exact H0].
  intros _ w1 H1. now apply IH.
Qed.

Lemma normalize_rows_good (count : nat) :
  forall i w, good w -> good (snd (normalize_rows i count w)).
Proof.
  induction count as [|count IH]; intros i w Hw; [exact Hw|].
  cbn [normalize_rows]. apply bindM_good; [intros w0 H0; exact H0| |exact Hw].
  intros st w0 H0. apply bindM_good; [intros w1 H1; exact H1| |exact H0].
  intros row w1 H1. apply bindM_good; [apply matrix_set_good| |exact H1].
  intros _ w2 H2. now apply IH.
Qed.

Lemma rebuildMatrix_good (probeDim : bool) (e : env) (template signature : string)
    (w : world) :
  good w -> good (snd (rebuildMatrix probeDim e template signature w)).
Proof.
  intros Hw. unfold rebuildMatrix.
  apply bindM_good; [intros w0 H0; exact H0| |exact Hw].
  intros st w0 H0. apply bindM_good; [| |exact H0].
  { intros w1 H1. destruct (probeDim && (dim st =? 0)); [|exact H1].
    apply bindM_good; [apply embedMany_good| |exact H1].
    intros first w2 H2. destruct first; [exact H2|].
    now apply modify_good. }
  intros _ w1 H1. apply bindM_good; [intros w2 H2; exact H2| |exact H1].
  intros st1 w2 H2. apply bindM_good; [now apply modify_good| |exact H2].
  intros _ w3 H3. apply bindM_good; [apply embed_batches_good| |exact H3].
  intros _ w4 H4. apply bindM_good; [apply normalize_rows_good| |exact H4].
  intros _ w5 H5. apply bindM_good; [now apply modify_good| |exact H5].
  intros _ w6 H6. apply bindM_good; [intros w7 H7; exact H7| |exact H6].
  intros st2 w7 H7. apply bindM_good; [intros w8 H8; exact H8| |exact H7].
  intros d2 w8 H8. exact H8.
Qed.

(** After [loadVocab] ran, whatever else [buildOrLoadEmbeddingMatrix] does
    leaves the vocabulary alone. *)
Lemma buildOrLoad_good (probeDim : bool) (e : env) (template : string) (w : world) :
  good (snd (buildOrLoadEmbeddingMatrix probeDim e template w)).
Proof.
  unfold buildOrLoadEmbeddingMatrix. unfold bindM at 1.
  pose proof (Q_loadVocab w) as H0. fold (good (snd (loadVocab w))) in H0.
  destruct (loadVocab w) as [[[]|err] w0]; cbn [snd] in H0; [|exact H0].
  apply bindM_good; [apply ensureEmbedder_good| |exact H0].
  intros _ w1 H1. apply bindM_good; [intros w2 H2; exact H2| |exact H1].
  intros st w2 H2. apply bindM_good; [intros w3 H3; exact H3| |exact H2].
  intros d w3 H3. apply bindM_good; [intros w4 H4; exact H4| |exact H3].
  intros [[r0 blob]|] w4 H4.
  - unfold adoptCache.
    apply bindM_good; [now apply modify_good| |exact H4].
    intros _ w5 H5. apply bindM_good; [now apply modify_good| |exact H5].
    intros _ w6 H6. now apply modify_good.
  - now apply rebuildMatrix_good.
Qed.

Lemma search_good (probeDim : bool) (e : env) (req : request)
    (answer : env -> state -> request -> list (string * string) -> list (list num) ->
              result response) (w : world) :
  good w ->
  good (snd
    (bindM get (fun st0 =>
       bindM (if isNull (matrix st0)
              then buildOrLoadEmbeddingMatrix probeDim e (contextTemplate req)
              else ret tt)
         (fun _ =>
            bindM (lift (collectPairs (pairs req)))
              (fun pairObjs =>
                 bindM (embedMany e (map JString
                                       (wordsToTexts (flatWordsOf pairObjs (target req))
                                          (contextTemplate req))))
                   (fun embs => bindM get (fun st =>
                                   lift (answer e st req pairObjs embs)))))) w)).
Proof.
  intros Hw. apply bindM_good; [intros w0 H0; exact H0| |exact Hw].
  intros st0 w0 H0. apply bindM_good; [| |exact H0].
  { intros w1 H1. destruct (isNull (matrix st0)); [apply buildOrLoad_good|exact H1]. }
  intros _ w1 H1. apply bindM_good; [intros w2 H2; exact H2| |exact H1].
  intros po w2 H2. apply bindM_good; [apply embedMany_good| |exact H2].
  intros embs w3 H3. apply bindM_good; [intros w4 H4; exact H4| |exact H3].
  intros st w4 H4. exact H4.
Qed.

Lemma reachable_good (w : world) : Q [] -> reachable w -> good w.
Proof.
  intros Hnil.
  induction 1 as [d|w d _ IH|probeDim e template w _ IH|e req w _ IH|e req w _ IH].
  - exact Hnil.
  - exact IH.
  - apply buildOrLoad_good.
  - exact (search_good false e req ServerIndex.answer w IH).
  - exact (search_good true e req Part002.answer w IH).
Qed.
End VocabularyInvariant.

(** X6. In every world the server reaches, at boot, after rebuilds and
    after searches, the vocabulary has no duplicate and no empty word. *)
Theorem reachable_vocab_distinct {A : Arith} (w : world) :
  reachable w ->
  NoDup (vocab (globals w)) /\ ~ In "" (vocab (globals w)).
Proof.
  apply (reachable_good (fun voc => NoDup voc /\ ~ In "" voc)).
  - intros w0. destruct (loadVocab_assigns w0) as (voc & -> & Hnd & Hne & _).
    simpl. split; assumption.
  - split; [constructor|intros []].
Qed.

Lemma reachable_vocab_distinct_witness :
  NoDup (vocab (globals (snd (buildOrLoadEmbeddingMatrix false Demo.goodEnv "{w}"
                                Demo.oneWordWorld)))) /\
  ~ In "" (vocab (globals (snd (buildOrLoadEmbeddingMatrix false Demo.goodEnv "{w}"
                                  Demo.oneWordWorld)))).
Proof.
  apply (reachable_vocab_distinct _
           (reach_build false Demo.goodEnv "{w}" Demo.oneWordWorld
              (reach_boot (mkDisk (Some "work") None None)))).
Defined.

(** ** The embedding pipeline *)

Section Pipeline.
Context {A : Arith}.

Lemma round_div_exact (n d : nat) : 0 < d -> round_div (n * d) d = n.
Proof.
  intros Hd. unfold round_div.
  replace (2 * (n * d) + d) with (d + n * (2 * d)) by lia.
  rewrite Nat.div_add by lia. rewrite Nat.div_small by lia. reflexivity.
Qed.

(** Cutting a buffer of [a + n] rows of [d] floats into rows, from row [a]
    on, loses nothing. *)
Lemma chunks_concat (d : nat) (v : list num) :
  forall n a,
    length v = (a + n) * d ->
    concat (map (fun i => subarray v (i * d) ((i + 1) * d)) (seq a n)) = skipn (a * d) v /\
    Forall (fun r => length r = d)
           (map (fun i => subarray v (i * d) ((i + 1) * d)) (seq a n)).
Proof.
  induction n as [|n IH]; intros a Hlen.
  - split; [|constructor]. simpl. rewrite skipn_all2; [reflexivity|lia].
  - destruct (IH (S a)) as [Hc Hf]; [lia|].
    cbn [seq map concat]. rewrite Hc. unfold subarray at 1.
    replace ((a + 1) * d - a * d) with d by lia.
    split.
    + replace (S a * d) with (d + a * d) by lia.
      rewrite <- skipn_skipn. apply firstn_skipn.
    + constructor; [|exact Hf].
      unfold subarray. rewrite length_firstn, length_skipn. nia.
Qed.
End Pipeline.

(** X7. [ensureEmbedder] loads the pipeline at most once, and a probe that
    fails is not tried again: [embedder] is assigned before the probe, so
    after a failed probe every later call returns at once, with [dim] what
    it was before. *)
Theorem ensureEmbedder_probe_not_retried {A : Arith} (e e' : env) (w : world)
    (err : exn) :
  embedder (globals w) = false ->
  pipeline e = None ->
  probe e = Throw err ->
  exists w1,
    ensureEmbedder e w = (Throw err, w1) /\
    embedder (globals w1) = true /\
    dim (globals w1) = dim (globals w) /\
    ensureEmbedder e' w1 = (Ok tt, w1).
Proof.
  intros He Hp Hprobe.
  exists (mkWorld (set_embedder true (globals w)) (files w)).
  split; [|split; [reflexivity|split; [reflexivity|]]].
  - unfold ensureEmbedder. run. simpl. now rewrite He, Hp, Hprobe.
  - now apply ensureEmbedder_loaded.
Qed.

Lemma ensureEmbedder_probe_not_retried_witness :
  exists w1,
    ensureEmbedder Demo.noProbeEnv Demo.oneWordWorld = (Throw (Error "probe failed"), w1) /\
    embedder (globals w1) = true /\
    dim (globals w1) = 0 /\
    ensureEmbedder Demo.goodEnv w1 = (Ok tt, w1).
Proof.
  exact (ensureEmbedder_probe_not_retried Demo.noProbeEnv Demo.goodEnv Demo.oneWordWorld
           (Error "probe failed") eq_refl eq_refl eq_refl).
Defined.

(** X8. When the pipeline answers a batch with one [Float32Array] (or a
    tensor over one), [embedMany] cuts it by [dim]: [n * dim] floats give
    [n] vectors of [dim] floats, and joined again they are the array; an
    array whose length is no multiple of [dim] comes back as one vector.
    The globals are left alone. *)
Theorem embedMany_tensor_split {A : Arith} (e : env) (texts : list jsval) (w : world)
    (v : list num) :
  embedder (globals w) = true ->
  0 < dim (globals w) ->
  pipe e texts = Ok (OutF32 v) \/ pipe e texts = Ok (OutTensor true v) ->
  exists rows,
    embedMany e texts w = (Ok rows, w) /\
    concat rows = v /\
    (forall n, length v = n * dim (globals w) ->
               length rows = n /\ Forall (fun r => length r = dim (globals w)) rows) /\
    ((forall n, length v <> n * dim (globals w)) -> rows = [v]).
Proof.
  intros He Hd Hpipe.
  set (d := dim (globals w)) in *.
  assert (Hrun : embedMany e texts w =
            (Ok (let n := round_div (length v) d in
                 if negb (n * d =? length v) then [v]
                 else if n =? 1 then [v]
                 else map (fun i => subarray v (i * d) ((i + 1) * d)) (seq 0 n)), w)).
  { unfold embedMany. unfold bindM at 1. rewrite (ensureEmbedder_loaded e w He).
    unfold bindM at 1. unfold lift.
    destruct Hpipe as [-> | ->]; cbn [toVec]; run; fold d;
      (destruct (Nat.eqb_spec d 0) as [H0|_]; [lia|]); cbv zeta;
      repeat match goal with
             | |- context [if ?b then _ else _] => destruct b
             end; reflexivity. }
  eexists. split; [exact Hrun|]. cbv zeta.
  destruct (Nat.eqb_spec (round_div (length v) d * d) (length v)) as [Hmul|Hno];
    cbn [negb].
  - destruct (chunks_concat d v (round_div (length v) d) 0) as [Hc Hf]; [lia|].
    cbn [Nat.mul skipn] in Hc.
    split; [|split].
    + destruct (Nat.eqb_spec (round_div (length v) d) 1); [apply app_nil_r|exact Hc].
    + intros n Hn. rewrite Hn, round_div_exact by exact Hd.
      rewrite Hn, round_div_exact in Hf by exact Hd.
      destruct (Nat.eqb_spec n 1) as [->|_].
      * split; [reflexivity|]. constructor; [lia|constructor].
      * split; [now rewrite length_map, length_seq|exact Hf].
    + intros Hnone. exfalso. apply (Hnone (round_div (length v) d)). lia.
  - split; [apply app_nil_r|]. split; [|reflexivity].
    intros n Hn. exfalso. apply Hno. now rewrite Hn, round_div_exact.
Qed.

Lemma embedMany_tensor_split_witness :
  exists rows,
    embedMany Demo.tensorEnv [JString "x"; JString "y"; JString "a"] Demo.smallWorld =
      (Ok rows, Demo.smallWorld) /\
    length rows = 3.
Proof.
  destruct (embedMany_tensor_split Demo.tensorEnv [JString "x"; JString "y"; JString "a"]
              Demo.smallWorld _ eq_refl ltac:(simpl; lia) (or_introl eq_refl))
    as (rows & Hrun & _ & Hn & _).
  exists rows. split; [exact Hrun|].
  exact (proj1 (Hn 3 eq_refl)).
Defined.

(** X9. When the pipeline answers a batch with an array, [embedMany]
    returns one vector per item, in order, each the item's data (rounded to
    float32 when the item held plain numbers), or throws when an item is
    not a vector: no vector is ever missing from a result.  The globals are
    left alone. *)
Theorem embedMany_per_item {A : Arith} (e : env) (texts : list jsval) (w : world)
    (items : list item) :
  embedder (globals w) = true ->
  pipe e texts = Ok (OutArray items) ->
  (exists rows,
     embedMany e texts w = (Ok rows, w) /\
     Forall2 (fun it row => toVec it = Some row) items rows) \/
  (embedMany e texts w = (Throw (Error "Unexpected embedding output (array case)"), w) /\
   exists it, In it items /\ toVec it = None).
Proof.
  intros He Hpipe.
  assert (Hrun : embedMany e texts w =
            (if existsb isNull (map toVec items)
             then Throw (Error "Unexpected embedding output (array case)")
             else Ok (present (map toVec items)), w)).
  { unfold embedMany. unfold bindM at 1.
    rewrite (ensureEmbedder_loaded e w He). unfold bindM at 1. unfold lift.
    rewrite Hpipe. now destruct (existsb isNull (map toVec items)). }
  rewrite Hrun. clear Hrun.
  destruct (existsb isNull (map toVec items)) eqn:Hnull.
  - right. split; [reflexivity|].
    apply existsb_exists in Hnull. destruct Hnull as (o & Ho & Hisnull).
    apply in_map_iff in Ho. destruct Ho as (it & <- & Hit).
    exists it. split; [exact Hit|]. destruct (toVec it); [discriminate|reflexivity].
  - left. eexists. split; [reflexivity|]. clear Hpipe.
    induction items as [|it items IH]; [constructor|].
    cbn [map existsb] in Hnull. apply orb_false_iff in Hnull.
    destruct Hnull as [Hit Hrest].
    destruct (toVec it) as [row|] eqn:Hrow; [|discriminate].
    cbn [map present flat_map app]. rewrite Hrow. cbn [app].
    constructor; [exact Hrow|]. now apply IH.
Qed.

Lemma embedMany_per_item_witness :
  embedMany Demo.holedEnv [JString "x"; JString "y"] Demo.smallWorld =
    (Throw (Error "Unexpected embedding output (array case)"), Demo.smallWorld).
Proof.
  destruct (embedMany_per_item Demo.holedEnv [JString "x"; JString "y"] Demo.smallWorld
              [@F32 IEEE.arith [IEEE.int 1; IEEE.int 0]; @Unusable IEEE.arith]
              eq_refl eq_refl)
    as [(rows & Hrun & Hall)|[Hrun _]].
  - exfalso. inversion Hall as [|? ? ? ? _ Hrest]; subst.
    inversion Hrest as [|? ? ? ? Hbad _]; subst. discriminate.
  - exact Hrun.
Defined.

(** ** What a rebuild leaves behind *)

Section RebuildOutcome.
Context {A : Arith}.

Lemma state_eta (st : state) :
  mkState (embedder st) (vocab st) (dim st) (matrix st) (normalized st) = st.
Proof. now destruct st. Qed.

Lemma normalizeBlocks_length (d n : nat) :
  forall filled,
    length filled = n * d -> length (normalizeBlocks d n filled) = n * d.
Proof.
  induction n as [|n IH]; intros filled Hlen; cbn [normalizeBlocks]; [exact Hlen|].
  rewrite length_app, normalizeVec_length, length_firstn.
  rewrite (IH (skipn d filled)); [|rewrite length_skipn; simpl in Hlen; lia].
  simpl in *. lia.
Qed.

(** The first two steps of [buildOrLoadEmbeddingMatrix] assign [vocab],
    [embedder] and [dim], and nothing else. *)
Lemma prepare_frame (e : env) (w w1 : world) :
  prepare e w = (Ok tt, w1) ->
  files w1 = files w /\
  matrix (globals w1) = matrix (globals w) /\
  normalized (globals w1) = normalized (globals w) /\
  loadVocab w = (Ok tt, mkWorld (set_vocab (vocab (globals w1)) (globals w)) (files w)).
Proof.
  unfold prepare. unfold bindM at 1.
  destruct (loadVocab_assigns w) as (voc & Hload & _). rewrite Hload.
  unfold ensureEmbedder. run.
  cbn [globals files set_vocab embedder vocab dim matrix normalized].
  destruct (embedder (globals w)).
  - intros H. injection H as <-. repeat split.
  - destruct (pipeline e); [discriminate|].
    destruct (probe e); [|discriminate].
    intros H. injection H as <-. repeat split.
Qed.

(** The probe of [part_002], with its condition. *)
Lemma probe_step (probeDim : bool) (e : env) (texts : list string) (w : world) :
  embedder (globals w) = true ->
  exists r dnew,
    (if probeDim && (dim (globals w) =? 0)
     then bindM (embedMany e [match texts with t :: _ => JString t | [] => JUndefined end])
            (fun first =>
               match first with
               | v :: _ => modify (set_dim (length v))
               | [] => throw (TypeError "Cannot read properties of undefined (reading 'length')")
               end)
     else ret tt) w = (r, mkWorld (set_dim dnew (globals w)) (files w)) /\
    (probeDim && (dim (globals w) =? 0) = false ->
     r = Ok tt /\ dnew = dim (globals w)).
Proof.
  intros He. destruct (probeDim && (dim (globals w) =? 0)).
  - unfold bindM.
    pose proof (embedMany_frame e
                  [match texts with t :: _ => JString t | [] => JUndefined end] w He) as Hf.
    destruct (embedMany e _ w) as [[first|err] w1]; simpl in Hf; subst w1.
    + destruct first as [|v rest].
      * eexists _, (dim (globals w)). split; [|discriminate]. unfold throw. f_equal.
        now destruct w as [[? ? ? ? ?] ?].
      * eexists _, (length v). split; [reflexivity|discriminate].
    + eexists _, (dim (globals w)). split; [|discriminate]. f_equal.
      now destruct w as [[? ? ? ? ?] ?].
  - eexists _, (dim (globals w)). split; [|intros _; split; reflexivity].
    unfold ret. f_equal. now destruct w as [[? ? ? ? ?] ?].
Qed.

(** A rebuild that returns: the world it leaves, files included. *)
Lemma rebuildMatrix_outcome (probeDim : bool) (e : env) (template signature : string)
    (w w' : world) :
  embedder (globals w) = true ->
  rebuildMatrix probeDim e template signature w = (Ok tt, w') ->
  exists dnew filled,
    (probeDim && (dim (globals w) =? 0) = false -> dnew = dim (globals w)) /\
    length filled = length (vocab (globals w)) * dnew /\
    w' = mkWorld
           (mkState true (vocab (globals w)) dnew
              (Some (normalizeBlocks dnew (length (vocab (globals w))) filled)) true)
           (mkDisk (vocabFile (files w))
              (Some (MetaRecord (mkMeta (length (vocab (globals w))) dnew true signature)))
              (Some (normalizeBlocks dnew (length (vocab (globals w))) filled))).
Proof.
  intros He. unfold rebuildMatrix. unfold bindM at 1. unfold get.
  unfold bindM at 1.
  set (n := length (vocab (globals w))).
  set (texts := wordsToTexts (vocab (globals w)) template).
  destruct (probe_step probeDim e texts w He) as (r & dnew & Hprobe & Hsame).
  rewrite Hprobe.
  destruct r as [[]|err]; [|discriminate].
  unfold bindM at 1. unfold get. unfold bindM at 1. unfold modify at 1.
  cbn [globals files set_dim dim vocab embedder matrix normalized set_matrix].
  unfold bindM at 1.
  match goal with
  | |- context [embed_batches e n 0 n texts ?w0] =>
      destruct (embed_batches_shape e n texts n 0 w0 (repeat zero (n * dnew)) He eq_refl)
        as (r & filled & Hfill & Hlen)
  end.
  rewrite Hfill. destruct r as [[]|err]; [|discriminate].
  rewrite repeat_length in Hlen.
  cbn [globals files set_matrix dim vocab embedder matrix normalized].
  unfold bindM at 1.
  match goal with
  | |- context [normalize_rows 0 n ?w0] =>
      rewrite (normalize_rows_blocks n 0 w0 [] filled eq_refl eq_refl)
        by (cbn [globals dim]; exact Hlen)
  end.
  cbn [globals files set_matrix dim vocab embedder matrix normalized app].
  run. cbn [globals files set_normalized dim vocab embedder matrix normalized].
  intros H. injection H as <-.
  exists dnew, filled.
  split; [intros Hflag; exact (proj2 (Hsame Hflag))|]. split; [exact Hlen|].
  unfold set_normalized, set_matrix, set_dim.
  cbn [embedder vocab dim matrix normalized]. now rewrite He.
Qed.

(** A rebuild that has passed the probe holds a matrix of full size from
    then on, whether it returns or throws; when it throws the files and
    the flag are those of before. *)
Lemma rebuildMatrix_started (probeDim : bool) (e : env) (template signature : string)
    (w w' : world) (r : result unit) :
  embedder (globals w) = true ->
  probeDim && (dim (globals w) =? 0) = false ->
  rebuildMatrix probeDim e template signature w = (r, w') ->
  (exists m', matrix (globals w') = Some m' /\
              length m' = length (vocab (globals w)) * dim (globals w)) /\
  vocab (globals w') = vocab (globals w) /\
  dim (globals w') = dim (globals w) /\
  (r <> Ok tt -> files w' = files w /\ normalized (globals w') = normalized (globals w)).
Proof.
  intros He Hflag. unfold rebuildMatrix. unfold bindM at 1. unfold get.
  unfold bindM at 1.
  set (n := length (vocab (globals w))).
  set (texts := wordsToTexts (vocab (globals w)) template).
  destruct (probe_step probeDim e texts w He) as (r0 & dnew & Hprobe & Hsame).
  destruct (Hsame Hflag) as [-> ->]. rewrite Hprobe. clear Hprobe Hsame.
  unfold bindM at 1. unfold get. unfold bindM at 1. unfold modify at 1.
  cbn [globals files set_dim dim vocab embedder matrix normalized set_matrix].
  unfold bindM at 1.
  match goal with
  | |- context [embed_batches e n 0 n texts ?w0] =>
      destruct (embed_batches_shape e n texts n 0 w0
                  (repeat zero (n * dim (globals w))) He eq_refl)
        as (r1 & filled & Hfill & Hlen)
  end.
  rewrite Hfill. rewrite repeat_length in Hlen.
  cbn [globals files set_matrix dim vocab embedder matrix normalized].
  destruct r1 as [[]|err].
  - unfold bindM at 1.
    match goal with
    | |- context [normalize_rows 0 n ?w0] =>
        rewrite (normalize_rows_blocks n 0 w0 [] filled eq_refl eq_refl)
          by (cbn [globals dim]; exact Hlen)
    end.
    cbn [globals files set_matrix dim vocab embedder matrix normalized app].
    run. cbn [globals files set_normalized dim vocab embedder matrix normalized].
    intros H. injection H as <- <-.
    cbn [globals files dim vocab matrix normalized].
    split; [|split; [reflexivity|split; [reflexivity|intros Hr; now contradiction Hr]]].
    eexists. split; [reflexivity|].
    now apply normalizeBlocks_length.
  - intros H. injection H as <- <-.
    cbn [globals files dim vocab matrix normalized].
    split; [eexists; split; [reflexivity|exact Hlen]|].
    repeat split; reflexivity.
Qed.
End RebuildOutcome.

(** X10. The cache a rebuild writes is the cache the next call loads: after
    a rebuild that returned, the metadata file describes the blob file
    ([n] rows of [dim] floats, normalised, under the signature computed),
    the blob is the matrix in memory, and calling
    [buildOrLoadEmbeddingMatrix] again with the same template changes
    nothing, in memory or on disk, whatever the provider would answer:
    nothing is embedded again.  (The probe of [part_002] aside, which
    changes [dim] after the signature was computed.) *)
Theorem rebuilt_cache_is_reused {A : Arith} (probeDim : bool) (e : env)
    (template : string) (w w1 : world) :
  prepare e w = (Ok tt, w1) ->
  cacheLookup (files w1)
    (hashJSON e (MODEL_ID e) (dim (globals w1)) (vocab (globals w1)) template) = Ok None ->
  probeDim && (dim (globals w1) =? 0) = false ->
  fst (buildOrLoadEmbeddingMatrix probeDim e template w) = Ok tt ->
  let w' := snd (buildOrLoadEmbeddingMatrix probeDim e template w) in
  (exists r blob,
     metaFile (files w') = Some (MetaRecord r) /\
     binFile (files w') = Some blob /\
     matrix (globals w') = Some blob /\
     agrees r blob /\
     meta_n r = length (vocab (globals w')) /\
     meta_dim r = dim (globals w') /\
     meta_normalized r = true /\
     normalized (globals w') = true) /\
  (forall probeDim' e',
     MODEL_ID e' = MODEL_ID e ->
     hashJSON e' = hashJSON e ->
     buildOrLoadEmbeddingMatrix probeDim' e' template w' = (Ok tt, w')).
Proof.
  intros Hprep Hmiss Hflag Hok w'.
  pose proof (prepare_ok e w w1 Hprep) as He.
  destruct (prepare_frame e w w1 Hprep) as (Hfiles & _ & _ & Hload).
  pose proof (buildOrLoad_prepared probeDim e template w w1 Hprep) as Hrun.
  cbv zeta in Hrun. rewrite Hmiss in Hrun.
  destruct (buildOrLoadEmbeddingMatrix probeDim e template w) as [r w2] eqn:Hb.
  cbn [fst snd] in Hok, w'. subst r. subst w'.
  symmetry in Hrun.
  destruct (rebuildMatrix_outcome probeDim e template _ w1 w2 He Hrun)
    as (dnew & filled & Hd & Hlen & ->).
  specialize (Hd Hflag). subst dnew.
  set (n := length (vocab (globals w1))) in *.
  set (d := dim (globals w1)) in *.
  pose proof (normalizeBlocks_length d n filled Hlen) as Hblob.
  split.
  - eexists _, _. cbn [files globals metaFile binFile matrix vocab dim normalized].
    repeat split; try reflexivity.
    unfold agrees. cbn [meta_n meta_dim]. exact Hblob.
  - intros probeDim' e' Hmodel Hhash.
    assert (Hprep' : prepare e'
              (mkWorld (mkState true (vocab (globals w1)) d
                          (Some (normalizeBlocks d n filled)) true)
                 (mkDisk (vocabFile (files w1))
                    (Some (MetaRecord (mkMeta n d true
                       (hashJSON e (MODEL_ID e) d (vocab (globals w1)) template))))
                    (Some (normalizeBlocks d n filled)))) =
              (Ok tt,
               mkWorld (mkState true (vocab (globals w1)) d
                          (Some (normalizeBlocks d n filled)) true)
                 (mkDisk (vocabFile (files w1))
                    (Some (MetaRecord (mkMeta n d true
                       (hashJSON e (MODEL_ID e) d (vocab (globals w1)) template))))
                    (Some (normalizeBlocks d n filled))))).
    { unfold prepare. unfold bindM at 1.
      revert Hload. unfold loadVocab. run.
      cbn [files globals vocabFile]. rewrite Hfiles.
      destruct (vocabFile (files w)); intros Hl; injection Hl as Hl;
        rewrite Hl; reflexivity. }
    rewrite (buildOrLoad_prepared probeDim' e' template _ _ Hprep').
    cbn [files globals dim vocab]. rewrite Hmodel, Hhash.
    unfold cacheLookup. cbn [metaFile binFile signature_matches meta_signature bind].
    rewrite String.eqb_refl. reflexivity.
Qed.

Lemma rebuilt_cache_is_reused_witness :
  let w' := snd (buildOrLoadEmbeddingMatrix false Demo.goodEnv "{w}" Demo.oneWordWorld) in
  buildOrLoadEmbeddingMatrix true Demo.deafEnv "{w}" w' = (Ok tt, w').
Proof.
  refine (proj2 (rebuilt_cache_is_reused false Demo.goodEnv "{w}" Demo.oneWordWorld
                   (mkWorld (mkState true ["work"] 2 None false)
                      (mkDisk (Some "work") None None))
                   eq_refl eq_refl eq_refl _) true Demo.deafEnv eq_refl eq_refl).
  vm_compute. reflexivity.
Defined.

Section RejectedBatch.
Context {A : Arith}.

(** The batch loop stops at a first batch the provider rejects. *)
Lemma embed_batches_first_rejected (e : env) (texts : list string) (fuel n : nat)
    (w : world) (err : exn) :
  embedder (globals w) = true ->
  0 < n ->
  pipe e (map JString (slice texts 0 (Pos.to_nat (BATCH_SIZE e)))) = Throw err ->
  embed_batches e (S fuel) 0 n texts w = (Throw err, w).
Proof.
  intros He Hn Hpipe. cbn [embed_batches].
  replace (n <=? 0) with false by (symmetry; apply Nat.leb_gt; exact Hn).
  unfold bindM at 1. unfold embedMany. unfold bindM at 1.
  rewrite (ensureEmbedder_loaded e w He). unfold bindM at 1. unfold lift.
  now rewrite Hpipe.
Qed.
End RejectedBatch.

(** X11. A rebuild whose first batch the provider rejects leaves the
    server with a matrix all the same: the buffer of [vocab.length * dim]
    zeros was assigned before the batch was sent, so [POST /api/rebuild]
    answers the provider's error and [GET /api/status] answers
    [ready: true] from then on; the cache files and the [normalized] flag
    are those of before. *)
Theorem rejected_rebuild_leaves_zero_matrix {A : Arith} (probeDim : bool) (e : env)
    (template : string) (w w1 : world) (err : exn) :
  prepare e w = (Ok tt, w1) ->
  cacheLookup (files w1)
    (hashJSON e (MODEL_ID e) (dim (globals w1)) (vocab (globals w1)) template) = Ok None ->
  probeDim && (dim (globals w1) =? 0) = false ->
  0 < length (vocab (globals w1)) ->
  pipe e (map JString (slice (wordsToTexts (vocab (globals w1)) template) 0
                         (Pos.to_nat (BATCH_SIZE e)))) = Throw err ->
  let after := postRebuild probeDim e (Some template) w in
  fst after = RebuildFailed err /\
  matrix (globals (snd after)) =
    Some (repeat zero (length (vocab (globals w1)) * dim (globals w1))) /\
  s_ready (fst (getStatus e (snd after))) = true /\
  files (snd after) = files w /\
  normalized (globals (snd after)) = normalized (globals w).
Proof.
  intros Hprep Hmiss Hflag Hn Hpipe after.
  pose proof (prepare_ok e w w1 Hprep) as He.
  destruct (prepare_frame e w w1 Hprep) as (Hfiles & _ & Hnorm & _).
  pose proof (buildOrLoad_prepared probeDim e template w w1 Hprep) as Hrun.
  cbv zeta in Hrun. rewrite Hmiss in Hrun.
  assert (Hb : exists w2,
             rebuildMatrix probeDim e template
               (hashJSON e (MODEL_ID e) (dim (globals w1)) (vocab (globals w1)) template)
               w1 = (Throw err, w2) /\
             matrix (globals w2) =
               Some (repeat zero (length (vocab (globals w1)) * dim (globals w1))) /\
             files w2 = files w1 /\
             normalized (globals w2) = normalized (globals w1)).
  { unfold rebuildMatrix. unfold bindM at 1. unfold get. unfold bindM at 1.
    set (n := length (vocab (globals w1))) in *.
    set (texts := wordsToTexts (vocab (globals w1)) template) in *.
    destruct (probe_step probeDim e texts w1 He) as (r0 & dnew & Hprobe & Hsame).
    destruct (Hsame Hflag) as [-> ->]. rewrite Hprobe. clear Hprobe Hsame.
    unfold bindM at 1. unfold get. unfold bindM at 1. unfold modify at 1.
    cbn [globals files set_dim dim vocab embedder matrix normalized set_matrix].
    unfold bindM at 1.
    destruct n as [|n']; [inversion Hn|].
    match goal with
    | |- context [embed_batches e (S n') 0 (S n') texts ?w0] =>
        rewrite (embed_batches_first_rejected e texts n' (S n') w0 err He Hn Hpipe)
    end.
    eexists. split; [reflexivity|]. repeat split. }
  destruct Hb as (w2 & Hb & Hm & Hf & Hnz).
  unfold after, postRebuild. rewrite Hrun, Hb. cbn [fst snd].
  split; [reflexivity|]. split; [exact Hm|]. split.
  - unfold getStatus. cbn [fst s_ready]. now rewrite Hm.
  - split; congruence.
Qed.

Lemma rejected_rebuild_leaves_zero_matrix_witness :
  let after := postRebuild false Demo.deafEnv (Some "{w}") Demo.oneWordWorld in
  fst after = RebuildFailed (Error "provider unreachable") /\
  matrix (globals (snd after)) = Some (repeat zero (1 * 2)) /\
  s_ready (fst (getStatus Demo.deafEnv (snd after))) = true /\
  files (snd after) = files Demo.oneWordWorld /\
  normalized (globals (snd after)) = normalized (globals Demo.oneWordWorld).
Proof.
  exact (rejected_rebuild_leaves_zero_matrix false Demo.deafEnv "{w}" Demo.oneWordWorld
           (mkWorld (mkState true ["work"] 2 None false)
              (mkDisk (Some "work") None None))
           (Error "provider unreachable") eq_refl eq_refl eq_refl
           (Nat.lt_0_succ 0) eq_refl).
Defined.

(** ** The matrix a rebuild computes *)

Section RebuildContent.
Context {A : Arith}.
Variable e : env.
Variable f : string -> list num.
Hypothesis provider : pointwise e f.

Lemma embedMany_pointwise (ts : list string) (w : world) :
  embedder (globals w) = true ->
  embedMany e (map JString ts) w = (Ok (map f ts), w).
Proof.
  intros He. unfold embedMany. unfold bindM at 1.
  rewrite (ensureEmbedder_loaded e w He). unfold bindM at 1. unfold lift.
  rewrite provider.
  replace (existsb isNull (map toVec (map (fun t => F32 (f t)) ts))) with false
    by (induction ts; [reflexivity|assumption]).
  unfold ret. do 2 f_equal.
  induction ts as [|t ts IH]; [reflexivity|]. simpl. now rewrite IH.
Qed.

Lemma length_concat_rows (d : nat) (vs : list (list num)) :
  Forall (fun v => length v = d) vs -> length (concat vs) = length vs * d.
Proof.
  induction 1 as [|v vs Hv _ IH]; [reflexivity|].
  simpl. rewrite length_app, IH, Hv. reflexivity.
Qed.

Lemma set_matrix_twice (m1 m2 : list num) (st : state) :
  set_matrix m2 (set_matrix m1 st) = set_matrix m2 st.
Proof. reflexivity. Qed.

(** Storing the vectors of a batch, row after row, into a buffer with
    room for them. *)
Lemma store_rows_fill (vs : list (list num)) :
  forall (row : nat) (w : world) (pre suf : list num),
    matrix (globals w) = Some (pre ++ suf) ->
    length pre = row * dim (globals w) ->
    Forall (fun v => length v = dim (globals w)) vs ->
    length vs * dim (globals w) <= length suf ->
    store_rows vs row w =
    (Ok tt, mkWorld (set_matrix (pre ++ concat vs ++ skipn (length vs * dim (globals w)) suf)
                       (globals w))
                    (files w)).
Proof.
  induction vs as [|v vs IH]; intros row w pre suf Hm Hpre Hall Hroom.
  - cbn [store_rows concat length Nat.mul skipn app]. unfold ret.
    now rewrite world_eta.
  - inversion Hall as [|? ? Hv Hrest]; subst.
    cbn [store_rows]. unfold bindM at 1. unfold get. unfold bindM at 1.
    rewrite <- Hpre.
    rewrite (matrix_set_after w pre suf v Hm) by (simpl in Hroom; lia).
    rewrite (IH (S row) _ (pre ++ v) (skipn (length v) suf)).
    + cbn [globals files set_matrix dim]. rewrite set_matrix_twice.
      do 3 f_equal. cbn [concat length]. rewrite <- !app_assoc. do 2 f_equal.
      rewrite skipn_skipn, Hv. do 2 f_equal. simpl. lia.
    + cbn [globals set_matrix matrix]. now rewrite <- app_assoc.
    + cbn [globals set_matrix dim]. rewrite length_app, Hpre, Hv. simpl. lia.
    + exact Hrest.
    + cbn [globals set_matrix dim]. rewrite length_skipn, Hv. simpl in Hroom. lia.
Qed.

Lemma firstn_add {T : Type} (i b : nat) (l : list T) :
  firstn (i + b) l = firstn i l ++ firstn b (skipn i l).
Proof.
  revert l. induction i as [|i IH]; intros l; [reflexivity|].
  destruct l as [|x l]; [simpl; now rewrite firstn_nil|].
  simpl. now rewrite IH.
Qed.

Lemma skipn_repeat {T : Type} (x : T) (a n : nat) :
  skipn a (repeat x n) = repeat x (n - a).
Proof.
  revert n. induction a as [|a IH]; intros n; [now rewrite Nat.sub_0_r|].
  destruct n as [|n]; [reflexivity|]. simpl. apply IH.
Qed.

(** The batch loop fills the buffer with the vectors of the texts, in
    order, whatever the size of a batch. *)
Lemma embed_batches_fill (texts : list string) (d : nat) :
  Forall (fun t => length (f t) = d) texts ->
  forall (fuel i : nat) (w : world),
    embedder (globals w) = true ->
    dim (globals w) = d ->
    length texts - i <= fuel ->
    matrix (globals w) =
      Some (concat (map f (firstn i texts)) ++ repeat zero ((length texts - i) * d)) ->
    embed_batches e fuel i (length texts) texts w =
    (Ok tt, mkWorld (set_matrix (concat (map f texts)) (globals w)) (files w)).
Proof.
  intros Hall.
  assert (Hdone : forall i w,
            length texts <= i ->
            matrix (globals w) =
              Some (concat (map f (firstn i texts)) ++ repeat zero ((length texts - i) * d)) ->
            (Ok tt, w) =
            (Ok tt, mkWorld (set_matrix (concat (map f texts)) (globals w)) (files w))).
  { intros i w Hi Hm. f_equal. symmetry. apply world_eta. rewrite Hm.
    rewrite firstn_all2 by exact Hi.
    replace (length texts - i) with 0 by lia. cbn [Nat.mul repeat].
    now rewrite app_nil_r. }
  induction fuel as [|fuel IH]; intros i w He Hd Hfuel Hm.
  - cbn [embed_batches]. unfold ret. apply (Hdone i w); [lia|exact Hm].
  - cbn [embed_batches].
    destruct (Nat.leb_spec (length texts) i) as [Hi|Hi].
    + unfold ret. apply (Hdone i w); [lia|exact Hm].
    + set (B := Pos.to_nat (BATCH_SIZE e)).
      assert (HB : 0 < B) by apply Pos2Nat.is_pos.
      unfold bindM at 1. unfold slice.
      rewrite (embedMany_pointwise _ w He).
      unfold bindM at 1.
      assert (Hbatch : Forall (fun v => length v = dim (globals w))
                         (map f (firstn B (skipn i texts)))).
      { rewrite Forall_forall in *. intros v Hv. apply in_map_iff in Hv.
        destruct Hv as (t & <- & Ht). rewrite Hd. apply Hall.
        apply firstn_In in Ht. rewrite <- (firstn_skipn i texts).
        apply in_or_app. now right. }
      assert (Hb : length (map f (firstn B (skipn i texts))) = Nat.min B (length texts - i))
        by now rewrite length_map, length_firstn, length_skipn.
      rewrite (store_rows_fill _ i w _ _ Hm).
      * rewrite IH.
        -- cbn [globals files]. now rewrite set_matrix_twice.
        -- exact He.
        -- exact Hd.
        -- lia.
        -- cbn [globals set_matrix matrix]. f_equal.
           rewrite firstn_add, map_app, concat_app, <- app_assoc. do 2 f_equal.
           rewrite skipn_repeat, Hb, Hd. f_equal. nia.
      * rewrite (length_concat_rows d).
        -- rewrite length_map, length_firstn, Hd. f_equal. lia.
        -- rewrite Forall_forall in *. intros v Hv. apply in_map_iff in Hv.
           destruct Hv as (t & <- & Ht). apply Hall. now apply (firstn_In i).
      * exact Hbatch.
      * rewrite Hb, repeat_length, Hd. nia.
Qed.

Lemma normalizeBlocks_concat (d : nat) (vs : list (list num)) :
  Forall (fun v => length v = d) vs ->
  normalizeBlocks d (length vs) (concat vs) = concat (map normalizeVec vs).
Proof.
  induction 1 as [|v vs Hv _ IH]; [reflexivity|].
  cbn [length normalizeBlocks concat map].
  rewrite firstn_app, <- Hv, firstn_all, Nat.sub_diag. cbn [firstn].
  rewrite app_nil_r. f_equal.
  rewrite skipn_app, skipn_all, Nat.sub_diag. cbn [skipn app].
  rewrite Hv. exact IH.
Qed.

(** The rebuild with a provider that embeds text by text. *)
Lemma rebuildMatrix_content (probeDim : bool) (template signature : string) (w : world) :
  embedder (globals w) = true ->
  probeDim && (dim (globals w) =? 0) = false ->
  Forall (fun t => length (f t) = dim (globals w))
         (wordsToTexts (vocab (globals w)) template) ->
  rebuildMatrix probeDim e template signature w =
  (Ok tt,
   mkWorld
     (mkState true (vocab (globals w)) (dim (globals w))
        (Some (concat (map (fun t => normalizeVec (f t))
                           (wordsToTexts (vocab (globals w)) template))))
        true)
     (mkDisk (vocabFile (files w))
        (Some (MetaRecord (mkMeta (length (vocab (globals w))) (dim (globals w)) true
                             signature)))
        (Some (concat (map (fun t => normalizeVec (f t))
                           (wordsToTexts (vocab (globals w)) template)))))).
Proof.
  intros He Hflag Hall.
  set (texts := wordsToTexts (vocab (globals w)) template) in *.
  assert (Hn : length (vocab (globals w)) = length texts)
    by (unfold texts, wordsToTexts; now rewrite length_map).
  unfold rebuildMatrix. unfold bindM at 1. unfold get. unfold bindM at 1.
  fold texts. rewrite Hflag.
  unfold ret at 1. unfold bindM at 1. unfold bindM at 1. unfold modify at 1.
  cbn [globals files set_dim dim vocab embedder matrix normalized set_matrix].
  unfold bindM at 1. rewrite Hn.
  rewrite (embed_batches_fill texts (dim (globals w)) Hall (length texts) 0).
  - cbn [globals files]. rewrite set_matrix_twice.
    unfold bindM at 1.
    match goal with
    | |- context [normalize_rows 0 (length texts) ?w0] =>
        rewrite (normalize_rows_blocks (length texts) 0 w0 [] (concat (map f texts))
                   eq_refl eq_refl)
    end.
    + cbn [globals files set_matrix dim app]. rewrite set_matrix_twice.
      rewrite <- (length_map f texts).
      rewrite normalizeBlocks_concat
        by (rewrite Forall_forall in *; intros v Hv; apply in_map_iff in Hv;
            destruct Hv as (t & <- & Ht); now apply Hall).
      rewrite map_map, length_map. run.
      unfold set_normalized, set_matrix.
      cbn [globals files dim vocab embedder matrix normalized].
      now rewrite He, Hn.
    + cbn [globals set_matrix dim].
      rewrite (length_concat_rows (dim (globals w))).
      * now rewrite length_map.
      * rewrite Forall_forall in *. intros v Hv. apply in_map_iff in Hv.
        destruct Hv as (t & <- & Ht). now apply Hall.
  - exact He.
  - reflexivity.
  - lia.
  - cbn [globals set_matrix matrix firstn map concat app]. now rewrite Nat.sub_0_r.
Qed.
End RebuildContent.

Section Rows.
Context {A : Arith}.

(** Row [i] of a buffer made of rows of [d] floats. *)
Lemma rowOf_concat (d : nat) (rows : list (list num)) :
  Forall (fun r => length r = d) rows ->
  forall i, i < length rows -> rowOf (concat rows) d i = nth i rows [].
Proof.
  induction 1 as [|r rows Hr _ IH]; intros i Hi; [inversion Hi|].
  cbn [concat]. destruct i as [|i].
  - now apply rowOf_head.
  - rewrite (rowOf_tail _ _ d i Hr). apply IH. simpl in Hi. lia.
Qed.
End Rows.

(** X12. With a provider that embeds each text on its own, as a vector of
    [dim] floats, a rebuild leaves as matrix the normalised embeddings of
    the vocabulary words (each written into the template), row after row
    in the order of the vocabulary, and writes the same floats to the blob
    file: the result does not depend on [BATCH_SIZE], and [getRow(i)] is
    the normalised embedding of word [i]. *)
Theorem rebuilt_matrix_is_embeddings {A : Arith} (probeDim : bool) (e : env)
    (f : string -> list num) (template : string) (w w1 : world) :
  prepare e w = (Ok tt, w1) ->
  cacheLookup (files w1)
    (hashJSON e (MODEL_ID e) (dim (globals w1)) (vocab (globals w1)) template) = Ok None ->
  probeDim && (dim (globals w1) =? 0) = false ->
  pointwise e f ->
  Forall (fun t => length (f t) = dim (globals w1))
         (wordsToTexts (vocab (globals w1)) template) ->
  let rows := map (fun t => normalizeVec (f t))
                  (wordsToTexts (vocab (globals w1)) template) in
  let w' :=
    mkWorld
      (mkState true (vocab (globals w1)) (dim (globals w1)) (Some (concat rows)) true)
      (mkDisk (vocabFile (files w))
         (Some (MetaRecord
                  (mkMeta (length (vocab (globals w1))) (dim (globals w1)) true
                     (hashJSON e (MODEL_ID e) (dim (globals w1)) (vocab (globals w1))
                        template))))
         (Some (concat rows))) in
  buildOrLoadEmbeddingMatrix probeDim e template w = (Ok tt, w') /\
  (forall i, i < length (vocab (globals w1)) ->
             getRow (globals w') i = Ok (nth i rows [])).
Proof.
  intros Hprep Hmiss Hflag Hpoint Hall rows w'.
  pose proof (prepare_ok e w w1 Hprep) as He.
  destruct (prepare_frame e w w1 Hprep) as (Hfiles & _).
  split.
  - rewrite (buildOrLoad_prepared probeDim e template w w1 Hprep).
    cbv zeta. rewrite Hmiss.
    rewrite (rebuildMatrix_content e f Hpoint probeDim template _ w1 He Hflag Hall).
    unfold w', rows. now rewrite Hfiles.
  - intros i Hi. unfold getRow, w'. cbn [globals matrix dim].
    fold (rowOf (concat rows) (dim (globals w1)) i).
    rewrite rowOf_concat; [reflexivity| |].
    + unfold rows. rewrite Forall_forall in *. intros r Hr.
      apply in_map_iff in Hr. destruct Hr as (t & <- & Ht).
      rewrite normalizeVec_length. now apply Hall.
    + unfold rows, wordsToTexts. now rewrite !length_map.
Qed.

Lemma slantedEnv_pointwise : pointwise Demo.slantedEnv (fun _ => Demo.slantedQuery).
Proof. intros ts. simpl. now rewrite map_map. Qed.

Lemma rebuilt_matrix_is_embeddings_witness :
  buildOrLoadEmbeddingMatrix false Demo.slantedEnv "{w}" Demo.oneWordWorld =
  (Ok tt,
   mkWorld
     (mkState true ["work"] 2 (Some (@normalizeVec IEEE.arith Demo.slantedQuery ++ [])) true)
     (mkDisk (Some "work")
        (Some (MetaRecord (mkMeta 1 2 true (Demo.demoHash "Xenova/all-MiniLM-L6-v2" 2
                                              ["work"] "{w}"))))
        (Some (@normalizeVec IEEE.arith Demo.slantedQuery ++ [])))).
Proof.
  exact (proj1 (rebuilt_matrix_is_embeddings false Demo.slantedEnv
                  (fun _ => Demo.slantedQuery) "{w}" Demo.oneWordWorld
                  (mkWorld (mkState true ["work"] 2 None false)
                     (mkDisk (Some "work") None None))
                  eq_refl eq_refl eq_refl slantedEnv_pointwise
                  (Forall_cons _ eq_refl (Forall_nil _)))).
Defined.

(** ** The projection *)

Section ProjectionShape.
Context {A : Arith}.

Lemma map_snd_indexed {T : Type} (l : list T) (a : nat) :
  map snd (combine (seq a (length l)) l) = l.
Proof.
  rewrite (map_indexed (@snd nat T) (fun x => x)); [apply map_id|reflexivity].
Qed.

Lemma mapM_length {T U : Type} (f : T -> result U) (l : list T) :
  forall ys, mapM f l = Ok ys -> length ys = length l.
Proof.
  induction l as [|x l IH]; intros ys H; cbn [mapM] in H.
  - injection H as <-. reflexivity.
  - destruct (f x) as [y|err]; cbn [bind] in H; [|discriminate].
    destruct (mapM f l) as [ys'|err]; cbn [bind] in H; [|discriminate].
    injection H as <-. simpl. now rewrite (IH ys' eq_refl).
Qed.

Lemma orZero_cases (row : list num) (j : nat) :
  truthy (orZero row j) = true \/ orZero row j = zero.
Proof.
  unfold orZero. destruct (nth_error row j) as [v|]; [|now right].
  unfold or_else. destruct (truthy v) eqn:Hv; [now left|now right].
Qed.

Lemma finiteOrZero_finite (coords : list num) (j : nat) :
  isFinite zero = true -> isFinite (finiteOrZero coords j) = true.
Proof.
  intros Hz. unfold finiteOrZero. destruct (nth_error coords j) as [v|]; [|exact Hz].
  destruct (isFinite v) eqn:Hv; [exact Hv|exact Hz].
Qed.

(** The placing loop of [index.js]. *)
Lemma placing_points (Y : list (list num)) (l : list (nat * point)) :
  forall placedPoints,
    mapM (fun ip =>
            match nth_error Y (fst ip) with
            | None => Throw (TypeError "Cannot read properties of undefined (reading '0')")
            | Some row =>
                Ok (mkPlaced (snd ip) (orZero row 0) (orZero row 1) (orZero row 2))
            end) l = Ok placedPoints ->
    map ppoint placedPoints = map snd l /\
    Forall (fun p => (truthy (px p) = true \/ px p = zero) /\
                     (truthy (py p) = true \/ py p = zero) /\
                     (truthy (pz p) = true \/ pz p = zero)) placedPoints.
Proof.
  induction l as [|ip l IH]; intros placedPoints H; cbn [mapM] in H.
  - injection H as <-. split; [reflexivity|constructor].
  - destruct (nth_error Y (fst ip)) as [row|]; cbn [bind] in H; [|discriminate].
    destruct (mapM _ l) as [rest|err]; cbn [bind] in H; [|discriminate].
    injection H as <-. destruct (IH rest eq_refl) as [Hp Hc].
    split; [cbn [map ppoint]; now rewrite Hp|].
    constructor; [|exact Hc]. cbn [px py pz].
    repeat split; apply orZero_cases.
Qed.

Lemma ServerIndex_makePCA_points (e : env) (points : list point)
    (placedPoints : list placed) (ev : list num) :
  ServerIndex.makePCA e points = Ok (placedPoints, ev) ->
  map ppoint placedPoints = points /\
  length ev <= 3 /\
  Forall (fun p => (truthy (px p) = true \/ px p = zero) /\
                   (truthy (py p) = true \/ py p = zero) /\
                   (truthy (pz p) = true \/ pz p = zero)) placedPoints.
Proof.
  unfold ServerIndex.makePCA. destruct (Nat.eqb_spec (length points) 0) as [H0|_].
  - intros H. injection H as <- <-. destruct points; [|discriminate].
    repeat split; [simpl; lia|constructor].
  - destruct (mapM arrayFrom (map pvec points)) as [X|err]; cbn [bind]; [|discriminate].
    destruct (PCA e X) as [pca|err]; cbn [bind]; [|discriminate].
    destruct (predict pca X _) as [Y|err]; cbn [bind]; [|discriminate].
    destruct (getExplainedVariance pca) as [ev0|err]; cbn [bind]; [|discriminate].
    destruct (mapM _ (combine (seq 0 (length points)) points)) as [pl|err] eqn:Hpl;
      cbn [bind]; [|discriminate].
    intros H. injection H as <- <-.
    destruct (placing_points Y _ pl Hpl) as [Hp Hc].
    split; [now rewrite Hp, map_snd_indexed|]. split; [|exact Hc].
    rewrite length_firstn.
    destruct (length (hd [] X)) as [|[|[|n]]]; lia.
Qed.

Lemma Part002_makePCA_same (e : env) (points : list point)
    (placedPoints : list placed) (ev : list num) :
  Part002.makePCA e points = Ok (placedPoints, ev) ->
  map ppoint placedPoints = points.
Proof.
  unfold Part002.makePCA.
  destruct (Nat.eqb_spec (length points) 0) as [H0|_].
  - intros H. injection H as <- _. now destruct points.
  - destruct (mapM arrayFrom (map pvec points)) as [X|err]; cbn [bind]; [|discriminate].
    intros H. injection H as <- _.
    rewrite map_map. cbn [ppoint]. apply map_snd_indexed.
Qed.

Lemma Part002_makePCA_points (e : env) (points : list point)
    (placedPoints : list placed) (ev : list num) :
  isFinite zero = true ->
  Part002.makePCA e points = Ok (placedPoints, ev) ->
  map ppoint placedPoints = points /\
  length ev = 3 /\
  Forall (fun p => isFinite (px p) = true /\ isFinite (py p) = true /\
                   isFinite (pz p) = true) placedPoints.
Proof.
  intros Hz. unfold Part002.makePCA.
  destruct (Nat.eqb_spec (length points) 0) as [H0|_].
  - intros H. injection H as <- <-. destruct points; [|discriminate].
    repeat split. constructor.
  - destruct (mapM arrayFrom (map pvec points)) as [X|err]; cbn [bind]; [|discriminate].
    intros H. injection H as <- <-.
    split; [|split; [reflexivity|]].
    + rewrite map_map. cbn [ppoint]. apply map_snd_indexed.
    + rewrite Forall_forall. intros p Hp. apply in_map_iff in Hp.
      destruct Hp as (ip & <- & _). cbn [px py pz].
      repeat split; now apply finiteOrZero_finite.
Qed.
End ProjectionShape.

(** X13. [makePCA] of [part_002] cannot fail on points that carry their
    vectors, whatever the PCA library does: it returns the points it was
    given, in order, each with three finite coordinates, and exactly three
    explained variances. *)
Theorem Part002_makePCA_robust {A : Arith} (e : env) (points : list point) :
  isFinite zero = true ->
  Forall (fun v => v <> None) (map pvec points) ->
  exists placedPoints ev,
    Part002.makePCA e points = Ok (placedPoints, ev) /\
    map ppoint placedPoints = points /\
    length ev = 3 /\
    Forall (fun p => isFinite (px p) = true /\ isFinite (py p) = true /\
                     isFinite (pz p) = true) placedPoints.
Proof.
  intros Hz Hv.
  destruct (Part002_makePCA_total e points Hv) as ([placedPoints ev] & Hrun).
  exists placedPoints, ev. split; [exact Hrun|].
  now apply (Part002_makePCA_points e points).
Qed.

Lemma Part002_makePCA_robust_witness :
  exists placedPoints ev,
    Part002.makePCA Demo.failingPcaEnv
      [Demo.targetPoint] =
      Ok (placedPoints, ev) /\
    length ev = 3.
Proof.
  assert (Hv : Forall (fun v => v <> None) (map (@pvec IEEE.arith) [Demo.targetPoint]))
    by (repeat constructor; discriminate).
  destruct (Part002_makePCA_robust Demo.failingPcaEnv [Demo.targetPoint] eq_refl Hv)
    as (placedPoints & ev & Hrun & _ & Hev & _).
  exists placedPoints, ev. split; [exact Hrun|exact Hev].
Defined.

(** X14. When [makePCA] of [index.js] returns, it returns the points it
    was given, in order, with at most three explained variances, and
    every coordinate is a number other than [NaN]: a coordinate that is
    missing, [NaN] or zero is answered as [0]. *)
Theorem ServerIndex_makePCA_shape {A : Arith} (e : env) (points : list point)
    (placedPoints : list placed) (ev : list num) :
  ServerIndex.makePCA e points = Ok (placedPoints, ev) ->
  map ppoint placedPoints = points /\
  length ev <= 3 /\
  Forall (fun p => (truthy (px p) = true \/ px p = zero) /\
                   (truthy (py p) = true \/ py p = zero) /\
                   (truthy (pz p) = true \/ pz p = zero)) placedPoints.
Proof. apply ServerIndex_makePCA_points. Qed.

Lemma ServerIndex_makePCA_shape_witness :
  exists placedPoints ev,
    ServerIndex.makePCA Demo.goodEnv
      [Demo.targetPoint] =
      Ok (placedPoints, ev) /\
    map ppoint placedPoints =
      [Demo.targetPoint].
Proof.
  eexists _, _. split; [reflexivity|].
  exact (proj1 (ServerIndex_makePCA_shape Demo.goodEnv
                  [Demo.targetPoint]
                  _ _ eq_refl)).
Defined.

(** ** The answer of a search *)

Section AnswerShape.
Context {A : Arith}.

Lemma collectPairs_cases (entries : list jsval) :
  collectPairs entries =
  if forallb iterable entries then Ok (validPairs entries)
  else Throw (TypeError "entry is not iterable").
Proof.
  induction entries as [|entry rest IH]; [reflexivity|].
  cbn [collectPairs forallb validPairs flat_map]. fold (validPairs rest). rewrite IH.
  destruct entry; cbn [destructure2 bind iterable andb]; try reflexivity.
  - destruct (forallb iterable rest); cbn [bind]; [|reflexivity].
    destruct s as [|a [|b s]]; reflexivity.
  - destruct (forallb iterable rest); cbn [bind]; [|reflexivity].
    destruct (nth 0 items JUndefined); try reflexivity.
    destruct (nth 1 items JUndefined); reflexivity.
Qed.

Lemma respond_Json200 (h : M response) (w : world) (body : response) :
  fst (respond h w) = Json200 body -> fst (h w) = Ok body.
Proof.
  unfold respond. destruct (h w) as [[b|err] w']; simpl; intros H; [|discriminate].
  now injection H as <-.
Qed.

(** A search that answers has collected its pairs and run [answer] on the
    globals it ends with. *)
Lemma search_answer_inv (probeDim : bool) (e : env) (req : request)
    (answer : env -> state -> request -> list (string * string) -> list (list num) ->
              result response) (w : world) (body : response) :
  fst (bindM get (fun st0 =>
         bindM (if isNull (matrix st0)
                then buildOrLoadEmbeddingMatrix probeDim e (contextTemplate req)
                else ret tt)
           (fun _ =>
              bindM (lift (collectPairs (pairs req)))
                (fun pairObjs =>
                   bindM (embedMany e (map JString
                                         (wordsToTexts (flatWordsOf pairObjs (target req))
                                            (contextTemplate req))))
                     (fun embs => bindM get (fun st =>
                                     lift (answer e st req pairObjs embs)))))) w) = Ok body ->
  exists st embs,
    forallb iterable (pairs req) = true /\
    answer e st req (validPairs (pairs req)) embs = Ok body.
Proof.
  unfold bindM at 1. unfold get at 1. unfold bindM at 1.
  destruct ((if isNull (matrix (globals w))
             then buildOrLoadEmbeddingMatrix probeDim e (contextTemplate req)
             else ret tt) w) as [[[]|err] w1]; [|discriminate].
  unfold bindM at 1. unfold lift at 1. rewrite collectPairs_cases.
  destruct (forallb iterable (pairs req)); [|discriminate].
  unfold bindM at 1.
  destruct (embedMany e _ w1) as [[embs|err] w2]; [|discriminate].
  unfold bindM, get, lift. cbn [fst]. intros H.
  exists (globals w2), embs. split; [reflexivity|exact H].
Qed.

Lemma map_fst_combine {T U : Type} (l : list T) (l' : list U) :
  length l = length l' -> map fst (combine l l') = l.
Proof.
  revert l'. induction l as [|x l IH]; intros [|y l'] H; simpl in *; try discriminate.
  - reflexivity.
  - f_equal. apply IH. lia.
Qed.

Lemma seedPoints_layout (embs : list (list num)) (pairObjs : list (string * string)) :
  map (fun p => (pid p, plabel p, pkind p)) (seedPoints pairObjs embs) =
  flat_map (fun ab => [(("seed:" ++ fst ab)%string, fst ab, KSeedFrom);
                       (("seed:" ++ snd ab)%string, snd ab, KSeedTo)]) pairObjs.
Proof.
  unfold seedPoints.
  enough (H : forall a,
             map (fun p => (pid p, plabel p, pkind p))
               (flat_map (fun iab =>
                            let i := fst iab in
                            let a := fst (snd iab) in
                            let b := snd (snd iab) in
                            [mkPoint ("seed:" ++ a) a KSeedFrom (nth_error embs (2 * i)) None;
                             mkPoint ("seed:" ++ b) b KSeedTo (nth_error embs (2 * i + 1))
                               None])
                         (combine (seq a (length pairObjs)) pairObjs)) =
             flat_map (fun ab => [(("seed:" ++ fst ab)%string, fst ab, KSeedFrom);
                                  (("seed:" ++ snd ab)%string, snd ab, KSeedTo)]) pairObjs)
    by apply (H 0).
  induction pairObjs as [|ab po IH]; intros a; [reflexivity|].
  cbn [length seq combine flat_map map app fst snd pid plabel pkind].
  now rewrite IH.
Qed.

(** The points handed to [makePCA], as [id], [label] and [kind]. *)
Lemma pPoints_layout (req : request) (pairObjs : list (string * string))
    (embs : list (list num)) (ns : list neighbor) (rows : list (list num))
    (scoreOfPoint : neighbor -> option num) (t p : option (list num)) :
  length rows = length ns ->
  map (fun q => (pid q, plabel q, pkind q))
    (map (fun nr => mkPoint ("neighbor:" ++ word (fst nr)) (word (fst nr)) KNeighbor
                      (Some (snd nr)) (scoreOfPoint (fst nr)))
         (combine ns rows)
     ++ [mkPoint "target" (target req) KTarget t None;
         mkPoint "predicted" (target req ++ "*") KPredicted p None]
     ++ (if includeSeeds req then seedPoints pairObjs embs else [])) =
  expectedPoints (map word ns) (target req) (if includeSeeds req then pairObjs else []).
Proof.
  intros Hlen. unfold expectedPoints. rewrite !map_app. f_equal; [|f_equal].
  - rewrite !map_map. cbn [pid plabel pkind].
    rewrite <- (map_fst_combine ns rows) at 2 by (symmetry; exact Hlen).
    now rewrite map_map.
  - destruct (includeSeeds req); [apply seedPoints_layout|reflexivity].
Qed.

Lemma ServerIndex_answer_layout (e : env) (st : state) (req : request)
    (pairObjs : list (string * string)) (embs : list (list num)) (body : response) :
  ServerIndex.answer e st req pairObjs embs = Ok body ->
  map (fun o => (o_id o, o_label o, o_kind o)) (r_points body) =
  expectedPoints (map fst (r_neighbors body)) (target req)
    (if includeSeeds req then pairObjs else []).
Proof.
  unfold ServerIndex.answer.
  destruct (ServerIndex.translate st pairObjs embs) as [tr|err]; cbn [bind];
    [|discriminate].
  destruct (topKSimilar st (t_query tr) (k req) (excludeSetOf req)) as [ns|err];
    cbn [bind]; [|discriminate].
  destruct (mapM (fun n => getRow st (index n)) ns) as [rows|err] eqn:Hrows;
    cbn [bind]; [|discriminate].
  destruct (ServerIndex.makePCA e _) as [[pl ev]|err] eqn:Hpca; cbn [bind];
    [|discriminate].
  destruct (arrayFrom (t_targetEmb tr)) as [tgt|err]; cbn [bind]; [|discriminate].
  intros H. injection H as <-. cbn [r_points r_neighbors fst].
  apply ServerIndex_makePCA_points in Hpca. destruct Hpca as [Hp _].
  rewrite !map_map. cbn [o_id o_label o_kind fst].
  rewrite <- (map_map ppoint (fun q => (pid q, plabel q, pkind q))), Hp.
  rewrite <- (map_map (fun n : neighbor => word n) (fun w => w)), map_id.
  refine (pPoints_layout req pairObjs embs ns rows (fun _ => None) _ _ _).
  exact (mapM_length _ ns rows Hrows).
Qed.

Lemma Part002_answer_layout (e : env) (st : state) (req : request)
    (pairObjs : list (string * string)) (embs : list (list num)) (body : response) :
  Part002.answer e st req pairObjs embs = Ok body ->
  map (fun o => (o_id o, o_label o, o_kind o)) (r_points body) =
  expectedPoints (map fst (r_neighbors body)) (target req)
    (if includeSeeds req then pairObjs else []).
Proof.
  unfold Part002.answer.
  destruct (negb (length embs =? length (flatWordsOf pairObjs (target req))));
    cbn [bind]; [discriminate|].
  destruct (Part002.translate st pairObjs embs) as [tr|err]; cbn [bind];
    [|discriminate].
  destruct (topKSimilar st (t_query tr) (k req) (excludeSetOf req)) as [ns|err];
    cbn [bind]; [|discriminate].
  destruct (mapM (fun n => getRow st (index n)) ns) as [rows|err] eqn:Hrows;
    cbn [bind]; [|discriminate].
  destruct (Part002.makePCA e _) as [[pl ev]|err] eqn:Hpca; cbn [bind];
    [|discriminate].
  destruct (arrayFrom (t_targetEmb tr)) as [tgt|err]; cbn [bind]; [|discriminate].
  intros H. injection H as <-. cbn [r_points r_neighbors fst].
  pose proof (Part002_makePCA_same e _ pl ev Hpca) as Hp.
  rewrite !map_map. cbn [o_id o_label o_kind fst].
  rewrite <- (map_map ppoint (fun q => (pid q, plabel q, pkind q))), Hp.
  rewrite <- (map_map (fun n : neighbor => word n) (fun w => w)), map_id.
  refine (pPoints_layout req pairObjs embs ns rows (fun n => Some (score n)) _ _ _).
  exact (mapM_length _ ns rows Hrows).
Qed.
End AnswerShape.

(** X15. The points of every answered search, in both files, are, in this
    order: one point per neighbour, in the order of the neighbour list,
    with id [neighbor:<word>]; the target and its translation, with ids
    [target] and [predicted]; and, when [includeSeeds] is set, the two
    words of each usable pair, with ids [seed:<word>]. *)
Theorem search_points_layout {A : Arith} (e : env) (req : request) (w : world)
    (body : response) :
  fst (ServerIndex.postSearch e req w) = Json200 body \/
  fst (Part002.postSearch e req w) = Json200 body ->
  map (fun o => (o_id o, o_label o, o_kind o)) (r_points body) =
  expectedPoints (map fst (r_neighbors body)) (target req)
    (if includeSeeds req then validPairs (pairs req) else []).
Proof.
  intros [H|H]; apply respond_Json200 in H.
  - destruct (search_answer_inv false e req ServerIndex.answer w body H)
      as (st & embs & _ & Hans).
    exact (ServerIndex_answer_layout e st req _ embs body Hans).
  - destruct (search_answer_inv true e req Part002.answer w body H)
      as (st & embs & _ & Hans).
    exact (Part002_answer_layout e st req _ embs body Hans).
Qed.

Lemma goodEnv_answers :
  exists body,
    ServerIndex.postSearch Demo.goodEnv Demo.mixedRequest Demo.smallWorld =
      (Json200 body, Demo.smallWorld) /\
    exists body',
      Part002.postSearch Demo.goodEnv Demo.mixedRequest Demo.smallWorld =
        (Json200 body', Demo.smallWorld).
Proof.
  destruct (embedMany_aligned Demo.goodEnv (textsOf Demo.mixedRequest [("x", "y")])
              Demo.smallWorld eq_refl goodEnv_aligned) as (embs & Hembs & Hlen).
  assert (Hfst : fst (embedMany Demo.goodEnv (textsOf Demo.mixedRequest [("x", "y")])
                        Demo.smallWorld) = Ok embs) by now rewrite Hembs.
  destruct (ServerIndex_search_answered Demo.goodEnv Demo.mixedRequest Demo.smallWorld
              _ [("x", "y")] embs eq_refl eq_refl eq_refl Hfst Hlen goodEnv_pcaTotal)
    as (body & _ & Hbody & _).
  destruct (Part002_search_answered Demo.goodEnv Demo.mixedRequest Demo.smallWorld
              _ [("x", "y")] embs eq_refl eq_refl eq_refl Hfst Hlen)
    as (body' & _ & Hbody' & _).
  exists body. split; [exact Hbody|]. exists body'. exact Hbody'.
Qed.

Lemma search_points_layout_witness :
  exists body,
    fst (ServerIndex.postSearch Demo.goodEnv Demo.mixedRequest Demo.smallWorld) =
      Json200 body /\
    map (fun o => (o_id o, o_label o, o_kind o)) (r_points body) =
    expectedPoints (map fst (r_neighbors body)) "a" [("x", "y")].
Proof.
  destruct goodEnv_answers as (body & Hbody & _).
  exists body. split; [now rewrite Hbody|].
  apply (search_points_layout Demo.goodEnv Demo.mixedRequest Demo.smallWorld body).
  left. now rewrite Hbody.
Defined.

(** ** What a search excludes and rejects *)

Section Exclusion.
Context {A : Arith}.

Lemma set_add_keeps (s : JSSet) (x v : jsval) :
  set_has s v = true -> set_has (set_add s x) v = true.
Proof.
  intros H. unfold set_add. destruct (set_has s x); [exact H|].
  unfold set_has in *. rewrite existsb_app, H. reflexivity.
Qed.

Lemma set_add_has (s : JSSet) (w : string) :
  set_has (set_add s (JString w)) (JString w) = true.
Proof.
  unfold set_add. destruct (set_has s (JString w)) eqn:H; [exact H|].
  unfold set_has. rewrite existsb_app. simpl. rewrite String.eqb_refl.
  now rewrite orb_true_r.
Qed.

Lemma set_of_has (items : list jsval) (w : string) :
  In (JString w) items -> set_has (set_of items) (JString w) = true.
Proof.
  unfold set_of.
  enough (H : forall acc,
             set_has acc (JString w) = true \/ In (JString w) items ->
             set_has (fold_left set_add items acc) (JString w) = true)
    by (intros Hin; apply H; now right).
  induction items as [|x items IH]; intros acc [Hacc|Hin]; cbn [fold_left].
  - exact Hacc.
  - destruct Hin.
  - apply IH. left. now apply set_add_keeps.
  - destruct Hin as [->|Hin].
    + apply IH. left. apply set_add_has.
    + apply IH. now right.
Qed.

Lemma topKSimilar_excludes (st : state) (q : list num) (k : Z) (exclude : JSSet)
    (res : list neighbor) :
  topKSimilar st q k exclude = Ok res ->
  Forall (fun n => set_has exclude (JString (word n)) = false) res.
Proof.
  unfold topKSimilar.
  destruct (mapM _ (seq 0 (length (vocab st)))) as [sims|err]; cbn [bind]; [|discriminate].
  intros H. injection H as <-. rewrite collect_closed. cbn [app].
  rewrite Forall_forall. intros n Hn.
  apply firstn_In, in_map_iff in Hn. destruct Hn as (i & <- & Hi).
  apply filter_In in Hi. destruct Hi as [_ Hi]. unfold allowed in Hi.
  cbn [entry word]. now apply negb_true_iff in Hi.
Qed.

Lemma ServerIndex_answer_neighbors (e : env) (st : state) (req : request)
    (pairObjs : list (string * string)) (embs : list (list num)) (body : response) :
  ServerIndex.answer e st req pairObjs embs = Ok body ->
  exists q ns,
    topKSimilar st q (k req) (excludeSetOf req) = Ok ns /\
    r_neighbors body = map (fun n => (word n, score n)) ns.
Proof.
  unfold ServerIndex.answer.
  destruct (ServerIndex.translate st pairObjs embs) as [tr|err]; cbn [bind];
    [|discriminate].
  destruct (topKSimilar st (t_query tr) (k req) (excludeSetOf req)) as [ns|err] eqn:Hns;
    cbn [bind]; [|discriminate].
  destruct (mapM (fun n => getRow st (index n)) ns) as [rows|err];
    cbn [bind]; [|discriminate].
  destruct (ServerIndex.makePCA e _) as [[pl ev]|err]; cbn [bind]; [|discriminate].
  destruct (arrayFrom (t_targetEmb tr)) as [tgt|err]; cbn [bind]; [|discriminate].
  intros H. injection H as <-. exists (t_query tr), ns. split; [exact Hns|reflexivity].
Qed.

Lemma Part002_answer_neighbors (e : env) (st : state) (req : request)
    (pairObjs : list (string * string)) (embs : list (list num)) (body : response) :
  Part002.answer e st req pairObjs embs = Ok body ->
  exists q ns,
    topKSimilar st q (k req) (excludeSetOf req) = Ok ns /\
    r_neighbors body = map (fun n => (word n, score n)) ns.
Proof.
  unfold Part002.answer.
  destruct (negb (length embs =? length (flatWordsOf pairObjs (target req))));
    cbn [bind]; [discriminate|].
  destruct (Part002.translate st pairObjs embs) as [tr|err]; cbn [bind];
    [|discriminate].
  destruct (topKSimilar st (t_query tr) (k req) (excludeSetOf req)) as [ns|err] eqn:Hns;
    cbn [bind]; [|discriminate].
  destruct (mapM (fun n => getRow st (index n)) ns) as [rows|err];
    cbn [bind]; [|discriminate].
  destruct (Part002.makePCA e _) as [[pl ev]|err]; cbn [bind]; [|discriminate].
  destruct (arrayFrom (t_targetEmb tr)) as [tgt|err]; cbn [bind]; [|discriminate].
  intros H. injection H as <-. exists (t_query tr), ns. split; [exact Hns|reflexivity].
Qed.

Lemma neighbors_exclude (st : state) (q : list num) (req : request)
    (ns : list neighbor) (w : string) :
  topKSimilar st q (k req) (excludeSetOf req) = Ok ns ->
  excludeInputs req = true ->
  In (JString w) (flat (pairs req) ++ [JString (target req)]) ->
  ~ In w (map fst (map (fun n => (word n, score n)) ns)).
Proof.
  intros Hns Hex Hin Hw. rewrite map_map in Hw. cbn [fst] in Hw.
  apply in_map_iff in Hw. destruct Hw as (n & <- & Hn).
  pose proof (topKSimilar_excludes st q (k req) (excludeSetOf req) ns Hns) as Hall.
  rewrite Forall_forall in Hall. specialize (Hall n Hn).
  unfold excludeSetOf in Hall. rewrite Hex in Hall.
  rewrite (set_of_has _ _ Hin) in Hall. discriminate.
Qed.
End Exclusion.

(** X16. With [excludeInputs] set, no neighbour of an answered search, in
    either file, is the target word or a string found in [pairs]: also the
    strings of entries that were skipped as malformed are excluded. *)
Theorem search_excludes_inputs {A : Arith} (e : env) (req : request) (w : world)
    (body : response) :
  fst (ServerIndex.postSearch e req w) = Json200 body \/
  fst (Part002.postSearch e req w) = Json200 body ->
  excludeInputs req = true ->
  ~ In (target req) (map fst (r_neighbors body)) /\
  (forall s, In (JString s) (flat (pairs req)) -> ~ In s (map fst (r_neighbors body))).
Proof.
  intros Hbody Hex.
  assert (Hns : exists st q ns,
            topKSimilar st q (k req) (excludeSetOf req) = Ok ns /\
            r_neighbors body = map (fun n => (word n, score n)) ns).
  { destruct Hbody as [H|H]; apply respond_Json200 in H.
    - destruct (search_answer_inv false e req ServerIndex.answer w body H)
        as (st & embs & _ & Hans).
      destruct (ServerIndex_answer_neighbors e st req _ embs body Hans) as (q & ns & Hq).
      now exists st, q, ns.
    - destruct (search_answer_inv true e req Part002.answer w body H)
        as (st & embs & _ & Hans).
      destruct (Part002_answer_neighbors e st req _ embs body Hans) as (q & ns & Hq).
      now exists st, q, ns. }
  destruct Hns as (st & q & ns & Htop & ->).
  split.
  - apply (neighbors_exclude st q req ns (target req) Htop Hex).
    apply in_or_app. right. now left.
  - intros s Hs. apply (neighbors_exclude st q req ns s Htop Hex).
    apply in_or_app. now left.
Qed.

Lemma search_excludes_inputs_witness :
  exists body,
    fst (Part002.postSearch Demo.goodEnv Demo.mixedRequest Demo.smallWorld) =
      Json200 body /\
    ~ In "a" (map fst (r_neighbors body)) /\
    ~ In "x" (map fst (r_neighbors body)).
Proof.
  destruct goodEnv_answers as (_ & _ & body & Hbody).
  exists body. split; [now rewrite Hbody|].
  destruct (search_excludes_inputs Demo.goodEnv Demo.mixedRequest Demo.smallWorld body)
    as [Htarget Hpairs]; [right; now rewrite Hbody|reflexivity|].
  split; [exact Htarget|]. apply Hpairs. simpl. tauto.
Defined.

(** X17. The lenient treatment of malformed pairs ends at entries that
    cannot be destructured: a [pairs] entry that is neither an array nor a
    string ([null], a number, a boolean, an object) makes both files answer
    the whole request with status 500 and a [TypeError], before anything is
    embedded; with a matrix in memory nothing else happens. *)
Theorem search_rejects_non_iterable_entry {A : Arith} (e : env) (req : request)
    (w : world) (m : list num) :
  matrix (globals w) = Some m ->
  embedder (globals w) = true ->
  forallb iterable (pairs req) = false ->
  exists msg,
    ServerIndex.postSearch e req w = (Error500 (TypeError msg), w) /\
    Part002.postSearch e req w = (Error500 (TypeError msg), w).
Proof.
  intros Hm He Hnot. exists "entry is not iterable".
  unfold ServerIndex.postSearch, Part002.postSearch, respond.
  rewrite (ServerIndex_search_loaded e req w m Hm He).
  rewrite (Part002_search_loaded e req w m Hm He).
  rewrite collectPairs_cases, Hnot. split; reflexivity.
Qed.

Lemma search_rejects_non_iterable_entry_witness :
  exists msg,
    ServerIndex.postSearch Demo.goodEnv Demo.nullEntryRequest Demo.smallWorld =
      (Error500 (TypeError msg), Demo.smallWorld) /\
    Part002.postSearch Demo.goodEnv Demo.nullEntryRequest Demo.smallWorld =
      (Error500 (TypeError msg), Demo.smallWorld).
Proof.
  exact (search_rejects_non_iterable_entry Demo.goodEnv Demo.nullEntryRequest
           Demo.smallWorld _ eq_refl eq_refl eq_refl).
Defined.

(** ** The scores on the points *)

Section PointScores.
Context {A : Arith}.

Lemma find_by_word (l : list neighbor) (n : neighbor) :
  NoDup (map word l) ->
  In n l ->
  find (fun n' => String.eqb ("neighbor:" ++ word n') ("neighbor:" ++ word n)) l = Some n.
Proof.
  induction l as [|y l IH]; intros Hnd Hin; [destruct Hin|].
  cbn [map] in Hnd. inversion Hnd as [|? ? Hy Hrest]; subst.
  cbn [find]. cbn [append String.eqb Ascii.eqb Bool.eqb].
  destruct (String.eqb_spec (word y) (word n)) as [Heq|Hne].
  - destruct Hin as [->|Hin]; [reflexivity|].
    exfalso. apply Hy. rewrite Heq. now apply in_map.
  - destruct Hin as [->|Hin]; [contradiction|]. now apply IH.
Qed.

Lemma find_no_neighbor (l : list neighbor) (id : string) :
  (forall w, String.eqb ("neighbor:" ++ w) id = false) ->
  find (fun n' => String.eqb ("neighbor:" ++ word n') id) l = None.
Proof.
  intros H. induction l as [|y l IH]; [reflexivity|].
  cbn [find]. now rewrite H.
Qed.

Lemma scoreOf_neighbor (ns : list neighbor) (n : neighbor) :
  NoDup (map word ns) ->
  In n ns ->
  ServerIndex.scoreOf ns ("neighbor:" ++ word n) =
  if truthy (score n) then Some (score n) else None.
Proof.
  intros Hnd Hin. unfold ServerIndex.scoreOf.
  rewrite (find_by_word (rev ns) n); [reflexivity| |now apply in_rev in Hin].
  rewrite map_rev. now apply NoDup_rev.
Qed.

Lemma seedPoints_scores (ns : list neighbor) (pairObjs : list (string * string))
    (embs : list (list num)) :
  Forall (fun q => ServerIndex.scoreOf ns (pid q) = None /\ pkind q <> KNeighbor)
         (seedPoints pairObjs embs).
Proof.
  unfold seedPoints. rewrite Forall_forall. intros q Hq.
  apply in_flat_map in Hq. destruct Hq as (iab & _ & Hq). cbv zeta in Hq.
  destruct Hq as [<-|[<-|[]]]; cbn [pid pkind]; (split; [|discriminate]);
    unfold ServerIndex.scoreOf; rewrite find_no_neighbor; reflexivity.
Qed.

Lemma map_constant {T U : Type} (f : T -> U) (c : U) (l : list T) :
  Forall (fun x => f x = c) l -> map f l = repeat c (length l).
Proof.
  induction 1 as [|x l Hx _ IH]; [reflexivity|]. simpl. now rewrite Hx, IH.
Qed.

Lemma ServerIndex_answer_scores (e : env) (st : state) (req : request)
    (pairObjs : list (string * string)) (embs : list (list num)) (body : response) :
  ServerIndex.answer e st req pairObjs embs = Ok body ->
  NoDup (map fst (r_neighbors body)) ->
  map o_score (r_points body) =
  map (fun ws => if truthy (snd ws) then Some (snd ws) else None) (r_neighbors body) ++
  repeat None (length (r_points body) - length (r_neighbors body)).
Proof.
  unfold ServerIndex.answer.
  destruct (ServerIndex.translate st pairObjs embs) as [tr|err]; cbn [bind];
    [|discriminate].
  destruct (topKSimilar st (t_query tr) (k req) (excludeSetOf req)) as [ns|err];
    cbn [bind]; [|discriminate].
  destruct (mapM (fun n => getRow st (index n)) ns) as [rows|err] eqn:Hrows;
    cbn [bind]; [|discriminate].
  destruct (ServerIndex.makePCA e _) as [[pl ev]|err] eqn:Hpca; cbn [bind];
    [|discriminate].
  destruct (arrayFrom (t_targetEmb tr)) as [tgt|err]; cbn [bind]; [|discriminate].
  intros H. injection H as <-. cbn [r_points r_neighbors fst].
  rewrite map_map. cbn [fst]. intros Hnd.
  apply ServerIndex_makePCA_points in Hpca. destruct Hpca as [Hp _].
  pose proof (mapM_length _ ns rows Hrows) as Hlen.
  rewrite !map_map. cbn [o_score snd].
  rewrite <- (map_map ppoint (fun q => ServerIndex.scoreOf ns (pid q))), Hp.
  rewrite !length_map, <- (length_map ppoint pl), Hp.
  rewrite !map_app, !length_app, length_map, length_combine, Hlen, Nat.min_id.
  f_equal.
  - rewrite map_map. cbn [pid].
    transitivity (map (fun n => if truthy (score n) then Some (score n) else None)
                      (map fst (combine ns rows)));
      [|now rewrite map_fst_combine by (symmetry; exact Hlen)].
    rewrite map_map. apply map_ext_in. intros [n row] Hnr. cbn [fst].
    apply scoreOf_neighbor; [exact Hnd|]. now apply in_combine_l in Hnr.
  - replace (length ns + (length [mkPoint "target" (target req) KTarget (t_targetEmb tr) None;
                                   mkPoint "predicted" (target req ++ "*") KPredicted
                                     (Some (t_query tr)) None] +
                          length (if includeSeeds req then seedPoints pairObjs embs else []))
                       - length ns)
      with (2 + length (if includeSeeds req then seedPoints pairObjs embs else []))
      by (simpl; lia).
    cbn [map pid repeat Nat.add]. unfold ServerIndex.scoreOf at 1 2.
    rewrite !find_no_neighbor by reflexivity. cbn [app]. do 2 f_equal.
    apply map_constant. destruct (includeSeeds req); [|constructor].
    pose proof (seedPoints_scores ns pairObjs embs) as Hs.
    rewrite Forall_forall in *. intros q Hq. now apply Hs.
Qed.

Lemma Part002_answer_scores (e : env) (st : state) (req : request)
    (pairObjs : list (string * string)) (embs : list (list num)) (body : response) :
  Part002.answer e st req pairObjs embs = Ok body ->
  map o_score (r_points body) =
  map (fun ws => Some (snd ws)) (r_neighbors body) ++
  repeat None (length (r_points body) - length (r_neighbors body)).
Proof.
  unfold Part002.answer.
  destruct (negb (length embs =? length (flatWordsOf pairObjs (target req))));
    cbn [bind]; [discriminate|].
  destruct (Part002.translate st pairObjs embs) as [tr|err]; cbn [bind];
    [|discriminate].
  destruct (topKSimilar st (t_query tr) (k req) (excludeSetOf req)) as [ns|err];
    cbn [bind]; [|discriminate].
  destruct (mapM (fun n => getRow st (index n)) ns) as [rows|err] eqn:Hrows;
    cbn [bind]; [|discriminate].
  destruct (Part002.makePCA e _) as [[pl ev]|err] eqn:Hpca; cbn [bind];
    [|discriminate].
  destruct (arrayFrom (t_targetEmb tr)) as [tgt|err]; cbn [bind]; [|discriminate].
  intros H. injection H as <-. cbn [r_points r_neighbors fst].
  pose proof (Part002_makePCA_same e _ pl ev Hpca) as Hp.
  pose proof (mapM_length _ ns rows Hrows) as Hlen.
  rewrite !map_map. cbn [o_score snd].
  rewrite <- (map_map ppoint (fun q => match pkind q with
                                       | KNeighbor => pscore q
                                       | _ => None
                                       end)), Hp.
  rewrite !length_map, <- (length_map ppoint pl), Hp.
  rewrite !map_app, !length_app, length_map, length_combine, Hlen, Nat.min_id.
  f_equal.
  - rewrite map_map. cbn [pkind pscore].
    transitivity (map (fun n => Some (score n)) (map fst (combine ns rows)));
      [|now rewrite map_fst_combine by (symmetry; exact Hlen)].
    now rewrite map_map.
  - replace (length ns + (length [mkPoint "target" (target req) KTarget (t_targetEmb tr) None;
                                   mkPoint "predicted" (target req ++ "*") KPredicted
                                     (Some (normalizeVec (t_query tr))) None] +
                          length (if includeSeeds req then seedPoints pairObjs embs else []))
                       - length ns)
      with (2 + length (if includeSeeds req then seedPoints pairObjs embs else []))
      by (simpl; lia).
    cbn [map pkind repeat Nat.add app]. do 2 f_equal.
    apply map_constant. destruct (includeSeeds req); [|constructor].
    pose proof (seedPoints_scores [] pairObjs embs) as Hs.
    rewrite Forall_forall in *. intros q Hq. destruct (Hs q Hq) as [_ Hk].
    now destruct (pkind q).
Qed.
End PointScores.

Section DistinctNeighbours.
Context {A : Arith}.

(** With a vocabulary without duplicates, as it is in every world the
    server reaches, no word occurs twice among the neighbours of an
    answer. *)
Lemma search_neighbors_distinct (e : env) (req : request) (w : world) (m : list num)
    (body : response) :
  matrix (globals w) = Some m ->
  embedder (globals w) = true ->
  NoDup (vocab (globals w)) ->
  fst (ServerIndex.postSearch e req w) = Json200 body \/
  fst (Part002.postSearch e req w) = Json200 body ->
  NoDup (map fst (r_neighbors body)).
Proof.
  intros Hm He Hnd Hbody.
  assert (Hns : exists q ns,
            topKSimilar (globals w) q (k req) (excludeSetOf req) = Ok ns /\
            r_neighbors body = map (fun n => (word n, score n)) ns).
  { destruct Hbody as [H|H]; apply respond_Json200 in H.
    - rewrite (ServerIndex_search_loaded e req w m Hm He) in H. cbn [fst] in H.
      destruct (collectPairs (pairs req)) as [po|err]; cbn [bind] in H; [|discriminate].
      destruct (fst (embedMany e (textsOf req po) w)) as [embs|err]; cbn [bind] in H;
        [|discriminate].
      exact (ServerIndex_answer_neighbors e (globals w) req po embs body H).
    - rewrite (Part002_search_loaded e req w m Hm He) in H. cbn [fst] in H.
      destruct (collectPairs (pairs req)) as [po|err]; cbn [bind] in H; [|discriminate].
      destruct (fst (embedMany e (textsOf req po) w)) as [embs|err]; cbn [bind] in H;
        [|discriminate].
      exact (Part002_answer_neighbors e (globals w) req po embs body H). }
  destruct Hns as (q & ns & Htop & ->).
  destruct (topKSimilar_rows_of (globals w) m q (k req) (excludeSetOf req) Hm)
    as (res & Hres & _ & _ & Hwords).
  rewrite Htop in Hres. injection Hres as <-.
  rewrite map_map. cbn [fst]. now apply Hwords.
Qed.
End DistinctNeighbours.

(** X18. The score on the points of an answer: the points of the
    neighbours come first and carry the scores of the neighbour list, in
    order; every other point carries none.  In [index.js] a neighbour
    whose score is [0] (or [NaN]) carries [null] instead, since the score
    is looked up with [|| null]; [part_002] copies the score as it is.
    (No word occurs twice among the neighbours.) *)
Theorem search_point_scores {A : Arith} (e : env) (req : request) (w : world)
    (body : response) :
  NoDup (map fst (r_neighbors body)) ->
  (fst (ServerIndex.postSearch e req w) = Json200 body ->
   map o_score (r_points body) =
   map (fun ws => if truthy (snd ws) then Some (snd ws) else None) (r_neighbors body) ++
   repeat None (length (r_points body) - length (r_neighbors body))) /\
  (fst (Part002.postSearch e req w) = Json200 body ->
   map o_score (r_points body) =
   map (fun ws => Some (snd ws)) (r_neighbors body) ++
   repeat None (length (r_points body) - length (r_neighbors body))).
Proof.
  intros Hnd. split; intros H; apply respond_Json200 in H.
  - destruct (search_answer_inv false e req ServerIndex.answer w body H)
      as (st & embs & _ & Hans).
    exact (ServerIndex_answer_scores e st req _ embs body Hans Hnd).
  - destruct (search_answer_inv true e req Part002.answer w body H)
      as (st & embs & _ & Hans).
    exact (Part002_answer_scores e st req _ embs body Hans).
Qed.

Lemma smallState_distinct : NoDup (vocab Demo.smallState).
Proof.
  replace (vocab Demo.smallState) with (dedupe (vocab Demo.smallState))
    by (vm_compute; reflexivity).
  apply dedupe_spec.
Qed.

Lemma search_point_scores_witness :
  exists body,
    fst (ServerIndex.postSearch Demo.goodEnv Demo.mixedRequest Demo.smallWorld) =
      Json200 body /\
    map o_score (r_points body) =
    map (fun ws => if truthy (snd ws) then Some (snd ws) else None) (r_neighbors body) ++
    repeat None (length (r_points body) - length (r_neighbors body)).
Proof.
  destruct goodEnv_answers as (body & Hbody & _).
  assert (Hfst : fst (ServerIndex.postSearch Demo.goodEnv Demo.mixedRequest
                        Demo.smallWorld) = Json200 body) by now rewrite Hbody.
  exists body. split; [exact Hfst|].
  apply (search_point_scores Demo.goodEnv Demo.mixedRequest Demo.smallWorld body);
    [|exact Hfst].
  apply (search_neighbors_distinct Demo.goodEnv Demo.mixedRequest Demo.smallWorld
           Demo.smallMatrix body eq_refl eq_refl smallState_distinct).
  now left.
Defined.

(** ** One ranking behind every search *)

Section Ranking.
Context {A : Arith}.

Lemma filter_all {T : Type} (f : T -> bool) (l : list T) :
  (forall x, f x = true) -> filter f l = l.
Proof.
  intros H. induction l as [|x l IH]; [reflexivity|].
  cbn [filter]. now rewrite H, IH.
Qed.

Lemma filter_map_entry (voc : list string) (sims : list num) (exclude : JSSet)
    (l : list nat) :
  filter (fun n => allowed exclude (word n)) (map (entry voc sims) l) =
  map (entry voc sims) (filter (fun i => allowed exclude (nth i voc "")) l).
Proof.
  induction l as [|i l IH]; [reflexivity|].
  cbn [map filter entry word].
  destruct (allowed exclude (nth i voc "")); cbn [map]; now rewrite IH.
Qed.

(** The whole vocabulary, ranked. *)
Lemma topKSimilar_full (st : state) (m targetVec : list num) :
  matrix st = Some m ->
  topKSimilar st targetVec (Z.of_nat (length (vocab st))) [] =
  Ok (map (entry (vocab st) (simsOf st m targetVec))
          (array_sort (bySimDesc (simsOf st m targetVec))
             (seq 0 (length (simsOf st m targetVec))))).
Proof.
  intros Hm. rewrite (topKSimilar_closed st m targetVec _ [] Hm). cbv zeta.
  rewrite filter_all by reflexivity.
  rewrite firstn_all2; [reflexivity|].
  rewrite length_map.
  rewrite (Permutation_length (array_sort_perm _ _)), length_seq, simsOf_length.
  lia.
Qed.
End Ranking.

(** X22. Every search reads one ranking of the vocabulary: for [k >= 1]
    the result of [topKSimilar] is the first [k] entries of the full
    ranking (the result for [k = vocab.length] and no exclusion) once the
    excluded words are taken out.  So a larger [k] only appends
    neighbours, and an exclusion changes neither the scores nor the order
    of the words that stay. *)
Theorem topKSimilar_one_ranking {A : Arith} (st : state) (m targetVec : list num)
    (k : Z) (exclude : JSSet) :
  matrix st = Some m ->
  (1 <= k)%Z ->
  exists ranking,
    topKSimilar st targetVec (Z.of_nat (length (vocab st))) [] = Ok ranking /\
    topKSimilar st targetVec k exclude =
    Ok (firstn (Z.to_nat k) (filter (fun n => allowed exclude (word n)) ranking)).
Proof.
  intros Hm Hk. eexists. split; [apply (topKSimilar_full st m targetVec Hm)|].
  rewrite (topKSimilar_closed st m targetVec k exclude Hm). cbv zeta.
  rewrite filter_map_entry.
  now replace (Nat.max 1 (Z.to_nat k)) with (Z.to_nat k) by lia.
Qed.

Lemma topKSimilar_one_ranking_witness :
  exists ranking,
    topKSimilar Demo.smallState Demo.slantedQuery 4 [] = Ok ranking /\
    topKSimilar Demo.smallState Demo.slantedQuery 2 [JString "c"] =
    Ok (firstn 2 (filter (fun n => allowed [JString "c"] (word n)) ranking)).
Proof.
  exact (topKSimilar_one_ranking Demo.smallState Demo.smallMatrix Demo.slantedQuery 2
           [JString "c"] eq_refl ltac:(lia)).
Defined.

(** ** The norm of a normalised row, in the arithmetic of the program

    The operations of [SpecFloat] round to nearest: away from overflow the
    result of each is within [2^-prec] of the exact one, relatively, or
    within half of the smallest subnormal number.  From there: the norm of
    [normalizeVec vec] is within [10^-6] of [1]. *)

Module FloatError.
Import Reals Lra FloatValue.
Local Open Scope R_scope.

Lemma Rabs_le_inv (a b : R) : Rabs a <= b -> - b <= a <= b.
Proof. unfold Rabs. destruct (Rcase_abs a); lra. Qed.

(** Powers of two *)
Lemma pow2_pos (e : Z) : 0 < pow2 e.
Proof. apply powerRZ_lt. lra. Qed.

Lemma pow2_add (a b : Z) : pow2 (a + b) = pow2 a * pow2 b.
Proof. apply powerRZ_add. lra. Qed.

Lemma pow2_0 : pow2 0 = 1.
Proof. reflexivity. Qed.

Lemma pow2_1 : pow2 1 = 2.
Proof. unfold pow2. simpl. lra. Qed.

Lemma pow2_opp (a : Z) : pow2 (- a) = / pow2 a.
Proof. apply powerRZ_neg'. Qed.

Lemma pow2_sub (a b : Z) : pow2 (a - b) = pow2 a / pow2 b.
Proof. unfold Z.sub. rewrite pow2_add, pow2_opp. reflexivity. Qed.

Lemma pow2_succ (a : Z) : pow2 (a + 1) = 2 * pow2 a.
Proof. rewrite pow2_add, pow2_1. lra. Qed.

Lemma pow2_pred (a : Z) : pow2 (a - 1) = pow2 a / 2.
Proof. rewrite pow2_sub, pow2_1. reflexivity. Qed.

Lemma pow2_le (a b : Z) : (a <= b)%Z -> pow2 a <= pow2 b.
Proof.
  intros H. replace b with (a + (b - a))%Z by lia.
  rewrite pow2_add.
  assert (1 <= pow2 (b - a)).
  { assert (Hn : (0 <= b - a)%Z) by lia. revert Hn.
    generalize (b - a)%Z. intros z Hz.
    pattern z. apply natlike_ind; [rewrite pow2_0; lra| |exact Hz].
    intros x Hx IH. unfold Z.succ. rewrite pow2_succ. lra. }
  pose proof (pow2_pos a). nra.
Qed.

Lemma pow2_lt (a b : Z) : (a < b)%Z -> pow2 a < pow2 b.
Proof.
  intros H. assert (pow2 (a + 1) <= pow2 b) by (apply pow2_le; lia).
  rewrite pow2_succ in H0. pose proof (pow2_pos a). lra.
Qed.

Lemma pow2_lt_inv (a b : Z) : pow2 a < pow2 b -> (a < b)%Z.
Proof.
  intros H. destruct (Z_lt_le_dec a b) as [Hlt|Hle]; [exact Hlt|].
  apply pow2_le in Hle. lra.
Qed.

Lemma pow2_IZR (z : Z) : (0 <= z)%Z -> pow2 z = IZR (2 ^ z).
Proof.
  intros Hz. pattern z. apply natlike_ind; [reflexivity| |exact Hz].
  intros x Hx IH. unfold Z.succ. rewrite pow2_succ, IH, Z.pow_add_r by lia.
  rewrite mult_IZR. change (2 ^ 1)%Z with 2%Z. lra.
Qed.

(** Digits *)
Lemma digits2_pos_spec (m : positive) :
  (2 ^ (Zpos (digits2_pos m) - 1) <= Zpos m < 2 ^ Zpos (digits2_pos m))%Z.
Proof.
  induction m as [m IH|m IH|]; cbn [digits2_pos].
  - rewrite Pos2Z.inj_succ. replace (Z.succ (Z.pos (digits2_pos m)) - 1)%Z 
      with (Z.succ (Z.pos (digits2_pos m) - 1))%Z by lia.
    rewrite !Z.pow_succ_r by lia. lia.
  - rewrite Pos2Z.inj_succ. replace (Z.succ (Z.pos (digits2_pos m)) - 1)%Z 
      with (Z.succ (Z.pos (digits2_pos m) - 1))%Z by lia.
    rewrite !Z.pow_succ_r by lia. lia.
  - simpl. lia.
Qed.

Lemma digits_bounds (m : positive) :
  pow2 (Zpos (digits2_pos m) - 1) <= IZR (Zpos m) < pow2 (Zpos (digits2_pos m)).
Proof.
  destruct (digits2_pos_spec m) as [H1 H2].
  rewrite !pow2_IZR by lia. split; [apply IZR_le|apply IZR_lt]; assumption.
Qed.

Lemma loc_of_shr_record_of_loc (m : Z) (l : location) :
  loc_of_shr_record (shr_record_of_loc m l) = l /\
  shr_m (shr_record_of_loc m l) = m.
Proof. destruct l as [|[]]; split; reflexivity. Qed.

Lemma shr_1_inbr (mrs : shr_record) (x : R) :
  (0 <= shr_m mrs)%Z -> inbr mrs x ->
  inbr (shr_1 mrs) (x / 2) /\ (0 <= shr_m (shr_1 mrs))%Z.
Proof.
  destruct mrs as [m r s]. unfold inbr. cbn [shr_m].
  intros Hm H.
  destruct m as [|p|p]; [| |lia].
  - destruct r, s; cbn in *; split; try lia; lra.
  - destruct p as [p|p|].
    + pose proof (Pos2Z.inj_xI p) as E. apply (f_equal IZR) in E.
      rewrite plus_IZR, mult_IZR in E.
      destruct r, s; cbn [shr_1 loc_of_shr_record shr_m orb inb] in *;
        split; try lia; rewrite E in H; lra.
    + pose proof (Pos2Z.inj_xO p) as E. apply (f_equal IZR) in E.
      rewrite mult_IZR in E.
      destruct r, s; cbn [shr_1 loc_of_shr_record shr_m orb inb] in *;
        split; try lia; rewrite E in H; lra.
    + destruct r, s; cbn [shr_1 loc_of_shr_record shr_m orb inb] in *;
        split; try lia; lra.
Qed.

Lemma iter_shr_inbr (p : positive) :
  forall (mrs : shr_record) (x : R),
    (0 <= shr_m mrs)%Z -> inbr mrs x ->
    inbr (SpecFloat.iter_pos shr_1 p mrs) (x / pow2 (Zpos p)) /\
    (0 <= shr_m (SpecFloat.iter_pos shr_1 p mrs))%Z.
Proof.
  induction p as [p IH|p IH|]; intros mrs x Hm H; cbn [SpecFloat.iter_pos].
  - destruct (shr_1_inbr mrs x Hm H) as [H1 Hm1].
    destruct (IH _ _ Hm1 H1) as [H2 Hm2].
    destruct (IH _ _ Hm2 H2) as [H3 Hm3].
    split; [|exact Hm3].
    replace (x / pow2 (Z.pos p~1)) with (x / 2 / pow2 (Z.pos p) / pow2 (Z.pos p));
      [exact H3|].
    rewrite Pos2Z.inj_xI. replace (2 * Z.pos p + 1)%Z with (Z.pos p + Z.pos p + 1)%Z by lia.
    rewrite !pow2_add, pow2_1. pose proof (pow2_pos (Z.pos p)). field. lra.
  - destruct (IH _ _ Hm H) as [H2 Hm2].
    destruct (IH _ _ Hm2 H2) as [H3 Hm3].
    split; [|exact Hm3].
    replace (x / pow2 (Z.pos p~0)) with (x / pow2 (Z.pos p) / pow2 (Z.pos p));
      [exact H3|].
    rewrite Pos2Z.inj_xO. replace (2 * Z.pos p)%Z with (Z.pos p + Z.pos p)%Z by lia.
    rewrite !pow2_add. pose proof (pow2_pos (Z.pos p)). field. lra.
  - destruct (shr_1_inbr mrs x Hm H) as [H1 Hm1]. split; [|exact Hm1].
    now rewrite pow2_1.
Qed.

(** Shifting right by [n] bits *)
Lemma shr_inbr (mrs : shr_record) (e n : Z) (x : R) :
  (0 <= shr_m mrs)%Z -> inbr mrs x ->
  let '(mrs', e') := shr mrs e n in
  (0 <= shr_m mrs')%Z /\
  ((0 < n)%Z -> inbr mrs' (x / pow2 n) /\ e' = (e + n)%Z) /\
  ((n <= 0)%Z -> mrs' = mrs /\ e' = e).
Proof.
  intros Hm H. unfold shr. destruct n as [|p|p].
  - split; [exact Hm|]. split; [lia|]. intros _. split; reflexivity.
  - destruct (iter_shr_inbr p mrs x Hm H) as [H1 Hm1].
    split; [exact Hm1|]. split; [|lia]. intros _. split; [exact H1|reflexivity].
  - split; [exact Hm|]. split; [lia|]. intros _. split; reflexivity.
Qed.

Lemma round_nearest_even_spec (m : Z) (l : location) (x : R) :
  (0 <= m)%Z -> inb m l x ->
  Rabs (IZR (round_nearest_even m l) - x) <= / 2 /\
  (m <= round_nearest_even m l <= m + 1)%Z /\
  (l = loc_Exact -> round_nearest_even m l = m).
Proof.
  intros Hm H. destruct l as [|c]; cbn [round_nearest_even inb] in *.
  - subst x. split; [|split; [lia|reflexivity]].
    rewrite Rminus_diag, Rabs_R0. lra.
  - destruct H as [Hx Hc]. destruct c.
    + destruct (Z.even m); (split; [|split; [lia|discriminate]]).
      * rewrite Hc. replace (IZR m - (IZR m + / 2)) with (- / 2) by lra.
        rewrite Rabs_Ropp, Rabs_pos_eq; lra.
      * rewrite plus_IZR, Hc. replace (IZR m + 1 - (IZR m + / 2)) with (/ 2) by lra.
        rewrite Rabs_pos_eq; lra.
    + split; [|split; [lia|discriminate]].
      apply Rabs_le. lra.
    + split; [|split; [lia|discriminate]].
      rewrite plus_IZR. apply Rabs_le. lra.
Qed.

Lemma inb_integer (m k : Z) (l : location) : inb m l (IZR k) -> k = m.
Proof.
  destruct l as [|c]; cbn [inb].
  - apply eq_IZR.
  - intros [[H1 H2] _]. apply lt_IZR in H1.
    rewrite <- (plus_IZR m 1) in H2. apply lt_IZR in H2. lia.
Qed.

Lemma inb_floor (m : Z) (l : location) (x : R) : inb m l x -> IZR m <= x < IZR m + 1.
Proof.
  destruct l as [|c]; cbn [inb]; [intros ->; lra|intros [H _]; lra].
Qed.

Section Round.
Variables prec emax : Z.
Hypothesis Hprec : (0 < prec)%Z.
Hypothesis Hemax : (2 <= emax)%Z.

Let emin' := emin prec emax.
Let fexp' := fexp prec emax.

Lemma fexp_ge_emin (e : Z) : (emin' <= fexp' e)%Z.
Proof. unfold fexp', fexp, emin', emin. lia. Qed.

Lemma fexp_cases (e : Z) :
  (fexp' e = emin' /\ e - prec <= emin')%Z \/ (fexp' e = e - prec /\ emin' < e - prec)%Z.
Proof. unfold fexp', fexp, emin', emin. lia. Qed.

(** The second shift of [binary_round_aux]: a carry out of the rounding. *)
Lemma shr_fexp_carry (m2 e' : Z) :
  (0 <= m2 <= 2 ^ prec)%Z -> (emin' <= e')%Z ->
  let '(mrs'', e'') := shr_fexp prec emax m2 e' loc_Exact in
  IZR (shr_m mrs'') * pow2 e'' = IZR m2 * pow2 e' /\
  (0 <= shr_m mrs'')%Z /\
  (e' <= e'' <= e' + 1)%Z /\
  (m2 < 2 ^ prec -> e'' = e')%Z.
Proof.
  intros Hm He. unfold shr_fexp.
  fold fexp'.
  set (n2 := (fexp' (Zdigits2 m2 + e') - e')%Z).
  pose proof (shr_inbr (shr_record_of_loc m2 loc_Exact) e' n2 (IZR m2)) as Hs.
  cbn [shr_record_of_loc shr_m] in Hs.
  specialize (Hs (proj1 Hm) eq_refl).
  cbn [shr_record_of_loc].
  destruct (shr {| shr_m := m2; shr_r := false; shr_s := false |} e' n2) as [mrs'' e''].
  destruct Hs as (Hpos & Hshift & Hkeep).
  assert (Hd : (Zdigits2 m2 <= prec + 1 /\ (m2 < 2 ^ prec -> Zdigits2 m2 <= prec))%Z).
  { destruct m2 as [|p|p]; [cbn; lia| |lia].
    cbn [Zdigits2]. destruct (digits2_pos_spec p) as [H1 H2]. split.
    - assert (2 ^ (Z.pos (digits2_pos p) - 1) <= 2 ^ prec)%Z by lia.
      apply Z.pow_le_mono_r_iff in H; lia.
    - intros Hlt. assert (2 ^ (Z.pos (digits2_pos p) - 1) < 2 ^ prec)%Z by lia.
      apply Z.pow_lt_mono_r_iff in H; lia. }
  destruct Hd as [Hd1 Hd2].
  assert (Hn2 : (n2 <= 1)%Z).
  { unfold n2. destruct (fexp_cases (Zdigits2 m2 + e')) as [[-> _]|[-> _]]; lia. }
  destruct (Z_lt_le_dec 0 n2) as [Hpos2|Hneg2].
  - assert (n2 = 1%Z) by lia.
    destruct (Hshift Hpos2) as [Hin ->].
    assert (Hm2 : m2 = (2 ^ prec)%Z).
    { destruct (Z_lt_le_dec m2 (2 ^ prec)) as [Hlt|Hge]; [|lia].
      specialize (Hd2 Hlt). unfold n2 in H.
      destruct (fexp_cases (Zdigits2 m2 + e')) as [[E _]|[E _]]; rewrite E in H; lia. }
    rewrite H in *. rewrite pow2_1 in Hin.
    assert (Hhalf : IZR m2 / 2 = IZR (2 ^ (prec - 1))).
    { rewrite Hm2. replace prec with (prec - 1 + 1)%Z at 1 by lia.
      rewrite Z.pow_add_r by lia. rewrite mult_IZR. change (2 ^ 1)%Z with 2%Z. lra. }
    rewrite Hhalf in Hin. apply inb_integer in Hin.
    rewrite <- Hin, <- Hhalf. rewrite pow2_succ.
    split; [field|]. split; [apply Z.pow_nonneg; lia|]. split; lia.
  - destruct (Hkeep Hneg2) as [-> ->]. cbn [shr_m].
    split; [reflexivity|]. split; [lia|]. split; lia.
Qed.

Lemma shr_fexp_first (mx ex : Z) (lx : location) (x0 : R) :
  (0 < mx)%Z -> inb mx lx x0 ->
  (lx = loc_Exact \/ (ex <= fexp' (Zdigits2 mx + ex))%Z) ->
  x0 * pow2 ex < pow2 (emax - prec) ->
  let '(mrs', e') := shr_fexp prec emax mx ex lx in
  exists x1,
    inbr mrs' x1 /\ x1 * pow2 e' = x0 * pow2 ex /\
    (emin' <= e')%Z /\ (e' + 1 <= emax - prec)%Z /\
    (0 <= shr_m mrs' < 2 ^ prec)%Z /\
    (loc_of_shr_record mrs' = loc_Exact \/
     pow2 (e' - 1) <= pow2 (- prec) * (x0 * pow2 ex) + pow2 (emin' - 1)).
Proof.
  intros Hm Hin Hloc Hv. unfold shr_fexp. fold fexp'.
  set (dx := Zdigits2 mx) in *.
  set (n1 := (fexp' (dx + ex) - ex)%Z).
  assert (Hrec : inbr (shr_record_of_loc mx lx) x0).
  { unfold inbr. destruct (loc_of_shr_record_of_loc mx lx) as [-> ->]. exact Hin. }
  assert (Hrm : (0 <= shr_m (shr_record_of_loc mx lx))%Z).
  { destruct (loc_of_shr_record_of_loc mx lx) as [_ ->]. lia. }
  pose proof (shr_inbr (shr_record_of_loc mx lx) ex n1 x0 Hrm Hrec) as Hs.
  destruct (shr (shr_record_of_loc mx lx) ex n1) as [mrs' e'].
  destruct Hs as (Hpos & Hshift & Hkeep).
  (* facts on the digits *)
  assert (Hdig : pow2 (dx - 1) <= IZR mx /\ IZR mx + 1 <= pow2 dx /\ (0 < dx)%Z).
  { destruct mx as [|p|p]; try lia. unfold dx. cbn [Zdigits2].
    destruct (digits_bounds p) as [H1 H2]. split; [exact H1|]. split; [|lia].
    destruct (digits2_pos_spec p) as [_ H3].
    rewrite pow2_IZR by lia. rewrite <- (plus_IZR _ 1). apply IZR_le. lia. }
  destruct Hdig as (Hlow & Hhigh & Hdx).
  pose proof (inb_floor _ _ _ Hin) as [Hx0 Hx0'].
  pose proof (pow2_pos ex) as Hpe.
  assert (Hvlow : pow2 (dx + ex - 1) <= x0 * pow2 ex).
  { replace (dx + ex - 1)%Z with ((dx - 1) + ex)%Z by lia. rewrite pow2_add.
    apply Rmult_le_compat_r; lra. }
  assert (Hsum : (dx + ex - 1 < emax - prec)%Z).
  { apply pow2_lt_inv. lra. }
  assert (Hbound : pow2 (fexp' (dx + ex) - 1) <=
                   pow2 (- prec) * (x0 * pow2 ex) + pow2 (emin' - 1)).
  { pose proof (pow2_pos (emin' - 1)). pose proof (pow2_pos (- prec)).
    destruct (fexp_cases (dx + ex)) as [[-> _]|[-> _]].
    - assert (0 <= pow2 (- prec) * (x0 * pow2 ex)); [|lra].
      apply Rmult_le_pos; [lra|]. pose proof (pow2_pos (dx + ex - 1)). lra.
    - replace (dx + ex - prec - 1)%Z with (- prec + (dx + ex - 1))%Z by lia.
      rewrite pow2_add.
      assert (pow2 (- prec) * pow2 (dx + ex - 1) <= pow2 (- prec) * (x0 * pow2 ex))
        by (apply Rmult_le_compat_l; lra).
      lra. }
  destruct (Z_lt_le_dec 0 n1) as [Hn|Hn].
  - destruct (Hshift Hn) as [Hin1 ->].
    exists (x0 / pow2 n1).
    pose proof (pow2_pos n1) as Hpn.
    replace (ex + n1)%Z with (fexp' (dx + ex)) by (unfold n1; lia).
    split; [exact Hin1|]. split.
    { replace (fexp' (dx + ex)) with (ex + n1)%Z by (unfold n1; lia).
      rewrite pow2_add. field. lra. }
    split; [apply fexp_ge_emin|]. split.
    { destruct (fexp_cases (dx + ex)) as [[-> _]|[-> _]];
        unfold emin', emin in *; lia. }
    split; [|right; exact Hbound].
    split; [exact Hpos|].
    apply lt_IZR. rewrite <- pow2_IZR by lia.
    pose proof (inb_floor _ _ _ Hin1) as [Hf _].
    apply Rle_lt_trans with (1 := Hf).
    apply Rlt_le_trans with (pow2 dx / pow2 n1).
    { apply Rmult_lt_compat_r; [apply Rinv_0_lt_compat; lra|lra]. }
    rewrite <- pow2_sub. apply pow2_le.
    unfold n1. destruct (fexp_cases (dx + ex)) as [[-> ?]|[-> ?]]; lia.
  - destruct (Hkeep Hn) as [-> ->].
    exists x0. split; [exact Hrec|]. split; [reflexivity|].
    assert (Hfe : (fexp' (dx + ex) <= ex)%Z) by (unfold n1 in Hn; lia).
    split; [pose proof (fexp_ge_emin (dx + ex)); lia|].
    assert (Hex : (ex < emax - prec)%Z).
    { apply pow2_lt_inv. apply Rle_lt_trans with (2 := Hv).
      assert (1 <= IZR mx) by (apply IZR_le; lia).
      rewrite <- (Rmult_1_l (pow2 ex)) at 1. apply Rmult_le_compat_r; lra. }
    split; [lia|].
    destruct (loc_of_shr_record_of_loc mx lx) as [-> ->].
    split.
    { split; [lia|]. apply lt_IZR. rewrite <- pow2_IZR by lia.
      apply Rlt_le_trans with (pow2 dx); [lra|]. apply pow2_le.
      destruct (fexp_cases (dx + ex)) as [[E ?]|[E ?]]; rewrite E in Hfe; lia. }
    destruct Hloc as [->|Hle]; [left; reflexivity|right].
    replace ex with (fexp' (dx + ex)) at 1 by lia. exact Hbound.
Qed.

Lemma binary_round_aux_spec (s : bool) (mx ex : Z) (lx : location) (x0 : R) :
  (0 < mx)%Z -> inb mx lx x0 ->
  (lx = loc_Exact \/ (ex <= fexp' (Zdigits2 mx + ex))%Z) ->
  x0 * pow2 ex < pow2 (emax - prec) ->
  let r := binary_round_aux prec emax s mx ex lx in
  IEEE.finite64 r = true /\ signOf r = s /\
  Rabs (magnitude r - x0 * pow2 ex) <=
    pow2 (- prec) * (x0 * pow2 ex) + pow2 (emin' - 1).
Proof.
  intros Hm Hin Hloc Hv. cbv zeta. unfold binary_round_aux.
  pose proof (shr_fexp_first mx ex lx x0 Hm Hin Hloc Hv) as H1.
  destruct (shr_fexp prec emax mx ex lx) as [mrs' e'].
  destruct H1 as (x1 & Hin1 & Hval & Hemin & Hemax' & Hm1 & Herr).
  unfold inbr in Hin1.
  set (m1 := shr_m mrs') in *. set (l1 := loc_of_shr_record mrs') in *.
  clearbody m1 l1.
  destruct (round_nearest_even_spec m1 l1 x1 (proj1 Hm1) Hin1) as (Hr & Hr2 & Hrex).
  set (m2 := round_nearest_even m1 l1) in *. clearbody m2.
  assert (Hm2 : (0 <= m2 <= 2 ^ prec)%Z) by lia.
  pose proof (shr_fexp_carry m2 e' Hm2 Hemin) as H3.
  destruct (shr_fexp prec emax m2 e' loc_Exact) as [mrs'' e''].
  destruct H3 as (Hval3 & Hpos3 & He3 & _).
  assert (Hmain : Rabs (IZR (shr_m mrs'') * pow2 e'' - x0 * pow2 ex) <=
                  pow2 (- prec) * (x0 * pow2 ex) + pow2 (emin' - 1)).
  { rewrite Hval3, <- Hval.
    replace (IZR m2 * pow2 e' - x1 * pow2 e') with ((IZR m2 - x1) * pow2 e') by ring.
    rewrite Rabs_mult. pose proof (pow2_pos e') as Hpe.
    rewrite (Rabs_pos_eq (pow2 e')) by lra.
    pose proof (pow2_pos (- prec)). pose proof (pow2_pos (emin' - 1)).
    assert (Hvpos : 0 <= x1 * pow2 e').
    { apply Rmult_le_pos; [|lra]. pose proof (inb_floor _ _ _ Hin1) as [Hf _].
      assert (0 <= IZR m1) by (apply IZR_le; lia). lra. }
    destruct Herr as [Hex|Hb].
    - rewrite (Hrex Hex). rewrite Hex in Hin1. cbn [inb] in Hin1.
      replace (IZR m1 - x1) with 0 by lra.
      rewrite Rabs_R0, Rmult_0_l.
      assert (0 <= pow2 (- prec) * (x1 * pow2 e')) by (apply Rmult_le_pos; lra).
      lra.
    - rewrite <- Hval in Hb. apply Rle_trans with (2 := Hb).
      rewrite pow2_pred. 
      assert (Rabs (IZR m2 - x1) * pow2 e' <= / 2 * pow2 e')
        by (apply Rmult_le_compat_r; lra).
      lra. }
  destruct (shr_m mrs'') as [|m|m] eqn:Em; [| |lia].
  - cbn [IEEE.finite64 signOf magnitude]. repeat split. rewrite Rmult_0_l in Hmain. exact Hmain.
  - replace (e'' <=? emax - prec)%Z with true by (symmetry; apply Z.leb_le; lia).
    cbn [IEEE.finite64 signOf magnitude]. repeat split. exact Hmain.
Qed.
End Round.

Lemma iter_xO (d : positive) (m : positive) :
  Zpos (Pos.iter xO m d) = (Zpos m * 2 ^ Zpos d)%Z.
Proof.
  revert m. induction d using Pos.peano_ind; intros m.
  - cbn [Pos.iter]. lia.
  - rewrite Pos.iter_succ, Pos2Z.inj_xO, IHd, Pos2Z.inj_succ, Z.pow_succ_r by lia. lia.
Qed.

Lemma shl_align_spec (mx : positive) (ex ex' : Z) :
  let '(m', e') := shl_align mx ex ex' in
  IZR (Zpos m') * pow2 e' = IZR (Zpos mx) * pow2 ex /\
  ((ex' <= ex)%Z -> e' = ex').
Proof.
  unfold shl_align. destruct (ex' - ex)%Z as [|d|d] eqn:E.
  - split; [reflexivity|lia].
  - split; [reflexivity|lia].
  - split; [|reflexivity].
    rewrite iter_xO, mult_IZR, <- pow2_IZR by lia.
    rewrite Rmult_assoc, <- pow2_add. do 2 f_equal. lia.
Qed.

Section Ops.
Variables prec emax : Z.
Hypothesis Hprec : (0 < prec)%Z.
Hypothesis Hemax : (2 <= emax)%Z.

Let eta : R := pow2 (emin prec emax - 1).
Let u : R := pow2 (- prec).

Lemma eta_pos : 0 < eta.
Proof. apply pow2_pos. Qed.

Lemma u_pos : 0 < u.
Proof. apply pow2_pos. Qed.

Lemma magnitude_nonneg (x : spec_float) : 0 <= magnitude x.
Proof.
  destruct x as [| | |s m e]; cbn [magnitude]; try lra.
  apply Rmult_le_pos; [apply IZR_le; lia|pose proof (pow2_pos e); lra].
Qed.

Lemma magnitude_finite_pos (s : bool) (m : positive) (e : Z) :
  0 < magnitude (S754_finite s m e).
Proof.
  cbn [magnitude]. apply Rmult_lt_0_compat; [apply IZR_lt; lia|apply pow2_pos].
Qed.

Lemma bound_nonneg (v : R) : 0 <= v -> 0 <= u * v + eta.
Proof.
  intros Hv. pose proof eta_pos. pose proof u_pos.
  assert (0 <= u * v) by (apply Rmult_le_pos; lra). lra.
Qed.

Lemma SFmul_spec (x y : spec_float) :
  IEEE.finite64 x = true -> IEEE.finite64 y = true ->
  magnitude x * magnitude y < pow2 (emax - prec) ->
  let r := SFmul prec emax x y in
  IEEE.finite64 r = true /\ signOf r = xorb (signOf x) (signOf y) /\
  Rabs (magnitude r - magnitude x * magnitude y) <= u * (magnitude x * magnitude y) + eta.
Proof.
  intros Hx Hy Hv. cbv zeta.
  destruct x as [sx|sx| |sx mx ex]; try discriminate;
    destruct y as [sy|sy| |sy my ey]; try discriminate;
    cbn [SFmul signOf IEEE.finite64];
    try (cbn [magnitude]; repeat split;
         rewrite ?Rmult_0_l, ?Rmult_0_r, Rminus_diag, Rabs_R0;
         pose proof eta_pos; lra).
  assert (Hval : IZR (Z.pos (mx * my)) * pow2 (ex + ey) =
                 magnitude (S754_finite sx mx ex) * magnitude (S754_finite sy my ey)).
  { cbn [magnitude]. rewrite Pos2Z.inj_mul, mult_IZR, pow2_add. ring. }
  rewrite <- Hval in *.
  apply (binary_round_aux_spec prec emax Hprec Hemax (xorb sx sy) (Z.pos (mx * my))
           (ex + ey) loc_Exact (IZR (Z.pos (mx * my)))); auto.
  - lia.
  - reflexivity.
Qed.

Lemma binary_round_spec (s : bool) (m : positive) (e : Z) :
  IZR (Zpos m) * pow2 e < pow2 (emax - prec) ->
  let r := binary_round prec emax s m e in
  IEEE.finite64 r = true /\ signOf r = s /\
  Rabs (magnitude r - IZR (Zpos m) * pow2 e) <= u * (IZR (Zpos m) * pow2 e) + eta.
Proof.
  intros Hv. cbv zeta. unfold binary_round.
  pose proof (shl_align_spec m e (fexp prec emax (Z.pos (digits2_pos m) + e))) as Hs.
  destruct (shl_align m e (fexp prec emax (Z.pos (digits2_pos m) + e))) as [mz ez].
  destruct Hs as [Hval _]. rewrite <- Hval in *.
  apply (binary_round_aux_spec prec emax Hprec Hemax s (Z.pos mz) ez loc_Exact
           (IZR (Z.pos mz))); auto.
  - lia.
  - reflexivity.
Qed.

Lemma SFadd_pos_spec (x y : spec_float) :
  IEEE.finite64 x = true -> IEEE.finite64 y = true ->
  signOf x = false -> signOf y = false ->
  magnitude x + magnitude y < pow2 (emax - prec) ->
  let r := SFadd prec emax x y in
  IEEE.finite64 r = true /\ signOf r = false /\
  Rabs (magnitude r - (magnitude x + magnitude y)) <= u * (magnitude x + magnitude y) + eta.
Proof.
  intros Hx Hy Hsx Hsy Hv. cbv zeta.
  destruct x as [sx|sx| |sx mx ex]; try discriminate;
    destruct y as [sy|sy| |sy my ey]; try discriminate;
    cbn [signOf] in Hsx, Hsy; subst; cbn [SFadd signOf IEEE.finite64].
  - cbn [magnitude]. repeat split. rewrite Rplus_0_l, Rminus_diag, Rabs_R0.
    pose proof eta_pos; lra.
  - repeat split. cbn [magnitude]. rewrite Rplus_0_l, Rminus_diag, Rabs_R0.
    apply bound_nonneg. apply (magnitude_nonneg (S754_finite false my ey)).
  - repeat split. cbn [magnitude]. rewrite Rplus_0_r, Rminus_diag, Rabs_R0.
    apply bound_nonneg. apply (magnitude_nonneg (S754_finite false mx ex)).
  - set (ez := Z.min ex ey).
    pose proof (shl_align_spec mx ex ez) as H1.
    pose proof (shl_align_spec my ey ez) as H2.
    destruct (shl_align mx ex ez) as [ma ea].
    destruct (shl_align my ey ez) as [mb eb].
    destruct H1 as [Va Ea]. destruct H2 as [Vb Eb].
    specialize (Ea ltac:(unfold ez; lia)). specialize (Eb ltac:(unfold ez; lia)).
    subst ea eb. cbn [fst cond_Zopp Z.add binary_normalize].
    assert (Hval : IZR (Z.pos (ma + mb)) * pow2 ez =
                   magnitude (S754_finite false mx ex) + magnitude (S754_finite false my ey)).
    { cbn [magnitude]. rewrite Pos2Z.inj_add, plus_IZR. lra. }
    rewrite <- Hval in *.
    now apply binary_round_spec.
Qed.
End Ops.

Lemma Zdigits2_lower (q k : Z) : (0 <= k)%Z -> (2 ^ k <= q)%Z -> (k + 1 <= Zdigits2 q)%Z.
Proof.
  intros Hk Hq. destruct q as [|p|p]; try (pose proof (Z.pow_pos_nonneg 2 k); lia).
  cbn [Zdigits2]. destruct (digits2_pos_spec p) as [_ H].
  assert (2 ^ k < 2 ^ Z.pos (digits2_pos p))%Z by lia.
  apply Z.pow_lt_mono_r_iff in H0; lia.
Qed.

Lemma Zdigits2_pos_bounds (m : Z) :
  (0 < m)%Z -> (2 ^ (Zdigits2 m - 1) <= m < 2 ^ Zdigits2 m)%Z /\ (0 < Zdigits2 m)%Z.
Proof.
  intros Hm. destruct m as [|p|p]; try lia. cbn [Zdigits2].
  split; [apply digits2_pos_spec|lia].
Qed.

Section Sqrt.
Variables prec emax : Z.
Hypothesis Hprec : (0 < prec)%Z.
Hypothesis Hemax : (2 <= emax)%Z.

Lemma fexp_mono (a b : Z) : (a <= b)%Z -> (fexp prec emax a <= fexp prec emax b)%Z.
Proof. unfold fexp. lia. Qed.

Lemma SFsqrt_core_spec (m : positive) (e : Z) :
  let '(q, e', l) := SFsqrt_core_binary prec emax (Zpos m) e in
  (0 < q)%Z /\
  inb q l (sqrt (IZR (Zpos m) * pow2 e) / pow2 e') /\
  (e' <= fexp prec emax (Zdigits2 q + e'))%Z.
Proof.
  unfold SFsqrt_core_binary.
  set (d := Zdigits2 (Z.pos m)).
  set (e' := Z.min (fexp prec emax (Z.div2 (d + e + 1))) (Z.div2 e)).
  set (s := (e - 2 * e')%Z).
  assert (Hs : (0 <= s)%Z).
  { unfold s, e'. rewrite Z.div2_div. pose proof (Z.div_mod e 2 ltac:(lia)).
    pose proof (Z.mod_pos_bound e 2 ltac:(lia)). lia. }
  set (m' := match s with
             | 0%Z => Z.pos m
             | Z.pos _ => Z.shiftl (Z.pos m) s
             | Z.neg _ => 0%Z
             end).
  assert (Hm' : m' = (Z.pos m * 2 ^ s)%Z).
  { unfold m'. destruct s as [|p|p]; [simpl; lia| |lia].
    now rewrite Z.shiftl_mul_pow2 by lia. }
  assert (Hm'pos : (0 < m')%Z).
  { rewrite Hm'. apply Z.mul_pos_pos; [lia|]. apply Z.pow_pos_nonneg; lia. }
  pose proof (Z.sqrtrem_spec m' ltac:(lia)) as Hsq.
  destruct (Z.sqrtrem m') as [q r]. destruct Hsq as [Hmq Hr].
  assert (Hq0 : (0 <= q)%Z) by lia.
  assert (Hq : (0 < q)%Z) by nia.
  split; [exact Hq|].
  (* the value *)
  pose proof (pow2_pos e') as Hpe'.
  assert (HM : IZR (Z.pos m) * pow2 e = IZR m' * (pow2 e' * pow2 e')).
  { rewrite Hm', mult_IZR, <- pow2_IZR by lia. rewrite <- !pow2_add, Rmult_assoc, <- pow2_add.
    do 2 f_equal. unfold s. lia. }
  assert (Hval : sqrt (IZR (Z.pos m) * pow2 e) / pow2 e' = sqrt (IZR m')).
  { rewrite HM, sqrt_mult; [|apply IZR_le; lia|nra].
    rewrite sqrt_square by lra. field. lra. }
  rewrite Hval.
  assert (HQ : 0 <= IZR q) by (apply IZR_le; lia).
  assert (HMR : IZR m' = IZR q * IZR q + IZR r).
  { rewrite Hmq, plus_IZR, mult_IZR. reflexivity. }
  assert (Hr0 : 0 <= IZR r) by (apply IZR_le; lia).
  assert (Hr2 : IZR r <= 2 * IZR q).
  { rewrite <- mult_IZR. apply IZR_le. lia. }
  split.
  - destruct (Z.eqb_spec r 0) as [->|Hrn].
    + cbn [inb]. rewrite HMR, Rplus_0_r. now apply sqrt_square.
    + assert (Hr1 : 1 <= IZR r) by (apply IZR_le; lia).
      assert (Hlow : IZR q < sqrt (IZR m')).
      { rewrite <- (sqrt_square (IZR q)) at 1 by exact HQ.
        apply sqrt_lt_1_alt. nra. }
      assert (Hup : sqrt (IZR m') < IZR q + 1).
      { rewrite <- (sqrt_square (IZR q + 1)) by lra.
        apply sqrt_lt_1_alt. nra. }
      cbn [inb]. split; [lra|].
      destruct (Z.leb_spec r q) as [Hle|Hgt].
      * assert (IZR r <= IZR q) by (apply IZR_le; lia).
        rewrite <- (sqrt_square (IZR q + / 2)) by lra.
        apply sqrt_lt_1_alt. nra.
      * assert (IZR q + 1 <= IZR r).
        { rewrite <- (plus_IZR q 1). apply IZR_le. lia. }
        rewrite <- (sqrt_square (IZR q + / 2)) at 1 by lra.
        apply sqrt_lt_1_alt. nra.
  - (* enough digits *)
    destruct (Zdigits2_pos_bounds (Z.pos m) ltac:(lia)) as [[Hd1 Hd2] Hd0]. fold d in Hd1, Hd2, Hd0.
    destruct (Zdigits2_pos_bounds q Hq) as [[Hq1 Hq2] Hdq0].
    set (dq := Zdigits2 q) in *.
    assert (H2 : (d + s <= 2 * dq)%Z).
    { assert (Hlt : (2 ^ (d - 1 + s) < 2 ^ (2 * dq))%Z).
      { rewrite Z.pow_add_r by lia. 
        replace (2 * dq)%Z with (dq + dq)%Z by lia. rewrite Z.pow_add_r by lia.
        assert (m' < (q + 1) * (q + 1))%Z by nia.
        assert (2 ^ (d - 1) * 2 ^ s <= m')%Z.
        { rewrite Hm'. apply Z.mul_le_mono_nonneg_r; [apply Z.pow_nonneg; lia|exact Hd1]. }
        assert ((q + 1) * (q + 1) <= 2 ^ dq * 2 ^ dq)%Z by nia.
        lia. }
      apply Z.pow_lt_mono_r_iff in Hlt; lia. }
    apply Z.le_trans with (fexp prec emax (Z.div2 (d + e + 1))); [unfold e'; lia|].
    apply fexp_mono. rewrite Z.div2_div.
    pose proof (Z.div_mod (d + e + 1) 2 ltac:(lia)).
    pose proof (Z.mod_pos_bound (d + e + 1) 2 ltac:(lia)).
    unfold s in H2. lia.
Qed.

Lemma SFsqrt_spec (x : spec_float) :
  IEEE.finite64 x = true -> signOf x = false ->
  sqrt (magnitude x) < pow2 (emax - prec) ->
  let r := SFsqrt prec emax x in
  IEEE.finite64 r = true /\ signOf r = false /\
  Rabs (magnitude r - sqrt (magnitude x)) <=
    pow2 (- prec) * sqrt (magnitude x) + pow2 (emin prec emax - 1).
Proof.
  intros Hx Hs Hv. cbv zeta.
  destruct x as [sx|sx| |sx mx ex]; try discriminate; cbn [signOf] in Hs; subst.
  - cbn [SFsqrt IEEE.finite64 signOf magnitude]. repeat split.
    rewrite sqrt_0, Rminus_diag, Rabs_R0, Rmult_0_r, Rplus_0_l.
    pose proof (pow2_pos (emin prec emax - 1)). lra.
  - cbn [SFsqrt]. cbn [magnitude] in *.
    pose proof (SFsqrt_core_spec mx ex) as Hc.
    destruct (SFsqrt_core_binary prec emax (Z.pos mx) ex) as [[q e'] l].
    destruct Hc as (Hq & Hin & Hfexp).
    pose proof (pow2_pos e') as Hpe'.
    assert (Hval : sqrt (IZR (Z.pos mx) * pow2 ex) / pow2 e' * pow2 e' =
                   sqrt (IZR (Z.pos mx) * pow2 ex)) by (field; lra).
    rewrite <- Hval in Hv. rewrite <- Hval.
    apply (binary_round_aux_spec prec emax Hprec Hemax false q e' l _ Hq Hin); auto.
Qed.
End Sqrt.

Lemma new_location_spec (nb k : Z) :
  (0 < nb)%Z -> (0 <= k < nb)%Z -> inb 0 (new_location nb k) (IZR k / IZR nb).
Proof.
  intros Hnb Hk.
  assert (HN : 0 < IZR nb) by (apply IZR_lt; lia).
  set (y := IZR k / IZR nb).
  assert (Hy : y * IZR nb = IZR k) by (unfold y; field; lra).
  assert (Hcmp : forall a b : Z, (a < b)%Z -> IZR a < IZR b) by (intros; now apply IZR_lt).
  unfold new_location.
  destruct (Z.even nb) eqn:Heven.
  - unfold new_location_even. destruct (Z.eqb_spec k 0) as [->|Hk0].
    + cbn [inb]. unfold y. lra.
    + assert (0 < IZR k) by (apply IZR_lt; lia).
      assert (IZR k < IZR nb) by (apply IZR_lt; lia).
      cbn [inb]. split; [split; simpl; nra|].
      destruct (Z.compare_spec (2 * k) nb) as [E|E|E].
      * apply (f_equal IZR) in E. rewrite mult_IZR in E. simpl. nra.
      * apply IZR_lt in E. rewrite mult_IZR in E. simpl. nra.
      * apply IZR_lt in E. rewrite mult_IZR in E. simpl. nra.
  - unfold new_location_odd. destruct (Z.eqb_spec k 0) as [->|Hk0].
    + cbn [inb]. unfold y. lra.
    + assert (0 < IZR k) by (apply IZR_lt; lia).
      assert (IZR k < IZR nb) by (apply IZR_lt; lia).
      assert (Hne : (2 * k <> nb)%Z).
      { intros <-. rewrite Z.even_mul in Heven. discriminate. }
      cbn [inb]. split; [split; simpl; nra|].
      destruct (Z.compare_spec (2 * k + 1) nb) as [E|E|E].
      * assert (E' : (2 * k < nb)%Z) by lia.
        apply IZR_lt in E'. rewrite mult_IZR in E'. simpl. nra.
      * assert (E' : (2 * k < nb)%Z) by lia.
        apply IZR_lt in E'. rewrite mult_IZR in E'. simpl. nra.
      * assert (E' : (nb < 2 * k)%Z) by lia.
        apply IZR_lt in E'. rewrite mult_IZR in E'. simpl. nra.
Qed.

Lemma inb_shift (q : Z) (l : location) (y : R) : inb 0 l y -> inb q l (IZR q + y).
Proof.
  destruct l as [|c]; cbn [inb]; [intros ->; lra|].
  intros [H1 H2]. split; [lra|]. destruct c; lra.
Qed.

Section Div.
Variables prec emax : Z.
Hypothesis Hprec : (0 < prec)%Z.
Hypothesis Hemax : (2 <= emax)%Z.

Lemma SFdiv_core_spec (m1 m2 : positive) (e1 e2 : Z) :
  let v := (IZR (Zpos m1) * pow2 e1) / (IZR (Zpos m2) * pow2 e2) in
  let '(q, e', l) := SFdiv_core_binary prec emax (Zpos m1) e1 (Zpos m2) e2 in
  (0 <= q)%Z /\
  inb q l (v / pow2 e') /\
  (e' <= fexp prec emax (Zdigits2 q + e'))%Z /\
  (q = 0%Z -> v < pow2 (emin prec emax)).
Proof.
  cbv zeta. unfold SFdiv_core_binary.
  set (d1 := Zdigits2 (Z.pos m1)). set (d2 := Zdigits2 (Z.pos m2)).
  set (D := (d1 + e1 - (d2 + e2))%Z).
  set (e' := Z.min (fexp prec emax D) (e1 - e2)).
  set (s := (e1 - e2 - e')%Z).
  assert (Hs : (0 <= s)%Z) by (unfold s, e'; lia).
  set (m' := match s with
             | 0%Z => Z.pos m1
             | Z.pos _ => Z.shiftl (Z.pos m1) s
             | Z.neg _ => 0%Z
             end).
  assert (Hm' : m' = (Z.pos m1 * 2 ^ s)%Z).
  { unfold m'. destruct s as [|p|p]; [simpl; lia| |lia].
    now rewrite Z.shiftl_mul_pow2 by lia. }
  assert (Hm'pos : (0 < m')%Z).
  { rewrite Hm'. apply Z.mul_pos_pos; [lia|]. apply Z.pow_pos_nonneg; lia. }
  pose proof (Z_div_mod m' (Z.pos m2) ltac:(lia)) as Hdiv.
  destruct (Z.div_eucl m' (Z.pos m2)) as [q r]. destruct Hdiv as [Hmq Hr].
  assert (Hq0 : (0 <= q)%Z) by nia.
  split; [exact Hq0|].
  pose proof (pow2_pos e') as Hpe'. pose proof (pow2_pos e1) as Hpe1.
  pose proof (pow2_pos e2) as Hpe2.
  assert (HM2 : 0 < IZR (Z.pos m2)) by (apply IZR_lt; lia).
  assert (Hval : IZR (Z.pos m1) * pow2 e1 / (IZR (Z.pos m2) * pow2 e2) / pow2 e' =
                 IZR q + IZR r / IZR (Z.pos m2)).
  { replace e1 with (s + e' + e2)%Z by (unfold s; lia).
    rewrite !pow2_add.
    assert (IZR (Z.pos m1) * pow2 s = IZR (Z.pos m2) * IZR q + IZR r).
    { rewrite pow2_IZR by lia. rewrite <- !mult_IZR, <- plus_IZR. f_equal. lia. }
    field_simplify_eq; [nra|repeat split; lra]. }
  rewrite Hval.
  split; [apply inb_shift, new_location_spec; lia|].
  destruct (Zdigits2_pos_bounds (Z.pos m1) ltac:(lia)) as [[Ha1 Ha2] Ha0].
  destruct (Zdigits2_pos_bounds (Z.pos m2) ltac:(lia)) as [[Hb1 Hb2] Hb0].
  fold d1 in Ha1, Ha2, Ha0. fold d2 in Hb1, Hb2, Hb0.
  assert (Hcase : (e' <= emin prec emax)%Z \/
                  ((d2 - d1 + prec <= s)%Z /\ (2 ^ (d1 + s - d2 - 1) <= q)%Z /\
                   (0 <= d1 + s - d2 - 1)%Z)).
  { unfold fexp in e'.
    destruct (Z_le_gt_dec (D - prec) (emin prec emax)) as [Hle|Hgt];
      [left; unfold e'; lia|right].
    assert (Hs' : (d2 - d1 + prec <= s)%Z) by (unfold s, e', D in *; lia).
    split; [exact Hs'|]. split; [|lia].
    set (t := (d1 + s - d2 - 1)%Z). assert (Ht : (0 <= t)%Z) by (unfold t; lia).
    assert (Hpow : (2 ^ (d1 - 1) * 2 ^ s = 2 ^ t * 2 ^ d2)%Z).
    { rewrite <- !Z.pow_add_r by lia. f_equal. unfold t. lia. }
    assert (Hm'low : (2 ^ t * 2 ^ d2 <= m')%Z).
    { rewrite <- Hpow, Hm'. apply Z.mul_le_mono_nonneg_r; [apply Z.pow_nonneg; lia|lia]. }
    assert (Hlt : (2 ^ t * Z.pos m2 < Z.pos m2 * (q + 1))%Z).
    { assert (2 ^ t * Z.pos m2 <= 2 ^ t * 2 ^ d2)%Z.
      { apply Z.mul_le_mono_nonneg_l; [apply Z.pow_nonneg; lia|lia]. }
      nia. }
    assert (2 ^ t < q + 1)%Z by nia. lia. }
  split.
  - destruct Hcase as [Hle|(Hs' & Hqlow & Ht)].
    + unfold fexp. lia.
    + apply Zdigits2_lower in Hqlow; [|exact Ht].
      apply Z.le_trans with (fexp prec emax D); [unfold e'; lia|].
      apply fexp_mono. unfold D, s in *. lia.
  - intros ->. destruct Hcase as [Hle|(_ & Hqlow & Ht)].
    + assert (Hr' : IZR r / IZR (Z.pos m2) < 1).
      { apply Rmult_lt_reg_r with (IZR (Z.pos m2)); [exact HM2|].
        replace (IZR r / IZR (Z.pos m2) * IZR (Z.pos m2)) with (IZR r) by (field; lra).
        rewrite Rmult_1_l. apply IZR_lt. lia. }
      assert (Hv : IZR (Z.pos m1) * pow2 e1 / (IZR (Z.pos m2) * pow2 e2) =
                   (IZR 0 + IZR r / IZR (Z.pos m2)) * pow2 e').
      { rewrite <- Hval. field. repeat split; lra. }
      rewrite Hv. apply Rlt_le_trans with (1 * pow2 e').
      * apply Rmult_lt_compat_r; lra.
      * rewrite Rmult_1_l. now apply pow2_le.
    + pose proof (Z.pow_pos_nonneg 2 (d1 + s - d2 - 1) ltac:(lia) Ht). lia.
Qed.

Lemma SFdiv_spec (x y : spec_float) (sy : bool) (my : positive) (ey : Z) :
  IEEE.finite64 x = true -> y = S754_finite sy my ey ->
  magnitude x / magnitude y < pow2 (emax - prec) ->
  (magnitude x = 0 \/ pow2 (emin prec emax) <= magnitude x / magnitude y) ->
  let r := SFdiv prec emax x y in
  IEEE.finite64 r = true /\ signOf r = xorb (signOf x) (signOf y) /\
  Rabs (magnitude r - magnitude x / magnitude y) <=
    pow2 (- prec) * (magnitude x / magnitude y) + pow2 (emin prec emax - 1).
Proof.
  intros Hx -> Hv Hlow. cbv zeta.
  destruct x as [sx|sx| |sx mx ex]; try discriminate.
  - cbn [SFdiv IEEE.finite64 signOf magnitude]. repeat split.
    unfold Rdiv. rewrite !Rmult_0_l, Rminus_diag, Rabs_R0, Rmult_0_r, Rplus_0_l.
    pose proof (pow2_pos (emin prec emax - 1)). lra.
  - destruct Hlow as [H0|Hlow].
    { pose proof (magnitude_finite_pos sx mx ex). lra. }
    cbn [SFdiv signOf]. cbn [magnitude] in *.
    pose proof (SFdiv_core_spec mx my ex ey) as Hc. cbv zeta in Hc.
    destruct (SFdiv_core_binary prec emax (Z.pos mx) ex (Z.pos my) ey) as [[q e'] l].
    destruct Hc as (Hq0 & Hin & Hfexp & Hzero).
    assert (Hq : (0 < q)%Z).
    { destruct (Z.eq_dec q 0) as [E|E]; [|lia]. specialize (Hzero E). lra. }
    pose proof (pow2_pos e') as Hpe'.
    set (v := IZR (Z.pos mx) * pow2 ex / (IZR (Z.pos my) * pow2 ey)) in *.
    assert (Hval : v / pow2 e' * pow2 e' = v) by (field; lra).
    rewrite <- Hval in Hv. rewrite <- Hval.
    apply (binary_round_aux_spec prec emax Hprec Hemax (xorb sx sy) q e' l _ Hq Hin); auto.
Qed.
End Div.

(** ** Binary64 operations with binary32 stores *)

Lemma abs_to_rel (r v : R) :
  Rabs (r - v) <= pow2 (-53) * v + pow2 (-1075) ->
  pow2 (-1022) <= v ->
  Rabs (r - v) <= delta * v.
Proof.
  intros H Hv. apply Rle_trans with (1 := H). unfold delta.
  replace (-1075)%Z with (-53 + -1022)%Z by reflexivity.
  replace (-52)%Z with (-53 + 1)%Z by reflexivity.
  rewrite !pow2_add, pow2_1. pose proof (pow2_pos (-53)).
  assert (pow2 (-53) * pow2 (-1022) <= pow2 (-53) * v) by (apply Rmult_le_compat_l; lra).
  lra.
Qed.

Lemma magnitude_zero (x : spec_float) :
  IEEE.finite64 x = true -> magnitude x = 0 -> exists s, x = S754_zero s.
Proof.
  destruct x as [s|s| |s m e]; try discriminate; intros _ H.
  - now exists s.
  - pose proof (magnitude_finite_pos s m e). lra.
Qed.

Lemma magnitude_pos_finite (x : spec_float) :
  IEEE.finite64 x = true -> 0 < magnitude x -> exists s m e, x = S754_finite s m e.
Proof.
  destruct x as [s|s| |s m e]; try discriminate; intros _ H.
  - cbn in H. lra.
  - now exists s, m, e.
Qed.

Lemma binary_normalize_round (prec emax : Z) (s : bool) (m : positive) (e : Z) :
  binary_normalize prec emax (cond_Zopp s (Zpos m)) e s = binary_round prec emax s m e.
Proof. destruct s; reflexivity. Qed.

Lemma fround_spec (x : spec_float) :
  IEEE.finite64 x = true -> magnitude x < pow2 104 ->
  let r := IEEE.canon64 (IEEE.round32 x) in
  IEEE.finite64 r = true /\ signOf r = signOf x /\
  Rabs (magnitude r - magnitude x) <= pow2 (-23) * magnitude x + pow2 (-149).
Proof.
  intros Hx Hv. cbv zeta.
  assert (Hp23 : 0 < pow2 (-23)) by apply pow2_pos.
  assert (Hp149 : 0 < pow2 (-149)) by apply pow2_pos.
  destruct x as [s|s| |s m e]; try discriminate.
  - cbn [IEEE.canon64 IEEE.round32 IEEE.finite64 signOf magnitude]. repeat split.
    rewrite Rminus_diag, Rabs_R0. lra.
  - cbn [IEEE.round32]. rewrite binary_normalize_round.
    pose proof (binary_round_spec 24 128 ltac:(lia) ltac:(lia) s m e) as H1.
    cbv zeta in H1. cbn [magnitude] in Hv. specialize (H1 Hv).
    destruct H1 as (Hf1 & Hs1 & He1).
    change (emin 24 128 - 1)%Z with (-150)%Z in He1.
    change (- (24))%Z with (-24)%Z in He1.
    set (r1 := binary_round 24 128 s m e) in *.
    set (X := IZR (Z.pos m) * pow2 e) in *. cbn [magnitude signOf]. fold X.
    assert (HX : 0 < X) by apply (magnitude_finite_pos s m e).
    assert (H24 : pow2 (-24) = pow2 (-23) / 2).
    { replace (-24)%Z with (-23 - 1)%Z by reflexivity. apply pow2_pred. }
    assert (H150 : pow2 (-150) = pow2 (-149) / 2).
    { replace (-150)%Z with (-149 - 1)%Z by reflexivity. apply pow2_pred. }
    assert (H23 : pow2 (-23) <= / 2).
    { replace (/ 2) with (pow2 (-1)) by (unfold pow2; simpl; lra).
      apply pow2_le. lia. }
    assert (Hr1 : Rabs (magnitude r1 - X) <= pow2 (-24) * X + pow2 (-150)) by exact He1.
    destruct r1 as [s1|s1| |s1 m1 e1] eqn:E1; try discriminate.
    + cbn [IEEE.canon64 IEEE.finite64 signOf magnitude] in *. repeat split; [congruence|].
      apply Rle_trans with (1 := Hr1). rewrite H24, H150. nra.
    + cbn [IEEE.canon64]. rewrite binary_normalize_round.
      cbn [signOf] in Hs1. subst s1.
      set (R1 := magnitude (S754_finite s m1 e1)) in *.
      assert (HR1 : R1 <= 2 * X + pow2 (-150)).
      { apply Rabs_le_inv in Hr1. rewrite H24 in Hr1. nra. }
      assert (HR1' : IZR (Z.pos m1) * pow2 e1 < pow2 (1024 - 53)).
      { change (IZR (Z.pos m1) * pow2 e1) with R1.
        apply Rle_lt_trans with (1 := HR1).
        apply Rlt_le_trans with (2 * pow2 104 + pow2 104).
        - assert (pow2 (-150) < pow2 104) by (apply pow2_lt; lia). lra.
        - apply Rle_trans with (pow2 106); [|apply pow2_le; lia].
          replace 106%Z with (104 + 1 + 1)%Z by reflexivity.
          rewrite !pow2_succ. pose proof (pow2_pos 104). lra. }
      pose proof (binary_round_spec 53 1024 ltac:(lia) ltac:(lia) s m1 e1 HR1') as H2.
      cbv zeta in H2. destruct H2 as (Hf2 & Hs2 & He2).
      change (IZR (Z.pos m1) * pow2 e1) with R1 in He2.
      change (emin 53 1024 - 1)%Z with (-1075)%Z in He2.
      change (- (53))%Z with (-53)%Z in He2.
      split; [exact Hf2|]. split; [exact Hs2|].
      set (R2 := magnitude (binary_round 53 1024 s m1 e1)) in *.
      assert (H53 : pow2 (-53) <= pow2 (-24) / 4).
      { replace (pow2 (-24) / 4) with (pow2 (-26)).
        - apply pow2_le. lia.
        - replace (-24)%Z with (-26 + 1 + 1)%Z by reflexivity.
          rewrite !pow2_succ. lra. }
      assert (H1075 : pow2 (-1075) <= pow2 (-150) / 4).
      { replace (pow2 (-150) / 4) with (pow2 (-152)).
        - apply pow2_le. lia.
        - replace (-150)%Z with (-152 + 1 + 1)%Z by reflexivity.
          rewrite !pow2_succ. lra. }
      assert (HR1pos : 0 <= R1) by apply (magnitude_nonneg (S754_finite s m1 e1)).
      apply Rabs_le_inv in Hr1. apply Rabs_le_inv in He2. apply Rabs_le.
      pose proof (pow2_pos (-24)). pose proof (pow2_pos (-150)).
      pose proof (pow2_pos (-53)). pose proof (pow2_pos (-1075)).
      assert (pow2 (-53) * R1 <= pow2 (-24) / 4 * R1) by (apply Rmult_le_compat_r; lra).
      assert (pow2 (-24) / 4 * R1 <= pow2 (-24) / 4 * (2 * X + pow2 (-150)))
        by (apply Rmult_le_compat_l; lra).
      assert (pow2 (-24) * pow2 (-150) <= pow2 (-150)).
      { rewrite <- (Rmult_1_l (pow2 (-150))) at 2. apply Rmult_le_compat_r; lra. }
      rewrite H24, H150 in *. nra.
Qed.

(** ** The sum of squares *)

Lemma binary32_spec (x : spec_float) :
  binary32 x = true ->
  IEEE.finite64 x = true /\
  ((exists s, x = S754_zero s) \/ pow2 (-149) <= magnitude x < pow2 128).
Proof.
  destruct x as [s|s| |s m e]; try discriminate; cbn [binary32 IEEE.finite64].
  - intros _. split; [reflexivity|left; now exists s].
  - intros H. apply andb_prop in H. destruct H as [H1 H2].
    apply Z.leb_le in H1, H2. split; [reflexivity|right].
    cbn [magnitude]. destruct (digits_bounds m) as [Hlo Hhi].
    pose proof (pow2_pos e). split.
    + apply Rle_trans with (pow2 (Z.pos (digits2_pos m) - 1) * pow2 e).
      * rewrite <- pow2_add. apply pow2_le. lia.
      * apply Rmult_le_compat_r; lra.
    + apply Rlt_le_trans with (pow2 (Z.pos (digits2_pos m)) * pow2 e).
      * apply Rmult_lt_compat_r; lra.
      * rewrite <- pow2_add. apply pow2_le. lia.
Qed.

Lemma delta_small : 0 < delta /\ delta <= / 4.
Proof.
  split; [apply pow2_pos|]. unfold delta.
  replace (/ 4) with (pow2 (-2)) by (unfold pow2; simpl; lra).
  apply pow2_le. lia.
Qed.

Lemma square_spec (x : spec_float) :
  binary32 x = true ->
  let p := SFmul 53 1024 x x in
  IEEE.finite64 p = true /\ signOf p = false /\
  (1 - delta) * (magnitude x * magnitude x) <= magnitude p <= (1 + delta) * (magnitude x * magnitude x).
Proof.
  intros Hx. cbv zeta. destruct (binary32_spec x Hx) as [Hf [[s ->]|[Hlo Hhi]]].
  - cbn [SFmul IEEE.finite64 signOf magnitude]. repeat split; [now destruct s|lra|lra].
  - assert (Hsq : pow2 (-298) <= magnitude x * magnitude x < pow2 256).
    { replace (-298)%Z with (-149 + -149)%Z by reflexivity.
      replace 256%Z with (128 + 128)%Z by reflexivity. rewrite !pow2_add.
      pose proof (pow2_pos (-149)). pose proof (pow2_pos 128). split; nra. }
    assert (Hov : magnitude x * magnitude x < pow2 (1024 - 53)).
    { apply Rlt_le_trans with (pow2 256); [lra|apply pow2_le; lia]. }
    destruct (SFmul_spec 53 1024 ltac:(lia) ltac:(lia) x x Hf Hf Hov) as (H1 & H2 & H3).
    split; [exact H1|]. split; [rewrite H2; now destruct (signOf x)|].
    change (emin 53 1024 - 1)%Z with (-1075)%Z in H3.
    change (- (53))%Z with (-53)%Z in H3.
    apply abs_to_rel in H3.
    + apply Rabs_le_inv in H3. lra.
    + apply Rle_trans with (pow2 (-298)); [apply pow2_le; lia|lra].
Qed.

Lemma up_bernoulli (k : nat) :
  INR k * delta <= / 2 -> growth k <= 1 + 2 * INR k * delta.
Proof.
  destruct delta_small as [Hd0 Hd1]. unfold growth.
  induction k as [|k IH]; intros Hk.
  - simpl. lra.
  - rewrite S_INR in *. assert (0 <= INR k) by apply pos_INR.
    assert (Hk' : INR k * delta <= / 2) by nra.
    specialize (IH Hk'). cbn [pow].
    assert (0 <= (1 + delta) ^ k) by (apply pow_le; lra).
    nra.
Qed.

Lemma dn_bernoulli (k : nat) : 1 - INR k * delta <= decay k.
Proof.
  destruct delta_small as [Hd0 Hd1]. unfold decay.
  induction k as [|k IH].
  - simpl. lra.
  - rewrite S_INR. assert (0 <= INR k) by apply pos_INR. cbn [pow].
    assert (0 <= (1 - delta) ^ k) by (apply pow_le; lra).
    nra.
Qed.

Lemma dn_pos (k : nat) : 0 < decay k <= 1.
Proof.
  destruct delta_small as [Hd0 Hd1]. unfold decay. induction k as [|k IH].
  - simpl. lra.
  - cbn [pow]. nra.
Qed.

Lemma up_ge1 (k : nat) : 1 <= growth k.
Proof.
  destruct delta_small as [Hd0 Hd1]. unfold growth. induction k as [|k IH].
  - simpl. lra.
  - cbn [pow]. nra.
Qed.

Lemma up_S (k : nat) : growth (S k) = (1 + delta) * growth k.
Proof. reflexivity. Qed.

Lemma dn_S (k : nat) : decay (S k) = (1 - delta) * decay k.
Proof. reflexivity. Qed.

Lemma INR_small (k : nat) :
  (Z.of_nat k <= 2 ^ 22)%Z -> INR k * delta <= gamma / 2.
Proof.
  intros Hk. rewrite INR_IZR_INZ.
  assert (IZR (Z.of_nat k) <= pow2 22).
  { rewrite pow2_IZR by lia. now apply IZR_le. }
  unfold gamma, delta.
  replace (pow2 (-29) / 2) with (pow2 22 * pow2 (-52)).
  - apply Rmult_le_compat_r; [pose proof (pow2_pos (-52)); lra|exact H].
  - rewrite <- pow2_add. replace (22 + -52)%Z with (-29 - 1)%Z by reflexivity.
    apply pow2_pred.
Qed.

Lemma gamma_small : 0 < gamma /\ gamma <= / 1024.
Proof.
  split; [apply pow2_pos|]. unfold gamma.
  replace (/ 1024) with (pow2 (-10)) by (unfold pow2; simpl; lra).
  apply pow2_le. lia.
Qed.

Lemma up_small (k : nat) : (Z.of_nat k <= 2 ^ 22)%Z -> growth k <= 1 + gamma.
Proof.
  intros Hk. pose proof (INR_small k Hk). destruct gamma_small.
  apply Rle_trans with (1 + 2 * INR k * delta); [apply up_bernoulli; lra|lra].
Qed.

Lemma dn_small (k : nat) : (Z.of_nat k <= 2 ^ 22)%Z -> 1 - gamma <= decay k.
Proof.
  intros Hk. pose proof (INR_small k Hk). destruct gamma_small.
  apply Rle_trans with (1 - INR k * delta); [lra|apply dn_bernoulli].
Qed.

Lemma sumsqR_nonneg (l : list spec_float) : 0 <= sumsqR l.
Proof.
  induction l as [|x l IH]; cbn [sumsqR fold_right]; [lra|].
  fold (sumsqR l). pose proof (magnitude_nonneg x). nra.
Qed.

Lemma fold_sumsq (l : list spec_float) :
  forall (acc : spec_float) (T : R) (k : nat),
    IEEE.finite64 acc = true -> signOf acc = false ->
    T * decay (2 * k) <= magnitude acc <= T * growth (2 * k) ->
    (T = 0 \/ pow2 (-298) <= T) ->
    Forall (fun x => binary32 x = true) l ->
    T + sumsqR l < pow2 900 ->
    (Z.of_nat (k + length l) <= 2 ^ 20)%Z ->
    let r := fold_left (fun s x => SFadd 53 1024 s (SFmul 53 1024 x x)) l acc in
    IEEE.finite64 r = true /\ signOf r = false /\
    (T + sumsqR l) * decay (2 * (k + length l)) <= magnitude r <=
    (T + sumsqR l) * growth (2 * (k + length l)).
Proof.
  destruct delta_small as [Hd0 Hd1]. destruct gamma_small as [Hg0 Hg1].
  induction l as [|x l IH]; intros acc T k Hf Hs HA HT Hall Hov Hk.
  - cbn [fold_left sumsqR fold_right length]. rewrite Nat.add_0_r, Rplus_0_r.
    repeat split; try assumption; lra.
  - cbn [fold_left]. cbn [sumsqR fold_right] in *. fold (sumsqR l) in *.
    cbn [length] in *.
    inversion Hall as [|? ? Hx Hl]; subst.
    destruct (square_spec x Hx) as (Hpf & Hps & HP).
    set (p := SFmul 53 1024 x x) in *.
    set (X2 := magnitude x * magnitude x) in *.
    assert (HX2 : X2 = 0 \/ pow2 (-298) <= X2).
    { destruct (binary32_spec x Hx) as [_ [[s ->]|[Hlo Hhi]]].
      - left. unfold X2. cbn [magnitude]. lra.
      - right. unfold X2. replace (-298)%Z with (-149 + -149)%Z by reflexivity.
        rewrite pow2_add. pose proof (pow2_pos (-149)). nra. }
    assert (HX2pos : 0 <= X2) by (unfold X2; pose proof (magnitude_nonneg x); nra).
    assert (HTpos : 0 <= T) by (destruct HT; [lra|pose proof (pow2_pos (-298)); lra]).
    pose proof (sumsqR_nonneg l) as HSl.
    assert (Hk2 : (Z.of_nat (2 * k + 2) <= 2 ^ 22)%Z) by lia.
    pose proof (dn_pos (2 * k)) as Hdn. pose proof (up_ge1 (2 * k)) as Hup.
    assert (Hup2 : growth (2 * k) <= 1 + gamma) by (apply up_small; lia).
    assert (Hdn2 : 1 - gamma <= decay (2 * k)) by (apply dn_small; lia).
    set (A := magnitude acc) in *. set (P := magnitude p) in *.
    assert (HAP : (T + X2) * ((1 - delta) * decay (2 * k)) <= A + P <=
                  (T + X2) * ((1 + delta) * growth (2 * k))).
    { assert (0 <= T * decay (2 * k) * delta)
        by (apply Rmult_le_pos; [apply Rmult_le_pos|]; lra).
      assert (0 <= X2 * (1 - delta) * (1 - decay (2 * k)))
        by (apply Rmult_le_pos; [apply Rmult_le_pos|]; lra).
      assert (0 <= T * growth (2 * k) * delta)
        by (apply Rmult_le_pos; [apply Rmult_le_pos|]; lra).
      assert (0 <= X2 * (1 + delta) * (growth (2 * k) - 1))
        by (apply Rmult_le_pos; [apply Rmult_le_pos|]; lra).
      split.
      - apply Rle_trans with (T * decay (2 * k) + (1 - delta) * X2); [nra|lra].
      - apply Rle_trans with (T * growth (2 * k) + (1 + delta) * X2); [lra|nra]. }
    assert (Hsum : A + P < pow2 (1024 - 53)).
    { apply Rle_lt_trans with ((T + X2) * ((1 + delta) * growth (2 * k))); [lra|].
      apply Rle_lt_trans with ((T + X2) * 2); [apply Rmult_le_compat_l; nra|].
      apply Rlt_le_trans with (pow2 900 * 2); [nra|].
      replace (pow2 900 * 2) with (pow2 901) by (replace 901%Z with (900 + 1)%Z by reflexivity; rewrite pow2_succ; lra).
      apply pow2_le. lia. }
    destruct (SFadd_pos_spec 53 1024 ltac:(lia) ltac:(lia) acc p Hf Hpf Hs Hps Hsum)
      as (Hrf & Hrs & Hr).
    fold A P in Hr.
    change (emin 53 1024 - 1)%Z with (-1075)%Z in Hr.
    change (- (53))%Z with (-53)%Z in Hr.
    set (acc' := SFadd 53 1024 acc p) in *.
    assert (HA' : (T + X2) * decay (2 * (k + 1)) <= magnitude acc' <=
                  (T + X2) * growth (2 * (k + 1))).
    { replace (2 * (k + 1))%nat with (S (S (2 * k))) by lia.
      rewrite !up_S, !dn_S.
      assert (HTX : T + X2 = 0 \/ pow2 (-298) <= T + X2) by (destruct HT, HX2; [left|right|right|right]; lra).
      destruct HTX as [H0|Hpos].
      - assert (HA0 : A = 0) by nra.
        assert (HP0 : P = 0) by nra.
        destruct (magnitude_zero acc Hf HA0) as [sa Ea].
        destruct (magnitude_zero p Hpf HP0) as [sp Ep].
        unfold acc'. rewrite Ea, Ep in *. cbn [signOf] in Hs, Hps. subst sa sp.
        cbn [SFadd magnitude]. rewrite H0. lra.
      - apply abs_to_rel in Hr.
        + apply Rabs_le_inv in Hr. split.
          * apply Rle_trans with ((1 - delta) * (A + P)); [|lra].
            replace ((T + X2) * ((1 - delta) * ((1 - delta) * decay (2 * k))))
              with ((1 - delta) * ((T + X2) * ((1 - delta) * decay (2 * k)))) by ring.
            apply Rmult_le_compat_l; lra.
          * apply Rle_trans with ((1 + delta) * (A + P)); [lra|].
            replace ((T + X2) * ((1 + delta) * ((1 + delta) * growth (2 * k))))
              with ((1 + delta) * ((T + X2) * ((1 + delta) * growth (2 * k)))) by ring.
            apply Rmult_le_compat_l; lra.
        + apply Rle_trans with ((T + X2) * ((1 - delta) * decay (2 * k))); [|lra].
          apply Rle_trans with (pow2 (-298) * (/ 2)).
          * replace (pow2 (-298) * / 2) with (pow2 (-299))
              by (replace (-299)%Z with (-298 - 1)%Z by reflexivity; apply pow2_pred).
            apply pow2_le. lia.
          * pose proof (pow2_pos (-298)).
            apply Rmult_le_compat; nra. }
    specialize (IH acc' (T + X2) (k + 1)%nat Hrf Hrs HA').
    replace (k + S (length l))%nat with (k + 1 + length l)%nat by lia.
    replace (T + (X2 + sumsqR l)) with (T + X2 + sumsqR l) by ring.
    apply IH.
    + destruct HT, HX2; [left|right|right|right]; lra.
    + exact Hl.
    + lra.
    + lia.
Qed.

(** ** The normalised row *)

Lemma sumsqR_cases (v : list spec_float) :
  Forall (fun x => binary32 x = true) v ->
  (sumsqR v = 0 /\ Forall (fun x => exists s, x = S754_zero s) v) \/
  pow2 (-298) <= sumsqR v.
Proof.
  induction 1 as [|x v Hx Hv IH]; [left; split; [reflexivity|constructor]|].
  cbn [sumsqR fold_right]. fold (sumsqR v).
  pose proof (sumsqR_nonneg v). pose proof (magnitude_nonneg x).
  destruct (binary32_spec x Hx) as [_ [[s ->]|[Hlo Hhi]]].
  - destruct IH as [[Hzero Hz]|Hpos].
    + left. cbn [magnitude]. split; [lra|]. constructor; [now exists s|exact Hz].
    + right. cbn [magnitude]. lra.
  - right. apply Rle_trans with (magnitude x * magnitude x); [|lra].
    replace (-298)%Z with (-149 + -149)%Z by reflexivity. rewrite pow2_add.
    pose proof (pow2_pos (-149)). nra.
Qed.

Lemma sumsqR_upper (v : list spec_float) :
  Forall (fun x => binary32 x = true) v ->
  sumsqR v <= INR (length v) * pow2 256.
Proof.
  induction 1 as [|x v Hx Hv IH]; [cbn; lra|].
  cbn [sumsqR fold_right length]. fold (sumsqR v). rewrite S_INR.
  pose proof (magnitude_nonneg x). pose proof (pow2_pos 256).
  assert (magnitude x * magnitude x <= pow2 256); [|lra].
  destruct (binary32_spec x Hx) as [_ [[s ->]|[Hlo Hhi]]].
  - cbn [magnitude]. lra.
  - replace 256%Z with (128 + 128)%Z by reflexivity. rewrite pow2_add. nra.
Qed.

Lemma sumsqR_In (v : list spec_float) (x : spec_float) :
  In x v -> magnitude x * magnitude x <= sumsqR v.
Proof.
  induction v as [|y v IH]; [intros []|].
  cbn [sumsqR fold_right]. fold (sumsqR v).
  pose proof (sumsqR_nonneg v). pose proof (magnitude_nonneg y).
  intros [->|Hin]; [nra|]. specialize (IH Hin). nra.
Qed.

Lemma length_small (n : nat) :
  (Z.of_nat n <= 2 ^ 20)%Z -> INR n <= pow2 20.
Proof.
  intros H. rewrite INR_IZR_INZ, pow2_IZR by lia. now apply IZR_le.
Qed.

Lemma sumsq64_spec (v : list spec_float) :
  Forall (fun x => binary32 x = true) v ->
  (Z.of_nat (length v) <= 2 ^ 20)%Z ->
  IEEE.finite64 (sumsq64 v) = true /\ signOf (sumsq64 v) = false /\
  sumsqR v * (1 - gamma) <= magnitude (sumsq64 v) <= sumsqR v * (1 + gamma).
Proof.
  intros Hv Hn. unfold sumsq64.
  pose proof (sumsqR_nonneg v) as HT.
  assert (Hov : 0 + sumsqR v < pow2 900).
  { rewrite Rplus_0_l. apply Rle_lt_trans with (1 := sumsqR_upper v Hv).
    pose proof (length_small _ Hn). pose proof (pow2_pos 256).
    apply Rle_lt_trans with (pow2 20 * pow2 256); [nra|].
    rewrite <- pow2_add. apply pow2_lt. lia. }
  destruct (fold_sumsq v (S754_zero false) 0 0 eq_refl eq_refl) as (Hf & Hs & Hr);
    try assumption.
  - cbn [magnitude]. lra.
  - now left.
  - rewrite !Rplus_0_l in Hr. cbn [Nat.add] in Hr.
    split; [exact Hf|]. split; [exact Hs|].
    assert (Hk : (Z.of_nat (2 * length v) <= 2 ^ 22)%Z) by lia.
    pose proof (up_small _ Hk). pose proof (dn_small _ Hk). nra.
Qed.

Lemma sqrt_le_succ (x : R) : 0 <= x -> sqrt x <= 1 + x.
Proof.
  intros Hx. rewrite <- (sqrt_square (1 + x)) by lra.
  apply sqrt_le_1_alt. nra.
Qed.

Lemma sqrt_ge_small (x c : R) : 0 < c <= 1 -> c <= x -> c <= sqrt x.
Proof.
  intros Hc Hx. apply Rle_trans with (sqrt (c * c)).
  - rewrite sqrt_square; lra.
  - apply sqrt_le_1_alt. nra.
Qed.

Lemma sqrt_sqr_eq (x : R) : 0 <= x -> sqrt x * sqrt x = x.
Proof. apply sqrt_sqrt. Qed.

Lemma small_constants :
  0 < delta <= / 1000000000000 /\ 0 < gamma <= / 500000000 /\
  0 < eps <= / 8000000 /\ 0 < eta32 /\ pow2 20 * eta32 <= / 1000000000000.
Proof.
  unfold delta, gamma, eps, eta32.
  repeat split; try apply pow2_pos.
  - apply Rle_trans with (pow2 (-40)); [apply pow2_le; lia|].
    unfold pow2. simpl. lra.
  - unfold pow2. simpl. lra.
  - unfold pow2. simpl. lra.
  - rewrite <- pow2_add. apply Rle_trans with (pow2 (-40)); [apply pow2_le; lia|].
    unfold pow2. simpl. lra.
Qed.

Lemma lowF_uppF : / 2 <= lowF <= 1 /\ 1 <= uppF <= 2.
Proof.
  destruct small_constants as ((Hd0 & Hd1) & (Hg0 & Hg1) & _).
  unfold lowF, uppF. split; split; nra.
Qed.

Lemma norm64_spec (v : list spec_float) :
  Forall (fun x => binary32 x = true) v ->
  (Z.of_nat (length v) <= 2 ^ 20)%Z ->
  pow2 (-298) <= sumsqR v ->
  exists m e,
    SFsqrt 53 1024 (sumsq64 v) = S754_finite false m e /\
    sumsqR v * lowF <= magnitude (S754_finite false m e) * magnitude (S754_finite false m e)
      <= sumsqR v * uppF.
Proof.
  intros Hv Hn HT.
  destruct small_constants as ((Hd0 & Hd1) & (Hg0 & Hg1) & _).
  destruct (sumsq64_spec v Hv Hn) as (Hf & Hs & HS).
  set (S := magnitude (sumsq64 v)) in *. set (T := sumsqR v) in *.
  assert (HTup : T < pow2 277).
  { apply Rle_lt_trans with (1 := sumsqR_upper v Hv).
    pose proof (length_small _ Hn). pose proof (pow2_pos 256).
    apply Rle_lt_trans with (pow2 20 * pow2 256); [nra|].
    rewrite <- pow2_add. apply pow2_lt. lia. }
  pose proof (pow2_pos (-298)) as Hp298.
  assert (HSlow : pow2 (-299) <= S).
  { replace (-299)%Z with (-298 - 1)%Z by reflexivity. rewrite pow2_pred. nra. }
  assert (HSup : S < pow2 278).
  { replace 278%Z with (277 + 1)%Z by reflexivity. rewrite pow2_succ.
    pose proof (pow2_pos 277). nra. }
  assert (HSpos : 0 < S) by (pose proof (pow2_pos (-299)); lra).
  assert (Hsq : sqrt S < pow2 (1024 - 53)).
  { apply Rle_lt_trans with (1 + S); [apply sqrt_le_succ; lra|].
    apply Rlt_le_trans with (pow2 278 + pow2 278).
    - assert (1 <= pow2 278) by (rewrite <- pow2_0; apply pow2_le; lia). lra.
    - replace (pow2 278 + pow2 278) with (pow2 (278 + 1)) by (rewrite pow2_succ; lra).
      apply pow2_le. lia. }
  destruct (SFsqrt_spec 53 1024 ltac:(lia) ltac:(lia) (sumsq64 v) Hf Hs Hsq)
    as (Hnf & Hns & Hn').
  fold S in Hn'.
  change (emin 53 1024 - 1)%Z with (-1075)%Z in Hn'.
  change (- (53))%Z with (-53)%Z in Hn'.
  apply abs_to_rel in Hn'.
  2:{ apply sqrt_ge_small.
      - split; [apply pow2_pos|]. rewrite <- pow2_0. apply pow2_le. lia.
      - apply Rle_trans with (pow2 (-299)); [apply pow2_le; lia|lra]. }
  apply Rabs_le_inv in Hn'.
  set (nrm := SFsqrt 53 1024 (sumsq64 v)) in *.
  assert (HsqS : 0 < sqrt S) by (apply sqrt_lt_R0; lra).
  assert (HNpos : 0 < magnitude nrm) by nra.
  destruct (magnitude_pos_finite nrm Hnf HNpos) as (s & m & e & E).
  rewrite E in Hns. cbn [signOf] in Hns. subst s.
  exists m, e. split; [exact E|]. rewrite <- E.
  set (N := magnitude nrm) in *.
  pose proof (sqrt_sqrt S ltac:(lra)) as HSS.
  assert (HN2 : S * ((1 - delta) * (1 - delta)) <= N * N <= S * ((1 + delta) * (1 + delta))).
  { split.
    - rewrite <- HSS at 1.
      replace (sqrt S * sqrt S * ((1 - delta) * (1 - delta)))
        with ((sqrt S * (1 - delta)) * (sqrt S * (1 - delta))) by ring.
      apply Rmult_le_compat; nra.
    - rewrite <- HSS at 1.
      replace (sqrt S * sqrt S * ((1 + delta) * (1 + delta)))
        with ((sqrt S * (1 + delta)) * (sqrt S * (1 + delta))) by ring.
      apply Rmult_le_compat; nra. }
  unfold lowF, uppF.
  assert (Hlo2 : 0 <= (1 - delta) * (1 - delta)) by nra.
  assert (Hup2 : 0 <= (1 + delta) * (1 + delta)) by nra.
  assert (T * (1 - gamma) * ((1 - delta) * (1 - delta)) <=
          S * ((1 - delta) * (1 - delta))) by (apply Rmult_le_compat_r; lra).
  assert (S * ((1 + delta) * (1 + delta)) <=
          T * (1 + gamma) * ((1 + delta) * (1 + delta))) by (apply Rmult_le_compat_r; lra).
  split; lra.
Qed.

Lemma entry_spec (x : spec_float) (m : positive) (e : Z) (T : R) :
  binary32 x = true ->
  let N := magnitude (S754_finite false m e) in
  pow2 (-298) <= T < pow2 277 ->
  magnitude x * magnitude x <= T ->
  T * lowF <= N * N <= T * uppF ->
  let O := magnitude (stored x (S754_finite false m e)) in
  let a := magnitude x / N in
  IEEE.finite64 (stored x (S754_finite false m e)) = true /\
  0 <= a <= 2 /\
  (1 - delta) * (1 - eps) * a - eta32 <= O <= (1 + delta) * (1 + eps) * a + eta32.
Proof.
  intros Hx N HT HX HN O a.
  destruct small_constants as ((Hd0 & Hd1) & (Hg0 & Hg1) & (He0 & He1) & Hh0 & _).
  destruct lowF_uppF as [[HL0 HL1] [HU0 HU1]].
  pose proof (pow2_pos (-298)) as Hp298.
  assert (HNpos : 0 < N) by apply magnitude_finite_pos.
  destruct (binary32_spec x Hx) as [Hxf [[s Ex]|[Hlo Hhi]]].
  - subst x. split; [reflexivity|].
    unfold O, a, stored. cbn [SFdiv IEEE.round32 IEEE.canon64 magnitude].
    unfold Rdiv. rewrite !Rmult_0_l, !Rmult_0_r. repeat split; lra.
  - set (X := magnitude x) in *.
    assert (HXpos : 0 < X) by (pose proof (pow2_pos (-149)); lra).
    assert (Ha0 : 0 < a) by (unfold a; apply Rdiv_lt_0_compat; lra).
    assert (HaN : a * N = X) by (unfold a; field; lra).
    assert (Ha2 : a <= 2).
    { destruct (Rle_lt_dec a 2) as [Hle|Hgt]; [exact Hle|exfalso].
      assert (H4 : 4 < a * a) by nra.
      assert (HNN : 0 < N * N) by nra.
      assert (4 * (N * N) < X * X).
      { rewrite <- HaN. replace (a * N * (a * N)) with (a * a * (N * N)) by ring.
        apply Rmult_lt_compat_r; lra. }
      assert (T * lowF <= T * 2) by nra.
      assert (T * / 2 <= T * lowF) by (apply Rmult_le_compat_l; lra).
      lra. }
    assert (HNup : N < pow2 139).
    { destruct (Rlt_le_dec N (pow2 139)) as [Hlt|Hge]; [exact Hlt|exfalso].
      assert (pow2 139 * pow2 139 <= N * N) by (pose proof (pow2_pos 139); nra).
      rewrite <- pow2_add in H. change (139 + 139)%Z with (277 + 1)%Z in H.
      rewrite pow2_succ in H. nra. }
    assert (Halow : pow2 (-288) <= a).
    { apply Rmult_le_reg_r with N; [exact HNpos|]. rewrite HaN.
      apply Rle_trans with (pow2 (-288) * pow2 139);
        [apply Rmult_le_compat_l; [pose proof (pow2_pos (-288)); lra|lra]|].
      rewrite <- pow2_add. exact Hlo. }
    assert (Hdiv1 : X / N < pow2 (1024 - 53)).
    { fold a. apply Rle_lt_trans with 2; [exact Ha2|].
      rewrite <- pow2_1. apply pow2_lt. lia. }
    assert (Hdiv2 : X = 0 \/ pow2 (emin 53 1024) <= X / N).
    { right. fold a. apply Rle_trans with (pow2 (-288)); [apply pow2_le; vm_compute; discriminate|exact Halow]. }
    destruct (SFdiv_spec 53 1024 ltac:(lia) ltac:(lia) x (S754_finite false m e)
                false m e Hxf eq_refl Hdiv1 Hdiv2) as (Hqf & _ & Hq).
    fold X N a in Hq.
    change (emin 53 1024 - 1)%Z with (-1075)%Z in Hq.
    change (- (53))%Z with (-53)%Z in Hq.
    apply abs_to_rel in Hq;
      [|apply Rle_trans with (pow2 (-288)); [apply pow2_le; lia|exact Halow]].
    apply Rabs_le_inv in Hq.
    set (q := SFdiv 53 1024 x (S754_finite false m e)) in *.
    set (Q := magnitude q) in *.
    assert (HQ104 : Q < pow2 104).
    { apply Rle_lt_trans with 4; [nra|].
      replace 4 with (pow2 2) by (unfold pow2; simpl; lra). apply pow2_lt. lia. }
    destruct (fround_spec q Hqf HQ104) as (Hof & _ & Ho).
    fold Q in Ho. change (magnitude (IEEE.canon64 (IEEE.round32 q))) with O in Ho.
    fold eps eta32 in Ho. apply Rabs_le_inv in Ho.
    split; [exact Hof|].
    split; [lra|].
    assert (HQ0 : 0 <= Q) by apply magnitude_nonneg.
    split.
    + apply Rle_trans with ((1 - eps) * Q - eta32); [|lra].
      assert ((1 - eps) * ((1 - delta) * a) <= (1 - eps) * Q)
        by (apply Rmult_le_compat_l; lra).
      lra.
    + apply Rle_trans with ((1 + eps) * Q + eta32); [lra|].
      assert ((1 + eps) * Q <= (1 + eps) * ((1 + delta) * a))
        by (apply Rmult_le_compat_l; lra).
      lra.
Qed.

Lemma c_bounds :
  1 <= cplus <= 1 + 2 / 10000000 /\ 1 - 2 / 10000000 <= cminus <= 1.
Proof.
  destruct small_constants as ((Hd0 & Hd1) & _ & (He0 & He1) & _).
  unfold cplus, cminus. split; split; nra.
Qed.

Lemma stored_sum (m : positive) (e : Z) (T : R) (l : list spec_float) :
  let N := magnitude (S754_finite false m e) in
  pow2 (-298) <= T < pow2 277 ->
  T * lowF <= N * N <= T * uppF ->
  (forall x, In x l -> binary32 x = true /\ magnitude x * magnitude x <= T) ->
  cminus * cminus * (sumsqR l / (N * N)) - 4 * eta32 * INR (length l) <=
    sumsqR (map (fun x => stored x (S754_finite false m e)) l) <=
  cplus * cplus * (sumsqR l / (N * N)) + 5 * eta32 * INR (length l).
Proof.
  intros N HT HN.
  destruct small_constants as (_ & _ & _ & Hh0 & Hh1).
  destruct c_bounds as [[Hcp0 Hcp1] [Hcm0 Hcm1]].
  assert (HNpos : 0 < N) by apply magnitude_finite_pos.
  assert (Heta : eta32 <= / 2).
  { assert (1 <= pow2 20) by (rewrite <- pow2_0; apply pow2_le; lia). nra. }
  induction l as [|x l IH]; intros Hl.
  - cbn [map sumsqR fold_right length INR]. unfold Rdiv. rewrite !Rmult_0_l, !Rmult_0_r. lra.
  - cbn [map sumsqR fold_right length]. fold (sumsqR l).
    fold (sumsqR (map (fun x => stored x (S754_finite false m e)) l)).
    rewrite S_INR.
    destruct (Hl x (or_introl eq_refl)) as [Hx HX].
    specialize (IH (fun y Hy => Hl y (or_intror Hy))).
    pose proof (entry_spec x m e T Hx HT HX HN) as He. cbv zeta in He. fold N in He.
    destruct He as (_ & [Ha0 Ha2] & [Hlo Hhi]). fold cminus in Hlo. fold cplus in Hhi.
    set (O := magnitude (stored x (S754_finite false m e))) in *.
    set (a := magnitude x / N) in *.
    assert (HO : 0 <= O) by apply magnitude_nonneg.
    assert (Haa : magnitude x * magnitude x / (N * N) = a * a) by (unfold a; field; lra).
    replace ((magnitude x * magnitude x + sumsqR l) / (N * N))
      with (a * a + sumsqR l / (N * N)) by (rewrite <- Haa; field; lra).
    assert (Hup : O * O <= cplus * cplus * (a * a) + 5 * eta32).
    { apply Rle_trans with ((cplus * a + eta32) * (cplus * a + eta32)).
      - apply Rmult_le_compat; lra.
      - assert (cplus * a <= 9 / 4) by nra.
        assert (0 <= cplus * a) by nra. nra. }
    assert (Hdn : cminus * cminus * (a * a) - 4 * eta32 <= O * O).
    { assert (Hca : 0 <= cminus * a <= 2) by nra.
      destruct (Rle_lt_dec eta32 (cminus * a)) as [Hge|Hlt].
      - apply Rle_trans with ((cminus * a - eta32) * (cminus * a - eta32)).
        + nra.
        + apply Rmult_le_compat; lra.
      - assert (cminus * a * (cminus * a) <= 2 * eta32) by nra.
        assert (0 <= O * O) by nra.
        replace (cminus * cminus * (a * a)) with (cminus * a * (cminus * a)) by ring.
        lra. }
    split.
    + apply Rle_trans with
        ((cminus * cminus * (a * a) - 4 * eta32) +
         (cminus * cminus * (sumsqR l / (N * N)) - 4 * eta32 * INR (length l))); [lra|].
      lra.
    + apply Rle_trans with
        ((cplus * cplus * (a * a) + 5 * eta32) +
         (cplus * cplus * (sumsqR l / (N * N)) + 5 * eta32 * INR (length l))); [lra|].
      lra.
Qed.

Lemma normalised_row_unit (v : list spec_float) :
  Forall (fun x => binary32 x = true) v ->
  (Z.of_nat (length v) <= 2 ^ 20)%Z ->
  0 < sumsqR v ->
  exists m e,
    SFsqrt 53 1024 (sumsq64 v) = S754_finite false m e /\
    Forall (fun x => IEEE.finite64 (stored x (S754_finite false m e)) = true) v /\
    Rabs (sqrt (sumsqR (map (fun x => stored x (S754_finite false m e)) v)) - 1) <= tolerance.
Proof.
  intros Hv Hn Hpos.
  destruct (sumsqR_cases v Hv) as [[H0 _]|HT]; [lra|].
  destruct (norm64_spec v Hv Hn HT) as (m & e & Enorm & HN).
  exists m, e. split; [exact Enorm|].
  assert (HTup0 : sumsqR v < pow2 277).
  { apply Rle_lt_trans with (1 := sumsqR_upper v Hv).
    pose proof (length_small _ Hn). pose proof (pow2_pos 256).
    apply Rle_lt_trans with (pow2 20 * pow2 256); [nra|].
    rewrite <- pow2_add. apply pow2_lt. lia. }
  split.
  { rewrite Forall_forall in *. intros x Hx.
    exact (proj1 (entry_spec x m e (sumsqR v) (Hv x Hx) (conj HT HTup0)
                    (sumsqR_In v x Hx) HN)). }
  set (T := sumsqR v) in *.
  set (N := magnitude (S754_finite false m e)) in *.
  assert (HTup : T < pow2 277).
  { apply Rle_lt_trans with (1 := sumsqR_upper v Hv).
    pose proof (length_small _ Hn). pose proof (pow2_pos 256).
    apply Rle_lt_trans with (pow2 20 * pow2 256); [nra|].
    rewrite <- pow2_add. apply pow2_lt. lia. }
  assert (Hall : forall x, In x v -> binary32 x = true /\ magnitude x * magnitude x <= T).
  { intros x Hx. split; [|now apply sumsqR_In].
    rewrite Forall_forall in Hv. now apply Hv. }
  pose proof (stored_sum m e T v (conj HT HTup) HN Hall) as Hsum. cbv zeta in Hsum.
  fold N T in Hsum.
  set (S := sumsqR (map (fun x => stored x (S754_finite false m e)) v)) in *.
  destruct small_constants as ((Hd0 & Hd1) & (Hg0 & Hg1) & (He0 & He1) & Hh0 & Hh1).
  destruct c_bounds as [[Hcp0 Hcp1] [Hcm0 Hcm1]].
  destruct lowF_uppF as [[HL0 HL1] [HU0 HU1]].
  assert (HNpos : 0 < N) by apply magnitude_finite_pos.
  assert (HNN : 0 < N * N) by nra.
  set (rho := T / (N * N)) in *.
  assert (Hrho : rho * (N * N) = T) by (unfold rho; field; lra).
  assert (Hrho0 : 0 < rho) by (unfold rho; apply Rdiv_lt_0_compat; lra).
  assert (Hr1 : rho * lowF <= 1).
  { apply Rmult_le_reg_r with (N * N); [exact HNN|].
    replace (rho * lowF * (N * N)) with (rho * (N * N) * lowF) by ring.
    rewrite Hrho. lra. }
  assert (Hr2 : 1 <= rho * uppF).
  { apply Rmult_le_reg_r with (N * N); [exact HNN|].
    replace (rho * uppF * (N * N)) with (rho * (N * N) * uppF) by ring.
    rewrite Hrho. lra. }
  assert (Hlen : eta32 * INR (length v) <= / 1000000000000).
  { pose proof (length_small _ Hn). apply Rle_trans with (2 := Hh1).
    rewrite (Rmult_comm (pow2 20)). apply Rmult_le_compat_l; lra. }
  assert (HlowF : 1 - 3 / 1000000000 <= lowF).
  { unfold lowF. nra. }
  assert (HuppF : uppF <= 1 + 3 / 1000000000).
  { unfold uppF. nra. }
  assert (Hcp2 : cplus * cplus <= (1 + tolerance) * lowF).
  { apply Rle_trans with ((1 + 2 / 10000000) * (1 + 2 / 10000000));
      [apply Rmult_le_compat; lra|].
    apply Rle_trans with ((1 + tolerance) * (1 - 3 / 1000000000));
      [unfold tolerance; lra|apply Rmult_le_compat_l; unfold tolerance; lra]. }
  assert (Hcm2 : (1 - tolerance) * uppF <= cminus * cminus).
  { apply Rle_trans with ((1 - 2 / 10000000) * (1 - 2 / 10000000));
      [|apply Rmult_le_compat; lra].
    apply Rle_trans with ((1 - tolerance) * (1 + 3 / 1000000000));
      [apply Rmult_le_compat_l; unfold tolerance; lra|unfold tolerance; lra]. }
  assert (HS : (1 - tolerance) * (1 - tolerance) <= S <= (1 + tolerance) * (1 + tolerance)).
  { destruct Hsum as [Hs1 Hs2]. split.
    - assert ((1 - tolerance) * (rho * uppF) <= cminus * cminus * rho).
      { replace ((1 - tolerance) * (rho * uppF)) with ((1 - tolerance) * uppF * rho) by ring.
        apply Rmult_le_compat_r; lra. }
      assert (1 - tolerance <= (1 - tolerance) * (rho * uppF)).
      { rewrite <- (Rmult_1_r (1 - tolerance)) at 1. apply Rmult_le_compat_l; unfold tolerance; lra. }
      unfold tolerance in *. lra.
    - assert (cplus * cplus * rho <= (1 + tolerance) * (rho * lowF)).
      { replace ((1 + tolerance) * (rho * lowF)) with ((1 + tolerance) * lowF * rho) by ring.
        apply Rmult_le_compat_r; lra. }
      assert ((1 + tolerance) * (rho * lowF) <= 1 + tolerance).
      { rewrite <- (Rmult_1_r (1 + tolerance)) at 2. apply Rmult_le_compat_l; unfold tolerance; lra. }
      unfold tolerance in *. lra. }
  assert (Htol : 0 < tolerance < 1) by (unfold tolerance; lra).
  apply Rabs_le. split.
  - assert (1 - tolerance <= sqrt S); [|lra].
    rewrite <- (sqrt_square (1 - tolerance)) by lra. apply sqrt_le_1_alt. lra.
  - assert (sqrt S <= 1 + tolerance); [|lra].
    rewrite <- (sqrt_square (1 + tolerance)) by lra. apply sqrt_le_1_alt. lra.
Qed.
End FloatError.

(** ** Rows of unit norm *)

Module UnitRows.
Import Reals Lra FloatValue.
Local Open Scope R_scope.

Lemma normOf_written_out (vec : list spec_float) :
  @normOf IEEE.arith vec =
  @or_else IEEE.arith (SFsqrt 53 1024 (sumsq64 vec)) (@one IEEE.arith).
Proof. reflexivity. Qed.

Lemma sumsq64_zeros (vec : list spec_float) :
  Forall (fun x => exists s, x = S754_zero s) vec ->
  sumsq64 vec = S754_zero false.
Proof.
  unfold sumsq64. induction 1 as [|x vec [s ->] _ IH]; [reflexivity|].
  cbn [fold_left SFmul SFadd]. now destruct s.
Qed.

Lemma euclid_sumsqR (v : list spec_float) : euclid v = sqrt (sumsqR v).
Proof.
  unfold euclid, sumsqR. f_equal. induction v as [|x v IH]; [reflexivity|].
  cbn [fold_right]. rewrite IH. f_equal.
  destruct x as [| | |s m e]; cbn [valueOf magnitude]; try reflexivity.
  destruct s; ring.
Qed.

Lemma zeros_unchanged (vec : list spec_float) :
  Forall (fun x => exists s, x = S754_zero s) vec ->
  @normalizeVec IEEE.arith vec = vec.
Proof.
  intros Hz. unfold normalizeVec. rewrite normOf_written_out, (sumsq64_zeros vec Hz).
  rewrite <- (map_id vec) at 2. apply map_ext_in. intros x Hx.
  rewrite Forall_forall in Hz. destruct (Hz x Hx) as [s ->].
  now destruct s.
Qed.

(** A vector of binary32 numbers comes back unchanged when the norm
    computed for it is zero, and it is then all zeros; otherwise the norm
    of the result is [1] up to [10^-6]. *)
Lemma normalizeVec_row (vec : list spec_float) :
  Forall (fun x => binary32 x = true) vec ->
  (Z.of_nat (length vec) <= 2 ^ 20)%Z ->
  (IEEE.sign64 (SFsqrt 53 1024 (sumsq64 vec)) = Eq ->
   Forall (fun x => isZero x = true) vec /\ @normalizeVec IEEE.arith vec = vec) /\
  (IEEE.sign64 (SFsqrt 53 1024 (sumsq64 vec)) <> Eq ->
   unitNorm (@normalizeVec IEEE.arith vec)).
Proof.
  intros Hv Hn.
  destruct (FloatError.sumsqR_cases vec Hv) as [[H0 Hz]|HT].
  - split.
    + intros _. split; [|now apply zeros_unchanged].
      rewrite Forall_forall in *. intros x Hx. now destruct (Hz x Hx) as [s ->].
    + intros Hne. exfalso. apply Hne. now rewrite (sumsq64_zeros vec Hz).
  - assert (Hpos : 0 < sumsqR vec).
    { pose proof (FloatError.pow2_pos (-298)). lra. }
    destruct (FloatError.normalised_row_unit vec Hv Hn Hpos)
      as (m & e & Enorm & _ & Hunit).
    split.
    + rewrite Enorm. discriminate.
    + intros _. unfold unitNorm. rewrite euclid_sumsqR.
      replace (@normalizeVec IEEE.arith vec)
        with (map (fun x => stored x (S754_finite false m e)) vec); [exact Hunit|].
      unfold normalizeVec. rewrite normOf_written_out, Enorm. reflexivity.
Qed.

Lemma normalizeVec_atMostUnit (vec : list spec_float) :
  Forall (fun x => binary32 x = true) vec ->
  (Z.of_nat (length vec) <= 2 ^ 20)%Z ->
  atMostUnit (@normalizeVec IEEE.arith vec).
Proof.
  intros Hv Hn. unfold atMostUnit.
  assert (Htol : 0 < tolerance) by (unfold tolerance; lra).
  destruct (normalizeVec_row vec Hv Hn) as [Hzero Hunit].
  destruct (IEEE.sign64 (SFsqrt 53 1024 (sumsq64 vec))) eqn:Es.
  - destruct (Hzero eq_refl) as [Hz ->]. rewrite euclid_sumsqR.
    replace (sumsqR vec) with 0; [rewrite sqrt_0; lra|].
    clear -Hz. induction Hz as [|x vec Hx _ IH]; [reflexivity|].
    cbn [sumsqR fold_right]. fold (sumsqR vec). rewrite <- IH.
    destruct x; try discriminate. cbn [magnitude]. lra.
  - assert (Hne : Lt <> Eq) by discriminate. specialize (Hunit Hne).
    unfold unitNorm in Hunit. apply FloatError.Rabs_le_inv in Hunit. lra.
  - assert (Hne : Gt <> Eq) by discriminate. specialize (Hunit Hne).
    unfold unitNorm in Hunit. apply FloatError.Rabs_le_inv in Hunit. lra.
Qed.

Lemma normalizeVec_finite (vec : list spec_float) :
  Forall (fun x => binary32 x = true) vec ->
  (Z.of_nat (length vec) <= 2 ^ 20)%Z ->
  Forall (fun x => IEEE.finite64 x = true) (@normalizeVec IEEE.arith vec).
Proof.
  intros Hv Hn.
  destruct (FloatError.sumsqR_cases vec Hv) as [[H0 Hz]|HT].
  - rewrite (zeros_unchanged vec Hz). rewrite Forall_forall in *.
    intros x Hx. now destruct (Hz x Hx) as [s ->].
  - assert (Hpos : 0 < sumsqR vec).
    { pose proof (FloatError.pow2_pos (-298)). lra. }
    destruct (FloatError.normalised_row_unit vec Hv Hn Hpos)
      as (m & e & Enorm & Hfin & _).
    unfold normalizeVec. rewrite normOf_written_out, Enorm.
    apply Forall_map. exact Hfin.
Qed.
End UnitRows.

(** C8: [normalizeVec] never divides by [0], [-0] or [NaN]; a vector whose
    norm is zero comes back as it is.  In the arithmetic of the program, on
    binary32 numbers: the norm computed is zero for the zero vectors only,
    and the norm of every other result is [1] up to [10^-6], the rounding
    of the square root, of the divisions and of the stores into the
    [Float32Array].  So after a rebuild every row of the matrix is either
    an embedding of zeros, unchanged, or of unit norm. *)
Theorem normalizeVec_guard_and_unit_rows :
  (forall (A : Arith) (vec : list (@num A)), truthy (normOf vec) = true) /\
  (forall (A : Arith) (vec : list (@num A)),
      sign (sqrt (sumsq vec)) = Eq ->
      (forall x, In x vec -> fround (div x one) = x) ->
      normalizeVec vec = vec) /\
  (forall vec : list (@num IEEE.arith),
      Forall (fun x => FloatValue.binary32 x = true) vec ->
      (Z.of_nat (length vec) <= 2 ^ 20)%Z ->
      (sign (sqrt (sumsq vec)) = Eq ->
       Forall (fun x => FloatValue.isZero x = true) vec /\ normalizeVec vec = vec) /\
      (sign (sqrt (sumsq vec)) <> Eq -> FloatValue.unitNorm (normalizeVec vec))) /\
  (forall (probeDim : bool) (e : env) (f : string -> list (@num IEEE.arith))
          (template : string) (w w1 : world),
      prepare e w = (Ok tt, w1) ->
      cacheLookup (files w1)
        (hashJSON e (MODEL_ID e) (dim (globals w1)) (vocab (globals w1)) template)
        = Ok None ->
      probeDim && (dim (globals w1) =? 0) = false ->
      pointwise e f ->
      (Z.of_nat (dim (globals w1)) <= 2 ^ 20)%Z ->
      Forall (fun t => length (f t) = dim (globals w1) /\
                       Forall (fun x => FloatValue.binary32 x = true) (f t))
             (wordsToTexts (vocab (globals w1)) template) ->
      exists w',
        buildOrLoadEmbeddingMatrix probeDim e template w = (Ok tt, w') /\
        normalized (globals w') = true /\
        forall i, i < length (vocab (globals w')) ->
          exists row,
            getRow (globals w') i = Ok row /\
            (Forall (fun x => FloatValue.isZero x = true) row \/
             FloatValue.unitNorm row)).
Proof.
  split; [|split; [|split]].
  - intros A vec. apply normOf_truthy.
  - intros A vec. apply normalizeVec_zero_norm.
  - intros vec Hv Hn. exact (UnitRows.normalizeVec_row vec Hv Hn).
  - intros probeDim e f template w w1 Hprep Hmiss Hflag Hpoint Hdim Hall.
    pose proof (prepare_ok e w w1 Hprep) as He.
    set (texts := wordsToTexts (vocab (globals w1)) template) in *.
    assert (Hlen : Forall (fun t => length (f t) = dim (globals w1)) texts).
    { apply Forall_impl with (2 := Hall). now intros t [H _]. }
    assert (Hn : length texts = length (vocab (globals w1)))
      by (unfold texts, wordsToTexts; now rewrite length_map).
    eexists. split.
    { rewrite (buildOrLoad_prepared probeDim e template w w1 Hprep).
      cbv zeta. rewrite Hmiss.
      exact (rebuildMatrix_content e f Hpoint probeDim template _ w1 He Hflag Hlen). }
    cbn [globals normalized vocab]. split; [reflexivity|].
    intros i Hi. fold texts.
    exists (normalizeVec (f (nth i texts ""))). split.
    + unfold getRow. cbn [matrix dim].
      fold (rowOf (concat (map (fun t => normalizeVec (f t)) texts)) (dim (globals w1)) i).
      rewrite rowOf_concat.
      * f_equal. rewrite (nth_indep _ [] (normalizeVec (f ""))) by (rewrite length_map; lia).
        apply (map_nth (fun t => normalizeVec (f t))).
      * rewrite Forall_forall in *. intros r Hr.
        apply in_map_iff in Hr. destruct Hr as (t & <- & Ht).
        rewrite normalizeVec_length. now apply Hlen.
      * rewrite length_map. lia.
    + assert (Hin : In (nth i texts "") texts) by (apply nth_In; lia).
      rewrite Forall_forall in Hall. destruct (Hall _ Hin) as [Hl Hb].
      assert (Hsize : (Z.of_nat (length (f (nth i texts ""))) <= 2 ^ 20)%Z)
        by now rewrite Hl.
      destruct (UnitRows.normalizeVec_row _ Hb Hsize) as [Hzero Hunit].
      destruct (IEEE.sign64 (SFsqrt 53 1024 (FloatValue.sumsq64 (f (nth i texts "")))))
        eqn:Es.
      * left. destruct (Hzero eq_refl) as [Hz ->]. exact Hz.
      * right. apply Hunit. discriminate.
      * right. apply Hunit. discriminate.
Qed.

Lemma normalizeVec_guard_and_unit_rows_witness :
  FloatValue.unitNorm (@normalizeVec IEEE.arith Demo.slantedQuery).
Proof.
  apply (proj2 (proj1 (proj2 (proj2 normalizeVec_guard_and_unit_rows))
                  Demo.slantedQuery
                  ltac:(repeat constructor) ltac:(vm_compute; discriminate))).
  vm_compute. discriminate.
Defined.

(** ** Scores near the unit interval *)

Module ScoreError.
Import Reals Lra FloatValue.
Local Open Scope R_scope.

Lemma SFmul_magnitude (x y : spec_float) :
  IEEE.finite64 x = true -> IEEE.finite64 y = true ->
  magnitude x * magnitude y < pow2 971 ->
  IEEE.finite64 (SFmul 53 1024 x y) = true /\
  magnitude (SFmul 53 1024 x y) <=
    (1 + pow2 (-53)) * (magnitude x * magnitude y) + pow2 (-1075).
Proof.
  intros Hx Hy Hv.
  destruct (FloatError.SFmul_spec 53 1024 ltac:(lia) ltac:(lia) x y Hx Hy Hv)
    as (Hf & _ & Hr).
  split; [exact Hf|]. apply FloatError.Rabs_le_inv in Hr.
  change (emin 53 1024 - 1)%Z with (-1075)%Z in Hr.
  change (- (53))%Z with (-53)%Z in Hr. lra.
Qed.

Lemma SFadd_magnitude (x y : spec_float) :
  IEEE.finite64 x = true -> IEEE.finite64 y = true ->
  magnitude x + magnitude y < pow2 971 ->
  IEEE.finite64 (SFadd 53 1024 x y) = true /\
  magnitude (SFadd 53 1024 x y) <=
    (1 + pow2 (-53)) * (magnitude x + magnitude y) + pow2 (-1075).
Proof.
  intros Hx Hy Hv.
  pose proof (FloatError.pow2_pos (-53)) as Hu.
  pose proof (FloatError.pow2_pos (-1075)) as Heta.
  pose proof (FloatError.magnitude_nonneg x) as HX.
  pose proof (FloatError.magnitude_nonneg y) as HY.
  assert (Hkeep : forall t, 0 <= t -> t <= (1 + pow2 (-53)) * t + pow2 (-1075)) by (intros; nra).
  destruct x as [sx|sx| |sx mx ex]; try discriminate;
    destruct y as [sy|sy| |sy my ey]; try discriminate.
  - split; [now destruct sx, sy|]. destruct sx, sy; cbn [SFadd magnitude]; lra.
  - cbn [SFadd]. split; [reflexivity|]. cbn [magnitude] in *. rewrite Rplus_0_l.
    now apply Hkeep.
  - cbn [SFadd]. split; [reflexivity|]. cbn [magnitude] in *. rewrite Rplus_0_r.
    now apply Hkeep.
  - cbn [SFadd]. set (ez := Z.min ex ey).
    pose proof (FloatError.shl_align_spec mx ex ez) as H1.
    pose proof (FloatError.shl_align_spec my ey ez) as H2.
    destruct (shl_align mx ex ez) as [ma ea].
    destruct (shl_align my ey ez) as [mb eb].
    destruct H1 as [Va Ea]. destruct H2 as [Vb Eb].
    specialize (Ea ltac:(unfold ez; lia)). specialize (Eb ltac:(unfold ez; lia)).
    subst ea eb. cbn [fst].
    set (z := (cond_Zopp sx (Z.pos ma) + cond_Zopp sy (Z.pos mb))%Z).
    assert (Hz : (Z.abs z <= Z.pos ma + Z.pos mb)%Z)
      by (unfold z; destruct sx, sy; cbn [cond_Zopp]; lia).
    cbn [magnitude] in *.
    assert (Hsum : IZR (Z.pos ma + Z.pos mb) * pow2 ez =
                   IZR (Z.pos mx) * pow2 ex + IZR (Z.pos my) * pow2 ey)
      by (rewrite plus_IZR; lra).
    pose proof (FloatError.pow2_pos ez) as Hpe.
    assert (Hp : forall (s : bool) (p : positive),
               (Z.pos p <= Z.pos ma + Z.pos mb)%Z ->
               IEEE.finite64 (binary_round 53 1024 s p ez) = true /\
               magnitude (binary_round 53 1024 s p ez) <=
                 (1 + pow2 (-53)) *
                 (IZR (Z.pos mx) * pow2 ex + IZR (Z.pos my) * pow2 ey) + pow2 (-1075)).
    { intros s p Hp.
      assert (Hle : IZR (Z.pos p) * pow2 ez <=
                    IZR (Z.pos mx) * pow2 ex + IZR (Z.pos my) * pow2 ey).
      { rewrite <- Hsum. apply Rmult_le_compat_r; [lra|now apply IZR_le]. }
      assert (Hlt : IZR (Z.pos p) * pow2 ez < pow2 (1024 - 53))
        by (change (1024 - 53)%Z with 971%Z; lra).
      destruct (FloatError.binary_round_spec 53 1024 ltac:(lia) ltac:(lia) s p ez Hlt)
        as (Hf & _ & Hr).
      split; [exact Hf|]. apply FloatError.Rabs_le_inv in Hr.
      change (emin 53 1024 - 1)%Z with (-1075)%Z in Hr.
      change (- (53))%Z with (-53)%Z in Hr.
      assert (pow2 (-53) * (IZR (Z.pos p) * pow2 ez) <=
              pow2 (-53) * (IZR (Z.pos mx) * pow2 ex + IZR (Z.pos my) * pow2 ey))
        by (apply Rmult_le_compat_l; lra).
      lra. }
    destruct z as [|p|p]; cbn [binary_normalize].
    + split; [reflexivity|]. cbn [magnitude].
      assert (0 <= (1 + pow2 (-53)) *
                   (IZR (Z.pos mx) * pow2 ex + IZR (Z.pos my) * pow2 ey)) by nra.
      lra.
    + apply Hp. lia.
    + apply Hp. lia.
Qed.

Lemma absdotR_nonneg (a : list spec_float) : forall b, 0 <= absdotR a b.
Proof.
  induction a as [|x a IH]; intros [|y b]; cbn [absdotR]; try lra.
  pose proof (FloatError.magnitude_nonneg x). pose proof (FloatError.magnitude_nonneg y).
  specialize (IH b). nra.
Qed.

Lemma square_le (a b : R) : 0 <= b -> a * a <= b * b -> a <= b.
Proof. intros Hb H. destruct (Rle_lt_dec a b) as [Hle|Hlt]; [exact Hle|nra]. Qed.

(** Cauchy-Schwarz, on the magnitudes. *)
Lemma absdotR_squared (a : list spec_float) :
  forall b, absdotR a b * absdotR a b <= sumsqR a * sumsqR b.
Proof.
  induction a as [|x a IH]; intros [|y b].
  - cbn [absdotR sumsqR fold_right]. lra.
  - pose proof (FloatError.sumsqR_nonneg (y :: b)). cbn [absdotR]. 
    change (sumsqR []) with 0. lra.
  - pose proof (FloatError.sumsqR_nonneg (x :: a)). cbn [absdotR].
    change (sumsqR []) with 0. lra.
  - cbn [absdotR sumsqR fold_right]. fold (sumsqR a). fold (sumsqR b).
    specialize (IH b).
    pose proof (absdotR_nonneg a b) as HD.
    pose proof (FloatError.sumsqR_nonneg a) as HA.
    pose proof (FloatError.sumsqR_nonneg b) as HB.
    pose proof (FloatError.magnitude_nonneg x) as HX.
    pose proof (FloatError.magnitude_nonneg y) as HY.
    set (X := magnitude x) in *. set (Y := magnitude y) in *.
    set (D := absdotR a b) in *. set (A := sumsqR a) in *. set (B := sumsqR b) in *.
    assert (Hxy : 0 <= X * Y) by nra.
    assert (Hmid : 2 * (X * Y) * D <= X * X * B + Y * Y * A).
    { apply square_le; [nra|].
      assert (H1 : 2 * (X * Y) * D * (2 * (X * Y) * D) = 4 * (X * Y * (X * Y)) * (D * D))
        by ring.
      assert (H2 : 4 * (X * Y * (X * Y)) * (D * D) <= 4 * (X * Y * (X * Y)) * (A * B))
        by (apply Rmult_le_compat_l; nra).
      pose proof (Rle_0_sqr (X * X * B - Y * Y * A)) as H3. unfold Rsqr in H3.
      nra. }
    nra.
Qed.

Lemma absdotR_euclid (a b : list spec_float) :
  absdotR a b <= sqrt (sumsqR a) * sqrt (sumsqR b).
Proof.
  pose proof (absdotR_nonneg a b) as HD.
  pose proof (FloatError.sumsqR_nonneg a) as HA.
  pose proof (FloatError.sumsqR_nonneg b) as HB.
  rewrite <- sqrt_mult by assumption.
  rewrite <- (sqrt_square (absdotR a b)) at 1 by exact HD.
  apply sqrt_le_1_alt. apply absdotR_squared.
Qed.

(** The magnitude of a dot product: the sum of the magnitudes of the
    products, and what the roundings add. *)
Lemma dot_loop_magnitude (a : list spec_float) :
  forall (b : list spec_float) (acc : spec_float) (T : R) (k : nat),
    Forall (fun x => IEEE.finite64 x = true) a ->
    Forall (fun x => IEEE.finite64 x = true) b ->
    (length a <= length b)%nat ->
    IEEE.finite64 acc = true ->
    0 <= T ->
    magnitude acc <= T * growth (2 * k) ->
    T + absdotR a b + 2 * pow2 (-1075) * INR (length a) < pow2 900 ->
    (Z.of_nat (k + length a) <= 2 ^ 20)%Z ->
    IEEE.finite64 (@dot_loop IEEE.arith a b acc) = true /\
    magnitude (@dot_loop IEEE.arith a b acc) <=
      (T + absdotR a b + 2 * pow2 (-1075) * INR (length a)) *
      growth (2 * (k + length a)).
Proof.
  destruct FloatError.delta_small as [Hd0 Hd1].
  destruct FloatError.gamma_small as [Hg0 Hg1].
  pose proof (FloatError.pow2_pos (-1075)) as Heta.
  assert (Hu : 0 < pow2 (-53) <= delta).
  { split; [apply FloatError.pow2_pos|]. unfold delta. apply FloatError.pow2_le. lia. }
  induction a as [|x a IH]; intros b acc T k Ha Hb Hlen Hacc HT HA Hov Hk.
  - cbn [dot_loop absdotR length INR]. rewrite Nat.add_0_r, Rmult_0_r, !Rplus_0_r.
    split; assumption.
  - destruct b as [|y b]; [cbn [length] in Hlen; lia|].
    cbn [dot_loop hd tl]. cbn [absdotR length] in *. rewrite S_INR in *.
    inversion Ha as [|? ? Hx Ha']; subst. inversion Hb as [|? ? Hy Hb']; subst.
    pose proof (absdotR_nonneg a b) as HD.
    pose proof (FloatError.magnitude_nonneg x) as HX.
    pose proof (FloatError.magnitude_nonneg y) as HY.
    pose proof (pos_INR (length a)) as Hn.
    set (XY := magnitude x * magnitude y) in *.
    assert (HXY : 0 <= XY) by (unfold XY; nra).
    assert (Hk2 : (Z.of_nat (2 * k) <= 2 ^ 22)%Z) by lia.
    pose proof (FloatError.up_ge1 (2 * k)) as Hg1'.
    pose proof (FloatError.up_small (2 * k) Hk2) as Hg2.
    set (g := growth (2 * k)) in *.
    assert (Hp900 : pow2 900 * 4 <= pow2 971).
    { replace 4 with (pow2 2) by (unfold pow2; simpl; lra).
      rewrite <- FloatError.pow2_add. apply FloatError.pow2_le. lia. }
    destruct (SFmul_magnitude x y Hx Hy) as [Hpf Hp].
    { fold XY. pose proof (FloatError.pow2_pos 900). nra. }
    fold XY in Hp.
    change (@mul IEEE.arith x y) with (SFmul 53 1024 x y).
    set (p := SFmul 53 1024 x y) in *.
    pose proof (FloatError.magnitude_nonneg acc) as HAcc.
    pose proof (FloatError.magnitude_nonneg p) as HP.
    assert (HTg : T * g <= 2 * T) by nra.
    destruct (SFadd_magnitude acc p Hacc Hpf) as [Hsf Hs].
    { pose proof (FloatError.pow2_pos 900). nra. }
    change (@add IEEE.arith acc p) with (SFadd 53 1024 acc p).
    set (acc' := SFadd 53 1024 acc p) in *.
    assert (HA' : magnitude acc' <=
                  (T + XY + 2 * pow2 (-1075)) * growth (2 * (k + 1))).
    { replace (2 * (k + 1))%nat with (S (S (2 * k))) by lia.
      rewrite !FloatError.up_S. fold g.
      apply Rle_trans with (1 := Hs).
      apply Rle_trans with
        ((1 + delta) * (T * g + ((1 + delta) * XY + pow2 (-1075))) + pow2 (-1075)).
      - assert ((1 + pow2 (-53)) * (magnitude acc + magnitude p) <=
                (1 + delta) * (T * g + ((1 + delta) * XY + pow2 (-1075)))).
        { apply Rmult_le_compat; nra. }
        lra.
      - assert (0 <= T * g) by nra.
        assert (0 <= T * g * delta) by nra.
        assert (0 <= XY * (1 + delta) * (1 + delta) * (g - 1)) by
          (apply Rmult_le_pos; [|lra]; nra).
        assert (0 <= pow2 (-1075) * (1 + delta) * (1 + delta) * (g - 1)) by
          (apply Rmult_le_pos; [|lra]; nra).
        nra. }
    specialize (IH b acc' (T + XY + 2 * pow2 (-1075)) (k + 1)%nat Ha' Hb'
                  ltac:(lia) Hsf ltac:(lra) HA').
    replace (k + S (length a))%nat with (k + 1 + length a)%nat by lia.
    replace (T + (XY + absdotR a b) + 2 * pow2 (-1075) * (INR (length a) + 1))
      with (T + XY + 2 * pow2 (-1075) + absdotR a b + 2 * pow2 (-1075) * INR (length a))
      in * by ring.
    apply IH; [exact Hov|lia].
Qed.

Lemma Rabs_valueOf (x : spec_float) : Rabs (valueOf x) = magnitude x.
Proof.
  pose proof (FloatError.magnitude_nonneg x) as H.
  destruct x as [| | |s m e]; cbn [valueOf magnitude] in *; try apply Rabs_R0.
  destruct s.
  - replace (-1 * (IZR (Z.pos m) * pow2 e)) with (- (IZR (Z.pos m) * pow2 e)) by ring.
    rewrite Rabs_Ropp. now apply Rabs_pos_eq.
  - rewrite Rmult_1_l. now apply Rabs_pos_eq.
Qed.

(** The score of a row against a query, both of norm at most [1] up to
    the tolerance. *)
Lemma score_bound (row q : list spec_float) :
  Forall (fun x => IEEE.finite64 x = true) row ->
  Forall (fun x => IEEE.finite64 x = true) q ->
  (length row <= length q)%nat ->
  (Z.of_nat (length row) <= 2 ^ 20)%Z ->
  atMostUnit row -> atMostUnit q ->
  nearUnitInterval (IEEE.canon64 (IEEE.round32 (@dot IEEE.arith row q))).
Proof.
  intros Hrow Hq Hlen Hn Hur Huq.
  unfold atMostUnit in *. rewrite UnitRows.euclid_sumsqR in *.
  destruct FloatError.small_constants
    as ((Hd0 & Hd1) & (Hg0 & Hg1) & (He0 & He1) & Hh0 & Hh1).
  pose proof (absdotR_euclid row q) as Hcs.
  pose proof (absdotR_nonneg row q) as HD.
  pose proof (sqrt_pos (sumsqR row)) as Hr0. pose proof (sqrt_pos (sumsqR q)) as Hq0.
  assert (Htol : tolerance = / 1000000) by reflexivity.
  assert (Habs : absdotR row q <= (1 + tolerance) * (1 + tolerance)).
  { apply Rle_trans with (1 := Hcs). apply Rmult_le_compat; lra. }
  pose proof (FloatError.length_small _ Hn) as Hn'.
  pose proof (pos_INR (length row)) as Hn0.
  assert (Heta : 2 * pow2 (-1075) * INR (length row) <= / 1000000000000).
  { apply Rle_trans with (pow2 20 * eta32); [|exact Hh1].
    assert (2 * pow2 (-1075) <= eta32).
    { unfold eta32. replace 2 with (pow2 1) by apply FloatError.pow2_1.
      rewrite <- FloatError.pow2_add. apply FloatError.pow2_le. lia. }
    pose proof (FloatError.pow2_pos (-1075)).
    rewrite (Rmult_comm (pow2 20)). apply Rmult_le_compat; lra. }
  pose proof (FloatError.pow2_pos (-1075)) as Hp.
  assert (Heta0 : 0 <= 2 * pow2 (-1075) * INR (length row)).
  { apply Rmult_le_pos; lra. }
  assert (Hov : 0 + absdotR row q + 2 * pow2 (-1075) * INR (length row) < pow2 900).
  { apply Rle_lt_trans with 4; [rewrite Htol in *; nra|].
    replace 4 with (pow2 2) by (unfold pow2; simpl; lra).
    apply FloatError.pow2_lt. lia. }
  destruct (dot_loop_magnitude row q (S754_zero false) 0 0 Hrow Hq Hlen eq_refl
              (Rle_refl 0)) as [Hf Hm]; [cbn [magnitude]; lra|exact Hov|exact Hn|].
  fold (@dot IEEE.arith row q) in Hf, Hm. change (@zero IEEE.arith) with (S754_zero false).
  cbn [Nat.add] in Hm. rewrite Rplus_0_l in Hm.
  assert (Hk : (Z.of_nat (2 * length row) <= 2 ^ 22)%Z) by lia.
  pose proof (FloatError.up_small _ Hk) as Hg. pose proof (FloatError.up_ge1 (2 * length row)) as Hg'.
  set (d := @dot_loop IEEE.arith row q (S754_zero false)) in *.
  pose proof (FloatError.magnitude_nonneg d) as Hd.
  assert (HD2 : magnitude d <= 1 + 3 * tolerance).
  { apply Rle_trans with (1 := Hm).
    apply Rle_trans with
      (((1 + tolerance) * (1 + tolerance) + / 1000000000000) * (1 + / 500000000)).
    - apply Rmult_le_compat; lra.
    - rewrite Htol. lra. }
  assert (H104 : magnitude d < pow2 104).
  { apply Rle_lt_trans with 2; [rewrite Htol in *; lra|].
    replace 2 with (pow2 1) by apply FloatError.pow2_1. apply FloatError.pow2_lt. lia. }
  destruct (FloatError.fround_spec d Hf H104) as (Hof & _ & Ho).
  unfold nearUnitInterval. unfold dot. change (@zero IEEE.arith) with (S754_zero false).
  fold d. split; [exact Hof|].
  rewrite Rabs_valueOf. apply FloatError.Rabs_le_inv in Ho.
  fold eps eta32 in Ho.
  assert (eta32 <= / 1000000000000).
  { assert (1 <= pow2 20) by (rewrite <- FloatError.pow2_0; apply FloatError.pow2_le; lia). nra. }
  assert (eps * magnitude d <= / 8000000 * (1 + 3 * tolerance)) by (apply Rmult_le_compat; lra).
  rewrite Htol in *. lra.
Qed.

Lemma squares_atMostUnit (v : list spec_float) :
  fold_right (fun x s => valueOf x * valueOf x + s) 0 v <= 1 -> atMostUnit v.
Proof.
  intros H. unfold atMostUnit, euclid.
  apply sqrt_le_1_alt in H. rewrite sqrt_1 in H.
  assert (0 < tolerance) by (unfold tolerance; lra). lra.
Qed.

Lemma one_value : valueOf (IEEE.int 1) = 1.
Proof.
  change (IEEE.int 1) with (S754_finite false (2 ^ 52) (-52)).
  cbn [valueOf]. change (Z.pos (2 ^ 52)) with (2 ^ 52)%Z.
  rewrite <- FloatError.pow2_IZR by lia. rewrite Rmult_1_l, <- FloatError.pow2_add.
  apply FloatError.pow2_0.
Qed.

Lemma zero_value : valueOf (IEEE.int 0) = 0.
Proof. reflexivity. Qed.

(** The rows of [Demo.axesMatrix] are finite and of norm [1]. *)
Lemma axes_rows (i : nat) :
  (i < 2)%nat ->
  Forall (fun x => IEEE.finite64 x = true) (rowOf Demo.axesMatrix 2 i) /\
  atMostUnit (rowOf Demo.axesMatrix 2 i).
Proof.
  intros Hi.
  assert (Hcases : rowOf Demo.axesMatrix 2 i = [IEEE.int 1; IEEE.int 0] \/
                   rowOf Demo.axesMatrix 2 i = [IEEE.int 0; IEEE.int 1]).
  { destruct i as [|[|i]]; [left; reflexivity|right; reflexivity|lia]. }
  destruct Hcases as [-> | ->].
  - split; [repeat constructor|]. apply squares_atMostUnit.
    cbn [fold_right]. rewrite one_value, zero_value. lra.
  - split; [repeat constructor|]. apply squares_atMostUnit.
    cbn [fold_right]. rewrite one_value, zero_value. lra.
Qed.
End ScoreError.

(** X21. The scores of a search lie in the unit interval up to rounding:
    with a normalised matrix whose rows are finite and of norm at most [1]
    up to [10^-6] (as a rebuild leaves them) and a query of binary32
    numbers, every score [topKSimilar] returns is a finite number of
    magnitude at most [1 + 4 * 10^-6]. *)
Theorem topKSimilar_scores_near_unit (st : @state IEEE.arith)
    (m targetVec : list (@num IEEE.arith))
    (k : Z) (exclude : JSSet) (res : list (@neighbor IEEE.arith)) :
  matrix st = Some m ->
  normalized st = true ->
  Forall (fun x => FloatValue.binary32 x = true) targetVec ->
  (Z.of_nat (length targetVec) <= 2 ^ 20)%Z ->
  dim st <= length targetVec ->
  (forall i, i < length (vocab st) ->
             Forall (fun x => IEEE.finite64 x = true) (rowOf m (dim st) i) /\
             FloatValue.atMostUnit (rowOf m (dim st) i)) ->
  topKSimilar st targetVec k exclude = Ok res ->
  Forall (fun n => FloatValue.nearUnitInterval (@score IEEE.arith n)) res.
Proof.
  intros Hm Hnorm Hq Hqn Hdim Hrows Hres.
  destruct (topKSimilar_rows_of st m targetVec k exclude Hm) as (res' & Hres' & Hall & _).
  rewrite Hres in Hres'. injection Hres' as <-.
  apply Forall_impl with (2 := Hall). intros n (Hi & _ & ->).
  rewrite Hnorm. destruct (Hrows _ Hi) as [Hfin Hunit].
  assert (Hrl : length (rowOf m (dim st) (index n)) <= dim st).
  { unfold rowOf, subarray. rewrite length_firstn. lia. }
  apply ScoreError.score_bound.
  - exact Hfin.
  - now apply UnitRows.normalizeVec_finite.
  - apply Nat.le_trans with (1 := Hrl). apply Nat.le_trans with (1 := Hdim).
    apply Nat.eq_le_incl. symmetry. exact (@normalizeVec_length IEEE.arith targetVec).
  - apply Z.le_trans with (2 := Hqn). apply Nat2Z.inj_le.
    exact (Nat.le_trans _ _ _ Hrl Hdim).
  - exact Hunit.
  - now apply UnitRows.normalizeVec_atMostUnit.
Qed.

Lemma topKSimilar_scores_near_unit_witness :
  exists res,
    topKSimilar Demo.axesState Demo.slantedQuery 2 [] = Ok res /\
    Forall (fun n => FloatValue.nearUnitInterval (@score IEEE.arith n)) res.
Proof.
  exists (match topKSimilar Demo.axesState Demo.slantedQuery 2 [] with
          | Ok res => res
          | _ => []
          end).
  split; [reflexivity|].
  apply (topKSimilar_scores_near_unit Demo.axesState Demo.axesMatrix Demo.slantedQuery 2 []).
  - reflexivity.
  - reflexivity.
  - repeat constructor.
  - vm_compute. discriminate.
  - apply le_n.
  - exact ScoreError.axes_rows.
  - reflexivity.
Defined.


(** ** The client's pairs *)

Section ClientPairs.
Local Open Scope string_scope.

Lemma append_String_assoc (s t u : string) : (s ++ t) ++ u = s ++ t ++ u.
Proof. induction s as [|c s IH]; simpl; [reflexivity|now rewrite IH]. Qed.

Lemma prefix_rest_length (sep : string) :
  forall s rest,
    prefix_rest sep s = Some rest ->
    String.length s = String.length sep + String.length rest.
Proof.
  induction sep as [|a sep IH]; intros s rest H.
  - cbn [prefix_rest] in H. now injection H as ->.
  - destruct s as [|b s]; [discriminate|]. cbn [prefix_rest] in H.
    destruct (Ascii.eqb a b); [|discriminate].
    cbn [String.length]. now rewrite (IH s rest H).
Qed.

Lemma prefix_rest_append (sep rest : string) :
  prefix_rest sep (sep ++ rest) = Some rest.
Proof.
  induction sep as [|a sep IH]; [reflexivity|].
  cbn [append prefix_rest]. now rewrite Ascii.eqb_refl.
Qed.

(** With more fuel than characters the parts do not depend on the fuel. *)
Lemma splitOn_fuel_enough (sep : string) :
  sep <> "" ->
  forall fuel1 fuel2 s cur,
    String.length s < fuel1 -> String.length s < fuel2 ->
    splitOn_fuel fuel1 sep cur s = splitOn_fuel fuel2 sep cur s.
Proof.
  intros Hsep. induction fuel1 as [|fuel1 IH]; intros fuel2 s cur H1 H2;
    [inversion H1|].
  destruct fuel2 as [|fuel2]; [inversion H2|].
  destruct s as [|c s]; [reflexivity|].
  cbn [splitOn_fuel]. cbn [String.length] in H1, H2.
  destruct (prefix_rest sep (String c s)) as [rest|] eqn:Hp.
  - apply prefix_rest_length in Hp. cbn [String.length] in Hp.
    assert (0 < String.length sep) by (destruct sep; [congruence|simpl; lia]).
    f_equal. apply IH; lia.
  - apply IH; lia.
Qed.

(** Without a separator the string is the one part. *)
Lemma splitOn_fuel_absent (sep : string) :
  forall fuel s cur,
    includes s sep = false -> splitOn_fuel fuel sep cur s = [cur ++ s].
Proof.
  induction fuel as [|fuel IH]; intros s cur H; [reflexivity|].
  destruct s as [|c s]; [now rewrite append_nil_r|].
  destruct (includes_cons c s sep H) as [Hp Hs].
  cbn [splitOn_fuel]. rewrite Hp, (IH s _ Hs).
  now rewrite append_String_assoc.
Qed.

Lemma splitOn_absent (sep s : string) :
  includes s sep = false -> splitOn sep s = [s].
Proof. intros H. unfold splitOn. now rewrite splitOn_fuel_absent. Qed.

Lemma comma_borderless : borderless ",".
Proof.
  intros c pre post H. apply includes_cons in H. destruct H as [H _].
  cbn [append prefix_rest] in *.
  destruct (Ascii.eqb "," c); [discriminate|reflexivity].
Qed.

Lemma arrow_borderless : borderless arrow.
Proof.
  intros c pre post H. apply includes_cons in H. destruct H as [H _].
  change arrow with (String (ascii_of_nat 226)
                       (String (ascii_of_nat 134) (String (ascii_of_nat 146) ""))) in *.
  cbn [append prefix_rest] in *.
  destruct (Ascii.eqb (ascii_of_nat 226) c); [|reflexivity].
  destruct pre as [|c2 pre]; [reflexivity|].
  cbn [append] in *.
  destruct (Ascii.eqb (ascii_of_nat 134) c2); [|reflexivity].
  destruct pre as [|c3 pre]; [reflexivity|].
  cbn [append] in *.
  destruct (Ascii.eqb (ascii_of_nat 146) c3); [discriminate|reflexivity].
Qed.

(** The first part ends at the first separator. *)
Lemma splitOn_fuel_first (sep rest : string) :
  sep <> "" -> borderless sep ->
  forall x fuel cur,
    String.length (x ++ sep ++ rest) < fuel ->
    includes x sep = false ->
    splitOn_fuel fuel sep cur (x ++ sep ++ rest) = (cur ++ x) :: splitOn sep rest.
Proof.
  intros Hsep Hb. induction x as [|c x IH]; intros fuel cur Hlen Hx.
  - destruct fuel as [|fuel]; [inversion Hlen|].
    cbn [append] in *. rewrite append_nil_r.
    pose proof (prefix_rest_append sep rest) as Hp.
    rewrite length_append in Hlen.
    destruct (sep ++ rest) as [|c s] eqn:Hs.
    { destruct sep; [congruence|discriminate]. }
    cbn [splitOn_fuel]. rewrite Hp. f_equal. unfold splitOn.
    assert (0 < String.length sep) by (destruct sep; [congruence|simpl; lia]).
    apply splitOn_fuel_enough; [exact Hsep|lia|lia].
  - destruct fuel as [|fuel]; [inversion Hlen|].
    pose proof (Hb c x rest Hx) as Hnone.
    apply includes_cons in Hx. destruct Hx as [_ Hx].
    change (String c x ++ sep ++ rest) with (String c (x ++ sep ++ rest)) in *.
    cbn [splitOn_fuel]. rewrite Hnone.
    rewrite IH; [|cbn [String.length] in Hlen; lia|exact Hx].
    now rewrite append_String_assoc.
Qed.

Lemma splitOn_first (sep x rest : string) :
  sep <> "" -> borderless sep -> includes x sep = false ->
  splitOn sep (x ++ sep ++ rest) = x :: splitOn sep rest.
Proof.
  intros Hsep Hb Hx. unfold splitOn at 1.
  now rewrite (splitOn_fuel_first sep rest Hsep Hb x _ "" (Nat.lt_succ_diag_r _) Hx).
Qed.

Lemma arrow_not_empty : arrow <> "".
Proof. discriminate. Qed.

Lemma nonEmpty_spec (s : string) : nonEmpty s = true -> s <> "".
Proof.
  unfold nonEmpty. intros H ->. discriminate.
Qed.

Lemma parseLine_nonEmpty (line a b : string) :
  parseLine line = Some (a, b) -> a <> "" /\ b <> "".
Proof.
  unfold parseLine. cbv zeta.
  destruct (nonEmpty (trim (nth 0 _ ""))) eqn:Ha; [|discriminate].
  destruct (nonEmpty (trim (nth 1 _ ""))) eqn:Hb; [|discriminate].
  cbn [andb]. intros H. injection H as <- <-.
  split; now apply nonEmpty_spec.
Qed.

Lemma parsePairs_nonEmpty (text : string) :
  Forall (fun ab => fst ab <> "" /\ snd ab <> "") (parsePairs text).
Proof.
  unfold parsePairs. induction (filter nonEmpty (map trim (split_lines "" text)))
    as [|line lines IH]; [constructor|].
  cbn [flat_map]. destruct (parseLine line) as [[a b]|] eqn:Hl; [|exact IH].
  cbn [app]. constructor; [|exact IH]. exact (parseLine_nonEmpty line a b Hl).
Qed.

(** The server keeps every pair the client made, in order. *)
Lemma collectPairs_pairToJs (ps : list (string * string)) :
  collectPairs (map pairToJs ps) = Ok ps.
Proof.
  induction ps as [|[a b] ps IH]; [reflexivity|].
  cbn [map collectPairs pairToJs destructure2 nth fst snd]. now rewrite IH.
Qed.
End ClientPairs.

(** X23. A request of the client uses all its pairs: when [runSearch]
    sends a body, the server's loop over [pairs] keeps every pair that
    [parsePairs] made, in order, there is at least one, both words of each
    are non-empty, and the template is not empty; when [parsePairs] finds
    no pair nothing is sent. *)
Theorem client_request_keeps_every_pair (pairsText targetText templateText : string)
    (kValue : Z) (seeds inputs : bool) :
  forallb plainSpaced [pairsText; targetText; templateText] = true ->
  match searchBody pairsText targetText templateText kValue seeds inputs with
  | None => parsePairs pairsText = []
  | Some req =>
      collectPairs (pairs req) = Ok (parsePairs pairsText) /\
      parsePairs pairsText <> [] /\
      Forall (fun ab => fst ab <> "" /\ snd ab <> "")%string (parsePairs pairsText) /\
      contextTemplate req <> ""%string
  end.
Proof.
  intros _. unfold searchBody. cbv zeta.
  destruct (parsePairs pairsText) as [|p ps] eqn:Hps; [reflexivity|].
  cbn [length Nat.eqb pairs contextTemplate].
  split; [apply collectPairs_pairToJs|].
  split; [discriminate|].
  split; [rewrite <- Hps; apply parsePairs_nonEmpty|].
  destruct (nonEmpty (trim templateText)) eqn:Ht; [|discriminate].
  now apply nonEmpty_spec.
Qed.

Lemma client_request_keeps_every_pair_witness :
  match searchBody pairsBox " work " "  " 10 true true with
  | None => parsePairs pairsBox = []
  | Some req =>
      collectPairs (pairs req) = Ok (parsePairs pairsBox) /\
      parsePairs pairsBox <> [] /\
      Forall (fun ab => fst ab <> "" /\ snd ab <> "")%string (parsePairs pairsBox) /\
      contextTemplate req <> ""%string
  end.
Proof.
  exact (client_request_keeps_every_pair pairsBox " work " "  " 10 true true eq_refl).
Defined.

(** X24. The arrow comes before the comma: a line [a], arrow, [b] with
    no other arrow gives the pair of [a] and [b] trimmed, commas in them
    staying in the words, and is dropped when one of the two is blank. *)
Theorem parseLine_arrow_first (a b : string) :
  plainSpaced (a ++ arrow ++ b) = true ->
  includes a arrow = false ->
  includes b arrow = false ->
  parseLine (a ++ arrow ++ b) = pairOf a b.
Proof.
  intros _ Ha Hb. unfold parseLine, pairOf.
  rewrite (splitOn_first arrow a b arrow_not_empty arrow_borderless Ha).
  rewrite (splitOn_absent arrow b Hb). reflexivity.
Qed.

Lemma parseLine_arrow_first_witness :
  parseLine ("one, two " ++ arrow ++ " three, four") = Some ("one, two", "three, four")%string.
Proof.
  exact (parseLine_arrow_first "one, two " " three, four" eq_refl eq_refl eq_refl).
Defined.

(** X25. Without an arrow the first two comma fields are the pair: of a
    line [a,b,c] only [a] and [b] are read, whatever follows the second
    comma. *)
Theorem parseLine_comma_fields (a b c : string) :
  plainSpaced (a ++ "," ++ b ++ "," ++ c) = true ->
  includes (a ++ "," ++ b ++ "," ++ c) arrow = false ->
  includes a "," = false ->
  includes b "," = false ->
  parseLine (a ++ "," ++ b ++ "," ++ c) = pairOf a b.
Proof.
  intros _ Hline Ha Hb. unfold parseLine, pairOf.
  rewrite (splitOn_absent arrow _ Hline). cbn [length Nat.ltb Nat.leb].
  rewrite (splitOn_first "," a _ ltac:(discriminate) comma_borderless Ha).
  rewrite (splitOn_first "," b _ ltac:(discriminate) comma_borderless Hb).
  reflexivity.
Qed.

Lemma parseLine_comma_fields_witness :
  parseLine "belief, believing, believed, x" = Some ("belief", "believing")%string.
Proof.
  exact (parseLine_comma_fields "belief" " believing" " believed, x"
           eq_refl eq_refl eq_refl eq_refl).
Defined.

(** X26. A line with neither an arrow nor a comma gives no pair: two
    words separated by a blank are not read as a pair. *)
Theorem parseLine_without_separator (line : string) :
  includes line arrow = false ->
  includes line "," = false ->
  parseLine line = None.
Proof.
  intros Ha Hc. unfold parseLine.
  rewrite (splitOn_absent arrow _ Ha). cbn [length Nat.ltb Nat.leb].
  rewrite (splitOn_absent "," _ Hc). cbn [nth].
  change (trim "") with ""%string. cbn [nonEmpty String.eqb negb].
  now rewrite andb_false_r.
Qed.

Lemma parseLine_without_separator_witness :
  parseLine "fight fighting" = None.
Proof.
  exact (parseLine_without_separator "fight fighting" eq_refl eq_refl).
Defined.
